(** * Minecraft asset cache: the synchronisation engine of
      [minecraft-assets-cache/create/main.mjs]

    The JavaScript module is embedded shallowly.  Asynchronous functions
    become values of a small free monad [prog] whose nodes are the [await]ed
    I/O requests of the source; an interpreter runs them against an explicit
    world (the files on disk and the history of everything that happened),
    with the network, I/O failures and the event-loop scheduling supplied by
    an environment [Env]. *)

From Stdlib Require Import ZArith Lia Strings.Byte Ascii String.
From stdpp Require Import gmap strings list pretty.

Local Open Scope string_scope.
Local Open Scope list_scope.
Local Open Scope Z_scope.

(** ** JavaScript values used by the module *)

Abbreviation bytes := (list Byte.byte).

(** A thrown value: [Error] objects carry a message, Node's system errors
    also carry a [code] such as ["ENOENT"]. *)
Record exn : Type := MkExn { code : option string; message : string }.

Definition JsError (msg : string) : exn := {| code := None; message := msg |}.
Definition SystemError (c : string) : exn := {| code := Some c; message := c |}.

Global Instance exn_eq_dec : EqDecision exn.
Proof. solve_decision. Defined.

(** The state a promise settles in. *)
Inductive settled (A : Type) : Type :=
| Fulfilled (a : A)
| Rejected (e : exn).
Arguments Fulfilled {A} a.
Arguments Rejected {A} e.

Definition is_fulfilled {A} (r : settled A) : bool :=
  match r with Fulfilled _ => true | Rejected _ => false end.

(** What [fetch] resolves to: the status line and the outcome of reading the
    body with [arrayBuffer()] / [json()]. *)
Record response : Type := MkResponse { status : Z; body : settled bytes }.

(** [Response.ok]: the status is in the range 200-299. *)
Definition ok (res : response) : bool :=
  (200 <=? status res) && (status res <=? 299).

(** JavaScript truthiness of a [string | undefined]. *)
Definition truthy (s : option string) : bool :=
  match s with
  | Some s => negb (String.eqb s "")
  | None => false
  end.

(** ** Plain JavaScript objects used as maps

    The own properties of an object, in the order they were created.
    Enumeration ([Object.keys], [Object.values]) lists the array-index keys
    first, in ascending numeric order, then the other keys in creation
    order. *)
Abbreviation jsobj V := (list (string * V)).

(** [o[key] = value] / [CreateDataProperty]: an existing property keeps its
    place, a new one is added last. *)
Fixpoint obj_set {V} (key : string) (value : V) (o : jsobj V) : jsobj V :=
  match o with
  | [] => [(key, value)]
  | (k, v) :: o' =>
      if String.eqb k key then (key, value) :: o'
      else (k, v) :: obj_set key value o'
  end.

Fixpoint obj_get {V} (key : string) (o : jsobj V) : option V :=
  match o with
  | [] => None
  | (k, v) :: o' => if String.eqb k key then Some v else obj_get key o'
  end.

(** [o[key] = value] where [o] was created by an object literal and [value]
    is an object parsed from JSON.  [own] are the own properties of [o];
    [proto] is the object that has replaced the prototype of [o], if one
    has.  The name [__proto__] is inherited from [Object.prototype] as an
    accessor: as long as neither [o] nor its replaced prototype has a
    property of that name of its own ([shadows]), assigning to it replaces
    the prototype of [o] by [value] and creates no property.  Every other
    assignment creates or updates an own data property (what is inherited
    under another name is a writable data property). *)
Definition sets_prototype {V} (shadows : V → bool) (key : string)
    (own : jsobj V) (proto : option V) : bool :=
  String.eqb key "__proto__"
  && match obj_get key own with Some _ => false | None => true end
  && negb (default false (shadows <$> proto)).

Definition obj_assign {V} (shadows : V → bool) (key : string) (value : V)
    (o : jsobj V * option V) : jsobj V * option V :=
  if sets_prototype shadows key o.1 o.2 then (o.1, Some value)
  else (obj_set key value o.1, o.2).

Definition digit_of (c : ascii) : option N :=
  let n := N_of_ascii c in
  if ((48 <=? n) && (n <=? 57))%N then Some (n - 48)%N else None.

Fixpoint decimal (s : string) (acc : N) : option N :=
  match s with
  | EmptyString => Some acc
  | String c s' =>
      match digit_of c with
      | Some d => decimal s' (10 * acc + d)%N
      | None => None
      end
  end.

(** An array index: the canonical decimal spelling of an integer below
    2^32 - 1. *)
Definition array_index (key : string) : option N :=
  match key with
  | EmptyString => None
  | String c rest =>
      if Ascii.eqb c "0" && negb (String.eqb rest "") then None
      else match decimal key 0 with
           | Some n => if (n <? 4294967295)%N then Some n else None
           | None => None
           end
  end.

Fixpoint insert_by_index {V} (i : N) (kv : string * V)
    (sorted : list (N * (string * V))) : list (N * (string * V)) :=
  match sorted with
  | [] => [(i, kv)]
  | (j, kv') :: rest =>
      if (i <? j)%N then (i, kv) :: sorted
      else (j, kv') :: insert_by_index i kv rest
  end.

Definition indexed_properties {V} (o : jsobj V) : list (N * (string * V)) :=
  foldr (λ kv acc, match array_index kv.1 with
                   | Some i => insert_by_index i kv acc
                   | None => acc
                   end) [] o.

(** [OrdinaryOwnPropertyKeys]. *)
Definition own_properties {V} (o : jsobj V) : list (string * V) :=
  (indexed_properties o).*2 ++ filter (λ kv, array_index kv.1 = None) o.

Definition Object_keys {V} (o : jsobj V) : list string := (own_properties o).*1.
Definition Object_values {V} (o : jsobj V) : list V := (own_properties o).*2.

(** [Object.fromEntries], and the object [JSON.parse] builds from the
    members of a JSON object: later members replace earlier ones. *)
Definition Object_fromEntries {V} (entries : list (string * V)) : jsobj V :=
  foldl (λ o kv, obj_set kv.1 kv.2 o) [] entries.

(** [Array.prototype.slice(start, end)]. *)
Definition slice {A} (start stop : nat) (l : list A) : list A :=
  take (stop - start) (drop start l).

(** ** The remote documents *)

(** An entry of [versions] in the version manifest. *)
Record VersionEntry : Type := MkVersionEntry { v_id : string; v_url : string }.

(** The [assetIndex] member of a version's metadata: the four members the
    module reads, and whether the member has a member of its own that is
    spelled [__proto__] (which [JSON.parse] creates as an ordinary property
    and which matters once the object has become a prototype, see
    [obj_assign]). *)
Record AssetIndex : Type := MkAssetIndex {
  ai_id : string; ai_url : string; ai_sha1 : string; ai_size : Z;
  ai_has_proto : bool;
}.

(** A value of [objects] in an asset index. *)
Record AssetObject : Type := MkAssetObject { hash : string; size : Z }.

Global Instance AssetObject_eq_dec : EqDecision AssetObject.
Proof. solve_decision. Defined.
Global Instance AssetIndex_eq_dec : EqDecision AssetIndex.
Proof. solve_decision. Defined.

(** ** I/O requests and asynchronous programs *)

Inductive io : Type :=
| IoStat (path : string)                   (* fs.stat *)
| IoReadStream (path : string)             (* createReadStream, drained *)
| IoReadFile (path : string)               (* fs.readFile *)
| IoFetch (url : string)                   (* fetch *)
| IoSleep (ms : Z)                         (* setTimeout *)
| IoMkdir (path : string)                  (* fs.mkdir, recursive *)
| IoWriteFile (path : string) (data : bytes)  (* fs.writeFile *)
| IoFolderSize (dir : string).             (* readdir / stat walk *)

Global Instance byte_eq_dec : EqDecision Byte.byte.
Proof.
  intros x y. destruct (decide (Byte.to_N x = Byte.to_N y)) as [H|H].
  - left. apply (f_equal Byte.of_N) in H.
    rewrite !Byte.of_to_N in H. congruence.
  - right. congruence.
Defined.

Global Instance io_eq_dec : EqDecision io.
Proof. solve_decision. Defined.

(** The type of the value an [await] on the request resolves to. *)
Definition reply (op : io) : Type :=
  match op with
  | IoStat _ => Z
  | IoReadStream _ => bytes
  | IoReadFile _ => bytes
  | IoFetch _ => response
  | IoSleep _ => unit
  | IoMkdir _ => unit
  | IoWriteFile _ _ => unit
  | IoFolderSize _ => Z
  end.

(** An asynchronous computation: it returns, throws, or is suspended at an
    [await] with the rest of the function as continuation. *)
Inductive prog (A : Type) : Type :=
| Ret (a : A)
| Throw (e : exn)
| Await (op : io) (k : settled (reply op) → prog A).
Arguments Ret {A} a.
Arguments Throw {A} e.
Arguments Await {A} op k.

Fixpoint bind {A B} (p : prog A) (f : A → prog B) : prog B :=
  match p with
  | Ret a => f a
  | Throw e => Throw e
  | Await op k => Await op (λ r, bind (k r) f)
  end.

(** [await op]: a rejection is thrown at the [await]. *)
Definition await (op : io) : prog (reply op) :=
  Await op (λ r, match r with Fulfilled v => Ret v | Rejected e => Throw e end).

(** [prog] is a monad; programs are written with stdpp's [x ← p; q]. *)
Global Instance prog_ret : MRet prog := λ A a, Ret a.
Global Instance prog_bind : MBind prog := λ A B f p, bind p f.

(** ** The module's constants *)

Definition maxConcurrency : nat := 20.
Definition maxDownloadRetries : nat := 5.

(** ** Library functions the module calls

    [digest m b] is [createHash(m).update(b).digest("hex")] (feeding a
    stream chunk by chunk hashes the concatenation); [path_join] and
    [path_dirname] are [node:path].  The three decoders are [JSON.parse]
    followed by the member accesses of the module, on documents of the
    shape the module expects: the [versions] of the version manifest, the
    [assetIndex] of a version's metadata, and the members of the [objects]
    of an asset index in document order; they fail where [JSON.parse]
    throws. *)
Record Lib : Type := MkLib {
  digest : string → bytes → string;
  path_join : list string → string;
  path_dirname : string → string;
  json_versions : bytes → settled (list VersionEntry);
  json_assetIndex : bytes → settled AssetIndex;
  json_objects : bytes → settled (list (string * AssetObject));
}.

Section Download.
Context (L : Lib).

(** [calculateChecksum]: hash the content of the file read as a stream. *)
Definition calculateChecksum (path method : string) : prog string :=
  chunks ← await (IoReadStream path) ;
  Ret (digest L method chunks).

(** The [try { stats = await stat(localPath) } catch (e) { ... }] block:
    [ENOENT] leaves [stats] undefined, any other error is rethrown. *)
Definition statOrUndefined (localPath : string) : prog (option Z) :=
  Await (IoStat localPath) (λ r,
    match r with
    | Fulfilled sz => Ret (Some sz)
    | Rejected e =>
        if decide (code e = Some "ENOENT") then Ret None else Throw e
    end).

(** The loop [while (retries++ < maxDownloadRetries)], by recursion on the
    number of iterations that remain.  The result is the pair of the
    variables [lastError] and [buffer] when the loop is left. *)
Fixpoint fetchLoop (url checksumMethod checksum : string) (size : Z)
    (remaining : nat) (lastError : option string) (buffer : option bytes)
    : prog (option string * option bytes) :=
  match remaining with
  | O => Ret (lastError, buffer)
  | S remaining' =>
      res ← await (IoFetch url) ;
      if ok res then
        match body res with
        | Rejected e => Throw e
        | Fulfilled buffer =>
            if negb (Z.of_nat (length buffer) =? size) then
              _ ← await (IoSleep 2000) ;
              fetchLoop url checksumMethod checksum size remaining'
                (Some "Size of downloaded file didn't match expected size")
                (Some buffer)
            else
              let hash := digest L checksumMethod buffer in
              if negb (String.eqb hash checksum) then
                _ ← await (IoSleep 2000) ;
                fetchLoop url checksumMethod checksum size remaining'
                  (Some "Checksum mismatch for downloaded file") (Some buffer)
              else Ret (None, Some buffer)
        end
      else
        _ ← await (IoSleep 2000) ;
        fetchLoop url checksumMethod checksum size remaining'
          (Some ("HTTP Error " +:+ pretty (status res))) buffer
  end.

(** Lines 195-208 of [downloadIfChanged]: is the local file the expected
    one?  The checksum is computed only behind the size test. *)
Definition probeLocal (localPath checksumMethod checksum : string) (size : Z)
    : prog bool :=
  stats ← statOrUndefined localPath;
  match stats with
  | Some sz =>
      if sz =? size then
        localChecksum ← calculateChecksum localPath checksumMethod;
        Ret (String.eqb localChecksum checksum)
      else Ret false
  | None => Ret false
  end.

(** Lines 210-241: the retry loop, the final [throw], and the write. *)
Definition fetchAndWrite (localPath url checksumMethod checksum : string)
    (size : Z) : prog bool :=
  '(lastError, buffer) ← fetchLoop url checksumMethod checksum size
                            maxDownloadRetries None None;
  if truthy lastError then
    Throw (JsError ("Failed to download " +:+ url +:+ ": "
                    +:+ default "" lastError))
  else
    let parentDir := path_dirname L localPath in
    _ ← await (IoMkdir parentDir);
    match buffer with
    | Some buffer =>
        _ ← await (IoWriteFile localPath buffer);
        Ret true
    | None => Throw (JsError "The data argument must be a Buffer")
    end.

(** [downloadIfChanged]: reuse the local file when its size and checksum are
    the expected ones ([return false]), else download it and write it. *)
Definition downloadIfChanged (localPath url checksumMethod checksum : string)
    (size : Z) : prog bool :=
  reuse ← probeLocal localPath checksumMethod checksum size;
  if (reuse : bool) then Ret false
  else fetchAndWrite localPath url checksumMethod checksum size.

End Download.

(** ** The world and the environment *)

(** The arguments of one [downloadIfChanged] call. *)
Record target : Type := MkTarget {
  t_path : string;
  t_url : string;
  t_method : string;
  t_checksum : string;
  t_size : Z;
}.

Global Instance target_eq_dec : EqDecision target.
Proof. solve_decision. Defined.

(** The messages passed to [core.info], by the line that prints them. *)
Inductive info : Type :=
| InfoDownloading (minecraftVersions : list string)
| InfoIndexIds (ids : list string)
| InfoUpdating (objects : nat) (id : string)
| InfoDownloaded (downloadedFiles : Z) (reused : Z)
| InfoOverallSize (size : Z).

(** What is recorded in the history, most recent first. *)
Inductive event : Type :=
| EvIo (op : io)                              (* an awaited request completed *)
| EvCall (t : target)                         (* downloadIfChanged was called *)
| EvSettle (t : target) (r : settled bool)    (* ... and its promise settled *)
| EvInfo (msg : info).

Global Instance settled_eq_dec {A} `{EqDecision A} : EqDecision (settled A).
Proof. solve_decision. Defined.
Global Instance info_eq_dec : EqDecision info.
Proof. solve_decision. Defined.
Global Instance event_eq_dec : EqDecision event.
Proof. solve_decision. Defined.

Record World : Type := MkWorld {
  files : gmap string bytes;     (* regular files by path *)
  log : list event;              (* history, most recent first *)
}.

Definition record (ev : event) (w : World) : World :=
  {| files := files w; log := ev :: log w |}.

(** Everything the program does not control.  Each answer may depend on the
    whole history, so any deterministic behaviour of the network, the disk
    and the event loop is an [Env].
    - [remote h url]: what [fetch(url)] resolves to;
    - [io_fault h op]: the error a filesystem request fails with, if it does;
    - [torn h path data]: for a failing [writeFile], how many bytes had been
      written after the file was truncated ([None]: it failed before the
      file was opened);
    - [folder_bytes fs dir]: the total size of the regular files below [dir];
    - [schedule h]: the order in which the event loop resumes the
      suspended calls of the batch started at history [h]. *)
Record Env : Type := MkEnv {
  remote : list event → string → settled response;
  io_fault : list event → io → option exn;
  torn : list event → string → bytes → option nat;
  folder_bytes : gmap string bytes → string → Z;
  schedule : list event → list nat;
}.

Section Interpreter.
Context (E : Env).

(** The filesystem requests on a path that has no file fail with ENOENT. *)
Definition ENOENT : exn := SystemError "ENOENT".

Definition read_file (h : list event) (op : io) (fs : gmap string bytes)
    (path : string) : settled bytes :=
  match io_fault E h op with
  | Some e => Rejected e
  | None => match fs !! path with
            | Some b => Fulfilled b
            | None => Rejected ENOENT
            end
  end.

(** Completing one request: its answer and the world afterwards. *)
Definition perform (op : io) (w : World) : settled (reply op) * World :=
  let h := log w in
  match op return settled (reply op) * World with
  | IoStat path =>
      (match read_file h (IoStat path) (files w) path with
       | Fulfilled b => Fulfilled (Z.of_nat (length b))
       | Rejected e => Rejected e
       end, record (EvIo op) w)
  | IoReadStream path =>
      (read_file h (IoReadStream path) (files w) path, record (EvIo op) w)
  | IoReadFile path =>
      (read_file h (IoReadFile path) (files w) path, record (EvIo op) w)
  | IoFetch url => (remote E h url, record (EvIo op) w)
  | IoSleep ms => (Fulfilled tt, record (EvIo op) w)
  | IoMkdir path =>
      (match io_fault E h (IoMkdir path) with
       | Some e => Rejected e
       | None => Fulfilled tt
       end, record (EvIo op) w)
  | IoWriteFile path data =>
      match io_fault E h (IoWriteFile path data) with
      | None =>
          (Fulfilled tt,
           {| files := <[path := data]> (files w); log := EvIo op :: h |})
      | Some e =>
          (Rejected e,
           {| files := match torn E h path data with
                       | Some n => <[path := take n data]> (files w)
                       | None => files w
                       end;
              log := EvIo op :: h |})
      end
  | IoFolderSize dir =>
      (match io_fault E h (IoFolderSize dir) with
       | Some e => Rejected e
       | None => Fulfilled (folder_bytes E (files w) dir)
       end, record (EvIo op) w)
  end.

(** Running one asynchronous function to completion, nothing else being
    scheduled in between. *)
Fixpoint exec {A} (p : prog A) (w : World) : settled A * World :=
  match p with
  | Ret a => (Fulfilled a, w)
  | Throw e => (Rejected e, w)
  | Await op k => let '(r, w') := perform op w in exec (k r) w'
  end.

(** Resuming a suspended function up to its next [await]. *)
Definition resume {A} (p : prog A) (w : World) : prog A * World :=
  match p with
  | Await op k => let '(r, w') := perform op w in (k r, w')
  | _ => (p, w)
  end.

End Interpreter.

(** ** Version resolution *)

Section Resolve.
Context (L : Lib).

(** [downloadJson], at the type the caller reads the document at. *)
Definition downloadJson {A} (decode : bytes → settled A) (url : string)
    : prog A :=
  response ← await (IoFetch url);
  if negb (ok response) then
    Throw (JsError ("Failed to JSON file " +:+ url +:+ ": "
                    +:+ pretty (status response)))
  else
    (* try { return await response.json() } catch (e) { throw new Error } *)
    match body response with
    | Rejected e =>
        Throw (JsError ("Response from " +:+ url +:+ " was not valid JSON: "
                        +:+ message e))
    | Fulfilled doc =>
        match decode doc with
        | Rejected e =>
            Throw (JsError ("Response from " +:+ url
                            +:+ " was not valid JSON: " +:+ message e))
        | Fulfilled v => Ret v
        end
    end.

Definition versionManifestUrl : string :=
  "https://piston-meta.mojang.com/mc/game/version_manifest_v2.json".

(** The body of [for (const version of minecraftVersions)].  The object
    [assetIndices] is carried as its own properties and its replaced
    prototype; what is returned is modelled by the own properties, all that
    the callers read of it ([Object.keys], [Object.values]). *)
Fixpoint resolveVersions (versions : list VersionEntry)
    (minecraftVersions : list string)
    (assetIndices : jsobj AssetIndex * option AssetIndex)
    : prog (jsobj AssetIndex) :=
  match minecraftVersions with
  | [] => Ret assetIndices.1
  | version :: rest =>
      let versionMetaUrl :=
        v_url <$> List.find (λ v, String.eqb (v_id v) version) versions in
      if negb (truthy versionMetaUrl) then
        Throw (JsError ("Minecraft version " +:+ version +:+ " not found"))
      else
        assetIndex ← downloadJson (json_assetIndex L) (default "" versionMetaUrl);
        resolveVersions versions rest
          (obj_assign ai_has_proto (ai_id assetIndex) assetIndex assetIndices)
  end.

(** [const assetIndices = {}] and the loop. *)
Definition getAssetIndices (minecraftVersions : list string)
    : prog (jsobj AssetIndex) :=
  indexManifest ← downloadJson (json_versions L) versionManifestUrl;
  resolveVersions indexManifest minecraftVersions ([], None).

(** [getFolderSize]: the recursive walk, as one request. *)
Definition getFolderSize (dir : string) : prog Z := await (IoFolderSize dir).

End Resolve.

(** ** The synchroniser *)

Section Sync.
Context (E : Env) (L : Lib).

(** A [downloadIfChanged] call. *)
Definition call (t : target) : prog bool :=
  downloadIfChanged L (t_path t) (t_url t) (t_method t) (t_checksum t)
    (t_size t).

(** [await downloadIfChanged(...)]: the call runs alone. *)
Definition awaitCall (t : target) (w : World) : settled bool * World :=
  let '(r, w') := exec E (call t) (record (EvCall t) w) in
  (r, record (EvSettle t r) w').

Definition is_pending {A} (p : prog A) : bool :=
  match p with Await _ _ => true | _ => false end.

(** The positions, from [i] on, of the calls that are suspended. *)
Fixpoint pending_from (i : nat) (pool : list (target * prog bool)) : list nat :=
  match pool with
  | [] => []
  | (_, p) :: rest =>
      if is_pending p then i :: pending_from (S i) rest
      else pending_from (S i) rest
  end.

(** The values of the fulfilled calls, in the order of the array. *)
Definition results (pool : list (target * prog bool)) : list bool :=
  omap (λ tp, match tp.2 with Ret b => Some b | _ => None end) pool.

Definition settled_map {A B} (f : A → B) (r : settled A) : settled B :=
  match r with Fulfilled a => Fulfilled (f a) | Rejected e => Rejected e end.

(** The calls that are still suspended run to the end one after the other,
    in the order of the array; the first rejection settles the whole. *)
Fixpoint drain (pool : list (target * prog bool)) (w : World)
    : settled (list bool) * World :=
  match pool with
  | [] => (Fulfilled [], w)
  | (t, p) :: rest =>
      match p with
      | Ret b => let '(rs, w') := drain rest w in (settled_map (cons b) rs, w')
      | Throw e => (Rejected e, w)
      | Await _ _ =>
          let '(r, w') := exec E p w in
          match r with
          | Rejected e => (Rejected e, record (EvSettle t (Rejected e)) w')
          | Fulfilled b =>
              let '(rs, w'') := drain rest (record (EvSettle t r) w') in
              (settled_map (cons b) rs, w'')
          end
      end
  end.

(** The event loop under [Promise.all]: each choice [c] of the schedule
    resumes one suspended call (the [c]-th of them, cyclically) up to its
    next [await].  A call that throws rejects the whole at once, the other
    calls being left suspended; when every call has returned the whole is
    fulfilled with their values.  When the schedule is used up the
    remaining calls are drained in order. *)
Fixpoint run_all (sched : list nat) (pool : list (target * prog bool))
    (w : World) : settled (list bool) * World :=
  match sched with
  | [] => drain pool w
  | c :: sched' =>
      let suspended := pending_from 0 pool in
      match suspended !! (c `mod` length suspended)%nat with
      | None => (Fulfilled (results pool), w)
      | Some i =>
          match pool !! i with
          | Some (t, p) =>
              let '(p', w') := resume E p w in
              match p' with
              | Throw e => (Rejected e, record (EvSettle t (Rejected e)) w')
              | Ret b =>
                  run_all sched' (<[i := (t, p')]> pool)
                    (record (EvSettle t (Fulfilled b)) w')
              | Await _ _ => run_all sched' (<[i := (t, p')]> pool) w'
              end
          | None => (Fulfilled (results pool), w)
          end
      end
  end.

(** [Promise.all(targets.map(t => downloadIfChanged(...)))]: every call is
    started, in order, and then the event loop takes over. *)
Definition promiseAll (targets : list target) (w : World)
    : settled (list bool) * World :=
  let w1 := foldl (λ w t, record (EvCall t) w) w targets in
  run_all (schedule E (log w1)) (map (λ t, (t, call t)) targets) w1.

(** The arguments of the call of line 109 for one object. *)
Definition objectTarget (assetsFolder : string) (object : AssetObject)
    : target :=
  let hashPrefix := substring 0 2 (hash object) in
  {| t_path := path_join L [assetsFolder; "objects"; hashPrefix; hash object];
     t_url := "https://resources.download.minecraft.net/" +:+ hashPrefix
              +:+ "/" +:+ hash object;
     t_method := "sha1";
     t_checksum := hash object;
     t_size := size object |}.

(** The arguments of the call of line 75 for an asset index. *)
Definition indexTarget (assetsFolder : string) (assetIndex : AssetIndex)
    : target :=
  {| t_path := path_join L [assetsFolder; "indexes"; ai_id assetIndex +:+ ".json"];
     t_url := ai_url assetIndex;
     t_method := "sha1";
     t_checksum := ai_sha1 assetIndex;
     t_size := ai_size assetIndex |}.

(** Lines 84-91: the objects of the index, one per hash. *)
Definition dedupe (members : list (string * AssetObject)) : list AssetObject :=
  Object_values
    (Object_fromEntries
       (map (λ object, (hash object, object))
          (Object_values (Object_fromEntries members)))).

Definition count_true (l : list bool) : Z :=
  Z.of_nat (length (filter (λ b, b = true) l)).

(** The loop [for (let i = 0; i < objects.length; i += maxConcurrency)].
    [fuel] bounds the number of iterations; [length objects] is enough. *)
Fixpoint downloadChunks (fuel : nat) (assetsFolder : string)
    (objects : list AssetObject) (i : nat) (downloadedFiles : Z) (w : World)
    : settled Z * World :=
  match fuel with
  | O => (Fulfilled downloadedFiles, w)
  | S fuel' =>
      if (i <? length objects)%nat then
        let objectChunk := slice i (i + maxConcurrency) objects in
        match promiseAll (map (objectTarget assetsFolder) objectChunk) w with
        | (Rejected e, w') => (Rejected e, w')
        | (Fulfilled downloadResult, w') =>
            downloadChunks fuel' assetsFolder objects (i + maxConcurrency)
              (downloadedFiles + count_true downloadResult) w'
        end
      else (Fulfilled downloadedFiles, w)
  end.

(** The body of [for (const assetIndex of Object.values(assetIndices))]. *)
Definition syncIndex (assetsFolder : string) (assetIndex : AssetIndex)
    (w : World) : settled unit * World :=
  let indexT := indexTarget assetsFolder assetIndex in
  match awaitCall indexT w with
  | (Rejected e, w) => (Rejected e, w)
  | (Fulfilled _, w) =>
      match perform E (IoReadFile (t_path indexT)) w with
      | (Rejected e, w) => (Rejected e, w)
      | (Fulfilled text, w) =>
          match json_objects L text with
          | Rejected e => (Rejected e, w)
          | Fulfilled members =>
              let objects := dedupe members in
              let w := record (EvInfo (InfoUpdating (length objects)
                                         (ai_id assetIndex))) w in
              match downloadChunks (length objects) assetsFolder objects 0 0 w with
              | (Rejected e, w) => (Rejected e, w)
              | (Fulfilled downloadedFiles, w) =>
                  (Fulfilled tt,
                   record (EvInfo (InfoDownloaded downloadedFiles
                             (Z.of_nat (length objects) - downloadedFiles))) w)
              end
          end
      end
  end.

Fixpoint syncIndices (assetsFolder : string) (indices : list AssetIndex)
    (w : World) : settled unit * World :=
  match indices with
  | [] => (Fulfilled tt, w)
  | assetIndex :: rest =>
      match syncIndex assetsFolder assetIndex w with
      | (Rejected e, w) => (Rejected e, w)
      | (Fulfilled _, w) => syncIndices assetsFolder rest w
      end
  end.

(** [downloadAssets]. *)
Definition downloadAssets (minecraftVersions : list string)
    (assetsFolder : string) (w : World) : settled unit * World :=
  let w := record (EvInfo (InfoDownloading minecraftVersions)) w in
  match exec E (getAssetIndices L minecraftVersions) w with
  | (Rejected e, w) => (Rejected e, w)
  | (Fulfilled assetIndices, w) =>
      let w := record (EvInfo (InfoIndexIds (Object_keys assetIndices))) w in
      match syncIndices assetsFolder (Object_values assetIndices) w with
      | (Rejected e, w) => (Rejected e, w)
      | (Fulfilled _, w) =>
          match exec E (getFolderSize assetsFolder) w with
          | (Rejected e, w) => (Rejected e, w)
          | (Fulfilled total, w) =>
              (Fulfilled tt, record (EvInfo (InfoOverallSize total)) w)
          end
      end
  end.

End Sync.

(** ** Regular expressions

    The module matches two regular expressions: its own literal of line
    315 (a slash, a group of any characters, a slash, a group of lowercase
    letters), against the [minecraft-version-regexp] input, and the
    expression built from that input, against the file.  Below is a
    backtracking matcher for a fragment of JavaScript's regular expressions
    (characters, [.], classes, groups, alternation, the quantifiers [*], [+],
    [?] and their lazy forms, [^] and [$]), on strings of 8-bit code units. *)
Module RegExp.

Inductive class_item : Type :=
| ItChar (c : ascii)
| ItRange (lo hi : ascii)
| ItDigit (positive : bool)          (* \d, \D *)
| ItWord (positive : bool)           (* \w, \W *)
| ItSpace (positive : bool).         (* \s, \S *)

Inductive regex : Type :=
| REmpty
| RChar (c : ascii)
| RAny                                         (* . *)
| RClass (negated : bool) (items : list class_item)
| RSeq (r1 r2 : regex)
| RAlt (r1 r2 : regex)
| RStar (greedy : bool) (r : regex)
| RGroup (index : nat) (r : regex)             (* the index-th capturing group *)
| RBol                                         (* ^ *)
| REol.                                        (* $ *)

Record flags : Type := MkFlags {
  multiline : bool;      (* m *)
  dotAll : bool;         (* s *)
  sticky : bool;         (* y *)
}.

Definition code (c : ascii) : N := N_of_ascii c.

Definition is_line_terminator (c : ascii) : bool :=
  ((code c =? 10) || (code c =? 13))%N.

Definition is_digit (c : ascii) : bool := ((48 <=? code c) && (code c <=? 57))%N.

Definition is_word (c : ascii) : bool :=
  (is_digit c
   || ((65 <=? code c) && (code c <=? 90))
   || ((97 <=? code c) && (code c <=? 122))
   || (code c =? 95))%N.

Definition is_space (c : ascii) : bool :=
  (((9 <=? code c) && (code c <=? 13)) || (code c =? 32) || (code c =? 160))%N.

Definition in_item (c : ascii) (it : class_item) : bool :=
  match it with
  | ItChar c' => Ascii.eqb c c'
  | ItRange lo hi => ((code lo <=? code c) && (code c <=? code hi))%N
  | ItDigit pos => Bool.eqb (is_digit c) pos
  | ItWord pos => Bool.eqb (is_word c) pos
  | ItSpace pos => Bool.eqb (is_space c) pos
  end.

(** The captures: for each group, where its last match started and ended. *)
Abbreviation captures := (gmap nat (nat * nat)).

(** A continuation is given the position reached and the captures; the
    overall result is the end of the match and the final captures. *)
Abbreviation cont := (nat → captures → option (nat * captures)).

Definition orelse {A} (x y : option A) : option A :=
  match x with Some _ => x | None => y end.

Fixpoint groups_of (r : regex) : list nat :=
  match r with
  | RSeq r1 r2 | RAlt r1 r2 => groups_of r1 ++ groups_of r2
  | RStar _ r => groups_of r
  | RGroup i r => i :: groups_of r
  | _ => []
  end.

Definition clear_groups (gs : list nat) (caps : captures) : captures :=
  foldr delete caps gs.

Section Matcher.
Context (fl : flags) (input : list ascii).

(** One character that satisfies [test]. *)
Definition one (test : ascii → bool) (i : nat) (caps : captures) (k : cont)
    : option (nat * captures) :=
  match input !! i with
  | Some c => if test c then k (S i) caps else None
  | None => None
  end.

(** The iterations of a quantifier without upper bound: an iteration that
    matches the empty string is refused; [fuel] bounds the number of
    iterations, each of which advances. *)
Fixpoint star_loop (fuel : nat)
    (step : nat → captures → cont → option (nat * captures))
    (greedy : bool) (gs : list nat) (i : nat) (caps : captures) (k : cont)
    : option (nat * captures) :=
  match fuel with
  | O => k i caps
  | S fuel' =>
      let iterate :=
        step i (clear_groups gs caps)
          (λ j caps', if (j =? i)%nat then None
                      else star_loop fuel' step greedy gs j caps' k) in
      if greedy then orelse iterate (k i caps)
      else orelse (k i caps) iterate
  end.

Definition at_line_start (i : nat) : bool :=
  match i with
  | O => true
  | S j => multiline fl &&
           match input !! j with Some c => is_line_terminator c | None => false end
  end.

Definition at_line_end (i : nat) : bool :=
  match input !! i with
  | None => true
  | Some c => multiline fl && is_line_terminator c
  end.

Fixpoint run (r : regex) (i : nat) (caps : captures) (k : cont)
    : option (nat * captures) :=
  match r with
  | REmpty => k i caps
  | RChar c => one (Ascii.eqb c) i caps k
  | RAny => one (λ c, dotAll fl || negb (is_line_terminator c)) i caps k
  | RClass negated items =>
      one (λ c, xorb negated (existsb (in_item c) items)) i caps k
  | RSeq r1 r2 => run r1 i caps (λ j caps', run r2 j caps' k)
  | RAlt r1 r2 => orelse (run r1 i caps k) (run r2 i caps k)
  | RStar greedy r' =>
      star_loop (S (length input - i)) (run r') greedy (groups_of r') i caps k
  | RGroup index r' =>
      run r' i caps (λ j caps', k j (<[index := (i, j)]> caps'))
  | RBol => if at_line_start i then k i caps else None
  | REol => if at_line_end i then k i caps else None
  end.

(** The match that starts at [i], if there is one. *)
Definition match_at (r : regex) (i : nat) : option (nat * captures) :=
  run r i ∅ (λ j caps, Some (j, caps)).

(** The leftmost position, from [i] on, at which [r] matches. *)
Fixpoint scan (fuel : nat) (r : regex) (i : nat) : option (nat * (nat * captures)) :=
  match match_at r i with
  | Some res => Some (i, res)
  | None =>
      match fuel with
      | O => None
      | S fuel' => scan fuel' r (S i)
      end
  end.

End Matcher.

Definition substr (input : list ascii) (start stop : nat) : string :=
  string_of_list_ascii (take (stop - start) (drop start input)).

(** [RegExp.prototype.exec] on a fresh expression: the array of the match
    and of the groups 1 to [ngroups] ([None] for a group that did not take
    part), or [None] when nothing matches. *)
Definition exec (fl : flags) (r : regex) (ngroups : nat) (s : string)
    : option (list (option string)) :=
  let input := list_ascii_of_string s in
  let found := if sticky fl
               then (λ res, (0%nat, res)) <$> match_at fl input r 0
               else scan fl input (length input) r 0 in
  match found with
  | None => None
  | Some (start, (stop, caps)) =>
      Some (Some (substr input start stop)
              :: map (λ g, (λ se, substr input se.1 se.2) <$> caps !! g)
                   (seq 1 ngroups))
  end.

(** The literal of line 315: a slash, group 1 of any characters (greedy),
    a slash, group 2 of lowercase letters (greedy). *)
Definition delimited : regex :=
  RSeq (RChar "/")
    (RSeq (RGroup 1 (RStar true RAny))
       (RSeq (RChar "/")
          (RGroup 2 (RStar true (RClass false [ItRange "a" "z"]))))).

Definition no_flags : flags :=
  {| multiline := false; dotAll := false; sticky := false |}.

(** *** Reading a pattern

    [parse] reads the fragment; a pattern outside of it, or one that is not
    a regular expression, has no reading. *)

(** An escape outside a class. *)
Definition escape_atom (c : ascii) : option regex :=
  match c with
  | "d"%char => Some (RClass false [ItDigit true])
  | "D"%char => Some (RClass false [ItDigit false])
  | "w"%char => Some (RClass false [ItWord true])
  | "W"%char => Some (RClass false [ItWord false])
  | "s"%char => Some (RClass false [ItSpace true])
  | "S"%char => Some (RClass false [ItSpace false])
  | "t"%char => Some (RChar "009")
  | "n"%char => Some (RChar "010")
  | "v"%char => Some (RChar "011")
  | "f"%char => Some (RChar "012")
  | "r"%char => Some (RChar "013")
  | _ => if is_word c then None else Some (RChar c)
  end.

(** An escape inside a class. *)
Definition escape_item (c : ascii) : option class_item :=
  match c with
  | "d"%char => Some (ItDigit true)
  | "D"%char => Some (ItDigit false)
  | "w"%char => Some (ItWord true)
  | "W"%char => Some (ItWord false)
  | "s"%char => Some (ItSpace true)
  | "S"%char => Some (ItSpace false)
  | "t"%char => Some (ItChar "009")
  | "n"%char => Some (ItChar "010")
  | "v"%char => Some (ItChar "011")
  | "f"%char => Some (ItChar "012")
  | "r"%char => Some (ItChar "013")
  | _ => if is_word c then None else Some (ItChar c)
  end.

(** The items of a class, up to the closing bracket. *)
Fixpoint parse_items (fuel : nat) (p : list ascii)
    : option (list class_item * list ascii) :=
  match fuel with
  | O => None
  | S fuel' =>
      match p with
      | [] => None
      | "]"%char :: rest => Some ([], rest)
      | "\"%char :: c :: rest =>
          it ← escape_item c;
          '(items, rest') ← parse_items fuel' rest;
          Some (it :: items, rest')
      | "\"%char :: [] => None
      | lo :: "-"%char :: hi :: rest =>
          if Ascii.eqb hi "]" then
            '(items, rest') ← parse_items fuel' ("-"%char :: hi :: rest);
            Some (ItChar lo :: items, rest')
          else if Ascii.eqb hi "\" then None
          else if (code hi <? code lo)%N then None
          else
            '(items, rest') ← parse_items fuel' rest;
            Some (ItRange lo hi :: items, rest')
      | c :: rest =>
          '(items, rest') ← parse_items fuel' rest;
          Some (ItChar c :: items, rest')
      end
  end.

(** A quantifier after the atom [a], if there is one. *)
Definition quantified (a : regex) (p : list ascii) : regex * list ascii :=
  match p with
  | "*"%char :: "?"%char :: rest => (RStar false a, rest)
  | "*"%char :: rest => (RStar true a, rest)
  | "+"%char :: "?"%char :: rest => (RSeq a (RStar false a), rest)
  | "+"%char :: rest => (RSeq a (RStar true a), rest)
  | "?"%char :: "?"%char :: rest => (RAlt REmpty a, rest)
  | "?"%char :: rest => (RAlt a REmpty, rest)
  | _ => (a, p)
  end.

Definition starts_quantifier (p : list ascii) : bool :=
  match p with
  | c :: _ => Ascii.eqb c "*" || Ascii.eqb c "+" || Ascii.eqb c "?"
              || Ascii.eqb c "{"
  | [] => false
  end.

(** Disjunctions, alternatives and terms; [g] is the number of the next
    capturing group. *)
Fixpoint parse_disjunction (fuel : nat) (p : list ascii) (g : nat)
    : option (regex * list ascii * nat) :=
  match fuel with
  | O => None
  | S fuel' =>
      '(r1, rest, g1) ← parse_alternative fuel' p g;
      match rest with
      | "|"%char :: rest' =>
          '(r2, rest'', g2) ← parse_disjunction fuel' rest' g1;
          Some (RAlt r1 r2, rest'', g2)
      | _ => Some (r1, rest, g1)
      end
  end
with parse_alternative (fuel : nat) (p : list ascii) (g : nat)
    : option (regex * list ascii * nat) :=
  match fuel with
  | O => None
  | S fuel' =>
      match p with
      | [] => Some (REmpty, p, g)
      | "|"%char :: _ => Some (REmpty, p, g)
      | ")"%char :: _ => Some (REmpty, p, g)
      | _ =>
          '(r1, rest, g1) ← parse_term fuel' p g;
          '(r2, rest', g2) ← parse_alternative fuel' rest g1;
          Some (RSeq r1 r2, rest', g2)
      end
  end
with parse_term (fuel : nat) (p : list ascii) (g : nat)
    : option (regex * list ascii * nat) :=
  match fuel with
  | O => None
  | S fuel' =>
      match p with
      | [] => None
      | "^"%char :: rest =>
          if starts_quantifier rest then None else Some (RBol, rest, g)
      | "$"%char :: rest =>
          if starts_quantifier rest then None else Some (REol, rest, g)
      | "."%char :: rest =>
          if Ascii.eqb (hd " "%char rest) "{" then None
          else let '(r, rest') := quantified RAny rest in Some (r, rest', g)
      | "\"%char :: c :: rest =>
          a ← escape_atom c;
          if Ascii.eqb (hd " "%char rest) "{" then None
          else let '(r, rest') := quantified a rest in Some (r, rest', g)
      | "["%char :: "^"%char :: rest =>
          '(items, rest') ← parse_items (length rest + 1) rest;
          if Ascii.eqb (hd " "%char rest') "{" then None
          else let '(r, rest'') := quantified (RClass true items) rest' in
               Some (r, rest'', g)
      | "["%char :: rest =>
          '(items, rest') ← parse_items (length rest + 1) rest;
          if Ascii.eqb (hd " "%char rest') "{" then None
          else let '(r, rest'') := quantified (RClass false items) rest' in
               Some (r, rest'', g)
      | "("%char :: "?"%char :: ":"%char :: rest =>
          '(r, rest', g1) ← parse_disjunction fuel' rest g;
          match rest' with
          | ")"%char :: rest'' =>
              if Ascii.eqb (hd " "%char rest'') "{" then None
              else let '(q, rest3) := quantified r rest'' in Some (q, rest3, g1)
          | _ => None
          end
      | "("%char :: "?"%char :: _ => None
      | "("%char :: rest =>
          '(r, rest', g1) ← parse_disjunction fuel' rest (S g);
          match rest' with
          | ")"%char :: rest'' =>
              if Ascii.eqb (hd " "%char rest'') "{" then None
              else let '(q, rest3) := quantified (RGroup g r) rest'' in
                   Some (q, rest3, g1)
          | _ => None
          end
      | c :: rest =>
          if Ascii.eqb c "*" || Ascii.eqb c "+" || Ascii.eqb c "?"
             || Ascii.eqb c "{" || Ascii.eqb c "}" || Ascii.eqb c "\"
          then None
          else if Ascii.eqb (hd " "%char rest) "{" then None
          else let '(r, rest') := quantified (RChar c) rest in
               Some (r, rest', g)
      end
  end.

(** The expression and the number of its capturing groups. *)
Definition parse (pattern : string) : option (regex * nat) :=
  let p := list_ascii_of_string pattern in
  match parse_disjunction (3 * length p + 3) p 1 with
  | Some (r, [], g) => Some (r, (g - 1)%nat)
  | _ => None
  end.

(** The flags: each of [dgimsuvy] at most once; the fragment has no reading
    for [i], [u] and [v]. *)
Fixpoint parse_flags (p : list ascii) (seen : list ascii) (fl : flags)
    : option flags :=
  match p with
  | [] => Some fl
  | c :: rest =>
      if existsb (Ascii.eqb c) seen then None
      else match c with
           | "d"%char | "g"%char => parse_flags rest (c :: seen) fl
           | "m"%char =>
               parse_flags rest (c :: seen)
                 {| multiline := true; dotAll := dotAll fl; sticky := sticky fl |}
           | "s"%char =>
               parse_flags rest (c :: seen)
                 {| multiline := multiline fl; dotAll := true; sticky := sticky fl |}
           | "y"%char =>
               parse_flags rest (c :: seen)
                 {| multiline := multiline fl; dotAll := dotAll fl; sticky := true |}
           | _ => None
           end
  end.

End RegExp.

(** ** The version scrape *)

(** What the function takes from the JavaScript runtime: the UTF-8 decoding
    of [readFile], and [new RegExp(pattern, flags).exec(text)], which throws
    for a pattern or flags that are not valid, and otherwise gives the match
    array or [null]. *)
Record Runtime : Type := MkRuntime {
  utf8 : bytes → string;
  regexp_exec : string → string → string → settled (option (list (option string)));
}.

(** The runtime restricted to the fragment of [RegExp]. *)
Definition fragment : Runtime :=
  {| utf8 := string_of_list_byte;
     regexp_exec := λ pattern flags text,
       match RegExp.parse_flags (list_ascii_of_string flags) [] RegExp.no_flags with
       | None => Rejected (JsError "Invalid flags supplied to RegExp constructor")
       | Some fl =>
           match RegExp.parse pattern with
           | None => Rejected (JsError "Invalid regular expression")
           | Some (r, ngroups) => Fulfilled (RegExp.exec fl r ngroups text)
           end
       end |}.

(** [minecraftVersionRegexp.match(...)] with the literal of line 315: the
    pattern and the flags, when the input has that shape. *)
Definition matchDelimited (minecraftVersionRegexp : string)
    : option (string * string) :=
  match RegExp.exec RegExp.no_flags RegExp.delimited 2 minecraftVersionRegexp with
  | Some [_; Some pattern; Some flags] => Some (pattern, flags)
  | _ => None
  end.

Section Scrape.
Context (R : Runtime).

(** [guessCurrentMinecraftVersionFromFile]; [None] is [undefined]. *)
Definition guessCurrentMinecraftVersionFromFile
    (minecraftVersionFile minecraftVersionRegexp : string)
    : prog (option string) :=
  Await (IoReadFile minecraftVersionFile) (λ r,
    match r with
    | Rejected e =>
        if decide (code e = Some "ENOENT") then Ret None else Throw e
    | Fulfilled content =>
        let fileContent := utf8 R content in
        match matchDelimited minecraftVersionRegexp with
        | None =>
            Throw (JsError
                     "minecraft-version-regexp doesnt match format /regexp/flags")
        | Some (pattern, flags) =>
            match regexp_exec R pattern flags fileContent with
            | Rejected e => Throw e
            | Fulfilled None => Ret None
            | Fulfilled (Some matches) => Ret (mjoin (matches !! 1%nat))
            end
        end
    end).

End Scrape.

(** ** The action

    [run] reads the inputs of the step, prints messages and talks to the
    cache service of the runner.  [Toolkit] is what it takes from
    [@actions/core] and [@actions/cache]: the inputs by name, whether the
    cache service is there, and the two requests to it.  [restoreCache]
    resolves to the key of the cache it restored, if any, and leaves the
    files it unpacked on disk; [saveCache] resolves to the id of the cache
    it created.  Both may depend on everything that happened so far. *)
Record Toolkit : Type := MkToolkit {
  getInput : string → string;
  getMultilineInput : string → list string;
  isFeatureAvailable : bool;
  restoreCache : World → list string → string → list string
                 → settled (option string) * gmap string bytes;
  saveCache : World → list string → string → settled Z;
}.

(** What the action prints and asks of the toolkit, by the line that does. *)
Inductive notice : Type :=
| NoteConfigured (minecraftVersions : list string)            (* info, l.14 *)
| NoteDetected (file : string) (version : option string)      (* info, l.24 *)
| NoteUnavailable                                             (* error, l.35 *)
| NoteRestore (paths : list string) (key : string) (restoreKeys : list string)
| NoteNothingToDo (restoredCacheKey : string)                 (* info, l.43 *)
| NoteSave (paths : list string) (key : string)
| NoteFailed (err : exn).                                     (* setFailed *)

Global Instance notice_eq_dec : EqDecision notice.
Proof. solve_decision. Defined.

(** The state of a job: the world, and what the action said so far, most
    recent first. *)
Record Job : Type := MkJob {
  world : World;
  notices : list notice;
}.

Definition note (n : notice) (j : Job) : Job :=
  {| world := world j; notices := n :: notices j |}.

Definition line_feed : string := String "010" EmptyString.

Section Action.
Context (T : Toolkit) (E : Env) (L : Lib) (R : Runtime).

(** [hashMinecraftVersions]: the MD5 of the versions joined by line feeds. *)
Definition hashMinecraftVersions (minecraftVersions : list string) : string :=
  digest L "md5"
    (list_byte_of_string (String.concat line_feed minecraftVersions)).

(** Lines 17-30 of [run]: when both inputs are given, the version found in
    the file is pushed onto the configured versions, unless it is
    [undefined] or empty. *)
Definition detectVersion (minecraftVersions : list string)
    (minecraftVersionFile minecraftVersionRegexp : string) (j : Job)
    : settled (list string) * Job :=
  if truthy (Some minecraftVersionFile) && truthy (Some minecraftVersionRegexp)
  then
    match exec E (guessCurrentMinecraftVersionFromFile R minecraftVersionFile
                    minecraftVersionRegexp) (world j) with
    | (Rejected e, w) => (Rejected e, {| world := w; notices := notices j |})
    | (Fulfilled currentMinecraftVersion, w) =>
        (Fulfilled (if truthy currentMinecraftVersion
                    then minecraftVersions ++ [default "" currentMinecraftVersion]
                    else minecraftVersions),
         note (NoteDetected minecraftVersionFile currentMinecraftVersion)
           {| world := w; notices := notices j |})
    end
  else (Fulfilled minecraftVersions, j).

(** [run]. *)
Definition run (j : Job) : settled unit * Job :=
  let cacheKeyPrefix := getInput T "cache-key" +:+ "-" in
  let minecraftVersions := getMultilineInput T "minecraft-versions" in
  let j := note (NoteConfigured minecraftVersions) j in
  let minecraftVersionFile := getInput T "minecraft-version-file" in
  let minecraftVersionRegexp := getInput T "minecraft-version-regexp" in
  match detectVersion minecraftVersions minecraftVersionFile
          minecraftVersionRegexp j with
  | (Rejected e, j) => (Rejected e, j)
  | (Fulfilled minecraftVersions, j) =>
      let cacheKey :=
        cacheKeyPrefix +:+ hashMinecraftVersions minecraftVersions in
      if negb (isFeatureAvailable T) then
        (Fulfilled tt, note NoteUnavailable j)
      else
        let j := note (NoteRestore ["assets"] cacheKey [cacheKeyPrefix]) j in
        match restoreCache T (world j) ["assets"] cacheKey [cacheKeyPrefix] with
        | (Rejected e, fs) =>
            (Rejected e,
             {| world := {| files := fs; log := log (world j) |};
                notices := notices j |})
        | (Fulfilled restoredCacheKey, fs) =>
            let j := {| world := {| files := fs; log := log (world j) |};
                        notices := notices j |} in
            if decide (restoredCacheKey = Some cacheKey) then
              (Fulfilled tt, note (NoteNothingToDo cacheKey) j)
            else
              match downloadAssets E L minecraftVersions "assets" (world j) with
              | (Rejected e, w) =>
                  (Rejected e, {| world := w; notices := notices j |})
              | (Fulfilled _, w) =>
                  let j := note (NoteSave ["assets"] cacheKey)
                             {| world := w; notices := notices j |} in
                  match saveCache T w ["assets"] cacheKey with
                  | Rejected e => (Rejected e, j)
                  | Fulfilled _ => (Fulfilled tt, j)
                  end
              end
        end
  end.

(** [index.mjs]: [run().catch((err) => setFailed(err))]. *)
Definition main (j : Job) : Job :=
  match run j with
  | (Fulfilled _, j) => j
  | (Rejected err, j) => note (NoteFailed err) j
  end.

End Action.

(** ** Vocabulary for the statements *)

(** The local file is the expected one: present, of the expected size and
    with the expected checksum. *)
Definition local_correct (L : Lib) (fs : gmap string bytes)
    (path method checksum : string) (size : Z) : Prop :=
  ∃ b, fs !! path = Some b ∧ Z.of_nat (length b) = size
       ∧ digest L method b = checksum.

Definition is_fetch (ev : event) : bool :=
  match ev with EvIo (IoFetch _) => true | _ => false end.

Definition is_write (ev : event) : bool :=
  match ev with EvIo (IoWriteFile _ _) => true | _ => false end.

Definition is_checksum_read (ev : event) : bool :=
  match ev with EvIo (IoReadStream _) => true | _ => false end.

(** How many events of a history satisfy [f]. *)
Fixpoint count (f : event → bool) (h : list event) : nat :=
  match h with
  | [] => 0
  | ev :: h => ((if f ev then 1 else 0) + count f h)%nat
  end.

(** One download attempt, as the claims describe it.  [retryable r reason]:
    the response has a non-success status, or a body of the wrong length, or
    a body with the wrong digest; [reason] is the text the loop records. *)
Definition retryable (L : Lib) (method checksum : string) (size : Z)
    (r : settled response) (reason : string) : Prop :=
  ∃ res, r = Fulfilled res ∧
    ((ok res = false ∧ reason = "HTTP Error " +:+ pretty (status res)) ∨
     (ok res = true ∧ ∃ b, body res = Fulfilled b ∧
        Z.of_nat (length b) ≠ size ∧
        reason = "Size of downloaded file didn't match expected size") ∨
     (ok res = true ∧ ∃ b, body res = Fulfilled b ∧
        Z.of_nat (length b) = size ∧ digest L method b ≠ checksum ∧
        reason = "Checksum mismatch for downloaded file")).

(** The response is a success whose body has the expected size and digest. *)
Definition acceptable (L : Lib) (method checksum : string) (size : Z)
    (r : settled response) (b : bytes) : Prop :=
  ∃ res, r = Fulfilled res ∧ ok res = true ∧ body res = Fulfilled b ∧
         Z.of_nat (length b) = size ∧ digest L method b = checksum.

(** The request itself failed: [fetch] rejected, or reading the body did. *)
Definition transport_failure (r : settled response) (e : exn) : Prop :=
  r = Rejected e ∨
  ∃ res, r = Fulfilled res ∧ ok res = true ∧ body res = Rejected e.

(** The history after [k] failed attempts on [url] started at history [h]:
    each one is a fetch followed by the two-second sleep. *)
Fixpoint after_failures (url : string) (k : nat) (h : list event)
    : list event :=
  match k with
  | O => h
  | S k => EvIo (IoSleep 2000) :: EvIo (IoFetch url) :: after_failures url k h
  end.

Definition is_call (ev : event) : bool :=
  match ev with EvCall _ => true | _ => false end.

Definition is_settle (ev : event) : bool :=
  match ev with EvSettle _ _ => true | _ => false end.

Definition is_write_to (path : string) (ev : event) : bool :=
  match ev with
  | EvIo (IoWriteFile p _) => bool_decide (p = path)
  | _ => false
  end.

(** The targets of the [downloadIfChanged] calls of a history, most recent
    first. *)
Definition calls (h : list event) : list target :=
  omap (λ ev, match ev with EvCall t => Some t | _ => None end) h.

(** The number of calls that have been started and have not settled. *)
Definition in_flight (h : list event) : Z :=
  Z.of_nat (count is_call h) - Z.of_nat (count is_settle h).

(** The number of suspended calls of a pool. *)
Fixpoint npending (pool : list (target * prog bool)) : nat :=
  match pool with
  | [] => 0
  | (_, p) :: rest => ((if is_pending p then 1 else 0) + npending rest)%nat
  end.

Definition is_io (ev : event) : bool :=
  match ev with EvIo _ => true | _ => false end.

(** A rejected call rejects what awaits it: every rejected settlement of the
    history [new] is the outcome [r]. *)
Definition surfaces {A} (new : list event) (r : settled A) : Prop :=
  ∀ t e, EvSettle t (Rejected e) ∈ new → r = Rejected e.

(** After a batch that was fulfilled, or a call that returned, nothing in
    the history so far is a rejection. *)
Definition no_rejection (new : list event) : Prop :=
  ∀ t e, EvSettle t (Rejected e) ∉ new.

(** A history (most recent first) is [batched] from call number [base] on
    when a call whose number is a multiple of [maxConcurrency] starts with
    no call in flight, and at no time more than [maxConcurrency] calls are
    in flight.  The earlier part of a history is a suffix of the list. *)
Definition batched (base : nat) (new : list event) : Prop :=
  (∀ h t, EvCall t :: h `suffix_of` new →
     ((base + length (calls h)) `mod` maxConcurrency = 0)%nat →
     in_flight h = 0) ∧
  (∀ h, h `suffix_of` new → 0 ≤ in_flight h ≤ Z.of_nat maxConcurrency).

(** *** One turn of the event loop under [Promise.all]

    [pool_step] resumes one suspended call up to its next [await]; a call
    that returns or throws records that its promise settled.  Nothing is
    resumed once a call has thrown: the whole has been rejected.  [run_all]
    follows this relation whatever the schedule is. *)
Definition settle (t : target) (p : prog bool) (w : World) : World :=
  match p with
  | Ret b => record (EvSettle t (Fulfilled b)) w
  | Throw e => record (EvSettle t (Rejected e)) w
  | Await _ _ => w
  end.

Definition is_throw {A} (p : prog A) : bool :=
  match p with Throw _ => true | _ => false end.

Inductive pool_step (E : Env)
  : list (target * prog bool) * World → list (target * prog bool) * World → Prop :=
| pool_resume pool w i t p p' w' :
    Forall (λ tp, is_throw tp.2 = false) pool →
    pool !! i = Some (t, p) → is_pending p = true →
    resume E p w = (p', w') →
    pool_step E (pool, w) (<[i := (t, p')]> pool, settle t p' w').

(** How the state of the calls accounts for what [Promise.all] settled as. *)
Definition settles_as (pool : list (target * prog bool))
    (res : settled (list bool)) : Prop :=
  match res with
  | Fulfilled bs => pool.*2 = Ret <$> bs
  | Rejected e => ∃ i t, pool !! i = Some (t, Throw e)
  end.

(** The iterations of the chunk loop, as a relation: from index [i] with
    [downloadedFiles = d] in world [w] the loop ends with [r] in [w']. *)
Inductive chunks_run (E : Env) (L : Lib) (assetsFolder : string)
    (objects : list AssetObject)
  : nat → Z → World → settled Z → World → Prop :=
| chunks_done i d w :
    (length objects ≤ i)%nat →
    chunks_run E L assetsFolder objects i d w (Fulfilled d) w
| chunks_rejected i d w e w' :
    (i < length objects)%nat →
    promiseAll E L
      (map (objectTarget L assetsFolder) (slice i (i + maxConcurrency) objects))
      w = (Rejected e, w') →
    chunks_run E L assetsFolder objects i d w (Rejected e) w'
| chunks_next i d w downloadResult w1 r w' :
    (i < length objects)%nat →
    promiseAll E L
      (map (objectTarget L assetsFolder) (slice i (i + maxConcurrency) objects))
      w = (Fulfilled downloadResult, w1) →
    chunks_run E L assetsFolder objects (i + maxConcurrency)
      (d + count_true downloadResult) w1 r w' →
    chunks_run E L assetsFolder objects i d w r w'.

(** The chunks the loop of [downloadChunks] cuts [objects] into, from index
    [i] on: the values [objectChunk] takes, in order. *)
Fixpoint batchesFrom (fuel i : nat) (objects : list AssetObject)
    : list (list AssetObject) :=
  match fuel with
  | O => []
  | S fuel' =>
      if (i <? length objects)%nat then
        slice i (i + maxConcurrency) objects
          :: batchesFrom fuel' (i + maxConcurrency) objects
      else []
  end.

Definition batches (objects : list AssetObject) : list (list AssetObject) :=
  batchesFrom (length objects) 0 objects.

(** The reading of "written atomically" that claim C7 makes: whatever
    happens, the target path afterwards holds either what it held before or
    a complete accepted body. *)
Definition write_is_atomic (E : Env) (L : Lib)
    (path url method checksum : string) (size : Z) (w : World) : Prop :=
  ∀ r w', exec E (downloadIfChanged L path url method checksum size) w = (r, w') →
    files w' !! path = files w !! path ∨
    ∃ data, files w' !! path = Some data ∧
            Z.of_nat (length data) = size ∧ digest L method data = checksum.

(** A version identifier is absent from the version manifest. *)
Definition absent (versions : list VersionEntry) (version : string) : Prop :=
  ∀ entry, entry ∈ versions → v_id entry ≠ version.

(** A request for [url] made after the history [h] is answered with a
    success whose body decodes to [v]. *)
Definition answered {A} (E : Env) (decode : bytes → settled A)
    (h : list event) (url : string) (v : A) : Prop :=
  ∃ res doc, remote E h url = Fulfilled res ∧ ok res = true ∧
             body res = Fulfilled doc ∧ decode doc = Fulfilled v.

(** [resolved E L versions h requested metas h']: from the history [h] on,
    every version of [requested] is listed by the manifest with a URL that
    is not empty, and the request for its metadata, made after those of the
    versions before it, is answered with the descriptor at the same place
    of [metas]; [h'] is the history after the last request. *)
Inductive resolved (E : Env) (L : Lib) (versions : list VersionEntry)
    : list event → list string → list AssetIndex → list event → Prop :=
  | resolved_nil h : resolved E L versions h [] [] h
  | resolved_cons h version rest entry assetIndex metas h' :
      List.find (λ v, String.eqb (v_id v) version) versions = Some entry →
      v_url entry ≠ "" →
      answered E (json_assetIndex L) h (v_url entry) assetIndex →
      resolved E L versions (EvIo (IoFetch (v_url entry)) :: h) rest metas h' →
      resolved E L versions h (version :: rest) (assetIndex :: metas) h'.

(** The requests for [urls], made one after the other from the history [h]
    on, are each answered with a metadata document that decodes. *)
Definition answered_in_turn (E : Env) (L : Lib) (h : list event)
    (urls : list string) : Prop :=
  ∀ i url, urls !! i = Some url →
    ∃ a, answered E (json_assetIndex L)
           (reverse (EvIo ∘ IoFetch <$> take i urls) ++ h) url a.

(** The object the loop of [getAssetIndices] builds from the descriptors it
    read, as its own properties. *)
Definition collected (metas : list AssetIndex) : jsobj AssetIndex :=
  (foldl (λ o a, obj_assign ai_has_proto (ai_id a) a o) ([], None) metas).1.

(** C4 as the specification words it: with the manifest retrieved and some
    requested version absent from it, the resolution fails with a "not
    found" error for a requested version that is absent. *)
Definition fails_with_VersionNotFound (E : Env) (L : Lib)
    (minecraftVersions : list string) (w : World) : Prop :=
  ∀ versions w1,
    exec E (downloadJson (json_versions L) versionManifestUrl) w
    = (Fulfilled versions, w1) →
    (∃ version, version ∈ minecraftVersions ∧ absent versions version) →
    ∃ version w',
      version ∈ minecraftVersions ∧ absent versions version ∧
      exec E (getAssetIndices L minecraftVersions) w
      = (Rejected (JsError ("Minecraft version " +:+ version +:+ " not found")),
         w').

Definition is_fetch_only (ev : event) : bool :=
  match ev with EvIo (IoFetch _) => true | _ => false end.

(** The positions at which [exec] tries a match: the first only for a
    sticky expression, every position of the text otherwise. *)
Definition tried (fl : RegExp.flags) (input : list ascii) (j : nat) : Prop :=
  if RegExp.sticky fl then j = 0%nat else (j ≤ length input)%nat.

(** Element 1 of the match array: the text of the first capturing group,
    [undefined] when the group took no part in the match or the expression
    has no group. *)
Definition group1 (input : list ascii) (ngroups : nat)
    (caps : RegExp.captures) : option string :=
  if (1 <=? ngroups)%nat
  then (λ se, RegExp.substr input se.1 se.2) <$> caps !! 1%nat
  else None.

(** The shape the claims speak of: the input contains a slash, a pattern,
    a slash and flags, the flags being lowercase letters. *)
Definition is_lowercase (c : ascii) : bool :=
  ((RegExp.code "a" <=? RegExp.code c) && (RegExp.code c <=? RegExp.code "z"))%N.

Definition contains_shape (s : string) : Prop :=
  ∃ pre pattern flags post,
    list_ascii_of_string s
      = pre ++ "/"%char :: pattern ++ "/"%char :: flags ++ post ∧
    Forall (λ c, is_lowercase c = true) flags.

(** The shape the literal of line 315 finds: moreover the pattern is on one
    line. *)
Definition contains_shape_on_a_line (s : string) : Prop :=
  ∃ pre pattern rest,
    list_ascii_of_string s = pre ++ "/"%char :: pattern ++ "/"%char :: rest ∧
    Forall (λ c, RegExp.is_line_terminator c = false) pattern.

Definition shape_error : exn :=
  JsError "minecraft-version-regexp doesnt match format /regexp/flags".

(** *** What a [downloadIfChanged] call may do

    [good t data]: the bytes are what the target expects.  [correct fs t]:
    the file of the target is. *)
Definition good (L : Lib) (t : target) (data : bytes) : Prop :=
  Z.of_nat (length data) = t_size t ∧ digest L (t_method t) data = t_checksum t.

Definition correct (L : Lib) (fs : gmap string bytes) (t : target) : Prop :=
  ∃ b, fs !! t_path t = Some b ∧ good L t b.

(** The settlements of the calls on [path] that returned [true], and of
    those that were rejected. *)
Definition downloaded_to (path : string) (ev : event) : bool :=
  match ev with
  | EvSettle t (Fulfilled true) => bool_decide (t_path t = path)
  | _ => false
  end.

Definition rejected_to (path : string) (ev : event) : bool :=
  match ev with
  | EvSettle t (Rejected _) => bool_decide (t_path t = path)
  | _ => false
  end.

(** Every write of the history is accounted for by a call: a call that
    returned [true] wrote its file once, a call that returned [false] wrote
    nothing, a rejected call wrote at most once; and what is written to a
    path is what a call on that path expects. *)
Definition writes_accounted (L : Lib) (new : list event) : Prop :=
  (∀ path,
     (count (downloaded_to path) new ≤ count (is_write_to path) new)%nat ∧
     (count (is_write_to path) new
      ≤ count (downloaded_to path) new + count (rejected_to path) new)%nat) ∧
  (∀ path data, EvIo (IoWriteFile path data) ∈ new →
     ∃ t, t ∈ calls new ∧ path = t_path t ∧ good L t data).

Definition is_reading {A} (p : prog A) : bool :=
  match p with Await (IoReadStream _) _ => true | _ => false end.

Definition is_ret {A} (p : prog A) : bool :=
  match p with Ret _ => true | _ => false end.

(** The requests a call for [t] makes: it stats and reads its own path and
    writes bytes that are good for [t] to its own path. *)
Definition op_allowed (L : Lib) (t : target) (op : io) : Prop :=
  match op with
  | IoWriteFile path data => path = t_path t ∧ good L t data
  | IoStat path | IoReadStream path => path = t_path t
  | IoReadFile _ | IoFolderSize _ => False
  | IoFetch _ | IoSleep _ | IoMkdir _ => True
  end.

(** What follows the answer [r] to a request: the call returns only after
    the write (then [true]) or after reading bytes of the expected digest
    (then [false]); nothing follows a write but the end of the call; the
    call reads the checksum only after a stat that gave the expected
    size. *)
Definition after_op (L : Lib) (t : target) (op : io)
    : settled (reply op) → prog bool → Prop :=
  match op as o return settled (reply o) → prog bool → Prop with
  | IoWriteFile _ _ => λ r p',
      match r with
      | Fulfilled _ => p' = Ret true
      | Rejected e => p' = Throw e
      end
  | IoReadStream _ => λ r p',
      is_reading p' = false ∧
      ∀ b, p' = Ret b →
        b = false ∧
        ∃ data, r = Fulfilled data ∧ digest L (t_method t) data = t_checksum t
  | IoStat _ => λ r p',
      is_ret p' = false ∧ (is_reading p' = true → r = Fulfilled (t_size t))
  | IoReadFile _ | IoFetch _ | IoMkdir _ | IoFolderSize _ => λ r p',
      is_ret p' = false ∧ is_reading p' = false
  | IoSleep _ => λ r p', is_ret p' = false ∧ is_reading p' = false
  end.

Fixpoint task_inv (L : Lib) (t : target) (p : prog bool) : Prop :=
  match p with
  | Await op k =>
      op_allowed L t op ∧ ∀ r, after_op L t op r (k r) ∧ task_inv L t (k r)
  | _ => True
  end.

(** A call that finds its file correct: it stats, reads the checksum and
    returns [false]. *)
Definition verifying (L : Lib) (t : target) (p : prog bool) : Prop :=
  match p with
  | Await op k =>
      match op as o return (settled (reply o) → prog bool) → Prop with
      | IoReadStream path => λ k,
          path = t_path t ∧
          ∀ data, digest L (t_method t) data = t_checksum t →
                  k (Fulfilled data) = Ret false
      | _ => λ _, False
      end k
  | _ => False
  end.

Definition probing (L : Lib) (t : target) (p : prog bool) : Prop :=
  match p with
  | Await op k =>
      match op as o return (settled (reply o) → prog bool) → Prop with
      | IoStat path => λ k,
          path = t_path t ∧ verifying L t (k (Fulfilled (t_size t)))
      | _ => λ _, False
      end k
  | _ => False
  end.

Definition quiet (L : Lib) (t : target) (p : prog bool) : Prop :=
  p = Ret false ∨ verifying L t p ∨ probing L t p.

(** ** Vocabulary for two runs in succession *)

(** No filesystem request fails for a reason of its own (a missing file
    still answers ENOENT). *)
Definition fault_free (E : Env) : Prop := ∀ h op, io_fault E h op = None.

(** Two calls on the same path expect the same file. *)
Definition same_file (t t' : target) : bool :=
  String.eqb (t_method t) (t_method t') &&
  String.eqb (t_checksum t) (t_checksum t') &&
  (t_size t =? t_size t').

Definition consistent (ts : list target) : bool :=
  forallb (λ t, forallb (λ t',
    implb (String.eqb (t_path t) (t_path t')) (same_file t t')) ts) ts.

Definition agree (ts : list target) : Prop :=
  ∀ t t', t ∈ ts → t' ∈ ts → t_path t = t_path t' →
    t_method t = t_method t' ∧ t_checksum t = t_checksum t' ∧
    t_size t = t_size t'.

(** The state of a call of a batch, the files of the targets [D] being
    correct already: on one of these paths the call only verifies; on
    another path it returns only once its file is correct, and reads the
    checksum only of a file of the expected size. *)
Definition task_ok (L : Lib) (D : list target) (fs : gmap string bytes)
    (t : target) (p : prog bool) : Prop :=
  (t_path t ∈ t_path <$> D → quiet L t p) ∧
  (t_path t ∉ t_path <$> D →
     task_inv L t p ∧
     (is_ret p = true → correct L fs t) ∧
     (is_reading p = true →
        ∃ c, fs !! t_path t = Some c ∧ Z.of_nat (length c) = t_size t)).

(** The calls of a run over the asset indices [indices] on a disk that
    holds the index documents: for each index, the call for its document and
    one call for each object of its manifest. *)
Fixpoint plan (L : Lib) (assetsFolder : string) (fs : gmap string bytes)
    (indices : list AssetIndex) : option (list target) :=
  match indices with
  | [] => Some []
  | assetIndex :: rest =>
      match fs !! t_path (indexTarget L assetsFolder assetIndex) with
      | Some text =>
          match json_objects L text, plan L assetsFolder fs rest with
          | Fulfilled members, Some ts =>
              Some (indexTarget L assetsFolder assetIndex
                      :: (objectTarget L assetsFolder <$> dedupe members) ++ ts)
          | _, _ => None
          end
      | None => None
      end
  end.

(** What a run that only verifies records: no download request, no write,
    every call returns [false], and the summary counts no download. *)
Definition is_reuse (ev : event) : bool :=
  match ev with
  | EvIo (IoFetch _) | EvIo (IoWriteFile _ _) | EvIo (IoMkdir _)
  | EvIo (IoSleep _) => false
  | EvSettle _ r => bool_decide (r = Fulfilled false)
  | EvInfo (InfoDownloaded downloadedFiles _) => bool_decide (downloadedFiles = 0)
  | _ => true
  end.

(** The manifest of an asset index: what line 87 parses from the file of
    the index once the call of line 75 has returned. *)
Definition manifest_of (E : Env) (L : Lib) (assetsFolder : string)
    (assetIndex : AssetIndex) (w : World)
    (members : list (string * AssetObject)) : Prop :=
  let indexT := indexTarget L assetsFolder assetIndex in
  ∃ b w1 text w2,
    awaitCall E L indexT w = (Fulfilled b, w1) ∧
    perform E (IoReadFile (t_path indexT)) w1 = (Fulfilled text, w2) ∧
    json_objects L text = Fulfilled members.

(** ** Vocabulary for the further properties *)

(** Every request a program can make satisfies [P], whatever the answers
    to the requests before it. *)
Fixpoint only_requests {A} (P : io → Prop) (p : prog A) : Prop :=
  match p with
  | Await op k => P op ∧ ∀ r, only_requests P (k r)
  | _ => True
  end.

(** The requests of [downloadIfChanged(localPath, url, ...)]. *)
Definition call_request (L : Lib) (localPath url : string) (op : io) : Prop :=
  op = IoStat localPath ∨ op = IoReadStream localPath ∨ op = IoFetch url ∨
  op = IoSleep 2000 ∨ op = IoMkdir (path_dirname L localPath) ∨
  ∃ data, op = IoWriteFile localPath data.

(** The metadata URL line 251 finds for a version: that of the first entry
    of the manifest with this id. *)
Definition metaUrl (versions : list VersionEntry) (version : string)
    : option string :=
  v_url <$> List.find (λ v, String.eqb (v_id v) version) versions.

(** Between two worlds only the files written to in [new] differ. *)
Definition only_writes_change (w w' : World) (new : list event) : Prop :=
  ∀ path, (∀ data, EvIo (IoWriteFile path data) ∉ new) →
          files w' !! path = files w !! path.

(** The targets [downloadAssets] calls [downloadIfChanged] for. *)
Definition is_asset_target (L : Lib) (assetsFolder : string) (t : target)
    : Prop :=
  (∃ assetIndex, t = indexTarget L assetsFolder assetIndex) ∨
  (∃ object, t = objectTarget L assetsFolder object).

(** What a stretch of a run from [w] to [w'] with history [new] did. *)
Definition run_footprint (L : Lib) (assetsFolder : string) (w w' : World)
    (new : list event) : Prop :=
  log w' = new ++ log w ∧ only_writes_change w w' new ∧
  writes_accounted L new ∧
  Forall (is_asset_target L assetsFolder) (calls new).

(** Counting the calls by their outcome: the settlements of a history
    whose outcome satisfies [f], and the calls of a pool that have ended
    with such an outcome. *)
Definition settled_as (f : settled bool → bool) (ev : event) : bool :=
  match ev with EvSettle _ r => f r | _ => false end.

Definition state_as (f : settled bool → bool) (p : prog bool) : bool :=
  match p with
  | Ret b => f (Fulfilled b)
  | Throw e => f (Rejected e)
  | Await _ _ => false
  end.

Fixpoint tally (g : prog bool → bool) (pool : list (target * prog bool)) : nat :=
  match pool with
  | [] => 0
  | (_, p) :: rest => ((if g p then 1 else 0) + tally g rest)%nat
  end.

Definition returned (b : bool) (r : settled bool) : bool :=
  match r with Fulfilled b' => Bool.eqb b b' | Rejected _ => false end.

Definition is_downloaded : event → bool := settled_as (returned true).
Definition is_reused : event → bool := settled_as (returned false).

(** The elements of [l] that are not in [seen], each once, in the order
    they first occur. *)
Fixpoint first_seen (seen l : list string) : list string :=
  match l with
  | [] => []
  | x :: l' =>
      if bool_decide (x ∈ seen) then first_seen seen l'
      else x :: first_seen (x :: seen) l'
  end.

(** In the history [new] no path is written to twice, and a path that is
    written to is the path of one of [ts] and of none of [D]. *)
Definition written_once (D ts : list target) (new : list event) : Prop :=
  ∀ path,
    (count (is_write_to path) new ≤ 1)%nat ∧
    (count (is_write_to path) new ≠ 0%nat →
       (path ∉ t_path <$> D) ∧ path ∈ t_path <$> ts).

(** *** The operations of a call

    The events of a history that are the stat of a path, the start of a
    call, its settlement. *)
Definition is_stat_of (path : string) (ev : event) : bool :=
  match ev with EvIo (IoStat p) => bool_decide (p = path) | _ => false end.

Definition is_call_of (t : target) (ev : event) : bool :=
  match ev with EvCall t' => bool_decide (t' = t) | _ => false end.

Definition is_settle_of (t : target) (ev : event) : bool :=
  match ev with EvSettle t' _ => bool_decide (t' = t) | _ => false end.

(** How far a [downloadIfChanged] call has got: nothing done yet, the local
    file probed, the download requested, the file written. *)
Inductive stage : Type := Started | Probed | Requested | Written.

Definition stage_after (op : io) : stage :=
  match op with
  | IoStat _ | IoReadStream _ => Probed
  | IoFetch _ | IoSleep _ | IoMkdir _ => Requested
  | IoWriteFile _ _ => Written
  | IoReadFile _ | IoFolderSize _ => Started
  end.

(** The request a call for [t] may make at a stage: the stat of its path
    comes first and once; its checksum is read after that and before any
    download; it fetches its own URL; it sleeps and creates directories
    only after a fetch; it writes its own path after a fetch, once. *)
Definition op_at (t : target) (st : stage) (op : io) : Prop :=
  match op with
  | IoStat path => path = t_path t ∧ st = Started
  | IoReadStream path => path = t_path t ∧ st = Probed
  | IoFetch url => url = t_url t ∧ (st = Probed ∨ st = Requested)
  | IoSleep _ | IoMkdir _ => st = Requested
  | IoWriteFile path _ => path = t_path t ∧ st = Requested
  | IoReadFile _ | IoFolderSize _ => False
  end.

(** [follows t st p]: the call for [t] that has reached stage [st] and is
    in state [p] makes its requests in that order, returns [false] only
    without having requested a download, and [true] only after its
    write. *)
Fixpoint follows (t : target) (st : stage) (p : prog bool) : Prop :=
  match p with
  | Ret b => if b then st = Written else st = Probed
  | Throw _ => True
  | Await op k => op_at t st op ∧ ∀ r, follows t (stage_after op) (k r)
  end.

Definition stats_at (st : stage) : nat :=
  match st with Started => 0 | _ => 1 end.
Definition writes_at (st : stage) : nat :=
  match st with Written => 1 | _ => 0 end.
Definition has_requested (st : stage) : bool :=
  match st with Requested | Written => true | _ => false end.

(** What a history holds of a call for [t] that returned [b]: one start and
    one settlement, with [b]; one stat of its path; one write to its path
    when it returned [true] and none when it returned [false]; and a
    request for its URL when it returned [true]. *)
Definition operated (t : target) (b : bool) (new : list event) : Prop :=
  count (is_call_of t) new = 1%nat ∧
  count (is_settle_of t) new = 1%nat ∧
  EvSettle t (Fulfilled b) ∈ new ∧
  count (is_stat_of (t_path t)) new = 1%nat ∧
  count (is_write_to (t_path t)) new = (if b then 1 else 0)%nat ∧
  (b = true → EvIo (IoFetch (t_url t)) ∈ new).

(** The history [new] is that of the calls for [ts], each of which returned:
    every one of them operated, and nothing else was probed, written,
    started or settled. *)
Definition operations (ts : list target) (new : list event) : Prop :=
  (∀ t, t ∈ ts → ∃ b, operated t b new) ∧
  (∀ path, path ∉ t_path <$> ts →
     count (is_stat_of path) new = 0%nat ∧
     count (is_write_to path) new = 0%nat) ∧
  (∀ t, t ∉ ts →
     count (is_call_of t) new = 0%nat ∧ count (is_settle_of t) new = 0%nat).


(** *** The action

    [scraped]: what the scrape of the version file gives, [undefined] when
    one of the two inputs is empty.  [effective_versions]: the configured
    versions, followed by the version found in the file when that is a
    non-empty string. *)
Definition scraped (T : Toolkit) (E : Env) (R : Runtime) (w : World)
    : settled (option string) :=
  let file := getInput T "minecraft-version-file" in
  let regexp := getInput T "minecraft-version-regexp" in
  if truthy (Some file) && truthy (Some regexp)
  then (exec E (guessCurrentMinecraftVersionFromFile R file regexp) w).1
  else Fulfilled None.

Definition effective_versions (T : Toolkit) (E : Env) (R : Runtime) (w : World)
    : list string :=
  getMultilineInput T "minecraft-versions" ++
  match scraped T E R w with
  | Fulfilled (Some v) => if String.eqb v "" then [] else [v]
  | _ => []
  end.

(** The world after lines 17-30: the version file has been read when both
    inputs are given. *)
Definition scrape_world (T : Toolkit) (w : World) : World :=
  let file := getInput T "minecraft-version-file" in
  let regexp := getInput T "minecraft-version-regexp" in
  if truthy (Some file) && truthy (Some regexp)
  then record (EvIo (IoReadFile file)) w else w.

Definition is_save (n : notice) : bool :=
  match n with NoteSave _ _ => true | _ => false end.
Definition is_restore (n : notice) : bool :=
  match n with NoteRestore _ _ _ => true | _ => false end.

(** A version as an input line gives it: not empty, and without a line
    feed.  What follows an element in a joined list: nothing, or a line
    feed and more. *)
Definition one_line (s : string) : Prop :=
  s ≠ "" ∧ "010"%char ∉ list_ascii_of_string s.

Definition line_tail (t : string) : Prop :=
  t = "" ∨ ∃ t', t = String "010" t'.

(** ** A concrete environment

    A small instance of the library and of the environment, on which the
    statements below are evaluated. *)
Module Example.

(** A stand-in for the hash: the sum of the bytes, in decimal. *)
Definition toy_digest (method : string) (b : bytes) : string :=
  pretty (foldr (λ x acc, Z.of_N (Byte.to_N x) + acc) 0 b).

(** [join] with "/" and [dirname] as "everything before the last /". *)
Fixpoint toy_join (segments : list string) : string :=
  match segments with
  | [] => ""
  | [s] => s
  | s :: rest => s +:+ "/" +:+ toy_join rest
  end.

Fixpoint toy_dirname (p : string) : string :=
  match p with
  | EmptyString => ""
  | String c rest =>
      if existsb (Ascii.eqb "/") (list_ascii_of_string rest)
      then String c (toy_dirname rest) else ""
  end.

(** Documents are spelled in bytes as follows: every byte of a version
    manifest names the version ["v<byte>"], whose metadata lives at
    ["meta/<byte>"]; a metadata document is three bytes: the name, the
    checksum and the size of the asset index; every byte [n] of an asset index is an object with hash [n] in
    decimal and size 1, listed under the logical path ["p<position>"]. *)
Definition name_of (x : Byte.byte) : string := pretty (Byte.to_N x).

Definition toy_versions (doc : bytes) : settled (list VersionEntry) :=
  Fulfilled (map (λ x, {| v_id := "v" +:+ name_of x;
                          v_url := "meta/" +:+ name_of x |}) doc).

Definition toy_assetIndex (doc : bytes) : settled AssetIndex :=
  match doc with
  | [x; sum; len] =>
      Fulfilled {| ai_id := name_of x; ai_url := "index/" +:+ name_of x;
                   ai_sha1 := name_of sum; ai_size := Z.of_N (Byte.to_N len);
                   ai_has_proto := false |}
  | _ => Rejected (JsError "Unexpected end of JSON input")
  end.

Definition toy_objects (doc : bytes) : settled (list (string * AssetObject)) :=
  Fulfilled (imap (λ i x, ("p" +:+ pretty i,
                           {| hash := name_of x; size := 1 |})) doc).

Definition lib : Lib :=
  {| digest := toy_digest; path_join := toy_join; path_dirname := toy_dirname;
     json_versions := toy_versions; json_assetIndex := toy_assetIndex;
     json_objects := toy_objects |}.

Definition payload : bytes := ["001"%byte; "002"%byte].

(** The file of the test "returns the first match in the file". *)
Definition newline : string := String "010" EmptyString.
Definition gradle_properties : string :=
  "hello world" +:+ newline +:+ "#minecraft_version=1.10" +:+ newline
  +:+ "minecraft_version=1.21.1" +:+ newline.

(** A network that answers every request with [serve], a disk without
    failures, and an event loop that resumes calls in launch order. *)
Definition calm (serve : list event → string → settled response) : Env :=
  {| remote := serve;
     io_fault := λ _ _, None;
     torn := λ _ _ _, None;
     folder_bytes := λ fs _, map_fold (λ _ b acc, Z.of_nat (length b) + acc) 0 fs;
     schedule := λ _, [] |}.

Definition good : settled response :=
  Fulfilled {| status := 200; body := Fulfilled payload |}.
Definition unavailable : settled response :=
  Fulfilled {| status := 500; body := Fulfilled [] |}.

(** The server is down for the first [n] requests. *)
Definition flaky (n : nat) : Env :=
  calm (λ h _, if (count is_fetch h <? n)%nat then unavailable else good).

Definition empty_world : World := {| files := ∅; log := [] |}.

(** The world after the file of the examples has been fetched once. *)
Definition fetched_world : World :=
  {| files := {[ "assets/objects/3" := payload ]};
     log := [EvIo (IoWriteFile "assets/objects/3" payload);
             EvIo (IoMkdir "assets/objects");
             EvIo (IoFetch "http://origin/3");
             EvIo (IoStat "assets/objects/3")] |}.

Definition probed_world : World :=
  {| files := ∅; log := [EvIo (IoStat "assets/objects/3")] |}.

(** The server answers, but the disk is full: every [writeFile] fails with
    ENOSPC after one byte has reached the file. *)
Definition full_disk : Env :=
  {| remote := λ _ _, good;
     io_fault := λ _ op, match op with
                         | IoWriteFile _ _ => Some (SystemError "ENOSPC")
                         | _ => None
                         end;
     torn := λ _ _ _, Some 1%nat;
     folder_bytes := λ _ _, 0;
     schedule := λ _, [] |}.

(** A file of the expected size and the wrong content is on disk. *)
Definition stale : bytes := ["009"%byte; "009"%byte].
Definition stale_world : World :=
  {| files := {[ "assets/objects/3" := stale ]}; log := [] |}.

(** A small origin: two versions that share the asset index "9", whose
    three logical paths name two distinct objects. *)
Definition site : list (string * bytes) :=
  [ (versionManifestUrl, ["007"%byte; "008"%byte]);
    ("meta/7", ["009"%byte; "004"%byte; "003"%byte]);
    ("meta/8", ["009"%byte; "004"%byte; "003"%byte]);
    ("index/9", ["001"%byte; "002"%byte; "001"%byte]);
    ("https://resources.download.minecraft.net/1/1", ["001"%byte]);
    ("https://resources.download.minecraft.net/2/2", ["002"%byte]) ].

Definition origin : Env :=
  calm (λ _ url,
    match obj_get url site with
    | Some b => Fulfilled {| status := 200; body := Fulfilled b |}
    | None => Fulfilled {| status := 404; body := Fulfilled [] |}
    end).

(** The same origin after the metadata of v7 has been lost: the manifest
    still lists the version. *)
Definition lost_meta : Env :=
  calm (λ _ url,
    match obj_get url (filter (λ kv, kv.1 ≠ "meta/7") site) with
    | Some b => Fulfilled {| status := 200; body := Fulfilled b |}
    | None => Fulfilled {| status := 404; body := Fulfilled [] |}
    end).

Definition catalog : list VersionEntry :=
  [ {| v_id := "v7"; v_url := "meta/7" |};
    {| v_id := "v8"; v_url := "meta/8" |} ].

Definition two_objects : list AssetObject :=
  [ {| hash := "1"; size := 1 |}; {| hash := "2"; size := 1 |} ].

(** The run of the chunk loop over the two objects on an empty disk. *)
Definition two_objects_run : settled Z * World :=
  Eval vm_compute in
    downloadChunks origin lib 2 "assets" two_objects 0 0 empty_world.

(** The asset index "9" of the origin, and its synchronization on an empty
    disk. *)
Definition index9 : AssetIndex :=
  {| ai_id := "9"; ai_url := "index/9"; ai_sha1 := "4"; ai_size := 3;
     ai_has_proto := false |}.

Definition index9_run : settled unit * World :=
  Eval vm_compute in syncIndex origin lib "assets" index9 empty_world.

(** A first run for the two versions of the catalog on an empty disk. *)
Definition first_run : settled unit * World :=
  Eval vm_compute in downloadAssets origin lib ["v7"; "v8"] "assets" empty_world.

(** Disks that refuse requests: every [stat] fails with EACCES; every
    read of a checksum fails with EIO. *)
Definition denied : Env :=
  {| remote := λ _ _, good;
     io_fault := λ _ op, match op with
                         | IoStat _ => Some (SystemError "EACCES")
                         | _ => None
                         end;
     torn := λ _ _ _, None;
     folder_bytes := λ _ _, 0;
     schedule := λ _, [] |}.

Definition unreadable : Env :=
  {| remote := λ _ _, good;
     io_fault := λ _ op, match op with
                         | IoReadStream _ => Some (SystemError "EIO")
                         | _ => None
                         end;
     torn := λ _ _ _, None;
     folder_bytes := λ _ _, 0;
     schedule := λ _, [] |}.

(** A manifest that lists one content under two names, with sizes that
    disagree. *)
Definition twice_listed : list (string * AssetObject) :=
  [ ("icons/icon.png", {| hash := "da39a3ee"; size := 1 |});
    ("lang/en.json", {| hash := "77de68da"; size := 2 |});
    ("icons/copy.png", {| hash := "da39a3ee"; size := 3 |}) ].

(** The network is unreachable after [n] answered requests. *)
Definition unreachable_after (n : nat) : Env :=
  calm (λ h _, if (count is_fetch h <? n)%nat then unavailable
               else Rejected (JsError "fetch failed")).

(** A project whose properties file names the version v8, and a runner
    configured for v7 under the cache key "minecraft-assets": the cache
    service is there or not, and it has a cache under the exact key or
    none at all. *)
Definition project_world : World :=
  {| files := {[ "gradle.properties" :=
                   list_byte_of_string ("minecraft_version=v8" +:+ newline) ]};
     log := [] |}.

Definition inputs (regexp : string) (name : string) : string :=
  if String.eqb name "cache-key" then "minecraft-assets"
  else if String.eqb name "minecraft-version-file" then "gradle.properties"
  else if String.eqb name "minecraft-version-regexp" then regexp
  else "".

Definition runner (regexp : string) (available hit : bool) : Toolkit :=
  {| getInput := inputs regexp;
     getMultilineInput := λ _, ["v7"];
     isFeatureAvailable := available;
     restoreCache := λ w _ key _,
       (Fulfilled (if hit then Some key else None), files w);
     saveCache := λ _ _ _, Fulfilled 1 |}.

Definition version_line : string := "/^minecraft_version=(.+)$/m".
Definition fresh_job : Job := {| world := project_world; notices := [] |}.

(** The run that finds no cache, and the run that finds the exact one. *)
Definition saving_run : settled unit * Job :=
  Eval vm_compute in
    run (runner version_line true false) origin lib fragment fresh_job.

Definition hit_run : settled unit * Job :=
  Eval vm_compute in
    run (runner version_line true true) origin lib fragment fresh_job.

(** Another origin: the versions v7 and v8 have asset indices of their own,
    "9" and "10", which share the object 2. *)
Definition shared_site : list (string * bytes) :=
  [ (versionManifestUrl, ["007"%byte; "008"%byte]);
    ("meta/7", ["009"%byte; "003"%byte; "002"%byte]);
    ("meta/8", ["010"%byte; "005"%byte; "002"%byte]);
    ("index/9", ["001"%byte; "002"%byte]);
    ("index/10", ["002"%byte; "003"%byte]);
    ("https://resources.download.minecraft.net/1/1", ["001"%byte]);
    ("https://resources.download.minecraft.net/2/2", ["002"%byte]);
    ("https://resources.download.minecraft.net/3/3", ["003"%byte]) ].

Definition shared_origin : Env :=
  calm (λ _ url,
    match obj_get url shared_site with
    | Some b => Fulfilled {| status := 200; body := Fulfilled b |}
    | None => Fulfilled {| status := 404; body := Fulfilled [] |}
    end).

Definition shared_run : settled unit * World :=
  Eval vm_compute in
    downloadAssets shared_origin lib ["v7"; "v8"] "assets" empty_world.

End Example.

(** * Properties *)

(** ** JavaScript objects *)

Section JsObjects.
Context {V : Type}.
Implicit Types o : jsobj V.

Lemma insert_by_index_perm (i : N) (kv : string * V) sorted :
  insert_by_index i kv sorted ≡ₚ (i, kv) :: sorted.
Proof.
  induction sorted as [|[j kv'] rest IH]; simpl; [done|].
  destruct (i <? j)%N; [done|]. rewrite IH. apply Permutation_swap.
Qed.

Lemma indexed_properties_perm o :
  (indexed_properties o).*2 ≡ₚ filter (λ kv, ¬ array_index kv.1 = None) o.
Proof.
  induction o as [|kv o IH]; [done|]. unfold indexed_properties.
  cbn [foldr]. fold (indexed_properties o).
  destruct (array_index kv.1) as [i|] eqn:Hi.
  - rewrite insert_by_index_perm, fmap_cons. cbn [snd].
    rewrite filter_cons_True by (by rewrite Hi). by rewrite IH.
  - rewrite filter_cons_False by (rewrite Hi; by intros []). done.
Qed.

(** Enumeration lists every own property exactly once. *)
Lemma own_properties_perm o : own_properties o ≡ₚ o.
Proof.
  unfold own_properties. rewrite indexed_properties_perm.
  rewrite (comm (++)). apply filter_app_complement.
Qed.

Lemma Object_values_perm o : Object_values o ≡ₚ o.*2.
Proof. unfold Object_values. by rewrite own_properties_perm. Qed.

Lemma Object_keys_perm o : Object_keys o ≡ₚ o.*1.
Proof. unfold Object_keys. by rewrite own_properties_perm. Qed.

Lemma obj_set_keys key value o k :
  k ∈ (obj_set key value o).*1 ↔ k = key ∨ k ∈ o.*1.
Proof.
  induction o as [|[k' v'] o IH]; csimpl.
  - rewrite list_elem_of_singleton, elem_of_nil. tauto.
  - destruct (String.eqb_spec k' key) as [->|Hne]; csimpl.
    + rewrite !elem_of_cons. tauto.
    + rewrite !elem_of_cons, IH. tauto.
Qed.

Lemma obj_set_NoDup key value o :
  NoDup o.*1 → NoDup (obj_set key value o).*1.
Proof.
  induction o as [|[k' v'] o IH]; csimpl.
  - intros _. apply NoDup_singleton.
  - intros [Hnin Hnd]%NoDup_cons.
    destruct (String.eqb_spec k' key) as [->|Hne]; csimpl.
    + by apply NoDup_cons.
    + apply NoDup_cons. split; [|by apply IH].
      rewrite obj_set_keys. intros [?|?]; done.
Qed.

Lemma obj_set_elem key value o k v :
  (k, v) ∈ obj_set key value o →
  (k = key ∧ v = value) ∨ (k, v) ∈ o.
Proof.
  induction o as [|[k' v'] o IH]; simpl.
  - intros [= -> ->]%list_elem_of_singleton. by left.
  - destruct (String.eqb_spec k' key) as [->|Hne].
    + intros [[= -> ->]|?]%elem_of_cons; [by left|]. right. by right.
    + intros [[= -> ->]|Hin]%elem_of_cons; [right; by left|].
      destruct (IH Hin) as [?|?]; [by left|]. right. by right.
Qed.

Lemma obj_set_value key value o :
  NoDup o.*1 → ∀ v, (key, v) ∈ obj_set key value o → v = value.
Proof.
  induction o as [|[k' v'] o IH]; csimpl.
  - by intros _ v [= ->]%list_elem_of_singleton.
  - intros [Hnin Hnd]%NoDup_cons v.
    destruct (String.eqb_spec k' key) as [->|Hne].
    + intros [[= ->]|Hin]%elem_of_cons; [done|]. destruct Hnin.
      apply list_elem_of_fmap. by exists (key, v).
    + intros [[= -> ->]|Hin]%elem_of_cons; [done|]. by apply IH.
Qed.

Lemma obj_set_other key value o k v :
  k ≠ key → (k, v) ∈ o → (k, v) ∈ obj_set key value o.
Proof.
  intros Hne. induction o as [|[k' v'] o IH]; simpl; [by intros ?%elem_of_nil|].
  destruct (String.eqb_spec k' key) as [->|Hne'].
  - intros [[= -> ->]|?]%elem_of_cons; [done|]. by right.
  - intros [[= -> ->]|?]%elem_of_cons; [by left|]. right. by apply IH.
Qed.

(** Setting the properties [entries] one after the other. *)
Lemma foldl_obj_set entries : ∀ o,
  NoDup o.*1 →
  let o' := foldl (λ o kv, obj_set kv.1 kv.2 o) o entries in
  NoDup o'.*1 ∧
  (∀ k, k ∈ o'.*1 ↔ k ∈ o.*1 ∨ k ∈ entries.*1) ∧
  (∀ k v, (k, v) ∈ o' → (k, v) ∈ o ∨ (k, v) ∈ entries).
Proof.
  induction entries as [|[k0 v0] entries IH]; intros o Hnd; csimpl.
  - split_and!; [done| |by left]. intros k. rewrite elem_of_nil. tauto.
  - destruct (IH (obj_set k0 v0 o) (obj_set_NoDup k0 v0 o Hnd))
      as (Hnd' & Hkeys & Helem).
    split_and!; [done| |].
    + intros k. rewrite Hkeys, obj_set_keys, elem_of_cons. tauto.
    + intros k v Hin. destruct (Helem k v Hin) as [Hin'|Hin'].
      * apply obj_set_elem in Hin' as [[-> ->]|?]; [right; by left|by left].
      * right. by right.
Qed.

Lemma Object_fromEntries_spec (entries : list (string * V)) :
  NoDup (Object_fromEntries entries).*1 ∧
  (∀ k, k ∈ (Object_fromEntries entries).*1 ↔ k ∈ entries.*1) ∧
  (∀ k v, (k, v) ∈ Object_fromEntries entries → (k, v) ∈ entries).
Proof.
  destruct (foldl_obj_set entries [] (NoDup_nil_2)) as (Hnd & Hkeys & Helem).
  split_and!; [done| |].
  - intros k. rewrite Hkeys. rewrite elem_of_nil. tauto.
  - intros k v Hin. by destruct (Helem k v Hin) as [?%elem_of_nil|?].
Qed.

(** Assigning the values [values] one after the other under their names:
    the names stay distinct, every property is one of the values under its
    own name, and every name but [__proto__] has a property. *)
Lemma foldl_obj_assign (shadows : V → bool) (name : V → string) values :
  ∀ st : jsobj V * option V,
  NoDup st.1.*1 →
  let st' := foldl (λ st a, obj_assign shadows (name a) a st) st values in
  NoDup st'.1.*1 ∧
  (∀ k, k ∈ st.1.*1 → k ∈ st'.1.*1) ∧
  (∀ a, a ∈ values → name a ≠ "__proto__" → name a ∈ st'.1.*1) ∧
  (∀ k v, (k, v) ∈ st'.1 → (k, v) ∈ st.1 ∨ (k = name v ∧ v ∈ values)) ∧
  ((∀ a, a ∈ values → name a ≠ "__proto__") →
   st' = (foldl (λ own a, obj_set (name a) a own) st.1 values, st.2)).
Proof.
  induction values as [|a values IH]; intros st Hnd; cbn [foldl].
  - split_and!; try done.
    + by intros a ?%elem_of_nil.
    + intros k v ?. by left.
    + intros _. by destruct st.
  - assert (Hnd' : NoDup (obj_assign shadows (name a) a st).1.*1).
    { unfold obj_assign. destruct (sets_prototype _ _ _ _); [done|].
      by apply obj_set_NoDup. }
    assert (Hkeep : ∀ k, k ∈ st.1.*1 → k ∈ (obj_assign shadows (name a) a st).1.*1).
    { intros k Hk. unfold obj_assign.
      destruct (sets_prototype _ _ _ _); [done|].
      cbn [fst]. rewrite obj_set_keys. by right. }
    destruct (IH _ Hnd') as (Hnd2 & Hkeys & Hnames & Helem & Hplain).
    split_and!; [done| | | |].
    + intros k Hk. by apply Hkeys, Hkeep.
    + intros a' [->|Hin]%elem_of_cons Hne; [|by apply Hnames].
      apply Hkeys. unfold obj_assign, sets_prototype.
      destruct (String.eqb_spec (name a) "__proto__") as [?|_]; [done|].
      cbn [andb fst]. rewrite obj_set_keys. by left.
    + intros k v Hin. destruct (Helem k v Hin) as [Hin'|[-> Hin']].
      * unfold obj_assign in Hin'.
        destruct (sets_prototype _ _ _ _); [by left|]. cbn [fst] in Hin'.
        apply obj_set_elem in Hin' as [[-> ->]|?]; [|by left].
        right. split; [done|by left].
      * right. split; [done|by right].
    + intros Hall. rewrite Hplain by (intros a' Ha'; apply Hall; by right).
      unfold obj_assign, sets_prototype.
      destruct (String.eqb_spec (name a) "__proto__") as [Heq|_]; [|done].
      destruct (Hall a); [by left|done].
Qed.

End JsObjects.

(** ** Running programs *)

Section ExecFacts.
Context (E : Env).

Lemma exec_bind {A B} (p : prog A) (f : A → prog B) w :
  exec E (p ≫= f) w =
  match exec E p w with
  | (Fulfilled a, w') => exec E (f a) w'
  | (Rejected e, w') => (Rejected e, w')
  end.
Proof.
  revert w. induction p as [a|e|op k IH]; intros w; simpl; try done.
  destruct (perform E op w) as [r w1]. apply IH.
Qed.

Lemma exec_await (op : io) w :
  exec E (await op) w = perform E op w.
Proof.
  unfold await. simpl. destruct (perform E op w) as [[v|e] w1]; done.
Qed.

Lemma perform_log op w : log (perform E op w).2 = EvIo op :: log w.
Proof. destruct op; simpl; try done; by destruct (io_fault E _ _). Qed.

Lemma perform_files op w :
  is_write (EvIo op) = false → files (perform E op w).2 = files w.
Proof. destruct op; simpl; done. Qed.

Lemma count_app f h1 h2 : count f (h1 ++ h2) = (count f h1 + count f h2)%nat.
Proof. induction h1 as [|ev h1 IH]; simpl; [done|]. rewrite IH. lia. Qed.

End ExecFacts.

(** ** The retry loop *)

Section FetchLoop.
Context (E : Env) (L : Lib).
Context (url method checksum : string) (size : Z).

Local Abbreviation loop := (fetchLoop L url method checksum size).

Lemma after_failures_S k h :
  after_failures url (S k) h =
  after_failures url k (EvIo (IoSleep 2000) :: EvIo (IoFetch url) :: h).
Proof. induction k as [|k IH]; [done|]. simpl in *. by rewrite IH. Qed.

Lemma after_failures_app k h :
  after_failures url k h = after_failures url k [] ++ h.
Proof. induction k as [|k IH]; simpl; [done|]. by rewrite IH. Qed.

Lemma count_fetch_after_failures k :
  count is_fetch (after_failures url k []) = k.
Proof. induction k as [|k IH]; simpl; [done|]. by rewrite IH. Qed.

Lemma count_write_after_failures k :
  count is_write (after_failures url k []) = 0%nat.
Proof. induction k as [|k IH]; simpl; done. Qed.

(** A retryable attempt costs one fetch and one sleep and leaves the loop
    with one iteration less and the reason recorded. *)
Lemma fetchLoop_retry n le buf w reason :
  retryable L method checksum size (remote E (log w) url) reason →
  ∃ buf',
    exec E (loop (S n) le buf) w =
    exec E (loop n (Some reason) buf')
      {| files := files w;
         log := EvIo (IoSleep 2000) :: EvIo (IoFetch url) :: log w |}.
Proof.
  intros (res & Hr & Hcase). cbn [fetchLoop].
  rewrite exec_bind, (exec_await E (IoFetch url)). simpl. rewrite Hr.
  destruct Hcase as [[Hok ->]|[(Hok & b & Hb & Hlen & ->)|(Hok & b & Hb & Hlen & Hd & ->)]];
    rewrite Hok; simpl.
  - by exists buf.
  - rewrite Hb. apply Z.eqb_neq in Hlen. rewrite Hlen. simpl.
    by exists (Some b).
  - rewrite Hb. apply Z.eqb_eq in Hlen. rewrite Hlen. simpl.
    apply String.eqb_neq in Hd. rewrite Hd. simpl.
    by exists (Some b).
Qed.

(** An acceptable attempt leaves the loop at once ([break]). *)
Lemma fetchLoop_accept n le buf w b :
  acceptable L method checksum size (remote E (log w) url) b →
  exec E (loop (S n) le buf) w =
  (Fulfilled (None, Some b),
   {| files := files w; log := EvIo (IoFetch url) :: log w |}).
Proof.
  intros (res & Hr & Hok & Hb & Hlen & Hd). cbn [fetchLoop].
  rewrite exec_bind, (exec_await E (IoFetch url)). simpl. rewrite Hr, Hok, Hb.
  apply Z.eqb_eq in Hlen. rewrite Hlen. simpl.
  apply String.eqb_eq in Hd. rewrite Hd. done.
Qed.

(** A failure of the request itself is thrown out of the loop at once. *)
Lemma fetchLoop_transport n le buf w e :
  transport_failure (remote E (log w) url) e →
  exec E (loop (S n) le buf) w =
  (Rejected e, {| files := files w; log := EvIo (IoFetch url) :: log w |}).
Proof.
  intros [Hr|(res & Hr & Hok & Hb)]; cbn [fetchLoop];
    rewrite exec_bind, (exec_await E (IoFetch url)); simpl; rewrite Hr; [done|].
  rewrite Hok, Hb. done.
Qed.

(** [k] retryable attempts in a row. *)
Lemma fetchLoop_retries k : ∀ n le buf w reason,
  (∀ i, (i < k)%nat → ∃ r,
     retryable L method checksum size
       (remote E (after_failures url i (log w)) url) r) →
  retryable L method checksum size
    (remote E (after_failures url k (log w)) url) reason →
  ∃ buf',
    exec E (loop (S k + n) le buf) w =
    exec E (loop n (Some reason) buf')
      {| files := files w; log := after_failures url (S k) (log w) |}.
Proof.
  induction k as [|k IH]; intros n le buf w reason Hbefore Hlast.
  - simpl in Hlast. apply (fetchLoop_retry n le buf) in Hlast. done.
  - destruct (Hbefore 0%nat) as [r0 Hr0]; [lia|]. simpl in Hr0.
    destruct (fetchLoop_retry (S k + n) le buf w r0 Hr0) as [buf1 Heq].
    replace (S (S k) + n)%nat with (S (S k + n)) by lia. rewrite Heq.
    set (w1 := {| files := files w; log := _ |}).
    destruct (IH n (Some r0) buf1 w1 reason) as [buf' Heq'].
    + intros i Hi. destruct (Hbefore (S i)) as [r Hr]; [lia|].
      exists r. rewrite after_failures_S in Hr. done.
    + rewrite after_failures_S in Hlast. done.
    + exists buf'. rewrite Heq'. f_equal.
      rewrite (after_failures_S (S k)). done.
Qed.

(** [k] retryable attempts in a row, when the last reason does not matter. *)
Lemma fetchLoop_failures k : ∀ n le buf w,
  (∀ i, (i < k)%nat → ∃ r,
     retryable L method checksum size
       (remote E (after_failures url i (log w)) url) r) →
  ∃ le' buf',
    exec E (loop (k + n) le buf) w =
    exec E (loop n le' buf')
      {| files := files w; log := after_failures url k (log w) |}.
Proof.
  destruct k as [|k]; intros n le buf w Hfail.
  - exists le, buf. by destruct w.
  - destruct (Hfail k) as [reason Hlast]; [lia|].
    destruct (fetchLoop_retries k n le buf w reason) as [buf' Heq];
      [intros i Hi; apply Hfail; lia|done|].
    by exists (Some reason), buf'.
Qed.

Lemma retryable_truthy r reason :
  retryable L method checksum size r reason → truthy (Some reason) = true.
Proof.
  intros (res & _ & [[_ ->]|[(_ & b & _ & _ & ->)|(_ & b & _ & _ & _ & ->)]]);
    done.
Qed.

End FetchLoop.

(** ** [downloadIfChanged] on its own *)

Section DownloadIfChanged.
Context (E : Env) (L : Lib).

(** Whatever the network does, the retry loop fetches at most as often as
    it has iterations, touches no file, and is left without an error only
    with a buffer of the expected size and digest. *)
Lemma fetchLoop_general url method checksum size n : ∀ le buf w r w',
  exec E (fetchLoop L url method checksum size n le buf) w = (r, w') →
  ∃ new, log w' = new ++ log w ∧ files w' = files w ∧
    (count is_fetch new ≤ n)%nat ∧ ((0 < n)%nat → (1 ≤ count is_fetch new)%nat) ∧
    count is_write new = 0%nat ∧ count is_checksum_read new = 0%nat ∧
    ∀ le' buf', r = Fulfilled (le', buf') →
      (truthy le = true ∨ (0 < n)%nat) →
      truthy le' = true ∨
      (le' = None ∧ ∃ b, buf' = Some b ∧ Z.of_nat (length b) = size ∧
                         digest L method b = checksum).
Proof.
  induction n as [|n IH]; intros le buf w r w' Hexec.
  - simpl in Hexec. injection Hexec as <- <-. exists []. simpl.
    repeat split; try done; try lia.
    intros le' buf' [= <- <-] [H|H]; [by left | lia].
  - cbn [fetchLoop] in Hexec.
    rewrite exec_bind, (exec_await E (IoFetch url)) in Hexec. simpl in Hexec.
    assert (Hstep : ∀ le1 buf1 r1 w1,
      truthy le1 = true →
      exec E (fetchLoop L url method checksum size n le1 buf1)
        (record (EvIo (IoSleep 2000)) (record (EvIo (IoFetch url)) w))
        = (r1, w1) →
      ∃ new, log w1 = new ++ log w ∧ files w1 = files w ∧
        (count is_fetch new ≤ S n)%nat ∧
        ((0 < S n)%nat → (1 ≤ count is_fetch new)%nat) ∧
        count is_write new = 0%nat ∧ count is_checksum_read new = 0%nat ∧
        ∀ le' buf', r1 = Fulfilled (le', buf') →
          (truthy le = true ∨ (0 < S n)%nat) →
          truthy le' = true ∨
          (le' = None ∧ ∃ b, buf' = Some b ∧ Z.of_nat (length b) = size ∧
                             digest L method b = checksum)).
    { intros le1 buf1 r1 w1 Hle1 Hrun.
      destruct (IH _ _ _ _ _ Hrun) as (new & Hlog & Hfiles & Hle & _ & Hw & Hc & Hres).
      exists (new ++ [EvIo (IoSleep 2000); EvIo (IoFetch url)]).
      rewrite Hlog, <- app_assoc, !count_app. simpl.
      repeat split; try done; try lia.
      intros le' buf' Hr _. apply (Hres le' buf' Hr). by left. }
    destruct (remote E (log w) url) as [res|e].
    + destruct (ok res).
      * destruct (body res) as [b|e].
        -- destruct (Z.of_nat (length b) =? size) eqn:Hlen; simpl in Hexec.
           ++ destruct (digest L method b =? checksum)%string eqn:Hd;
                simpl in Hexec.
              ** injection Hexec as <- <-. exists [EvIo (IoFetch url)].
                 simpl. repeat split; try done; try lia.
                 intros le' buf' [= <- <-] _. right. split; [done|].
                 exists b. apply Z.eqb_eq in Hlen.
                 apply String.eqb_eq in Hd. done.
              ** eapply Hstep; [|exact Hexec]. done.
           ++ eapply Hstep; [|exact Hexec]. done.
        -- simpl in Hexec. injection Hexec as <- <-.
           exists [EvIo (IoFetch url)]. simpl.
           repeat split; try done; lia.
      * simpl in Hexec. eapply Hstep; [|exact Hexec]. done.
    + simpl in Hexec. injection Hexec as <- <-.
      exists [EvIo (IoFetch url)]. simpl. repeat split; try done; lia.
Qed.

Lemma count_zero_not_in f h ev :
  count f h = 0%nat → f ev = true → ev ∉ h.
Proof.
  intros Hc Hf Hin. induction h as [|ev' h IH]; [by apply elem_of_nil in Hin|].
  simpl in Hc. apply elem_of_cons in Hin as [<-|Hin].
  - rewrite Hf in Hc. lia.
  - apply IH; [|done]. lia.
Qed.

(** The download phase: between one and five fetches, no checksum read,
    at most one write, and that write stores an accepted body at the target
    path.  A fulfilled call returned [true] after such a write. *)
Lemma fetchAndWrite_general path url method checksum size w r w' :
  exec E (fetchAndWrite L path url method checksum size) w = (r, w') →
  ∃ new, log w' = new ++ log w ∧
    (1 ≤ count is_fetch new ≤ maxDownloadRetries)%nat ∧
    count is_checksum_read new = 0%nat ∧
    (∀ p, p ≠ path → files w' !! p = files w !! p) ∧
    (∀ p d, EvIo (IoWriteFile p d) ∈ new →
       p = path ∧ Z.of_nat (length d) = size ∧ digest L method d = checksum) ∧
    (∀ b, r = Fulfilled b →
       b = true ∧ ∃ data, EvIo (IoWriteFile path data) ∈ new ∧
         files w' = <[path := data]> (files w) ∧
         Z.of_nat (length data) = size ∧ digest L method data = checksum) ∧
    (count is_write new = 0%nat → files w' = files w).
Proof.
  unfold fetchAndWrite. rewrite exec_bind.
  destruct (exec E (fetchLoop _ _ _ _ _ _ _ _) w) as [[[le buf]|e] w1] eqn:Hloop;
    apply fetchLoop_general in Hloop
      as (new & Hlog & Hfiles & Hle & Hge & Hw & Hc & Hres); intros Hexec.
  2:{ injection Hexec as <- <-. exists new. rewrite Hfiles.
      split_and!; try done.
      - apply Hge. unfold maxDownloadRetries. lia.
      - intros p d Hin. by apply (count_zero_not_in _ _ _ Hw) in Hin. }
  assert (Hnow : ∀ p d, EvIo (IoWriteFile p d) ∈ new → False).
  { intros p d Hin. by apply (count_zero_not_in _ _ _ Hw) in Hin. }
  assert (1 ≤ count is_fetch new)%nat as Hge1.
  { apply Hge. unfold maxDownloadRetries. lia. }
  destruct (Hres le buf eq_refl) as [Ht|(-> & b & -> & Hlen & Hd)];
    [right; unfold maxDownloadRetries; lia| |].
  - rewrite Ht in Hexec. simpl in Hexec. injection Hexec as <- <-.
    exists new. rewrite Hfiles. split_and!; try done.
    intros p d Hin. by apply Hnow in Hin.
  - cbn [truthy] in Hexec.
    rewrite exec_bind, (exec_await E (IoMkdir _)) in Hexec.
    simpl in Hexec.
    destruct (io_fault E (log w1) (IoMkdir _)) as [e|] eqn:Hmk.
    + injection Hexec as <- <-.
      exists (EvIo (IoMkdir (path_dirname L path)) :: new).
      simpl. rewrite Hlog, Hfiles, Hw, Hc. split_and!; try done.
      intros p d Hin. apply elem_of_cons in Hin as [?|Hin]; [done|].
      by apply Hnow in Hin.
    + exists (EvIo (IoWriteFile path b)
                :: EvIo (IoMkdir (path_dirname L path)) :: new).
      assert (Hwr : ∀ p d,
        EvIo (IoWriteFile p d)
          ∈ EvIo (IoWriteFile path b)
              :: EvIo (IoMkdir (path_dirname L path)) :: new →
        p = path ∧ Z.of_nat (length d) = size ∧ digest L method d = checksum).
      { intros p d Hin. apply elem_of_cons in Hin as [[= -> ->]|Hin]; [done|].
        apply elem_of_cons in Hin as [?|Hin]; [done|]. by apply Hnow in Hin. }
      destruct (io_fault E _ (IoWriteFile path b)) as [e|];
        simpl in Hexec; injection Hexec as <- <-; simpl;
        rewrite Hlog, Hfiles, Hc; split_and!; try done.
      * intros p Hp. destruct (torn E _ path b); [|done].
        by rewrite lookup_insert_ne.
      * intros p Hp. by rewrite lookup_insert_ne.
      * intros bb [= <-]. split; [done|]. exists b.
        split; [apply elem_of_cons; by left|done].
Qed.

(** The probe: no fetch, no write; the checksum is read only behind a
    successful size test; it answers [true] only for a correct file, and,
    when the two filesystem requests do not fail, exactly for a correct
    file. *)
Lemma probeLocal_general path method checksum size w r w' :
  exec E (probeLocal L path method checksum size) w = (r, w') →
  files w' = files w ∧
  ∃ new, log w' = new ++ log w ∧
    count is_fetch new = 0%nat ∧ count is_write new = 0%nat ∧
    ((1 ≤ count is_checksum_read new)%nat →
       ∃ b, files w !! path = Some b ∧ Z.of_nat (length b) = size) ∧
    (r = Fulfilled true → local_correct L (files w) path method checksum size) ∧
    (io_fault E (log w) (IoStat path) = None →
     io_fault E (EvIo (IoStat path) :: log w) (IoReadStream path) = None →
     (local_correct L (files w) path method checksum size → r = Fulfilled true) ∧
     (¬ local_correct L (files w) path method checksum size → r = Fulfilled false)).
Proof.
  unfold probeLocal, statOrUndefined, calculateChecksum, local_correct.
  rewrite exec_bind. simpl. unfold read_file.
  destruct (io_fault E (log w) (IoStat path)) as [e|] eqn:Hst.
  { destruct (decide (code e = Some "ENOENT")); simpl;
      intros [= <- <-]; (split; [done|]);
      exists [EvIo (IoStat path)]; simpl; split_and!; try done; lia. }
  destruct (files w !! path) as [b|] eqn:Hb; simpl.
  2:{ intros [= <- <-]. split; [done|].
      exists [EvIo (IoStat path)]; simpl; split_and!; try done; try lia.
      - intros _ _. split; [by intros (b & ? & _)|done]. }
  destruct (Z.of_nat (length b) =? size) eqn:Hlen.
  2:{ simpl. intros [= <- <-]. split; [done|].
      exists [EvIo (IoStat path)]; simpl; split_and!; try done; try lia.
      intros _ _. apply Z.eqb_neq in Hlen.
      split; [|done]. intros (b' & [= <-] & ? & _). done. }
  apply Z.eqb_eq in Hlen. simpl. unfold read_file.
  destruct (io_fault E (EvIo (IoStat path) :: log w) (IoReadStream path))
    as [e|] eqn:Hrd; simpl.
  { intros [= <- <-]. split; [done|].
    exists [EvIo (IoReadStream path); EvIo (IoStat path)]; simpl.
    split_and!; try done. intros _. by exists b. }
  rewrite Hb. simpl. intros [= <- <-]. split; [done|].
  exists [EvIo (IoReadStream path); EvIo (IoStat path)]; simpl.
  split_and!; try done.
  - intros _. by exists b.
  - intros [= Hd]. apply String.eqb_eq in Hd. by exists b.
  - intros _ _. split.
    + intros (b' & [= <-] & _ & Hd). apply String.eqb_eq in Hd.
      by rewrite Hd.
    + intros Hn. destruct (digest L method b =? checksum)%string eqn:Hd;
        [|done]. apply String.eqb_eq in Hd. destruct Hn. by exists b.
Qed.

End DownloadIfChanged.

(** ** The download phase, attempt by attempt *)

Section Attempts.
Context (E : Env) (L : Lib).
Context (path url method checksum : string) (size : Z).

Local Abbreviation failed_before k h :=
  (∀ i, (i < k)%nat → ∃ reason,
     retryable L method checksum size (remote E (after_failures url i h) url) reason).

(** When the probe answers "not reusable", the call continues with the
    download phase. *)
Lemma downloadIfChanged_download w w1 :
  exec E (probeLocal L path method checksum size) w = (Fulfilled false, w1) →
  exec E (downloadIfChanged L path url method checksum size) w =
  exec E (fetchAndWrite L path url method checksum size) w1.
Proof. intros H. unfold downloadIfChanged. by rewrite exec_bind, H. Qed.

Lemma downloadIfChanged_reuse w w1 :
  exec E (probeLocal L path method checksum size) w = (Fulfilled true, w1) →
  exec E (downloadIfChanged L path url method checksum size) w =
  (Fulfilled false, w1).
Proof. intros H. unfold downloadIfChanged. by rewrite exec_bind, H. Qed.

(** [k] retryable failures, then an acceptable response: the body is
    written and the call returns [true]. *)
Lemma fetchAndWrite_accepted k b w :
  (k < maxDownloadRetries)%nat →
  failed_before k (log w) →
  acceptable L method checksum size
    (remote E (after_failures url k (log w)) url) b →
  let h := EvIo (IoFetch url) :: after_failures url k (log w) in
  io_fault E h (IoMkdir (path_dirname L path)) = None →
  io_fault E (EvIo (IoMkdir (path_dirname L path)) :: h)
    (IoWriteFile path b) = None →
  exec E (fetchAndWrite L path url method checksum size) w =
  (Fulfilled true,
   {| files := <[path := b]> (files w);
      log := EvIo (IoWriteFile path b)
               :: EvIo (IoMkdir (path_dirname L path)) :: h |}).
Proof.
  intros Hk Hfail Hacc h Hmk Hwr. unfold fetchAndWrite.
  rewrite exec_bind. unfold maxDownloadRetries in *.
  replace 5%nat with (k + S (4 - k))%nat by lia.
  destruct (fetchLoop_failures E L url method checksum size k (S (4 - k))
              None None w Hfail) as (le' & buf' & ->).
  rewrite (fetchLoop_accept E L url method checksum size _ _ _
             {| files := files w; log := after_failures url k (log w) |}
             b Hacc).
  cbn [truthy]. rewrite exec_bind, (exec_await E (IoMkdir _)). simpl.
  fold h. rewrite Hmk. simpl. fold h. by rewrite Hwr.
Qed.

(** Five retryable failures: the call throws the error that names the URL
    and the last reason; nothing was written. *)
Lemma fetchAndWrite_exhausted reason w :
  failed_before 4 (log w) →
  retryable L method checksum size
    (remote E (after_failures url 4 (log w)) url) reason →
  exec E (fetchAndWrite L path url method checksum size) w =
  (Rejected (JsError ("Failed to download " +:+ url +:+ ": " +:+ reason)),
   {| files := files w; log := after_failures url 5 (log w) |}).
Proof.
  intros Hfail Hlast. unfold fetchAndWrite. rewrite exec_bind.
  destruct (fetchLoop_retries E L url method checksum size 4 0
              None None w reason Hfail Hlast) as [buf' Heq].
  change maxDownloadRetries with (5 + 0)%nat. rewrite Heq.
  cbn [fetchLoop exec]. rewrite (retryable_truthy L _ _ _ _ _ Hlast). done.
Qed.

(** [k] retryable failures, then [fetch] itself rejects: the exception
    leaves the call as it is, after [k + 1] fetches. *)
Lemma fetchAndWrite_transport k e w :
  (k < maxDownloadRetries)%nat →
  failed_before k (log w) →
  transport_failure (remote E (after_failures url k (log w)) url) e →
  exec E (fetchAndWrite L path url method checksum size) w =
  (Rejected e,
   {| files := files w;
      log := EvIo (IoFetch url) :: after_failures url k (log w) |}).
Proof.
  intros Hk Hfail Herr. unfold fetchAndWrite.
  rewrite exec_bind. unfold maxDownloadRetries in *.
  replace 5%nat with (k + S (4 - k))%nat by lia.
  destruct (fetchLoop_failures E L url method checksum size k (S (4 - k))
              None None w Hfail) as (le' & buf' & ->).
  by rewrite (fetchLoop_transport E L url method checksum size _ _ _
                {| files := files w; log := after_failures url k (log w) |}
                e Herr).
Qed.

End Attempts.

(** ** Claim C1 *)

(** C1.  [downloadIfChanged] fetches if and only if the local file is not
    already correct.  A file that exists with the expected size and checksum
    is reused: no fetch, nothing written, the result is [false].  A file
    that is absent, of another size or of another checksum is fetched at
    least once, and a call that succeeds has (over)written it with bytes of
    the expected size and checksum and returns [true].  The checksum of the
    local file is read only when its size is the expected one.  (The two
    probing requests are assumed not to fail with an error other than
    "no such file".) *)
Theorem C1_downloadIfChanged_fetches_iff_not_correct
    (E : Env) (L : Lib) (path url method checksum : string) (size : Z)
    (w : World) (r : settled bool) (w' : World) :
  exec E (downloadIfChanged L path url method checksum size) w = (r, w') →
  ∃ new, log w' = new ++ log w ∧
    ((1 ≤ count is_checksum_read new)%nat →
       ∃ b, files w !! path = Some b ∧ Z.of_nat (length b) = size) ∧
    (io_fault E (log w) (IoStat path) = None →
     io_fault E (EvIo (IoStat path) :: log w) (IoReadStream path) = None →
     (local_correct L (files w) path method checksum size →
        r = Fulfilled false ∧ count is_fetch new = 0%nat ∧
        count is_write new = 0%nat ∧ files w' = files w) ∧
     (¬ local_correct L (files w) path method checksum size →
        (1 ≤ count is_fetch new)%nat ∧
        ∀ b, r = Fulfilled b →
          b = true ∧
          ∃ data, EvIo (IoWriteFile path data) ∈ new ∧
            files w' = <[path := data]> (files w) ∧
            local_correct L (files w') path method checksum size)).
Proof.
  unfold downloadIfChanged. rewrite exec_bind.
  destruct (exec E (probeLocal _ _ _ _ _) w) as [[reuse|e] w1] eqn:Hprobe;
    apply probeLocal_general in Hprobe
      as (Hf1 & new1 & Hlog1 & Hfe1 & Hwr1 & Hck1 & Htrue & Hdec).
  - destruct reuse.
    + intros [= <- <-]. exists new1. split_and!; try done.
      intros Hs Hr. split; [done|].
      intros Hn. by destruct (Hn (Htrue eq_refl)).
    + intros Hexec. apply fetchAndWrite_general in Hexec
        as (new2 & Hlog2 & Hfe2 & Hck2 & Hframe & Hwrites & Hres & _).
      exists (new2 ++ new1). rewrite Hlog2, Hlog1, app_assoc, !count_app.
      split_and!; try done.
      * intros Hge. apply Hck1. lia.
      * intros Hs Hr. destruct (Hdec Hs Hr) as [Hyes Hno].
        split; [intros Hc; by specialize (Hyes Hc)|].
        intros _. split; [lia|]. intros b Hb.
        destruct (Hres b Hb) as (-> & data & Hin & Hfiles & Hlen & Hd).
        split; [done|]. exists data. rewrite <- Hf1.
        split_and!; [apply elem_of_app; by left|done|].
        exists data. rewrite Hfiles, lookup_insert_eq. done.
  - intros [= <- <-]. exists new1. split_and!; try done.
    intros Hs Hr. destruct (Hdec Hs Hr) as [Hyes Hno].
    split; [intros Hc; by specialize (Hyes Hc)|].
    intros Hn. by specialize (Hno Hn).
Qed.

(** On the concrete environment: nothing is on disk and the server answers
    at once; the file is fetched once and written. *)
Lemma C1_witness :
  exec (Example.flaky 0)
    (downloadIfChanged Example.lib "assets/objects/3" "http://origin/3"
       "sha1" "3" 2) Example.empty_world
  = (Fulfilled true, Example.fetched_world) ∧
  ∃ new, log Example.fetched_world = new ++ [] ∧
    (1 ≤ count is_fetch new)%nat ∧
    local_correct Example.lib (files Example.fetched_world)
      "assets/objects/3" "sha1" "3" 2.
Proof.
  assert (H : exec (Example.flaky 0)
    (downloadIfChanged Example.lib "assets/objects/3" "http://origin/3"
       "sha1" "3" 2) Example.empty_world
    = (Fulfilled true, Example.fetched_world)) by (vm_compute; reflexivity).
  split; [exact H|].
  destruct (C1_downloadIfChanged_fetches_iff_not_correct _ _ _ _ _ _ _ _ _ _ H)
    as (new & Hlog & _ & Hcases).
  destruct (Hcases eq_refl eq_refl) as [_ Hdownload].
  destruct Hdownload as [Hfetch Hres].
  { intros (b & Hb & _). vm_compute in Hb. discriminate. }
  destruct (Hres true eq_refl) as (_ & data & _ & _ & Hcorrect).
  exists new. split; [exact Hlog|]. split; [exact Hfetch|exact Hcorrect].
Defined.

(** ** [Promise.all] follows the event loop *)

Section PoolSteps.
Context (E : Env).

Implicit Types pool : list (target * prog bool).

Lemma pending_from_spec pool : ∀ i j,
  j ∈ pending_from i pool ↔
  (i ≤ j)%nat ∧ ∃ t op k, pool !! (j - i)%nat = Some (t, Await op k).
Proof.
  induction pool as [|[t p] pool IH]; intros i j; simpl.
  - split; [by intros ?%elem_of_nil|]. by intros (_ & t & op & k & ?).
  - assert (Hrest : j ∈ pending_from (S i) pool ↔
      (i < j)%nat ∧
      ∃ t' op k, ((t, p) :: pool) !! (j - i)%nat = Some (t', Await op k)).
    { rewrite IH. split.
      - intros (Hle & t' & op & k & Hl). split; [lia|].
        exists t', op, k. replace (j - i)%nat with (S (j - S i)) by lia. done.
      - intros (Hlt & t' & op & k & Hl). split; [lia|].
        exists t', op, k. replace (j - i)%nat with (S (j - S i)) in Hl by lia.
        done. }
    destruct p as [b|e|op k]; simpl.
    + rewrite Hrest. split.
      * intros (Hlt & rest). split; [lia|done].
      * intros (Hle & t' & op & k & Hl). split; [|by exists t', op, k].
        destruct (decide (i = j)) as [->|]; [|lia].
        rewrite Nat.sub_diag in Hl. done.
    + rewrite Hrest. split.
      * intros (Hlt & rest). split; [lia|done].
      * intros (Hle & t' & op & k & Hl). split; [|by exists t', op, k].
        destruct (decide (i = j)) as [->|]; [|lia].
        rewrite Nat.sub_diag in Hl. done.
    + rewrite elem_of_cons, Hrest. split.
      * intros [->|(Hlt & rest)].
        -- split; [lia|]. rewrite Nat.sub_diag. by exists t, op, k.
        -- split; [lia|done].
      * intros (Hle & rest). destruct (decide (j = i)) as [->|]; [by left|].
        right. split; [lia|done].
Qed.

Lemma pending_from_nil pool i :
  pending_from i pool = [] → Forall (λ tp, is_pending tp.2 = false) pool.
Proof.
  revert i. induction pool as [|[t p] pool IH]; intros i; simpl; [done|].
  destruct (is_pending p) eqn:Hp; [done|]. intros H. constructor; eauto.
Qed.

(** When no call is suspended and none threw, all of them returned. *)
Lemma results_settled pool :
  Forall (λ tp, is_pending tp.2 = false) pool →
  Forall (λ tp, is_throw tp.2 = false) pool →
  settles_as pool (Fulfilled (results pool)).
Proof.
  unfold settles_as, results. induction pool as [|[t p] pool IH]; [done|].
  intros [Hp Hps]%Forall_cons [Ht Hts]%Forall_cons. simpl in *.
  destruct p; try done. simpl. f_equal. by apply IH.
Qed.

Lemma no_throw_insert pool i t p :
  Forall (λ tp, is_throw tp.2 = false) pool → is_throw p = false →
  Forall (λ tp, is_throw tp.2 = false) (<[i := (t, p)]> pool).
Proof.
  intros Hall Hp. apply Forall_insert; done.
Qed.

(** Running one suspended call to its end is a sequence of turns. *)
Lemma exec_pool_steps (p : prog bool) : ∀ pool w i t r w',
  Forall (λ tp, is_throw tp.2 = false) pool →
  pool !! i = Some (t, p) → is_pending p = true →
  exec E p w = (r, w') →
  rtc (pool_step E) (pool, w)
    (<[i := (t, match r with Fulfilled b => Ret b | Rejected e => Throw e end)]> pool,
     record (EvSettle t r) w').
Proof.
  induction p as [b|e|op k IH]; intros pool w i t r w' Hnt Hi Hp Hexec;
    [done|done|].
  simpl in Hexec. destruct (perform E op w) as [r1 w1] eqn:Hperf.
  eapply rtc_l;
    [eapply (pool_resume E pool w i t _ (k r1) w1); try eassumption;
     simpl; by rewrite Hperf|].
  destruct (k r1) as [b|e|op' k'] eqn:Hk.
  - simpl in Hexec. injection Hexec as <- <-. simpl. apply rtc_refl.
  - simpl in Hexec. injection Hexec as <- <-. simpl. apply rtc_refl.
  - simpl settle.
    assert (Hlen : (i < length pool)%nat) by (eapply lookup_lt_Some; eauto).
    specialize (IH r1). rewrite Hk in IH.
    specialize (IH (<[i := (t, Await op' k')]> pool) w1 i t r w').
    rewrite list_insert_insert_eq in IH. apply IH; [|  |done|done].
    + by apply no_throw_insert.
    + by rewrite list_lookup_insert_eq.
Qed.

Lemma settles_as_cons_ret t b rest res :
  settles_as rest res →
  settles_as ((t, Ret b) :: rest) (settled_map (cons b) res).
Proof.
  destruct res as [bs|e]; simpl.
  - intros H. unfold settles_as. cbn. by f_equal.
  - intros (i & t' & Hi). by exists (S i), t'.
Qed.

Lemma drain_steps rest : ∀ pre w res w',
  Forall (λ tp, is_throw tp.2 = false) (pre ++ rest) →
  drain E rest w = (res, w') →
  ∃ rest', rtc (pool_step E) (pre ++ rest, w) (pre ++ rest', w') ∧
    length rest' = length rest ∧ rest'.*1 = rest.*1 ∧ settles_as rest' res.
Proof.
  induction rest as [|[t p] rest IH]; intros pre w res w' Hnt Hd.
  - simpl in Hd. injection Hd as <- <-. exists []. split_and!; try done.
  - simpl in Hd. destruct p as [b|e|op k].
    + destruct (drain E rest w) as [rs w1] eqn:Hrest.
      injection Hd as <- <-.
      destruct (IH (pre ++ [(t, Ret b)]) _ _ _ ltac:(by rewrite <- app_assoc) Hrest)
        as (rest' & Hsteps & Hlen & Hts & Hset).
      rewrite <- !app_assoc in Hsteps. simpl in Hsteps.
      exists ((t, Ret b) :: rest'). split_and!; try done.
      * simpl. by rewrite Hlen.
      * by rewrite !fmap_cons, Hts.
      * by apply settles_as_cons_ret.
    + injection Hd as <- <-. exists ((t, Throw e) :: rest).
      split_and!; try done. by exists 0%nat, t.
    + destruct (exec E (Await op k) w) as [r w1] eqn:Hexec.
      pose proof (exec_pool_steps (Await op k)
                    (pre ++ (t, Await op k) :: rest) w (length pre) t r w1)
        as Hsteps.
      rewrite list_lookup_middle in Hsteps by done.
      specialize (Hsteps Hnt eq_refl eq_refl Hexec).
      rewrite insert_app_r_alt, Nat.sub_diag in Hsteps by done.
      simpl in Hsteps.
      destruct r as [b|e].
      * destruct (drain E rest _) as [rs w2] eqn:Hrest.
        injection Hd as <- <-.
        assert (Hnt' : Forall (λ tp, is_throw tp.2 = false)
                         ((pre ++ [(t, Ret b)]) ++ rest)).
        { rewrite <- app_assoc. simpl.
          apply Forall_app in Hnt as [Hpre [_ Hrst]%Forall_cons].
          apply Forall_app. split; [done|]. by constructor. }
        destruct (IH (pre ++ [(t, Ret b)]) _ _ _ Hnt' Hrest)
          as (rest' & Hsteps' & Hlen & Hts & Hset).
        rewrite <- !app_assoc in Hsteps'. simpl in Hsteps'.
        exists ((t, Ret b) :: rest'). split_and!.
        -- etrans; eassumption.
        -- simpl. by rewrite Hlen.
        -- by rewrite !fmap_cons, Hts.
        -- by apply settles_as_cons_ret.
      * injection Hd as <- <-. exists ((t, Throw e) :: rest).
        split_and!; try done. by exists 0%nat, t.
Qed.

(** Whatever the schedule, [run_all] is a sequence of turns of the event
    loop that ends in a state accounting for its result. *)
Lemma run_all_steps sched : ∀ pool w res w',
  Forall (λ tp, is_throw tp.2 = false) pool →
  run_all E sched pool w = (res, w') →
  ∃ pool', rtc (pool_step E) (pool, w) (pool', w') ∧
    length pool' = length pool ∧ pool'.*1 = pool.*1 ∧ settles_as pool' res.
Proof.
  induction sched as [|c sched IH]; intros pool w res w' Hnt Hrun.
  - simpl in Hrun. by apply (drain_steps pool []) in Hrun.
  - simpl in Hrun.
    destruct (pending_from 0 pool !! (c `mod` length (pending_from 0 pool))%nat)
      as [i|] eqn:Hpick.
    2:{ injection Hrun as <- <-. exists pool. split_and!; try done.
        apply results_settled; [|done]. apply (pending_from_nil _ 0%nat).
        destruct (pending_from 0 pool) as [|j l] eqn:Hl; [done|].
        apply lookup_ge_None in Hpick.
        pose proof (Nat.mod_upper_bound c (length (j :: l))) as Hb.
        simpl in *. lia. }
    apply list_elem_of_lookup_2, pending_from_spec in Hpick
      as (_ & t & op & k & Hi).
    rewrite Nat.sub_0_r in Hi. rewrite Hi in Hrun.
    destruct (resume E (Await op k) w) as [p' w1] eqn:Hres.
    pose proof (pool_resume E pool w i t _ p' w1 Hnt Hi eq_refl Hres) as Hstep.
    assert (Hlen : length (<[i := (t, p')]> pool) = length pool)
      by apply length_insert.
    assert (Hts : (<[i := (t, p')]> pool).*1 = pool.*1).
    { rewrite list_fmap_insert. simpl. apply list_insert_id.
      rewrite list_lookup_fmap, Hi. done. }
    destruct p' as [b|e|op' k'].
    + apply IH in Hrun as (pool' & Hsteps & Hlen' & Hts' & Hset);
        [|by apply no_throw_insert].
      exists pool'. split_and!; try congruence.
      eapply rtc_l; eassumption.
    + injection Hrun as <- <-. exists (<[i := (t, Throw e)]> pool).
      split_and!; try done.
      * by apply rtc_once.
      * exists i, t. apply list_lookup_insert_eq. by eapply lookup_lt_Some.
    + apply IH in Hrun as (pool' & Hsteps & Hlen' & Hts' & Hset);
        [|by apply no_throw_insert].
      exists pool'. split_and!; try congruence.
      eapply rtc_l; eassumption.
Qed.

(** Invariants of the event loop: what every turn preserves holds at the
    end. *)
Lemma pool_steps_ind (I : list (target * prog bool) → World → Prop) :
  (∀ pool w i t p p' w',
     Forall (λ tp, is_throw tp.2 = false) pool →
     I pool w → pool !! i = Some (t, p) → is_pending p = true →
     resume E p w = (p', w') →
     I (<[i := (t, p')]> pool) (settle t p' w')) →
  ∀ pool w pool' w',
    rtc (pool_step E) (pool, w) (pool', w') → I pool w → I pool' w'.
Proof.
  intros Hstep pool w pool' w' Hrtc.
  remember (pool, w) as s eqn:Hs. remember (pool', w') as s' eqn:Hs'.
  revert pool w Hs. induction Hrtc as [|s1 s2 s3 H12 H23 IH]; intros pool w ->.
  - by intros; simplify_eq.
  - subst s3. intros HI. inversion H12; subst.
    apply (IH eq_refl _ _ eq_refl). eapply Hstep; eauto.
Qed.

Lemma npending_insert pool i t p t' p' :
  pool !! i = Some (t, p) →
  (npending (<[i := (t', p')]> pool) + (if is_pending p then 1 else 0) =
   npending pool + (if is_pending p' then 1 else 0))%nat.
Proof.
  revert i. induction pool as [|[t0 p0] pool IH]; intros [|i] Hi; simpl in *;
    try done.
  - injection Hi as -> ->. lia.
  - specialize (IH i Hi). lia.
Qed.

Lemma npending_all_ret pool bs : pool.*2 = Ret <$> bs → npending pool = 0%nat.
Proof.
  revert bs. induction pool as [|[t p] pool IH]; intros [|b bs] H; try done.
  rewrite !fmap_cons in H. simpl in H. injection H as -> H.
  simpl. by rewrite (IH bs).
Qed.

Lemma resume_log {A} (p : prog A) w p' w' :
  is_pending p = true → resume E p w = (p', w') →
  ∃ op, log w' = EvIo op :: log w.
Proof.
  destruct p as [| |op k]; try done. intros _. simpl.
  destruct (perform E op w) as [r w1] eqn:Hp. intros [= <- <-].
  exists op. by rewrite <- (perform_log E op w), Hp.
Qed.

(** The trace of the event loop: requests and settlements only, one
    settlement for each call that is no longer suspended, and a rejected
    settlement only for a call that threw. *)
Lemma pool_steps_trace pool w pool' w' :
  rtc (pool_step E) (pool, w) (pool', w') →
  ∃ evs, log w' = evs ++ log w ∧ calls evs = [] ∧
    (count is_settle evs + npending pool' = npending pool)%nat ∧
    (∀ t r, EvSettle t r ∈ evs → t ∈ pool.*1) ∧
    (∀ t e, EvSettle t (Rejected e) ∈ evs → ∃ i, pool' !! i = Some (t, Throw e)).
Proof.
  intros Hrtc.
  apply (pool_steps_ind (λ pl wl,
    pl.*1 = pool.*1 ∧
    ∃ evs, log wl = evs ++ log w ∧ calls evs = [] ∧
      (count is_settle evs + npending pl = npending pool)%nat ∧
      (∀ t r, EvSettle t r ∈ evs → t ∈ pool.*1) ∧
      (∀ t e, EvSettle t (Rejected e) ∈ evs → ∃ i, pl !! i = Some (t, Throw e)))
    ) with (pool := pool) (w := w) (pool' := pool') (w' := w') in Hrtc.
  - by destruct Hrtc.
  - clear. intros pl wl i t p p' wl' Hnt (Hts & evs & Hlog & Hcalls & Hcnt & Hin & Hrej)
      Hi Hp Hres.
    assert (Hts' : (<[i := (t, p')]> pl).*1 = pool.*1).
    { rewrite list_fmap_insert, <- Hts. simpl. apply list_insert_id.
      rewrite list_lookup_fmap, Hi. done. }
    split; [done|].
    destruct (resume_log _ _ _ _ Hp Hres) as [op Hlog'].
    pose proof (npending_insert pl i t p t p' Hi) as Hnp. rewrite Hp in Hnp.
    assert (Htin : t ∈ pool.*1).
    { rewrite <- Hts. apply list_elem_of_fmap. exists (t, p).
      split; [done|]. by eapply list_elem_of_lookup_2. }
    assert (Hold : ∀ t0 e, EvSettle t0 (Rejected e) ∈ evs → False).
    { intros t0 e Hin0. destruct (Hrej _ _ Hin0) as [j Hj].
      eapply Forall_lookup_1 in Hnt; [|exact Hj]. done. }
    destruct p' as [b|e|op' k']; simpl.
    + exists (EvSettle t (Fulfilled b) :: EvIo op :: evs).
      rewrite Hlog', Hlog. simpl. rewrite Hcalls.
      split_and!; try done; [simpl in *; lia| |].
      * intros t0 r [[= -> ->]|[?|?]%elem_of_cons]%elem_of_cons; eauto; done.
      * intros t0 e [?|[?|Hin0]%elem_of_cons]%elem_of_cons; try done.
        by destruct (Hold _ _ Hin0).
    + exists (EvSettle t (Rejected e) :: EvIo op :: evs).
      rewrite Hlog', Hlog. simpl. rewrite Hcalls.
      split_and!; try done; [simpl in *; lia| |].
      * intros t0 r [[= -> ->]|[?|?]%elem_of_cons]%elem_of_cons; eauto; done.
      * intros t0 e0 [[= -> ->]|[?|Hin0]%elem_of_cons]%elem_of_cons; try done.
        -- exists i. apply list_lookup_insert_eq. by eapply lookup_lt_Some.
        -- by destruct (Hold _ _ Hin0).
    + exists (EvIo op :: evs).
      rewrite Hlog', Hlog. simpl. rewrite Hcalls.
      split_and!; try done; [simpl in *; lia| |].
      * intros t0 r [?|?]%elem_of_cons; eauto; done.
      * intros t0 e [?|Hin0]%elem_of_cons; try done.
        by destruct (Hold _ _ Hin0).
  - split; [done|]. exists []. split_and!; try done.
    + intros t r ?%elem_of_nil. done.
    + intros t e ?%elem_of_nil. done.
Qed.

(** At most one call has thrown. *)
Lemma pool_steps_one_throw pool w pool' w' :
  rtc (pool_step E) (pool, w) (pool', w') →
  Forall (λ tp, is_throw tp.2 = false) pool →
  ∀ i j t t' e e',
    pool' !! i = Some (t, Throw e) → pool' !! j = Some (t', Throw e') → i = j.
Proof.
  intros Hrtc Hnt.
  refine (pool_steps_ind (λ pl wl, ∀ i j t t' e e',
    pl !! i = Some (t, Throw e) → pl !! j = Some (t', Throw e') → i = j)
    _ pool w pool' w' Hrtc _).
  - clear. intros pl wl i0 t0 p p' wl' Hnt _ Hi0 _ _ i j t t' e e' Hi Hj.
    assert (Hat : ∀ n tn en, <[i0 := (t0, p')]> pl !! n = Some (tn, Throw en) → n = i0).
    { intros n tn en Hn. destruct (decide (n = i0)) as [|Hne]; [done|].
      rewrite list_lookup_insert_ne in Hn by done.
      eapply Forall_lookup_1 in Hnt; [|exact Hn]. done. }
    rewrite (Hat _ _ _ Hi), (Hat _ _ _ Hj). done.
  - intros i j t t' e e' Hi _. eapply Forall_lookup_1 in Hnt; [|exact Hi]. done.
Qed.

End PoolSteps.

(** ** One batch *)

Section Batch.
Context (E : Env) (L : Lib).

Lemma call_pending t : is_pending (call L t) = true.
Proof. done. Qed.

Lemma launch_log ts : ∀ w,
  log (foldl (λ w t, record (EvCall t) w) w ts) = reverse (EvCall <$> ts) ++ log w.
Proof.
  induction ts as [|t ts IH]; intros w; [done|].
  cbn [foldl]. rewrite IH, fmap_cons, reverse_cons. simpl.
  by rewrite <- app_assoc.
Qed.

Lemma launch_files ts : ∀ w,
  files (foldl (λ w t, record (EvCall t) w) w ts) = files w.
Proof. induction ts as [|t ts IH]; intros w; simpl; [done|]. by rewrite IH. Qed.

Lemma launched_no_throw ts :
  Forall (λ tp : target * prog bool, is_throw tp.2 = false)
    (map (λ t, (t, call L t)) ts).
Proof. induction ts; constructor; done. Qed.

Lemma launched_npending ts :
  npending (map (λ t, (t, call L t)) ts) = length ts.
Proof. induction ts as [|t ts IH]; simpl; [done|]. by rewrite IH. Qed.

Lemma launched_targets ts : (map (λ t, (t, call L t)) ts).*1 = ts.
Proof. induction ts as [|t ts IH]; [done|]. cbn. f_equal. exact IH. Qed.

(** [Promise.all] as a sequence of turns from the launched calls. *)
Lemma promiseAll_steps ts w r w' :
  promiseAll E L ts w = (r, w') →
  ∃ pool',
    rtc (pool_step E)
      (map (λ t, (t, call L t)) ts, foldl (λ w t, record (EvCall t) w) w ts)
      (pool', w') ∧
    length pool' = length ts ∧ pool'.*1 = ts ∧ settles_as pool' r.
Proof.
  unfold promiseAll. intros Hrun.
  apply run_all_steps in Hrun as (pool' & Hsteps & Hlen & Hts & Hset);
    [|apply launched_no_throw].
  exists pool'. rewrite length_map in Hlen. rewrite launched_targets in Hts.
  done.
Qed.

(** The trace of one batch: the calls are started in order, then only
    requests and settlements follow; every call settles when the batch is
    fulfilled, and a call that settles rejected rejects the batch with its
    error. *)
Lemma promiseAll_trace ts w r w' :
  promiseAll E L ts w = (r, w') →
  ∃ evs, log w' = evs ++ reverse (EvCall <$> ts) ++ log w ∧ calls evs = [] ∧
    (count is_settle evs ≤ length ts)%nat ∧
    (∀ bs, r = Fulfilled bs →
       count is_settle evs = length ts ∧ length bs = length ts) ∧
    (∀ t r', EvSettle t r' ∈ evs → t ∈ ts) ∧
    (∀ t e, EvSettle t (Rejected e) ∈ evs → r = Rejected e).
Proof.
  intros Hrun.
  destruct (promiseAll_steps _ _ _ _ Hrun) as (pool' & Hsteps & Hlen & Hts & Hset).
  pose proof (pool_steps_one_throw E _ _ _ _ Hsteps (launched_no_throw ts)) as Hone.
  apply pool_steps_trace in Hsteps as (evs & Hlog & Hcalls & Hcnt & Hin & Hrej).
  rewrite launched_npending in Hcnt. rewrite launched_targets in Hin.
  exists evs. rewrite Hlog, launch_log. split_and!; try done.
  - lia.
  - intros bs ->. simpl in Hset.
    rewrite (npending_all_ret _ _ Hset) in Hcnt. split; [lia|].
    apply (f_equal length) in Hset. rewrite !length_fmap in Hset. lia.
  - intros t e Hine. destruct (Hrej _ _ Hine) as [i Hi].
    destruct r as [bs|e']; simpl in Hset.
    + apply (f_equal (λ l, l !! i)) in Hset.
      rewrite !list_lookup_fmap, Hi in Hset. simpl in Hset.
      destruct (bs !! i); done.
    + destruct Hset as (j & t' & Hj).
      pose proof (Hone _ _ _ _ _ _ Hi Hj) as ->. congruence.
Qed.

End Batch.

(** ** Histories of batches *)

Section Histories.

Lemma calls_app h1 h2 : calls (h1 ++ h2) = calls h1 ++ calls h2.
Proof. unfold calls. by rewrite omap_app. Qed.

Lemma in_flight_app h1 h2 : in_flight (h1 ++ h2) = in_flight h1 + in_flight h2.
Proof. unfold in_flight. rewrite !count_app. lia. Qed.

Lemma calls_nil_count h : calls h = [] → count is_call h = 0%nat.
Proof.
  induction h as [|ev h IH]; [done|]. destruct ev; simpl; try done; apply IH.
Qed.

Lemma calls_nil_not_in h t : calls h = [] → EvCall t ∉ h.
Proof.
  intros Hc Hin. apply calls_nil_count in Hc.
  by apply (count_zero_not_in _ _ _ Hc) in Hin.
Qed.

Lemma calls_launch ts : calls (reverse (EvCall <$> ts)) = reverse ts.
Proof.
  induction ts as [|t ts IH]; [done|]. rewrite fmap_cons, !reverse_cons.
  rewrite calls_app, IH. done.
Qed.

Lemma count_suffix f h1 h2 : h1 `suffix_of` h2 → (count f h1 ≤ count f h2)%nat.
Proof. intros [k ->]. rewrite count_app. lia. Qed.

Lemma calls_nil_suffix h1 h2 : h1 `suffix_of` h2 → calls h2 = [] → calls h1 = [].
Proof.
  intros [k ->]. rewrite calls_app. intros H. by apply app_eq_nil in H as [_ ?].
Qed.

Lemma suffix_app_split {A} (h a b : list A) :
  h `suffix_of` a ++ b →
  h `suffix_of` b ∨ ∃ a2, h = a2 ++ b ∧ a2 `suffix_of` a.
Proof.
  intros [k Hk]. apply app_eq_inv in Hk as [(m & -> & ->)|(m & -> & ->)].
  - right. exists m. split; [done|]. by exists k.
  - left. by exists m.
Qed.

(** A history of calls only. *)
Lemma launch_suffix ts h :
  h `suffix_of` reverse (EvCall <$> ts) →
  calls h = (calls h) ∧ length (calls h) = length h ∧
  count is_call h = length h ∧ count is_settle h = 0%nat ∧
  (length h ≤ length ts)%nat.
Proof.
  intros Hs. pose proof (suffix_length _ _ Hs) as Hlen.
  rewrite length_reverse, length_fmap in Hlen.
  assert (Hall : Forall (λ ev, is_call ev = true) h).
  { destruct Hs as [k Hk].
    assert (Forall (λ ev, is_call ev = true) (reverse (EvCall <$> ts))) as Hf.
    { apply Forall_reverse, Forall_fmap, Forall_forall. done. }
    rewrite Hk in Hf. by apply Forall_app in Hf as [_ ?]. }
  clear Hs. split_and!; try done.
  - clear Hlen. induction Hall as [|ev h Hev _ IH]; [done|].
    destruct ev; try done. simpl. by rewrite IH.
  - clear Hlen. induction Hall as [|ev h Hev _ IH]; [done|].
    destruct ev; try done. simpl. by rewrite IH.
  - clear Hlen. induction Hall as [|ev h Hev _ IH]; [done|].
    destruct ev; try done.
Qed.

Lemma batch_start_unique base n :
  (base `mod` maxConcurrency = 0)%nat → (n < maxConcurrency)%nat →
  ((base + n) `mod` maxConcurrency = 0)%nat → n = 0%nat.
Proof.
  intros Hbase Hn Hmod. apply Nat.Div0.mod_divides in Hbase as [c ->].
  rewrite Nat.add_comm, Nat.mul_comm, Nat.Div0.mod_add in Hmod.
  by rewrite Nat.mod_small in Hmod.
Qed.

(** One batch is batched. *)
Lemma batched_segment base evs ts :
  (base `mod` maxConcurrency = 0)%nat →
  (length ts ≤ maxConcurrency)%nat →
  calls evs = [] → (count is_settle evs ≤ length ts)%nat →
  batched base (evs ++ reverse (EvCall <$> ts)).
Proof.
  intros Hbase Hlen Hcalls Hcnt. split.
  - intros h t Hs Hmod.
    apply suffix_app_split in Hs as [Hs|(a2 & Heq & Hs)].
    + pose proof (launch_suffix _ _ Hs) as (_ & _ & _ & _ & Hl1).
      apply suffix_cons_l in Hs.
      pose proof (launch_suffix _ _ Hs) as (_ & Hl & Hc & Hst & Hl2).
      simpl in Hl1. rewrite Hl in Hmod.
      assert (length h = 0)%nat as Hz.
      { apply (batch_start_unique base); [done|lia|done]. }
      unfold in_flight. rewrite Hc, Hst, Hz. done.
    + destruct a2 as [|ev a2].
      * simpl in Heq. pose proof (launch_suffix ts (EvCall t :: h)) as Hl.
        rewrite Heq in Hl. destruct Hl as (_ & _ & _ & _ & Hl); [done|].
        assert (h `suffix_of` reverse (EvCall <$> ts)) as Hs'.
        { rewrite <- Heq. apply suffix_cons_r. done. }
        pose proof (launch_suffix _ _ Hs') as (_ & Hl' & Hc & Hst & Hl2).
        rewrite Hl' in Hmod.
        assert (length h = 0)%nat as Hz.
        { assert (length h < length ts)%nat.
          { apply (f_equal length) in Heq. simpl in Heq.
            rewrite length_reverse, length_fmap in Heq. lia. }
          apply (batch_start_unique base); [done|lia|done]. }
        unfold in_flight. rewrite Hc, Hst, Hz. done.
      * injection Heq as <- _. exfalso.
        eapply (calls_nil_not_in evs t); [done|].
        destruct Hs as [k ->]. apply elem_of_app. right. by left.
  - intros h Hs. apply suffix_app_split in Hs as [Hs|(a2 & -> & Hs)].
    + pose proof (launch_suffix _ _ Hs) as (_ & _ & Hc & Hst & Hl).
      unfold in_flight. rewrite Hc, Hst. lia.
    + rewrite in_flight_app.
      pose proof (launch_suffix ts (reverse (EvCall <$> ts)) ltac:(done))
        as (_ & _ & Hc & Hst & _).
      rewrite length_reverse, length_fmap in Hc.
      pose proof (count_suffix is_settle _ _ Hs).
      pose proof (calls_nil_count _ (calls_nil_suffix _ _ Hs Hcalls)) as Hc2.
      unfold in_flight. rewrite Hc, Hst, Hc2. lia.
Qed.

(** Batches compose when the earlier one has fully settled. *)
Lemma batched_app base new1 new2 :
  batched base new1 → in_flight new1 = 0 →
  batched (base + length (calls new1)) new2 →
  batched base (new2 ++ new1).
Proof.
  intros [H1a H1b] Hz [H2a H2b]. split.
  - intros h t Hs Hmod. apply suffix_app_split in Hs as [Hs|(a2 & Heq & Hs)].
    + by apply (H1a h t).
    + destruct a2 as [|ev a2].
      * simpl in Heq. apply (H1a h t); [|done]. by rewrite Heq.
      * injection Heq as <- ->. rewrite in_flight_app, Hz.
        rewrite calls_app, length_app in Hmod.
        rewrite (H2a a2 t Hs); [done|].
        rewrite <- Hmod. f_equal. lia.
  - intros h Hs. apply suffix_app_split in Hs as [Hs|(a2 & -> & Hs)].
    + by apply H1b.
    + rewrite in_flight_app, Hz. specialize (H2b a2 Hs). lia.
Qed.

Lemma batched_nil base : batched base [].
Proof.
  split.
  - intros h t Hs. by apply suffix_cons_nil_inv in Hs.
  - intros h ->%suffix_nil_inv. done.
Qed.

End Histories.

(** ** The chunk loop *)

Section Chunks.
Context (E : Env) (L : Lib) (assetsFolder : string).

Local Abbreviation targetOf := (objectTarget L assetsFolder).

(** With enough fuel the loop function runs the iterations of the loop;
    [length objects] is enough from index 0. *)
Lemma downloadChunks_run objects fuel : ∀ i d w r w',
  (length objects ≤ i + fuel * maxConcurrency)%nat →
  downloadChunks E L fuel assetsFolder objects i d w = (r, w') →
  chunks_run E L assetsFolder objects i d w r w'.
Proof.
  induction fuel as [|fuel IH]; intros i d w r w' Hfuel Hrun; simpl in Hrun.
  - injection Hrun as <- <-. apply chunks_done. lia.
  - destruct (i <? length objects)%nat eqn:Hi.
    + apply Nat.ltb_lt in Hi.
      destruct (promiseAll E L _ w) as [[bs|e] w1] eqn:Hall.
      * eapply chunks_next; [done|exact Hall|]. apply IH; [|done].
        unfold maxConcurrency in *. lia.
      * injection Hrun as <- <-. by apply chunks_rejected.
    + apply Nat.ltb_ge in Hi. injection Hrun as <- <-. by apply chunks_done.
Qed.

Lemma elem_of_slice {A} (x : A) i j l : x ∈ slice i j l → x ∈ l.
Proof.
  unfold slice. intros H. rewrite <- (take_drop i l). apply elem_of_app; right.
  rewrite <- (take_drop (j - i) (drop i l)). apply elem_of_app; by left.
Qed.

Lemma slice_length {A} (l : list A) i :
  (length (slice i (i + maxConcurrency) l) ≤ maxConcurrency)%nat.
Proof. unfold slice. rewrite length_take. lia. Qed.

Lemma slice_take_drop {A} (l : list A) i :
  slice i (i + maxConcurrency) l = take maxConcurrency (drop i l).
Proof. unfold slice. f_equal. lia. Qed.

Lemma slice_length_lt {A} (l : list A) i :
  (i < length l)%nat →
  length (slice i (i + maxConcurrency) l) =
  Nat.min maxConcurrency (length l - i).
Proof. intros. rewrite slice_take_drop, length_take, length_drop. done. Qed.

(** The history of the chunk loop. *)
Lemma chunks_run_trace objects i d w r w' :
  chunks_run E L assetsFolder objects i d w r w' →
  (i `mod` maxConcurrency = 0)%nat →
  ∃ new started, log w' = new ++ log w ∧
    reverse (calls new) = targetOf <$> started ∧
    started `prefix_of` drop i objects ∧
    (is_fulfilled r = true → started = drop i objects ∧ in_flight new = 0) ∧
    ((length objects ≤ i)%nat → new = []) ∧
    batched i new ∧
    (∀ t e, EvSettle t (Rejected e) ∈ new → r = Rejected e) ∧
    (∀ t r', EvSettle t r' ∈ new → t ∈ targetOf <$> objects).
Proof.
  induction 1 as [i d w Hi|i d w e w' Hi Hall|i d w bs w1 r w' Hi Hall Hrest IH];
    intros Hmod.
  - exists [], []. split_and!; try done.
    + apply prefix_nil.
    + intros _. split; [|done]. by rewrite drop_ge.
    + apply batched_nil.
    + by intros t e ?%elem_of_nil.
    + by intros t r ?%elem_of_nil.
  - apply promiseAll_trace in Hall
      as (evs & Hlog & Hcalls & Hcnt & _ & Hin & Hrej).
    rewrite length_map in Hcnt.
    exists (evs ++ reverse (EvCall <$> (targetOf <$> slice i (i + maxConcurrency) objects))),
      (slice i (i + maxConcurrency) objects).
    split_and!.
    + by rewrite Hlog, <- app_assoc.
    + rewrite calls_app, Hcalls, calls_launch. simpl.
      by rewrite reverse_involutive.
    + rewrite slice_take_drop. apply prefix_take.
    + done.
    + lia.
    + apply batched_segment; try done.
      * rewrite length_fmap. apply slice_length.
      * by rewrite length_fmap.
    + intros t e0 [Hine|Hine]%elem_of_app.
      * apply Hrej in Hine. by injection Hine as ->.
      * apply elem_of_reverse, list_elem_of_fmap in Hine as (? & ? & _). done.
    + intros t r' [Hine|Hine]%elem_of_app.
      * apply Hin in Hine. apply list_elem_of_fmap in Hine as (o & -> & Ho).
        apply list_elem_of_fmap. exists o. split; [done|].
        by apply elem_of_slice in Ho.
      * apply elem_of_reverse, list_elem_of_fmap in Hine as (? & ? & _). done.
  - apply promiseAll_trace in Hall
      as (evs & Hlog & Hcalls & Hcnt & Hful & Hin & Hrej).
    destruct (Hful bs eq_refl) as [Hcnt' Hlenbs].
    rewrite length_map in Hcnt, Hcnt'.
    destruct IH as (new & started & Hlog' & Hc & Hpre & Hfin & Hnil & Hb & Hrej' & Hin').
    { unfold maxConcurrency in *.
      rewrite Nat.Div0.add_mod, Hmod by lia. done. }
    set (chunk := slice i (i + maxConcurrency) objects) in *.
    set (seg := evs ++ reverse (EvCall <$> (targetOf <$> chunk))).
    assert (Hsegcalls : calls seg = reverse (targetOf <$> chunk)).
    { unfold seg. by rewrite calls_app, Hcalls, calls_launch. }
    assert (Hsegfl : in_flight seg = 0).
    { unfold seg, in_flight. rewrite !count_app, Hcnt'.
      rewrite (calls_nil_count _ Hcalls).
      pose proof (launch_suffix (targetOf <$> chunk)
        (reverse (EvCall <$> (targetOf <$> chunk))) ltac:(done))
        as (_ & _ & Hc1 & Hs1 & _).
      rewrite Hc1, Hs1, length_reverse, !length_fmap. lia. }
    assert (Hdrop : drop i objects = chunk ++ drop (i + maxConcurrency) objects).
    { unfold chunk. rewrite slice_take_drop, <- drop_drop. by rewrite take_drop. }
    exists (new ++ seg), (chunk ++ started). split_and!.
    + rewrite Hlog', Hlog. unfold seg. by rewrite <- !app_assoc.
    + rewrite calls_app, reverse_app, Hc, Hsegcalls, reverse_involutive.
      by rewrite <- fmap_app.
    + rewrite Hdrop. by apply prefix_app.
    + intros Hr. destruct (Hfin Hr) as [-> Hfl].
      split; [done|]. by rewrite in_flight_app, Hfl, Hsegfl.
    + lia.
    + apply batched_app; try done.
      * apply batched_segment; try done.
        -- rewrite length_fmap. apply slice_length.
        -- rewrite length_fmap. lia.
      * destruct (decide (length objects ≤ i + maxConcurrency)%nat) as [Hle|Hgt].
        -- rewrite (Hnil Hle). apply batched_nil.
        -- rewrite Hsegcalls, length_reverse, length_fmap.
           unfold chunk. rewrite slice_length_lt by done.
           rewrite Nat.min_l by lia. done.
    + intros t e [Hine|Hine]%elem_of_app; [by eapply Hrej'|].
      apply elem_of_app in Hine as [Hine|Hine].
      * by apply Hrej in Hine.
      * apply elem_of_reverse, list_elem_of_fmap in Hine as (? & ? & _). done.
    + intros t r' [Hine|Hine]%elem_of_app; [by eapply Hin'|].
      apply elem_of_app in Hine as [Hine|Hine].
      * apply Hin in Hine. apply list_elem_of_fmap in Hine as (o & -> & Ho).
        apply list_elem_of_fmap. exists o. split; [done|].
        by apply elem_of_slice in Ho.
      * apply elem_of_reverse, list_elem_of_fmap in Hine as (? & ? & _). done.
Qed.

(** The chunks are consecutive pieces of the object list, each of at most
    [maxConcurrency] objects and none empty; the [k]-th starts at object
    [k * maxConcurrency]. *)
Lemma batchesFrom_spec objects fuel : ∀ i,
  (length objects ≤ i + fuel * maxConcurrency)%nat →
  concat (batchesFrom fuel i objects) = drop i objects ∧
  Forall (λ b, (0 < length b ≤ maxConcurrency)%nat) (batchesFrom fuel i objects) ∧
  ∀ k b, batchesFrom fuel i objects !! k = Some b →
    b = take maxConcurrency (drop (i + k * maxConcurrency) objects).
Proof.
  induction fuel as [|fuel IH]; intros i Hfuel; simpl.
  - split_and!; [|done|done]. rewrite drop_ge; [done|lia].
  - destruct (i <? length objects)%nat eqn:Hi.
    + apply Nat.ltb_lt in Hi.
      destruct (IH (i + maxConcurrency)%nat) as (Hcat & Hall & Hk).
      { unfold maxConcurrency in *. lia. }
      split_and!.
      * simpl. rewrite Hcat, slice_take_drop, <- drop_drop. apply take_drop.
      * constructor; [|done]. rewrite slice_length_lt by done.
        unfold maxConcurrency. lia.
      * intros [|k] b Hb; simpl in Hb.
        -- injection Hb as <-. rewrite slice_take_drop. do 2 f_equal. lia.
        -- rewrite (Hk k b Hb). do 2 f_equal. lia.
    + apply Nat.ltb_ge in Hi. split_and!; [|done|done].
      rewrite drop_ge; [done|lia].
Qed.

End Chunks.

(** ** Rejections surface *)

Section Surfacing.
Context (E : Env) (L : Lib).

Ltac log_eq :=
  repeat first [progress simpl | rewrite <- app_assoc]; reflexivity.

Lemma exec_trace_io {A} (p : prog A) : ∀ w r w',
  exec E p w = (r, w') →
  ∃ evs, log w' = evs ++ log w ∧ Forall (λ ev, is_io ev = true) evs.
Proof.
  induction p as [a|e|op k IH]; intros w r w' Hexec; simpl in Hexec.
  - injection Hexec as <- <-. by exists [].
  - injection Hexec as <- <-. by exists [].
  - destruct (perform E op w) as [r1 w1] eqn:Hp.
    apply IH in Hexec as (evs & Hlog & Hio).
    exists (evs ++ [EvIo op]). split.
    + rewrite Hlog, <- app_assoc. simpl.
      by rewrite <- (perform_log E op w), Hp.
    + apply Forall_app. split; [done|]. by constructor.
Qed.

Lemma io_not_settle evs t r :
  Forall (λ ev, is_io ev = true) evs → EvSettle t r ∉ evs.
Proof.
  intros Hio Hin. eapply Forall_forall in Hio; [|exact Hin]. done.
Qed.

Lemma io_no_calls evs : Forall (λ ev, is_io ev = true) evs → calls evs = [].
Proof.
  induction 1 as [|ev evs Hev _ IH]; [done|]. destruct ev; try done.
Qed.

Lemma io_count_settle evs :
  Forall (λ ev, is_io ev = true) evs → count is_settle evs = 0%nat.
Proof.
  induction 1 as [|ev evs Hev _ IH]; [done|]. destruct ev; try done.
Qed.

(** A call awaited on its own: started, then its requests, then settled. *)
Lemma awaitCall_trace t w r w' :
  awaitCall E L t w = (r, w') →
  ∃ evs w1, exec E (call L t) (record (EvCall t) w) = (r, w1) ∧
    files w' = files w1 ∧
    log w1 = evs ++ EvCall t :: log w ∧
    log w' = EvSettle t r :: evs ++ EvCall t :: log w ∧
    Forall (λ ev, is_io ev = true) evs.
Proof.
  unfold awaitCall.
  destruct (exec E (call L t) _) as [r1 w1] eqn:Hexec. intros [= <- <-].
  destruct (exec_trace_io _ _ _ _ Hexec) as (evs & Hlog & Hio).
  exists evs, w1. simpl in *. rewrite Hlog. done.
Qed.

Lemma surfaces_app {A} new1 new2 (r : settled A) :
  surfaces new1 r → surfaces new2 r → surfaces (new1 ++ new2) r.
Proof. intros H1 H2 t e [?|?]%elem_of_app; eauto. Qed.

Lemma surfaces_none {A} new (r : settled A) :
  (∀ t e, EvSettle t (Rejected e) ∉ new) → surfaces new r.
Proof. intros H t e Hin. by apply H in Hin. Qed.

Lemma surfaces_io {A} evs (r : settled A) :
  Forall (λ ev, is_io ev = true) evs → surfaces evs r.
Proof. intros Hio. apply surfaces_none. intros t e. by apply io_not_settle. Qed.

Lemma surfaces_cons_other {A} ev new (r : settled A) :
  is_settle ev = false → surfaces new r → surfaces (ev :: new) r.
Proof.
  intros Hev H t e [Heq|?]%elem_of_cons; [by subst ev|]. by eapply H.
Qed.

Lemma syncIndex_surfaces assetsFolder assetIndex w r w' :
  syncIndex E L assetsFolder assetIndex w = (r, w') →
  ∃ new, log w' = new ++ log w ∧ surfaces new r ∧
    (is_fulfilled r = true → no_rejection new).
Proof.
  unfold syncIndex. set (T := indexTarget L assetsFolder assetIndex).
  destruct (awaitCall E L T w) as [[b|e] w1] eqn:Hcall;
    apply awaitCall_trace in Hcall as (evs & w0 & _ & _ & _ & Hlog1 & Hio).
  2:{ intros [= <- <-]. exists (EvSettle T (Rejected e) :: evs ++ [EvCall T]).
      split; [by rewrite Hlog1; simpl; rewrite <- app_assoc|].
      split; [|done].
      intros t e' [[= _ ->]|[Hin|Hin]%elem_of_app]%elem_of_cons; [done| |].
      - by apply io_not_settle in Hin.
      - by apply list_elem_of_singleton in Hin. }
  set (h1 := EvSettle T (Fulfilled b) :: evs ++ [EvCall T]).
  assert (Hlog1' : log w1 = h1 ++ log w).
  { rewrite Hlog1. unfold h1. simpl. by rewrite <- app_assoc. }
  assert (Hnr1 : no_rejection h1).
  { intros t e [?|[Hin|Hin]%elem_of_app]%elem_of_cons; [done| |].
    - by apply io_not_settle in Hin.
    - by apply list_elem_of_singleton in Hin. }
  clearbody h1. clear Hlog1.
  destruct (perform E (IoReadFile (t_path T)) w1) as [[text|e] w2] eqn:Hread;
    pose proof (perform_log E (IoReadFile (t_path T)) w1) as Hlog2;
    rewrite Hread in Hlog2; simpl in Hlog2.
  2:{ intros [= <- <-]. exists (EvIo (IoReadFile (t_path T)) :: h1).
      split; [by rewrite Hlog2, Hlog1'|].
      split; [|done]. apply surfaces_cons_other; [done|].
      by apply surfaces_none. }
  destruct (json_objects L text) as [members|e].
  2:{ intros [= <- <-]. exists (EvIo (IoReadFile (t_path T)) :: h1).
      split; [by rewrite Hlog2, Hlog1'|].
      split; [|done]. apply surfaces_cons_other; [done|].
      by apply surfaces_none. }
  set (info1 := EvInfo (InfoUpdating (length (dedupe members)) (ai_id assetIndex))).
  set (h2 := info1 :: EvIo (IoReadFile (t_path T)) :: h1).
  assert (Hnr2 : no_rejection h2).
  { intros t e [?|[?|Hin]%elem_of_cons]%elem_of_cons; [done|done|].
    by apply Hnr1 in Hin. }
  destruct (downloadChunks E L _ _ _ _ _ _) as [[n|e] w3] eqn:Hchunks;
    apply downloadChunks_run in Hchunks; try (unfold maxConcurrency; lia);
    apply chunks_run_trace in Hchunks
      as (new & started & Hlog3 & _ & _ & _ & _ & _ & Hsurf & _); try done;
    simpl in Hlog3; intros [= <- <-].
  - exists (EvInfo (InfoDownloaded n (Z.of_nat (length (dedupe members)) - n))
              :: new ++ h2).
    split; [simpl; rewrite Hlog3, Hlog2, Hlog1'; unfold h2; log_eq|].
    assert (Hall : no_rejection
      (EvInfo (InfoDownloaded n (Z.of_nat (length (dedupe members)) - n))
         :: new ++ h2)).
    { intros t e [?|[Hin|Hin]%elem_of_app]%elem_of_cons; [done| |].
      - by apply Hsurf in Hin.
      - by apply Hnr2 in Hin. }
    split; [by apply surfaces_none|done].
  - exists (new ++ h2).
    split; [simpl; rewrite Hlog3, Hlog2, Hlog1'; unfold h2; log_eq|].
    split; [|done].
    intros t e' [Hin|Hin]%elem_of_app.
    + apply Hsurf in Hin. by injection Hin as ->.
    + by apply Hnr2 in Hin.
Qed.

Lemma syncIndices_surfaces assetsFolder indices : ∀ w r w',
  syncIndices E L assetsFolder indices w = (r, w') →
  ∃ new, log w' = new ++ log w ∧ surfaces new r ∧
    (is_fulfilled r = true → no_rejection new).
Proof.
  induction indices as [|a indices IH]; intros w r w' Hrun; simpl in Hrun.
  - injection Hrun as <- <-. exists []. split_and!; try done.
    + by intros t e ?%elem_of_nil.
    + by intros _ t e ?%elem_of_nil.
  - destruct (syncIndex E L assetsFolder a w) as [[[]|e] w1] eqn:Hone;
      apply syncIndex_surfaces in Hone as (new1 & Hlog1 & Hs1 & Hn1).
    + apply IH in Hrun as (new2 & Hlog2 & Hs2 & Hn2).
      exists (new2 ++ new1). split; [by rewrite Hlog2, Hlog1, app_assoc|].
      split.
      * apply surfaces_app; [done|]. apply surfaces_none. by apply Hn1.
      * intros Hr t e [Hin|Hin]%elem_of_app; [by apply (Hn2 Hr) in Hin|].
        by apply (Hn1 eq_refl) in Hin.
    + injection Hrun as <- <-. exists new1. done.
Qed.

(** In a run of [downloadAssets], a [downloadIfChanged] call that rejects
    rejects the run with the same error. *)
Lemma downloadAssets_surfaces minecraftVersions assetsFolder w r w' :
  downloadAssets E L minecraftVersions assetsFolder w = (r, w') →
  ∃ new, log w' = new ++ log w ∧ surfaces new r.
Proof.
  unfold downloadAssets.
  set (info0 := EvInfo (InfoDownloading minecraftVersions)).
  destruct (exec E (getAssetIndices L minecraftVersions) _)
    as [[indices|e] w1] eqn:Hres;
    apply exec_trace_io in Hres as (evs1 & Hlog1 & Hio1); simpl in Hlog1.
  2:{ intros [= <- <-]. exists (evs1 ++ [info0]).
      split; [by rewrite Hlog1, <- app_assoc|].
      apply surfaces_app; [by apply surfaces_io|].
      by intros t e' ?%list_elem_of_singleton. }
  set (h1 := EvInfo (InfoIndexIds (Object_keys indices)) :: evs1 ++ [info0]).
  assert (Hnr1 : no_rejection h1).
  { intros t e [?|[Hin|Hin]%elem_of_app]%elem_of_cons; [done| |].
    - by apply io_not_settle in Hin.
    - by apply list_elem_of_singleton in Hin. }
  destruct (syncIndices E L _ _ _) as [[[]|e] w2] eqn:Hsync;
    apply syncIndices_surfaces in Hsync as (new & Hlog2 & Hs & Hn);
    simpl in Hlog2.
  2:{ intros [= <- <-]. exists (new ++ h1).
      split; [rewrite Hlog2, Hlog1; unfold h1; log_eq|].
      apply surfaces_app; [done|]. by apply surfaces_none. }
  destruct (exec E (getFolderSize assetsFolder) w2) as [[total|e] w3] eqn:Hsz;
    apply exec_trace_io in Hsz as (evs3 & Hlog3 & Hio3); intros [= <- <-].
  - exists (EvInfo (InfoOverallSize total) :: evs3 ++ new ++ h1).
    split; [simpl; rewrite Hlog3, Hlog2, Hlog1; unfold h1; log_eq|].
    apply surfaces_none.
    intros t e [?|[Hin|[Hin|Hin]%elem_of_app]%elem_of_app]%elem_of_cons;
      [done|by apply io_not_settle in Hin|by apply (Hn eq_refl) in Hin|].
    by apply Hnr1 in Hin.
  - exists (evs3 ++ new ++ h1).
    split; [simpl; rewrite Hlog3, Hlog2, Hlog1; unfold h1; log_eq|].
    apply surfaces_none.
    intros t e' [Hin|[Hin|Hin]%elem_of_app]%elem_of_app;
      [by apply io_not_settle in Hin|by apply (Hn eq_refl) in Hin|].
    by apply Hnr1 in Hin.
Qed.

End Surfacing.

(** ** Claim C6 *)

(** C6.  For an asset index whose deduplicated objects are [objects], the
    chunk loop cuts [objects], in their order, into consecutive batches of
    at most 20 objects ([batches]); the calls are started in that order (all
    of them when the loop completes); the first call of a batch, whose
    number is a multiple of 20, is started only when no earlier call is in
    flight, so every member of the batches before has settled; and at no
    time more than 20 calls are in flight. *)
Theorem C6_batches_of_twenty
    (E : Env) (L : Lib) (assetsFolder : string) (objects : list AssetObject)
    (w : World) (r : settled Z) (w' : World) :
  downloadChunks E L (length objects) assetsFolder objects 0 0 w = (r, w') →
  (concat (batches objects) = objects ∧
   Forall (λ b, (0 < length b ≤ 20)%nat) (batches objects) ∧
   ∀ k b, batches objects !! k = Some b →
     b = take 20 (drop (k * 20) objects)) ∧
  ∃ new started, log w' = new ++ log w ∧
    reverse (calls new) = objectTarget L assetsFolder <$> started ∧
    started `prefix_of` objects ∧
    (is_fulfilled r = true → started = objects ∧ in_flight new = 0) ∧
    (∀ h t, EvCall t :: h `suffix_of` new →
       (length (calls h) `mod` 20 = 0)%nat → in_flight h = 0) ∧
    (∀ h, h `suffix_of` new → 0 ≤ in_flight h ≤ 20).
Proof.
  intros Hrun. split.
  - destruct (batchesFrom_spec objects (length objects) 0) as (Hcat & Hall & Hk).
    { unfold maxConcurrency. lia. }
    split_and!; [by rewrite <- (drop_0 objects) at 2|done|].
    intros k b Hb. apply Hk in Hb. done.
  - apply downloadChunks_run in Hrun; [|unfold maxConcurrency; lia].
    apply chunks_run_trace in Hrun
      as (new & started & Hlog & Hcalls & Hpre & Hfin & _ & [Hb1 Hb2] & _);
      [|done].
    exists new, started. split_and!; try done.
Qed.

(** ** Claims C2, C9 and C7: the download phase *)

Section DownloadPhase.
Context (E : Env) (L : Lib).

Lemma downloadIfChanged_fetch_bound path url method checksum size w r w' :
  exec E (downloadIfChanged L path url method checksum size) w = (r, w') →
  ∃ new, log w' = new ++ log w ∧
    (count is_fetch new ≤ maxDownloadRetries)%nat.
Proof.
  unfold downloadIfChanged. rewrite exec_bind.
  destruct (exec E (probeLocal _ _ _ _ _) w) as [[reuse|e] w1] eqn:Hprobe;
    apply probeLocal_general in Hprobe
      as (_ & new1 & Hlog1 & Hfe1 & _).
  - destruct reuse.
    + intros [= <- <-]. exists new1. split; [done|]. lia.
    + intros Hexec. apply fetchAndWrite_general in Hexec
        as (new2 & Hlog2 & Hfe2 & _).
      exists (new2 ++ new1). rewrite Hlog2, Hlog1, app_assoc, count_app.
      split; [done|]. lia.
  - intros [= <- <-]. exists new1. split; [done|]. lia.
Qed.

Lemma probe_files path method checksum size w r w1 :
  exec E (probeLocal L path method checksum size) w = (r, w1) →
  files w1 = files w.
Proof. intros H. by apply probeLocal_general in H as [? _]. Qed.

End DownloadPhase.

(** C2.  A [downloadIfChanged] call makes at most 5 fetch attempts.  An
    attempt that fails with a non-success status, a body of the wrong
    length or a body of the wrong digest is retried, whichever it is; when
    attempt [k + 1] (at most the 5th) is the first acceptable one, its body
    is written and the call returns [true] after [k + 1] fetches; when all
    5 attempts fail the call throws the error naming the URL and the last
    reason; and in a run of [downloadAssets] a call that rejects rejects the
    whole run with that error. *)
Theorem C2_retry_policy
    (E : Env) (L : Lib) (path url method checksum : string) (size : Z)
    (w w1 : World) :
  exec E (probeLocal L path method checksum size) w = (Fulfilled false, w1) →
  let attempt i := remote E (after_failures url i (log w1)) url in
  let failed_before k :=
    ∀ i, (i < k)%nat → ∃ reason, retryable L method checksum size (attempt i) reason in
  (∃ r w' new,
     exec E (downloadIfChanged L path url method checksum size) w = (r, w') ∧
     log w' = new ++ log w ∧ (count is_fetch new ≤ 5)%nat) ∧
  (∀ k b, (k < 5)%nat → failed_before k →
     acceptable L method checksum size (attempt k) b →
     let h := EvIo (IoFetch url) :: after_failures url k (log w1) in
     io_fault E h (IoMkdir (path_dirname L path)) = None →
     io_fault E (EvIo (IoMkdir (path_dirname L path)) :: h)
       (IoWriteFile path b) = None →
     exec E (downloadIfChanged L path url method checksum size) w =
     (Fulfilled true,
      {| files := <[path := b]> (files w);
         log := EvIo (IoWriteFile path b)
                  :: EvIo (IoMkdir (path_dirname L path)) :: h |}) ∧
     count is_fetch (EvIo (IoFetch url) :: after_failures url k []) = S k) ∧
  (∀ reason, failed_before 4%nat →
     retryable L method checksum size (attempt 4%nat) reason →
     exec E (downloadIfChanged L path url method checksum size) w =
     (Rejected (JsError ("Failed to download " +:+ url +:+ ": " +:+ reason)),
      {| files := files w; log := after_failures url 5%nat (log w1) |}) ∧
     count is_fetch (after_failures url 5%nat []) = 5%nat) ∧
  (∀ minecraftVersions assetsFolder w0 r w' new t e,
     downloadAssets E L minecraftVersions assetsFolder w0 = (r, w') →
     log w' = new ++ log w0 →
     EvSettle t (Rejected e) ∈ new → r = Rejected e).
Proof.
  intros Hprobe attempt failed_before. split_and!.
  - destruct (exec E (downloadIfChanged L path url method checksum size) w)
      as [r w'] eqn:Hexec.
    destruct (downloadIfChanged_fetch_bound E L _ _ _ _ _ _ _ _ Hexec)
      as (new & Hlog & Hb).
    by exists r, w', new.
  - intros k b Hk Hfail Hacc h Hmk Hwr.
    rewrite (downloadIfChanged_download E L _ _ _ _ _ _ _ Hprobe).
    rewrite (fetchAndWrite_accepted E L path url method checksum size k b w1
               Hk Hfail Hacc Hmk Hwr).
    rewrite (probe_files E L _ _ _ _ _ _ _ Hprobe).
    split; [done|]. simpl. by rewrite count_fetch_after_failures.
  - intros reason Hfail Hlast.
    rewrite (downloadIfChanged_download E L _ _ _ _ _ _ _ Hprobe).
    rewrite (fetchAndWrite_exhausted E L path url method checksum size reason
               w1 Hfail Hlast).
    rewrite (probe_files E L _ _ _ _ _ _ _ Hprobe).
    split; [done|]. apply count_fetch_after_failures.
  - intros versions folder w0 r w' new t e Hrun Hlog Hin.
    apply downloadAssets_surfaces in Hrun as (new' & Hlog' & Hs).
    rewrite Hlog in Hlog'. apply app_inv_tail in Hlog' as <-.
    by eapply Hs.
Qed.

(** C9.  When [fetch] itself rejects on attempt [k + 1], after [k]
    retryable failures, the call rejects with that very exception: it is not
    retried (there are exactly [k + 1] fetches, however many attempts
    remain) and it is not wrapped; nothing is written. *)
Theorem C9_transport_failure_not_retried
    (E : Env) (L : Lib) (path url method checksum : string) (size : Z)
    (w w1 : World) (k : nat) (e : exn) :
  exec E (probeLocal L path method checksum size) w = (Fulfilled false, w1) →
  (k < maxDownloadRetries)%nat →
  (∀ i, (i < k)%nat → ∃ reason,
     retryable L method checksum size
       (remote E (after_failures url i (log w1)) url) reason) →
  remote E (after_failures url k (log w1)) url = Rejected e →
  exec E (downloadIfChanged L path url method checksum size) w =
  (Rejected e,
   {| files := files w;
      log := EvIo (IoFetch url) :: after_failures url k (log w1) |}) ∧
  count is_fetch (EvIo (IoFetch url) :: after_failures url k []) = S k.
Proof.
  intros Hprobe Hk Hfail Herr.
  rewrite (downloadIfChanged_download E L _ _ _ _ _ _ _ Hprobe).
  rewrite (fetchAndWrite_transport E L path url method checksum size k e w1
             Hk Hfail (or_introl Herr)).
  rewrite (probe_files E L _ _ _ _ _ _ _ Hprobe).
  split; [done|]. simpl. by rewrite count_fetch_after_failures.
Qed.

(** C7, as stated, fails: with a full disk the accepted body is written in
    part; the target path then holds one byte, which is neither its previous
    content nor the accepted body. *)
Lemma C7_counterexample :
  ¬ write_is_atomic Example.full_disk Example.lib
      "assets/objects/3" "http://origin/3" "sha1" "3" 2 Example.stale_world.
Proof.
  intros Hatomic.
  destruct (Hatomic (Rejected (SystemError "ENOSPC"))
              {| files := {[ "assets/objects/3" := ["001"%byte] ]};
                 log := [EvIo (IoWriteFile "assets/objects/3" Example.payload);
                         EvIo (IoMkdir "assets/objects");
                         EvIo (IoFetch "http://origin/3");
                         EvIo (IoReadStream "assets/objects/3");
                         EvIo (IoStat "assets/objects/3")] |})
    as [Hsame|(data & Hdata & Hlen & _)].
  - vm_compute. reflexivity.
  - vm_compute in Hsame. discriminate.
  - vm_compute in Hdata. injection Hdata as <-. vm_compute in Hlen.
    discriminate.
Qed.

(** C7, amended.  When an attempt is accepted, [downloadIfChanged] creates
    the parent directory and then writes the body with a single [writeFile]
    to the target path.  If both succeed the file holds exactly the body and
    the call returns [true].  If one fails the call rejects with that error,
    and the target path holds what it held before or, when the write had
    begun, a prefix of the body: the write is not atomic.  No other path is
    modified. *)
Theorem C7_write_after_accept
    (E : Env) (L : Lib) (path url method checksum : string) (size : Z)
    (w w1 : World) (k : nat) (b : bytes) :
  exec E (probeLocal L path method checksum size) w = (Fulfilled false, w1) →
  (k < maxDownloadRetries)%nat →
  (∀ i, (i < k)%nat → ∃ reason,
     retryable L method checksum size
       (remote E (after_failures url i (log w1)) url) reason) →
  acceptable L method checksum size
    (remote E (after_failures url k (log w1)) url) b →
  let h := EvIo (IoFetch url) :: after_failures url k (log w1) in
  let mkdir := EvIo (IoMkdir (path_dirname L path)) in
  ∃ r w',
    exec E (downloadIfChanged L path url method checksum size) w = (r, w') ∧
    (∀ p, p ≠ path → files w' !! p = files w !! p) ∧
    ((r = Fulfilled true ∧ files w' !! path = Some b ∧
      log w' = EvIo (IoWriteFile path b) :: mkdir :: h) ∨
     (∃ e, r = Rejected e ∧ io_fault E h (IoMkdir (path_dirname L path)) = Some e ∧
        files w' = files w ∧ log w' = mkdir :: h) ∨
     (∃ e, r = Rejected e ∧ io_fault E (mkdir :: h) (IoWriteFile path b) = Some e ∧
        log w' = EvIo (IoWriteFile path b) :: mkdir :: h ∧
        (files w' !! path = files w !! path ∨
         ∃ n, files w' !! path = Some (take n b)))).
Proof.
  intros Hprobe Hk Hfail Hacc h mkdir.
  rewrite (downloadIfChanged_download E L _ _ _ _ _ _ _ Hprobe).
  rewrite <- (probe_files E L _ _ _ _ _ _ _ Hprobe).
  unfold fetchAndWrite. rewrite exec_bind. unfold maxDownloadRetries in *.
  replace 5%nat with (k + S (4 - k))%nat by lia.
  destruct (fetchLoop_failures E L url method checksum size k (S (4 - k))
              None None w1 Hfail) as (le' & buf' & ->).
  rewrite (fetchLoop_accept E L url method checksum size _ _ _
             {| files := files w1; log := after_failures url k (log w1) |}
             b Hacc).
  cbn [truthy]. rewrite exec_bind, (exec_await E (IoMkdir _)). simpl.
  fold h. destruct (io_fault E h (IoMkdir (path_dirname L path))) as [e|] eqn:Hmk.
  - eexists _, _. split; [reflexivity|]. simpl. split; [done|].
    right. left. by exists e.
  - simpl. fold h mkdir.
    destruct (io_fault E (mkdir :: h) (IoWriteFile path b)) as [e|] eqn:Hwr.
    + eexists _, _. split; [reflexivity|]. simpl. split.
      * intros p Hp. destruct (torn E (mkdir :: h) path b); [|done].
        by rewrite lookup_insert_ne.
      * right. right. exists e. split_and!; try done.
        destruct (torn E (mkdir :: h) path b) as [n|]; [|by left].
        right. exists n. by rewrite lookup_insert_eq.
    + eexists _, _. split; [reflexivity|]. simpl. split.
      * intros p Hp. by rewrite lookup_insert_ne.
      * left. by rewrite lookup_insert_eq.
Qed.

(** ** Claim C4: version resolution *)

Section Resolution.
Context (E : Env) (L : Lib).

Local Arguments downloadJson : simpl never.
Local Arguments mbind : simpl never.

Lemma find_absent versions version :
  absent versions version ↔
  List.find (λ v, String.eqb (v_id v) version) versions = None.
Proof.
  unfold absent. induction versions as [|entry versions IH]; simpl.
  - split; [done|]. by intros _ entry ?%elem_of_nil.
  - destruct (String.eqb_spec (v_id entry) version) as [Heq|Hne].
    + split; [|done]. intros H. destruct (H entry); [by left|done].
    + rewrite <- IH. split.
      * intros H e He. apply H. by right.
      * intros H e [->|He]%elem_of_cons; [done|by apply H].
Qed.

(** [downloadJson] makes one request and touches nothing. *)
Lemma downloadJson_run {A} (decode : bytes → settled A) url w r w' :
  exec E (downloadJson decode url) w = (r, w') →
  w' = record (EvIo (IoFetch url)) w ∧
  (∀ v, r = Fulfilled v → ∃ res doc,
     remote E (log w) url = Fulfilled res ∧ ok res = true ∧
     body res = Fulfilled doc ∧ decode doc = Fulfilled v).
Proof.
  unfold downloadJson. rewrite exec_bind, (exec_await E (IoFetch url)). simpl.
  destruct (remote E (log w) url) as [res|e]; [|by intros [= <- <-]].
  destruct (ok res) eqn:Hok; simpl; [|by intros [= <- <-]].
  destruct (body res) as [doc|e] eqn:Hbody; [|by intros [= <- <-]].
  destruct (decode doc) as [v|e] eqn:Hdec; intros [= <- <-]; [|done].
  split; [done|]. intros v' [= <-]. by exists res, doc.
Qed.

Lemma downloadJson_answered {A} (decode : bytes → settled A) url w v :
  answered E decode (log w) url v →
  exec E (downloadJson decode url) w
  = (Fulfilled v, record (EvIo (IoFetch url)) w).
Proof.
  intros (res & doc & Hres & Hok & Hbody & Hdec).
  unfold downloadJson. rewrite exec_bind, (exec_await E (IoFetch url)). simpl.
  by rewrite Hres, Hok, Hbody, Hdec.
Qed.

(** The loop over the requested versions: only fetches; it returns the
    metadata read for each version, assigned one after the other to the
    object; it never returns when a requested version is absent. *)
Lemma resolveVersions_run versions requested : ∀ acc w r w',
  exec E (resolveVersions L versions requested acc) w = (r, w') →
  files w' = files w ∧
  (∃ evs, log w' = evs ++ log w ∧ Forall (λ ev, is_fetch_only ev = true) evs) ∧
  (∀ m, r = Fulfilled m →
     ∃ metas, resolved E L versions (log w) requested metas (log w') ∧
       m = (foldl (λ o a, obj_assign ai_has_proto (ai_id a) a o) acc metas).1) ∧
  (∀ v, v ∈ requested → absent versions v → ∃ e, r = Rejected e).
Proof.
  induction requested as [|version rest IH]; intros acc w r w' Hexec;
    cbn [resolveVersions] in Hexec.
  - simpl in Hexec. injection Hexec as <- <-. split_and!; try done.
    + by exists [].
    + intros m [= <-]. exists []. split; [constructor|done].
    + by intros v ?%elem_of_nil.
  - destruct (List.find _ versions) as [entry|] eqn:Hfind;
      cbn [truthy fmap option_fmap option_map negb default] in Hexec.
    2:{ injection Hexec as <- <-. split_and!; try done.
        - by exists [].
        - intros v _ _. by eexists. }
    destruct (String.eqb_spec (v_url entry) "") as [Hurl|Hurl];
      cbn [negb] in Hexec.
    { injection Hexec as <- <-. split_and!; try done.
      - by exists [].
      - intros v _ _. by eexists. }
    rewrite exec_bind in Hexec.
    destruct (exec E (downloadJson _ _) w) as [[a|e] w1] eqn:Hmeta;
      apply downloadJson_run in Hmeta as [-> Hres].
    2:{ injection Hexec as <- <-. split_and!; try done.
        - exists [EvIo (IoFetch (v_url entry))]. split; [done|].
          by repeat constructor.
        - intros v _ _. by eexists. }
    apply IH in Hexec as (Hfiles & (evs & Hlog & Hio) & Hm & Habs).
    split_and!; try done.
    + exists (evs ++ [EvIo (IoFetch (v_url entry))]). split.
      * rewrite Hlog. simpl. by rewrite <- app_assoc.
      * apply Forall_app. split; [done|]. by constructor.
    + intros m Hr. destruct (Hm m Hr) as (metas & Hall & ->).
      exists (a :: metas). split; [|done].
      apply (resolved_cons E L versions (log w) version rest entry a metas);
        [done|done|exact (Hres a eq_refl)|exact Hall].
    + intros v [->|Hin]%elem_of_cons Hv; [|by apply (Habs v)].
      apply find_absent in Hv. rewrite Hv in Hfind. done.
Qed.

(** Conversely, answered requests make the loop return. *)
Lemma resolveVersions_resolved versions requested metas w h :
  resolved E L versions (log w) requested metas h →
  ∀ acc,
  exec E (resolveVersions L versions requested acc) w
  = (Fulfilled (foldl (λ o a, obj_assign ai_has_proto (ai_id a) a o) acc metas).1,
     {| files := files w; log := h |}).
Proof.
  remember (log w) as h0 eqn:Hh0. intros Hres. revert w Hh0.
  induction Hres as [h0|h0 version rest entry a metas h' Hfind Hurl Hans _ IH];
    intros w -> acc; cbn [resolveVersions foldl].
  - simpl. by destruct w.
  - rewrite Hfind. cbn [truthy fmap option_fmap option_map negb default id].
    destruct (String.eqb_spec (v_url entry) "") as [?|_]; [done|]. cbn [negb].
    rewrite exec_bind, (downloadJson_answered _ _ _ _ Hans).
    by rewrite (IH (record (EvIo (IoFetch (v_url entry))) w) eq_refl).
Qed.

Lemma getAssetIndices_unfold minecraftVersions w :
  exec E (getAssetIndices L minecraftVersions) w =
  match exec E (downloadJson (json_versions L) versionManifestUrl) w with
  | (Fulfilled versions, w1) =>
      exec E (resolveVersions L versions minecraftVersions ([], None)) w1
  | (Rejected e, w1) => (Rejected e, w1)
  end.
Proof. unfold getAssetIndices. by rewrite exec_bind. Qed.

(** What precedes an absent version was resolved: the loop stops there with
    "not found". *)
Lemma resolveVersions_not_found versions pre version post metas w h :
  resolved E L versions (log w) pre metas h →
  absent versions version →
  ∀ acc,
  exec E (resolveVersions L versions (pre ++ version :: post) acc) w =
  (Rejected (JsError ("Minecraft version " +:+ version +:+ " not found")),
   {| files := files w; log := h |}).
Proof.
  remember (log w) as h0 eqn:Hh0. intros Hres Habs. revert w Hh0.
  induction Hres as [h0|h0 v rest entry a metas h' Hfind Hurl Hans _ IH];
    intros w -> acc; cbn [resolveVersions app].
  - apply find_absent in Habs. rewrite Habs. simpl. by destruct w.
  - rewrite Hfind. cbn [truthy fmap option_fmap option_map negb default id].
    destruct (String.eqb_spec (v_url entry) "") as [?|_]; [done|]. cbn [negb].
    rewrite exec_bind, (downloadJson_answered _ _ _ _ Hans).
    by rewrite (IH (record (EvIo (IoFetch (v_url entry))) w) eq_refl).
Qed.

(** A resolution that fails ends the run before any call is made. *)
Lemma downloadAssets_unresolved minecraftVersions assetsFolder w e w1 :
  exec E (getAssetIndices L minecraftVersions)
    (record (EvInfo (InfoDownloading minecraftVersions)) w) = (Rejected e, w1) →
  downloadAssets E L minecraftVersions assetsFolder w = (Rejected e, w1) ∧
  files w1 = files w ∧
  ∃ new, log w1 = new ++ log w ∧ calls new = [] ∧ count is_write new = 0%nat.
Proof.
  intros Hres. unfold downloadAssets. rewrite Hres. split; [done|].
  rewrite getAssetIndices_unfold in Hres.
  destruct (exec E (downloadJson _ _) _) as [[versions|e'] w0] eqn:Hman;
    apply downloadJson_run in Hman as [-> _].
  - apply resolveVersions_run in Hres as (Hfiles & (evs & Hlog & Hio) & _).
    split; [done|].
    exists (evs ++ [EvIo (IoFetch versionManifestUrl);
                    EvInfo (InfoDownloading minecraftVersions)]).
    split; [rewrite Hlog; simpl; by rewrite <- app_assoc|].
    rewrite calls_app, count_app. simpl.
    assert (calls evs = [] ∧ count is_write evs = 0%nat) as [-> ->]; [|done].
    clear -Hio. induction Hio as [|ev evs Hev _ [IH1 IH2]]; [done|].
    destruct ev as [[]| | |]; try done.
  - injection Hres as <- <-. split; [done|].
    by exists [EvIo (IoFetch versionManifestUrl);
               EvInfo (InfoDownloading minecraftVersions)].
Qed.

End Resolution.

(** C4.  With the version manifest retrieved as [versions]:
    - if a requested version is absent from it, the resolution never
      returns a mapping, it rejects; when the metadata of every version
      requested before it was retrieved, it rejects with "version not found"
      naming that version, right after those requests;
    - [downloadAssets] rejects with the error of a failed resolution before
      any [downloadIfChanged] call and any write;
    - if every requested version is listed and the request for the metadata
      of each is answered, the resolution returns, with the object
      collected from the descriptors read, and only then does it return;
    - every property of that object is a descriptor read, under its own
      id; every descriptor read whose id is not [__proto__] has its id as
      a key; no id is enumerated twice, so versions that share an asset
      index leave one entry; and when no id is [__proto__] the object is
      [Object.fromEntries] of the pairs (id, descriptor). *)
Theorem C4_version_resolution
    (E : Env) (L : Lib) (minecraftVersions : list string)
    (w : World) (versions : list VersionEntry) (w1 : World) :
  exec E (downloadJson (json_versions L) versionManifestUrl) w
    = (Fulfilled versions, w1) →
  (∀ version, version ∈ minecraftVersions → absent versions version →
     (∃ e w', exec E (getAssetIndices L minecraftVersions) w = (Rejected e, w')) ∧
     (∀ pre post metas h,
        minecraftVersions = pre ++ version :: post →
        resolved E L versions (log w1) pre metas h →
        exec E (getAssetIndices L minecraftVersions) w =
        (Rejected (JsError ("Minecraft version " +:+ version +:+ " not found")),
         {| files := files w; log := h |}))) ∧
  (∀ assetsFolder w0 e w',
     exec E (getAssetIndices L minecraftVersions)
       (record (EvInfo (InfoDownloading minecraftVersions)) w0) = (Rejected e, w') →
     downloadAssets E L minecraftVersions assetsFolder w0 = (Rejected e, w') ∧
     files w' = files w0 ∧
     ∃ new, log w' = new ++ log w0 ∧ calls new = [] ∧
            count is_write new = 0%nat) ∧
  (∀ metas h,
     resolved E L versions (log w1) minecraftVersions metas h →
     exec E (getAssetIndices L minecraftVersions) w
     = (Fulfilled (collected metas), {| files := files w; log := h |})) ∧
  (∀ assetIndices w',
     exec E (getAssetIndices L minecraftVersions) w = (Fulfilled assetIndices, w') →
     (∀ version, version ∈ minecraftVersions → ¬ absent versions version) ∧
     ∃ metas,
       resolved E L versions (log w1) minecraftVersions metas (log w') ∧
       assetIndices = collected metas) ∧
  (∀ metas,
     (∀ id a, (id, a) ∈ collected metas → ai_id a = id ∧ a ∈ metas) ∧
     (∀ a, a ∈ metas → ai_id a ≠ "__proto__" →
           ai_id a ∈ Object_keys (collected metas)) ∧
     NoDup (Object_keys (collected metas)) ∧
     NoDup (ai_id <$> Object_values (collected metas)) ∧
     ((∀ a, a ∈ metas → ai_id a ≠ "__proto__") →
      collected metas = Object_fromEntries ((λ a, (ai_id a, a)) <$> metas))).
Proof.
  intros Hman.
  pose proof Hman as Hw1. apply downloadJson_run in Hw1 as [Hw1 _].
  assert (Hfiles1 : files w1 = files w) by (by subst w1).
  split_and!.
  - intros version Hin Habs. split.
    + rewrite getAssetIndices_unfold, Hman.
      destruct (exec E (resolveVersions L versions minecraftVersions ([], None)) w1)
        as [r w'] eqn:Hrun.
      apply resolveVersions_run in Hrun as (_ & _ & _ & Hrej).
      destruct (Hrej version Hin Habs) as [e ->]. by exists e, w'.
    + intros pre post metas h -> Hpre.
      rewrite getAssetIndices_unfold, Hman, <- Hfiles1.
      by eapply resolveVersions_not_found.
  - intros assetsFolder w0 e w' Hres. by apply downloadAssets_unresolved.
  - intros metas h Hres.
    rewrite getAssetIndices_unfold, Hman, <- Hfiles1.
    by apply resolveVersions_resolved.
  - intros assetIndices w' Hrun.
    rewrite getAssetIndices_unfold, Hman in Hrun.
    apply resolveVersions_run in Hrun as (_ & _ & Hm & Hrej).
    split.
    { intros version Hin Habs. by destruct (Hrej version Hin Habs). }
    destruct (Hm assetIndices eq_refl) as (metas & Hall & Heq).
    by exists metas.
  - intros metas.
    destruct (foldl_obj_assign ai_has_proto ai_id metas ([], None)
                (NoDup_nil_2)) as (Hnd & _ & Hnames & Helem & Hplain).
    fold (collected metas) in Hnd, Hnames, Helem.
    assert (Hkeyed : ∀ id a, (id, a) ∈ collected metas → ai_id a = id ∧ a ∈ metas).
    { intros id a Hin.
      by destruct (Helem id a Hin) as [?%elem_of_nil|[-> ?]]. }
    split_and!; try done.
    + intros a Ha Hne. rewrite Object_keys_perm. by apply Hnames.
    + by rewrite Object_keys_perm.
    + assert (Hids : ai_id <$> Object_values (collected metas)
                     = Object_keys (collected metas)).
      { unfold Object_values, Object_keys.
        assert (Hall' : ∀ kv, kv ∈ own_properties (collected metas) →
                              ai_id kv.2 = kv.1).
        { intros [id a] Hin. rewrite own_properties_perm in Hin.
          by apply Hkeyed in Hin as [? _]. }
        induction (own_properties (collected metas)) as [|kv l IH]; [done|].
        rewrite !fmap_cons. f_equal.
        - apply Hall'. by left.
        - apply IH. intros kv' ?. apply Hall'. by right. }
      rewrite Hids. by rewrite Object_keys_perm.
    + intros Hall. unfold collected. rewrite (Hplain Hall). cbn [fst].
      unfold Object_fromEntries. generalize (@nil (string * AssetIndex)).
      clear. induction metas as [|a metas IH]; intros o; [done|].
      rewrite fmap_cons. simpl. apply IH.
Qed.

(** The id [__proto__]: assigned to a fresh object it replaces the
    prototype and leaves no key; once the prototype is a descriptor that
    has a member of that name, the next assignment creates the key. *)
Lemma collected_proto :
  let plain := {| ai_id := "__proto__"; ai_url := "index/a"; ai_sha1 := "1";
                  ai_size := 1; ai_has_proto := false |} in
  let shadowing := {| ai_id := "__proto__"; ai_url := "index/b"; ai_sha1 := "2";
                      ai_size := 1; ai_has_proto := true |} in
  Object_keys (collected [plain]) = [] ∧
  Object_keys (collected [plain; Example.index9]) = ["9"] ∧
  collected [plain; plain] = [] ∧
  collected [shadowing; plain] = [("__proto__", plain)].
Proof. by split_and!. Qed.

(** C4, as stated, fails: when the metadata of a listed version cannot be
    retrieved, a later version that the manifest does not list is never
    looked up, and the resolution fails with the error of the download, not
    with "not found". *)
Lemma C4_counterexample :
  ¬ fails_with_VersionNotFound Example.lost_meta Example.lib
      ["v7"; "nonexistent-1.0"] Example.empty_world.
Proof.
  intros Hclaim.
  destruct (Hclaim Example.catalog
              {| files := ∅; log := [EvIo (IoFetch versionManifestUrl)] |})
    as (version & w' & _ & _ & Hrun).
  - vm_compute. reflexivity.
  - exists "nonexistent-1.0". split.
    + apply elem_of_cons. right. apply elem_of_cons. by left.
    + intros entry Hin Heq.
      apply elem_of_cons in Hin as [->|Hin]; [discriminate Heq|].
      apply elem_of_cons in Hin as [->|Hin]; [discriminate Heq|].
      by apply elem_of_nil in Hin.
  - assert (Hreal : (exec Example.lost_meta
                       (getAssetIndices Example.lib ["v7"; "nonexistent-1.0"])
                       Example.empty_world).1
                    = Rejected (JsError "Failed to JSON file meta/7: 404"))
      by (vm_compute; reflexivity).
    rewrite Hrun in Hreal. discriminate Hreal.
Qed.

(** On the concrete environment: the server is down for two requests; the
    third attempt is accepted and written. *)
Lemma C2_witness :
  exec (Example.flaky 2)
    (probeLocal Example.lib "assets/objects/3" "sha1" "3" 2) Example.empty_world
  = (Fulfilled false, Example.probed_world) ∧
  (exec (Example.flaky 2)
     (downloadIfChanged Example.lib "assets/objects/3" "http://origin/3"
        "sha1" "3" 2) Example.empty_world).1 = Fulfilled true.
Proof.
  assert (H : exec (Example.flaky 2)
    (probeLocal Example.lib "assets/objects/3" "sha1" "3" 2) Example.empty_world
    = (Fulfilled false, Example.probed_world)) by (vm_compute; reflexivity).
  split; [exact H|].
  destruct (C2_retry_policy (Example.flaky 2) Example.lib
              "assets/objects/3" "http://origin/3" "sha1" "3" 2 _ _ H)
    as (_ & Haccept & _).
  destruct (Haccept 2%nat Example.payload) as [-> _].
  - lia.
  - intros i Hi. exists "HTTP Error 500".
    exists {| status := 500; body := Fulfilled [] |}.
    destruct i as [|[|i]]; [| |lia]; (split; [reflexivity|]); left; done.
  - exists {| status := 200; body := Fulfilled Example.payload |}. done.
  - reflexivity.
  - reflexivity.
  - reflexivity.
Defined.

(** On the concrete environment: one answered request, then the network is
    unreachable; the second fetch rejects the call. *)
Lemma C9_witness :
  exec (Example.unreachable_after 1)
    (probeLocal Example.lib "assets/objects/3" "sha1" "3" 2) Example.empty_world
  = (Fulfilled false, Example.probed_world) ∧
  (exec (Example.unreachable_after 1)
     (downloadIfChanged Example.lib "assets/objects/3" "http://origin/3"
        "sha1" "3" 2) Example.empty_world).1
  = Rejected (JsError "fetch failed").
Proof.
  assert (H : exec (Example.unreachable_after 1)
    (probeLocal Example.lib "assets/objects/3" "sha1" "3" 2) Example.empty_world
    = (Fulfilled false, Example.probed_world)) by (vm_compute; reflexivity).
  split; [exact H|].
  destruct (C9_transport_failure_not_retried (Example.unreachable_after 1)
              Example.lib "assets/objects/3" "http://origin/3" "sha1" "3" 2
              _ _ 1%nat (JsError "fetch failed") H) as [-> _].
  - unfold maxDownloadRetries. lia.
  - intros i Hi. exists "HTTP Error 500".
    exists {| status := 500; body := Fulfilled [] |}.
    destruct i as [|i]; [|lia]. (split; [reflexivity|]); left; done.
  - reflexivity.
  - reflexivity.
Defined.

(** On the concrete environment: the disk is full, the accepted body is
    torn. *)
Lemma C7_witness :
  exec Example.full_disk
    (probeLocal Example.lib "assets/objects/3" "sha1" "3" 2) Example.stale_world
  = (Fulfilled false,
     {| files := files Example.stale_world;
        log := [EvIo (IoReadStream "assets/objects/3");
                EvIo (IoStat "assets/objects/3")] |}) ∧
  ∃ r w',
    exec Example.full_disk
      (downloadIfChanged Example.lib "assets/objects/3" "http://origin/3"
         "sha1" "3" 2) Example.stale_world = (r, w') ∧
    ∀ p, p ≠ "assets/objects/3" → files w' !! p = files Example.stale_world !! p.
Proof.
  assert (H : exec Example.full_disk
    (probeLocal Example.lib "assets/objects/3" "sha1" "3" 2) Example.stale_world
    = (Fulfilled false,
       {| files := files Example.stale_world;
          log := [EvIo (IoReadStream "assets/objects/3");
                  EvIo (IoStat "assets/objects/3")] |}))
    by (vm_compute; reflexivity).
  split; [exact H|].
  destruct (C7_write_after_accept Example.full_disk Example.lib
              "assets/objects/3" "http://origin/3" "sha1" "3" 2
              _ _ 0%nat Example.payload H) as (r & w' & Hrun & Hframe & _).
  - unfold maxDownloadRetries. lia.
  - intros i Hi. lia.
  - exists {| status := 200; body := Fulfilled Example.payload |}. done.
  - by exists r, w'.
Defined.

(** On the concrete origin: the two objects form one batch; both calls are
    started, in order, and have settled at the end. *)
Lemma C6_witness :
  downloadChunks Example.origin Example.lib (length Example.two_objects)
    "assets" Example.two_objects 0 0 Example.empty_world
  = Example.two_objects_run ∧
  batches Example.two_objects = [Example.two_objects] ∧
  ∃ new, log Example.two_objects_run.2 = new ++ [] ∧
    reverse (calls new) = objectTarget Example.lib "assets" <$> Example.two_objects ∧
    in_flight new = 0.
Proof.
  assert (H : downloadChunks Example.origin Example.lib
                (length Example.two_objects) "assets" Example.two_objects 0 0
                Example.empty_world
              = (Example.two_objects_run.1, Example.two_objects_run.2))
    by (vm_compute; reflexivity).
  split; [vm_compute; reflexivity|]. split; [reflexivity|].
  destruct (C6_batches_of_twenty _ _ _ _ _ _ _ H)
    as (_ & new & started & Hlog & Hcalls & _ & Hdone & _).
  destruct (Hdone eq_refl) as [-> Hfl].
  exists new. split; [exact Hlog|]. split; [exact Hcalls|exact Hfl].
Defined.

(** On the concrete origin: the catalog lists v7 and v8; asking for a
    version it does not list after v7 rejects the resolution with "not
    found" once the metadata of v7 has been read; asking for v7 and v8,
    which share the asset index 9, returns one entry. *)
Lemma C4_witness :
  exec Example.origin
    (downloadJson (json_versions Example.lib) versionManifestUrl)
    Example.empty_world
  = (Fulfilled Example.catalog,
     {| files := ∅; log := [EvIo (IoFetch versionManifestUrl)] |}) ∧
  exec Example.origin
    (getAssetIndices Example.lib ["v7"; "nonexistent-1.0"]) Example.empty_world
  = (Rejected (JsError "Minecraft version nonexistent-1.0 not found"),
     {| files := ∅;
        log := [EvIo (IoFetch "meta/7"); EvIo (IoFetch versionManifestUrl)] |}) ∧
  exec Example.origin
    (getAssetIndices Example.lib ["v7"; "v8"]) Example.empty_world
  = (Fulfilled [("9", Example.index9)],
     {| files := ∅;
        log := [EvIo (IoFetch "meta/8"); EvIo (IoFetch "meta/7");
                EvIo (IoFetch versionManifestUrl)] |}).
Proof.
  assert (H : exec Example.origin
    (downloadJson (json_versions Example.lib) versionManifestUrl)
    Example.empty_world
    = (Fulfilled Example.catalog,
       {| files := ∅; log := [EvIo (IoFetch versionManifestUrl)] |}))
    by (vm_compute; reflexivity).
  assert (H7 : ∀ h, answered Example.origin (json_assetIndex Example.lib) h
                      "meta/7" Example.index9).
  { intros h. eexists _, _. split_and!; reflexivity. }
  assert (H8 : ∀ h, answered Example.origin (json_assetIndex Example.lib) h
                      "meta/8" Example.index9).
  { intros h. eexists _, _. split_and!; reflexivity. }
  split; [exact H|]. split.
  - destruct (C4_version_resolution Example.origin Example.lib
                ["v7"; "nonexistent-1.0"] _ _ _ H) as (Habsent & _).
    destruct (Habsent "nonexistent-1.0") as [_ Hnf].
    + apply elem_of_cons. right. apply elem_of_cons. by left.
    + intros entry Hin Heq.
      apply elem_of_cons in Hin as [->|Hin]; [discriminate Heq|].
      apply elem_of_cons in Hin as [->|Hin]; [discriminate Heq|].
      by apply elem_of_nil in Hin.
    + apply (Hnf ["v7"] [] [Example.index9]); [reflexivity|].
      apply (resolved_cons _ _ _ _ "v7" [] {| v_id := "v7"; v_url := "meta/7" |});
        [reflexivity|done|apply H7|constructor].
  - destruct (C4_version_resolution Example.origin Example.lib
                ["v7"; "v8"] _ _ _ H) as (_ & _ & Hall & _).
    apply (Hall [Example.index9; Example.index9]).
    apply (resolved_cons _ _ _ _ "v7" ["v8"] {| v_id := "v7"; v_url := "meta/7" |});
      [reflexivity|done|apply H7|].
    apply (resolved_cons _ _ _ _ "v8" [] {| v_id := "v8"; v_url := "meta/8" |});
      [reflexivity|done|apply H8|constructor].
Defined.

(** ** The literal of line 315 *)

Section Delimited.
Import RegExp.
Context (input : list ascii).

Local Abbreviation fl := no_flags.

(** A greedy star over single characters, read backwards: it succeeded with
    some number of characters that pass the test. *)
Lemma star_one_sound test fuel : ∀ i caps k res,
  star_loop fuel (one input test) true [] i caps k = Some res →
  ∃ n, (∀ t, (t < n)%nat → ∃ c, input !! (i + t)%nat = Some c ∧ test c = true) ∧
       k (i + n)%nat caps = Some res.
Proof.
  induction fuel as [|fuel IH]; intros i caps k res; simpl.
  - intros Hk. exists 0%nat. rewrite Nat.add_0_r. split; [lia|done].
  - unfold one at 1. unfold orelse.
    destruct (input !! i) as [c|] eqn:Hc.
    2:{ intros Hk. exists 0%nat. rewrite Nat.add_0_r. split; [lia|done]. }
    destruct (test c) eqn:Ht.
    2:{ intros Hk. exists 0%nat. rewrite Nat.add_0_r. split; [lia|done]. }
    replace (S i =? i)%nat with false by (symmetry; apply Nat.eqb_neq; lia).
    destruct (star_loop fuel _ _ _ (S i) caps k) as [res'|] eqn:Hrec.
    + intros [= <-]. apply IH in Hrec as (n & Hn & Hk).
      exists (S n). split.
      * intros [|t] Ht'; [rewrite Nat.add_0_r; by exists c|].
        destruct (Hn t) as (c' & ? & ?); [lia|]. exists c'.
        by replace (i + S t)%nat with (S i + t)%nat by lia.
      * by replace (i + S n)%nat with (S i + n)%nat by lia.
    + intros Hk. exists 0%nat. rewrite Nat.add_0_r. split; [lia|done].
Qed.

(** ... and forwards: it succeeds when the continuation succeeds after some
    number of characters that pass the test. *)
Lemma star_one_complete test n : ∀ fuel i caps k,
  (n ≤ fuel)%nat →
  (∀ t, (t < n)%nat → ∃ c, input !! (i + t)%nat = Some c ∧ test c = true) →
  is_Some (k (i + n)%nat caps) →
  is_Some (star_loop fuel (one input test) true [] i caps k).
Proof.
  induction n as [|n IH]; intros fuel i caps k Hfuel Hchars Hk.
  - rewrite Nat.add_0_r in Hk. destruct fuel as [|fuel]; simpl; [done|].
    unfold orelse. destruct (one input test i caps _); [done|exact Hk].
  - destruct fuel as [|fuel]; [lia|]. simpl. unfold one at 1.
    destruct (Hchars 0%nat) as (c & Hc & Ht); [lia|].
    rewrite Nat.add_0_r in Hc. rewrite Hc, Ht.
    replace (S i =? i)%nat with false by (symmetry; apply Nat.eqb_neq; lia).
    assert (Hrec : is_Some (star_loop fuel (one input test) true [] (S i) caps k)).
    { apply IH; [lia| |].
      - intros t Ht'. destruct (Hchars (S t)) as (c' & ? & ?); [lia|].
        exists c'. by replace (S i + t)%nat with (i + S t)%nat by lia.
      - by replace (S i + n)%nat with (i + S n)%nat by lia. }
    destruct Hrec as [res ->]. done.
Qed.

(** What a match of the literal at position [i] is. *)
Lemma delimited_sound i stop caps :
  match_at fl input delimited i = Some (stop, caps) →
  ∃ n m,
    input !! i = Some "/"%char ∧
    (∀ t, (t < n)%nat → ∃ c, input !! (S i + t)%nat = Some c ∧
                             is_line_terminator c = false) ∧
    input !! (S i + n)%nat = Some "/"%char ∧
    (∀ t, (t < m)%nat → ∃ c, input !! (S (S i + n) + t)%nat = Some c ∧
                             is_lowercase c = true) ∧
    stop = (S (S i + n) + m)%nat ∧
    caps = <[2%nat := (S (S i + n), stop)]> (<[1%nat := (S i, (S i + n)%nat)]> ∅).
Proof.
  unfold match_at, delimited. cbn [run]. unfold one at 1.
  destruct (input !! i) as [c|] eqn:Hc; [|done].
  destruct (Ascii.eqb_spec "/"%char c) as [<-|]; [|done].
  intros Hstar. apply star_one_sound in Hstar as (n & Hn & Hrest).
  unfold one at 1 in Hrest.
  destruct (input !! (S i + n)%nat) as [c2|] eqn:Hc2; [|done].
  destruct (Ascii.eqb_spec "/"%char c2) as [<-|]; [|done].
  apply star_one_sound in Hrest as (m & Hm & Hend).
  injection Hend as <- <-. exists n, m. split_and!; try done.
  - intros t Ht. destruct (Hn t Ht) as (c' & ? & Htest). exists c'.
    split; [done|]. simpl in Htest. by apply negb_true_iff in Htest.
  - intros t Ht. destruct (Hm t Ht) as (c' & ? & Htest). exists c'.
    split; [done|]. simpl in Htest. unfold is_lowercase.
    by rewrite orb_false_r in Htest.
Qed.

Lemma delimited_complete i n :
  input !! i = Some "/"%char →
  (∀ t, (t < n)%nat → ∃ c, input !! (S i + t)%nat = Some c ∧
                           is_line_terminator c = false) →
  input !! (S i + n)%nat = Some "/"%char →
  is_Some (match_at fl input delimited i).
Proof.
  intros Hi Hn Hslash. unfold match_at, delimited. cbn [run]. unfold one at 1.
  rewrite Hi. simpl Ascii.eqb. cbv iota.
  apply (star_one_complete _ n).
  - apply lookup_lt_Some in Hslash. lia.
  - intros t Ht. destruct (Hn t Ht) as (c & ? & Hc). exists c.
    split; [done|]. simpl. by rewrite Hc.
  - unfold one at 1. rewrite Hslash. simpl Ascii.eqb. cbv iota.
    apply (star_one_complete _ 0); [lia| |done].
    intros t Ht. lia.
Qed.

(** [scan] finds a match exactly when some position in its range has one,
    and then the leftmost. *)
Lemma scan_spec r fuel : ∀ i,
  match scan fl input fuel r i with
  | Some (start, res) =>
      (i ≤ start ≤ i + fuel)%nat ∧ match_at fl input r start = Some res ∧
      ∀ j, (i ≤ j < start)%nat → match_at fl input r j = None
  | None => ∀ j, (i ≤ j ≤ i + fuel)%nat → match_at fl input r j = None
  end.
Proof.
  induction fuel as [|fuel IH]; intros i; simpl.
  - destruct (match_at fl input r i) as [res|] eqn:Hm.
    + split_and!; [lia|lia|done|]. intros j Hj. lia.
    + intros j Hj. by replace j with i by lia.
  - destruct (match_at fl input r i) as [res|] eqn:Hm.
    + split_and!; [lia|lia|done|]. intros j Hj. lia.
    + specialize (IH (S i)).
      destruct (scan fl input fuel r (S i)) as [[start res]|].
      * destruct IH as (Hrange & Hres & Hleft). split_and!; [lia|lia|done|].
        intros j Hj. destruct (decide (j = i)) as [->|]; [done|].
        apply Hleft. lia.
      * intros j Hj. destruct (decide (j = i)) as [->|]; [done|].
        apply IH. lia.
Qed.

End Delimited.

(** ** Claims C8 and C10: the version scrape *)

Section ScrapeFacts.
Import RegExp.

Lemma exec_delimited s :
  RegExp.exec no_flags delimited 2 s =
  match scan no_flags (list_ascii_of_string s)
          (length (list_ascii_of_string s)) delimited 0 with
  | None => None
  | Some (start, (stop, caps)) =>
      Some [Some (substr (list_ascii_of_string s) start stop);
            (λ se, substr (list_ascii_of_string s) se.1 se.2) <$> caps !! 1%nat;
            (λ se, substr (list_ascii_of_string s) se.1 se.2) <$> caps !! 2%nat]
  end.
Proof.
  unfold RegExp.exec. simpl sticky. cbv iota.
  destruct (scan _ _ _ _ _) as [[start [stop caps]]|]; done.
Qed.

Lemma lookups_Forall {A} (P : A → Prop) (l : list A) i n :
  (∀ t, (t < n)%nat → ∃ c, l !! (i + t)%nat = Some c ∧ P c) →
  Forall P (take n (drop i l)) ∧ length (take n (drop i l)) = n.
Proof.
  revert i. induction n as [|n IH]; intros i H.
  - by rewrite take_0.
  - destruct (H 0%nat) as (c & Hc & HP); [lia|]. rewrite Nat.add_0_r in Hc.
    rewrite (drop_S _ _ _ Hc). simpl.
    destruct (IH (S i)) as [Hall Hlen].
    { intros t Ht. destruct (H (S t)) as (c' & ? & ?); [lia|]. exists c'.
      by replace (S i + t)%nat with (i + S t)%nat by lia. }
    split; [by constructor|]. by rewrite Hlen.
Qed.

Lemma split_two {A} (l : list A) i n x y :
  l !! i = Some x → l !! (S i + n)%nat = Some y →
  l = take i l ++ x :: take n (drop (S i) l) ++ y :: drop (S (S i + n)) l.
Proof.
  intros Hi Hj.
  assert (Hd : drop n (drop (S i) l) = y :: drop (S (S i + n)) l).
  { rewrite drop_drop. by apply drop_S. }
  rewrite <- Hd, take_drop. symmetry. by apply take_drop_middle.
Qed.

(** The literal finds something exactly in the inputs that contain two
    slashes with no line terminator between them. *)
Lemma matchDelimited_None s :
  matchDelimited s = None ↔ ¬ contains_shape_on_a_line s.
Proof.
  unfold matchDelimited. rewrite exec_delimited.
  set (input := list_ascii_of_string s).
  pose proof (scan_spec input delimited (length input) 0) as Hscan.
  destruct (scan no_flags input (length input) delimited 0)
    as [[start [stop caps]]|].
  - destruct Hscan as (_ & Hm & _).
    apply delimited_sound in Hm as (n & m & Hi & Hn & Hslash & _ & _ & ->).
    rewrite lookup_insert_eq, lookup_insert_ne, lookup_insert_eq by done.
    simpl. split; [done|]. intros Hno. destruct Hno.
    exists (take start input), (take n (drop (S start) input)),
      (drop (S (S start + n)) input).
    destruct (lookups_Forall (λ c, is_line_terminator c = false) input (S start) n Hn)
      as [Hall Hlen].
    split; [|done]. by apply split_two.
  - split; [|done]. intros _ (pre & pattern & rest & Heq & Hall).
    fold input in Heq.
    assert (Hsome : is_Some (match_at no_flags input delimited (length pre))).
    { apply (delimited_complete input (length pre) (length pattern)).
      - rewrite Heq. by apply list_lookup_middle.
      - intros t Ht. rewrite Heq.
        destruct (lookup_lt_is_Some_2 pattern t Ht) as [c Hc].
        exists c. split.
        + rewrite lookup_app_r by lia.
          replace (S (length pre) + t - length pre)%nat with (S t) by lia.
          simpl. by rewrite lookup_app_l.
        + by eapply Forall_lookup_1 in Hall.
      - rewrite Heq. rewrite lookup_app_r by lia.
        replace (S (length pre) + length pattern - length pre)%nat
          with (S (length pattern)) by lia.
        simpl. by rewrite list_lookup_middle. }
    rewrite Hscan in Hsome; [by destruct Hsome|].
    rewrite Heq, length_app. simpl. lia.
Qed.

Lemma shape_on_a_line_shape s : contains_shape_on_a_line s → contains_shape s.
Proof.
  intros (pre & pattern & rest & Heq & _). exists pre, pattern, [], rest.
  by split.
Qed.

End ScrapeFacts.

Section Scrape.
Context (E : Env) (R : Runtime).

Lemma guess_run file regexp w :
  exec E (guessCurrentMinecraftVersionFromFile R file regexp) w =
  (match (perform E (IoReadFile file) w).1 with
   | Rejected e => if decide (code e = Some "ENOENT") then Fulfilled None
                   else Rejected e
   | Fulfilled content =>
       match matchDelimited regexp with
       | None => Rejected shape_error
       | Some (pattern, flags) =>
           match regexp_exec R pattern flags (utf8 R content) with
           | Rejected e => Rejected e
           | Fulfilled None => Fulfilled None
           | Fulfilled (Some matches) => Fulfilled (mjoin (matches !! 1%nat))
           end
       end
   end, record (EvIo (IoReadFile file)) w).
Proof.
  unfold guessCurrentMinecraftVersionFromFile. cbn [exec].
  destruct (perform E (IoReadFile file) w) as [r w1] eqn:Hp.
  assert (w1 = record (EvIo (IoReadFile file)) w) as ->.
  { simpl in Hp. by injection Hp as _ <-. }
  simpl. destruct r as [content|e].
  - destruct (matchDelimited regexp) as [[pattern flags]|]; [|done].
    destruct (regexp_exec R pattern flags (utf8 R content)) as [[matches|]|e];
      done.
  - destruct (decide (code e = Some "ENOENT")); done.
Qed.

End Scrape.

(** ** How the expression string is read *)

Section Greedy.
Import RegExp.
Context (input : list ascii).

Lemma star_one_last test m : ∀ fuel i caps k,
  (m ≤ fuel)%nat →
  (∀ t, (t < m)%nat → ∃ c, input !! (i + t)%nat = Some c ∧ test c = true) →
  (∀ c, input !! (i + m)%nat = Some c → test c = false) →
  (∀ t, (1 ≤ t ≤ m)%nat → k (i + t)%nat caps = None) →
  star_loop fuel (one input test) true [] i caps k = k i caps.
Proof.
  induction m as [|m IH]; intros fuel i caps k Hfuel Hpass Hstop Hfail.
  - rewrite Nat.add_0_r in Hstop. destruct fuel as [|fuel]; simpl; [done|].
    unfold one at 1.
    destruct (input !! i) as [c|] eqn:Hc; [rewrite (Hstop c eq_refl)|]; done.
  - destruct fuel as [|fuel]; [lia|]. simpl. unfold one at 1.
    destruct (Hpass 0%nat) as (c & Hc & Ht); [lia|].
    rewrite Nat.add_0_r in Hc. rewrite Hc, Ht.
    replace (S i =? i)%nat with false by (symmetry; apply Nat.eqb_neq; lia).
    rewrite IH.
    + replace (S i) with (i + 1)%nat by lia. rewrite Hfail by lia. done.
    + lia.
    + intros t Ht'. destruct (Hpass (S t)) as (c' & ? & ?); [lia|]. exists c'.
      by replace (S i + t)%nat with (i + S t)%nat by lia.
    + intros c'. replace (S i + m)%nat with (i + S m)%nat by lia. apply Hstop.
    + intros t Ht'. replace (S i + t)%nat with (i + S t)%nat by lia.
      apply Hfail. lia.
Qed.

Lemma star_one_backtrack test n m : ∀ fuel i caps k res,
  (n + m ≤ fuel)%nat →
  (∀ t, (t < n + m)%nat → ∃ c, input !! (i + t)%nat = Some c ∧ test c = true) →
  (∀ c, input !! (i + (n + m))%nat = Some c → test c = false) →
  (∀ t, (n < t ≤ n + m)%nat → k (i + t)%nat caps = None) →
  k (i + n)%nat caps = Some res →
  star_loop fuel (one input test) true [] i caps k = Some res.
Proof.
  induction n as [|n IH]; intros fuel i caps k res Hfuel Hpass Hstop Hfail Hk.
  - rewrite Nat.add_0_r in Hk. rewrite <- Hk.
    apply (star_one_last test m); [lia|done|done|].
    intros t Ht. apply Hfail. lia.
  - destruct fuel as [|fuel]; [lia|]. simpl. unfold one at 1.
    destruct (Hpass 0%nat) as (c & Hc & Ht); [lia|].
    rewrite Nat.add_0_r in Hc. rewrite Hc, Ht.
    replace (S i =? i)%nat with false by (symmetry; apply Nat.eqb_neq; lia).
    rewrite (IH fuel (S i) caps k res); [done|lia| | | |].
    + intros t Ht'. destruct (Hpass (S t)) as (c' & ? & ?); [lia|]. exists c'.
      by replace (S i + t)%nat with (i + S t)%nat by lia.
    + intros c'. replace (S i + (n + m))%nat with (i + (S n + m))%nat by lia.
      apply Hstop.
    + intros t Ht'. replace (S i + t)%nat with (i + S t)%nat by lia.
      apply Hfail. lia.
    + by replace (S i + n)%nat with (i + S n)%nat by lia.
Qed.


Local Abbreviation fl := no_flags.

(** The match of the literal at a slash: group 1 runs to the last slash of
    the line, group 2 over the lowercase letters that follow it. *)
Lemma delimited_greedy i n p m :
  input !! i = Some "/"%char →
  (∀ t, (t < n + p)%nat → ∃ c, input !! (S i + t)%nat = Some c ∧
                               is_line_terminator c = false) →
  (∀ c, input !! (S i + (n + p))%nat = Some c → is_line_terminator c = true) →
  input !! (S i + n)%nat = Some "/"%char →
  (∀ t, (n < t ≤ n + p)%nat → input !! (S i + t)%nat ≠ Some "/"%char) →
  (∀ t, (t < m)%nat → ∃ c, input !! (S (S i + n) + t)%nat = Some c ∧
                           is_lowercase c = true) →
  (∀ c, input !! (S (S i + n) + m)%nat = Some c → is_lowercase c = false) →
  match_at fl input delimited i
  = Some ((S (S i + n) + m)%nat,
          <[2%nat := (S (S i + n), (S (S i + n) + m)%nat)]>
            (<[1%nat := (S i, (S i + n)%nat)]> ∅)).
Proof.
  intros Hi Hline Hstop Hslash Hlast Hflags Hend.
  unfold match_at, delimited. cbn [run]. unfold one at 1.
  rewrite Hi. simpl Ascii.eqb. cbv iota.
  assert (Hlen : (S i + n < length input)%nat) by by apply lookup_lt_Some in Hslash.
  apply (star_one_backtrack _ n p).
  - assert (S i + (n + p) ≤ length input)%nat; [|lia].
    destruct p as [|p]; [lia|].
    destruct (Hline (n + p)%nat) as (c & Hc%lookup_lt_Some & _); lia.
  - intros t Ht. destruct (Hline t Ht) as (c & ? & Hc). exists c.
    split; [done|]. simpl. by rewrite Hc.
  - intros c Hc. simpl. by rewrite (Hstop c Hc).
  - intros t Ht. unfold one at 1.
    destruct (input !! (S i + t)%nat) as [c|] eqn:Hc; [|done].
    destruct (Ascii.eqb_spec "/"%char c) as [<-|]; [|done].
    by destruct (Hlast t Ht).
  - unfold one at 1. rewrite Hslash. simpl Ascii.eqb. cbv iota.
    apply (star_one_backtrack _ m 0).
    + apply le_S. assert (S (S i + n) + m ≤ length input)%nat; [|lia].
      destruct m as [|m]; [lia|].
      destruct (Hflags m) as (c & Hc%lookup_lt_Some & _); lia.
    + intros t Ht. destruct (Hflags t) as (c & ? & Hc); [lia|]. exists c.
      split; [done|]. change (xorb false (is_lowercase c || false) = true).
      by rewrite Hc.
    + intros c. rewrite Nat.add_0_r. intros Hc.
      change (xorb false (is_lowercase c || false) = false).
      by rewrite (Hend c Hc).
    + intros t Ht. lia.
    + done.
Qed.

End Greedy.

Section Expression.
Import RegExp.

Lemma lowercase_on_a_line c :
  is_lowercase c = true → is_line_terminator c = false ∧ c ≠ "/"%char.
Proof.
  unfold is_lowercase, is_line_terminator.
  intros [Hlo%N.leb_le Hhi]%andb_true_iff. split.
  - apply orb_false_iff. change (code "a") with 97%N in Hlo.
    split; apply N.eqb_neq; lia.
  - intros ->. vm_compute in Hlo. done.
Qed.

Lemma lookup_segment {A} (l1 seg l2 : list A) t :
  (t < length seg)%nat → (l1 ++ seg ++ l2) !! (length l1 + t)%nat = seg !! t.
Proof.
  intros Ht. rewrite lookup_app_r by lia.
  replace (length l1 + t - length l1)%nat with t by lia.
  by apply lookup_app_l.
Qed.

Lemma take_app_exact {A} (l1 l2 : list A) k :
  k = length l1 → take k (l1 ++ l2) = l1.
Proof. intros ->. apply take_app_length. Qed.

Lemma lookup_after {A} (l1 l2 : list A) :
  (l1 ++ l2) !! length l1 = head l2.
Proof.
  rewrite lookup_app_r by lia. rewrite Nat.sub_diag. by destruct l2.
Qed.

End Expression.

(** The reading of an expression string that has, on one line, text without
    slash, a slash, the pattern, a slash, lowercase letters and then
    something that is neither a lowercase letter nor a slash. *)
Lemma matchDelimited_shape (pre pattern flags line rest : list ascii) :
  "/"%char ∉ pre →
  Forall (λ c, RegExp.is_line_terminator c = false) pattern →
  Forall (λ c, is_lowercase c = true) flags →
  Forall (λ c, RegExp.is_line_terminator c = false ∧ c ≠ "/"%char) line →
  (∀ c, head (line ++ rest) = Some c → is_lowercase c = false) →
  (∀ c, head rest = Some c → RegExp.is_line_terminator c = true) →
  matchDelimited
    (string_of_list_ascii
       (pre ++ "/"%char :: pattern ++ "/"%char :: flags ++ line ++ rest))
  = Some (string_of_list_ascii pattern, string_of_list_ascii flags).
Proof.
  intros Hpre Hpat Hfl Hline Hhead Hrest.
  unfold matchDelimited. rewrite exec_delimited.
  rewrite list_ascii_of_string_of_list_ascii.
  set (input := pre ++ _).
  set (i := length pre). set (n := length pattern). set (m := length flags).
  set (tail := "/"%char :: flags ++ line).
  assert (Hin1 : input = (pre ++ ["/"%char]) ++ (pattern ++ tail) ++ rest).
  { unfold input, tail. by simplify_list_eq. }
  assert (Hin2 : input = (pre ++ "/"%char :: pattern ++ ["/"%char])
                           ++ flags ++ line ++ rest).
  { unfold input. by simplify_list_eq. }
  assert (Hl1 : length (pre ++ ["/"%char]) = S i).
  { rewrite length_app. simpl. unfold i. lia. }
  assert (Hl2 : length (pre ++ "/"%char :: pattern ++ ["/"%char]) = S (S i + n)).
  { rewrite length_app. simpl. rewrite length_app. simpl. unfold i, n. lia. }
  assert (Htail : Forall (λ c, RegExp.is_line_terminator c = false) (pattern ++ tail)).
  { apply Forall_app. split; [done|]. unfold tail. constructor; [done|].
    apply Forall_app. split.
    - eapply Forall_impl; [exact Hfl|]. intros c Hc.
      by apply lowercase_on_a_line.
    - eapply Forall_impl; [exact Hline|]. by intros c [? _]. }
  assert (Hmatch : RegExp.match_at RegExp.no_flags input RegExp.delimited i
    = Some ((S (S i + n) + m)%nat,
            <[2%nat := (S (S i + n), (S (S i + n) + m)%nat)]>
              (<[1%nat := (S i, (S i + n)%nat)]> ∅))).
  { apply (delimited_greedy input i n (length tail) m).
    - unfold input, i. by apply list_lookup_middle.
    - intros t Ht. rewrite Hin1, <- Hl1.
      rewrite lookup_segment by (rewrite length_app; unfold n in Ht; lia).
      destruct (lookup_lt_is_Some_2 (pattern ++ tail) t) as [c Hc].
      { rewrite length_app. unfold n in Ht. lia. }
      exists c. split; [done|]. by eapply Forall_lookup_1 in Htail.
    - intros c. rewrite Hin1, <- Hl1.
      replace (n + length tail)%nat with (length (pattern ++ tail))
        by (rewrite length_app; done).
      rewrite app_assoc, <- length_app, lookup_after. apply Hrest.
    - unfold input, i, n. rewrite lookup_app_r by lia.
      replace (S (length pre) + length pattern - length pre)%nat
        with (S (length pattern)) by lia.
      simpl. by rewrite list_lookup_middle.
    - intros t Ht. rewrite Hin2.
      replace (S i + t)%nat with (S (S i + n) + (t - S n))%nat by lia.
      rewrite <- Hl2.
      destruct (decide (t - S n < length (flags ++ line))%nat) as [Hlt|Hge].
      + rewrite (app_assoc flags), lookup_segment by done.
        intros Hc. apply list_elem_of_lookup_2, elem_of_app in Hc as [Hc|Hc].
        * eapply Forall_forall in Hfl; [|exact Hc].
          by apply lowercase_on_a_line in Hfl as [_ ?].
        * eapply Forall_forall in Hline; [|exact Hc]. by destruct Hline.
      + assert (t - S n = length (flags ++ line))%nat as ->.
        { unfold tail in Ht. simpl in Ht. rewrite length_app in *. lia. }
        rewrite (app_assoc flags), (app_assoc _ (flags ++ line)).
        rewrite <- length_app, lookup_after. intros Hc.
        by apply Hrest in Hc.
    - intros t Ht. rewrite Hin2, <- Hl2, lookup_segment by done.
      destruct (lookup_lt_is_Some_2 flags t Ht) as [c Hc].
      exists c. split; [done|]. by eapply Forall_lookup_1 in Hfl.
    - intros c. rewrite Hin2, <- Hl2.
      rewrite app_assoc. unfold m. rewrite <- length_app, lookup_after.
      apply Hhead. }
  pose proof (scan_spec input RegExp.delimited (length input) 0) as Hscan.
  destruct (RegExp.scan RegExp.no_flags input (length input) RegExp.delimited 0)
    as [[start [stop caps]]|].
  2:{ rewrite Hscan in Hmatch; [done|]. unfold input, i.
      rewrite length_app. lia. }
  destruct Hscan as (_ & Hfound & Hleft).
  assert (start = i) as ->.
  { destruct (Nat.lt_trichotomy start i) as [Hlt|[->|Hgt]]; [|done|].
    - apply delimited_sound in Hfound as (_ & _ & Hs & _).
      unfold input in Hs. rewrite lookup_app_l in Hs by done.
      by apply list_elem_of_lookup_2 in Hs.
    - rewrite Hleft in Hmatch; [done|lia]. }
  rewrite Hmatch in Hfound. injection Hfound as <- <-.
  rewrite lookup_insert_eq, lookup_insert_ne, lookup_insert_eq by done.
  assert (Hd1 : drop (S i) input = pattern ++ tail ++ rest).
  { by rewrite Hin1, <- Hl1, drop_app_length, <- app_assoc. }
  assert (Hd2 : drop (S (S i + n)) input = flags ++ line ++ rest).
  { by rewrite Hin2, <- Hl2, drop_app_length. }
  cbn [fmap option_fmap option_map fst snd]. unfold RegExp.substr.
  simpl in Hd2. rewrite Hd1, Hd2. do 3 f_equal; apply take_app_exact; unfold n, m; lia.
Qed.

(** [scan], whatever the flags: the leftmost position with a match. *)
Lemma scan_leftmost fl input r fuel : ∀ i,
  match RegExp.scan fl input fuel r i with
  | Some (start, res) =>
      (i ≤ start ≤ i + fuel)%nat ∧ RegExp.match_at fl input r start = Some res ∧
      ∀ j, (i ≤ j < start)%nat → RegExp.match_at fl input r j = None
  | None => ∀ j, (i ≤ j ≤ i + fuel)%nat → RegExp.match_at fl input r j = None
  end.
Proof.
  induction fuel as [|fuel IH]; intros i; simpl.
  - destruct (RegExp.match_at fl input r i) as [res|] eqn:Hm.
    + split_and!; [lia|lia|done|]. intros j Hj. lia.
    + intros j Hj. by replace j with i by lia.
  - destruct (RegExp.match_at fl input r i) as [res|] eqn:Hm.
    + split_and!; [lia|lia|done|]. intros j Hj. lia.
    + specialize (IH (S i)).
      destruct (RegExp.scan fl input fuel r (S i)) as [[start res]|].
      * destruct IH as (Hrange & Hres & Hleft). split_and!; [lia|lia|done|].
        intros j Hj. destruct (decide (j = i)) as [->|]; [done|].
        apply Hleft. lia.
      * intros j Hj. destruct (decide (j = i)) as [->|]; [done|].
        apply IH. lia.
Qed.

(** [new RegExp(pattern, flags).exec(text)] in the fragment: [null] when no
    position that is tried has a match, and otherwise the array of the
    match at the least such position. *)
Lemma fragment_exec (pattern flags : list ascii) (text : string) fl r ngroups :
  RegExp.parse_flags flags [] RegExp.no_flags = Some fl →
  RegExp.parse (string_of_list_ascii pattern) = Some (r, ngroups) →
  let input := list_ascii_of_string text in
  ((∀ j, tried fl input j → RegExp.match_at fl input r j = None) →
   regexp_exec fragment (string_of_list_ascii pattern)
     (string_of_list_ascii flags) text = Fulfilled None) ∧
  (∀ start stop caps,
     tried fl input start →
     RegExp.match_at fl input r start = Some (stop, caps) →
     (∀ j, (j < start)%nat → RegExp.match_at fl input r j = None) →
     ∃ matches,
       regexp_exec fragment (string_of_list_ascii pattern)
         (string_of_list_ascii flags) text = Fulfilled (Some matches) ∧
       matches !! 0%nat = Some (Some (RegExp.substr input start stop)) ∧
       mjoin (matches !! 1%nat) = group1 input ngroups caps).
Proof.
  intros Hfl Hparse input.
  assert (Hexec : regexp_exec fragment (string_of_list_ascii pattern)
            (string_of_list_ascii flags) text
          = Fulfilled (RegExp.exec fl r ngroups text)).
  { cbn [regexp_exec fragment].
    by rewrite list_ascii_of_string_of_list_ascii, Hfl, Hparse. }
  rewrite Hexec. unfold RegExp.exec. fold input. unfold tried.
  assert (Hgroup : ∀ whole caps,
    mjoin ((Some whole
            :: map (λ g, (λ se, RegExp.substr input se.1 se.2) <$> caps !! g)
                 (seq 1 ngroups)) !! 1%nat) = group1 input ngroups caps).
  { intros whole caps. unfold group1. by destruct ngroups. }
  destruct (RegExp.sticky fl).
  - split.
    + intros Hnone. by rewrite (Hnone 0%nat eq_refl).
    + intros start stop caps -> Hm _. rewrite Hm. cbn [fmap option_fmap option_map].
      eexists. split; [done|]. split; [done|]. apply Hgroup.
  - pose proof (scan_leftmost fl input r (length input) 0) as Hscan.
    destruct (RegExp.scan fl input (length input) r 0)
      as [[start' [stop' caps']]|].
    + destruct Hscan as (Hrange & Hfound & Hleft). split.
      * intros Hnone. rewrite Hnone in Hfound; [done|lia].
      * intros start stop caps Hstart Hm Hbefore.
        assert (start' = start) as ->.
        { destruct (Nat.lt_trichotomy start' start) as [Hlt|[->|Hgt]]; [|done|].
          - by rewrite Hbefore in Hfound.
          - rewrite Hleft in Hm; [done|lia]. }
        rewrite Hm in Hfound. injection Hfound as <- <-.
        eexists. split; [done|]. split; [done|]. apply Hgroup.
    + split; [done|]. intros start stop caps Hstart Hm _.
      rewrite Hscan in Hm; [done|lia].
Qed.

(** C8.  The version scrape reads the file and does nothing else; its
    result is a function of what the read gave and of the expression: two
    runs whose reads agree agree; for an absent file the result is
    [undefined]; for a file that is there it is [undefined] when [exec]
    with the pattern and the flags read from the expression gives [null],
    and element 1 of the array it gives otherwise.  For an expression
    string that
    holds, on one line, /pattern/flags (text without slash before, the
    flags followed by something that is no lowercase letter and no slash),
    the result is that of [new RegExp(pattern, flags).exec(content)] for
    that very pattern and those flags: [undefined] for [null], element 1 of
    the array otherwise.  In the fragment of [RegExp] of this development
    that is: [undefined] when the pattern matches at no position of the
    content, and otherwise the first capturing group of the match at the
    least position that has one.  On the content and the multiline pattern
    of the test, the result is "1.21.1". *)
Theorem C8_version_scrape :
  (∀ (E : Env) (R : Runtime) (file regexp : string) (w : World),
     (exec E (guessCurrentMinecraftVersionFromFile R file regexp) w).2
       = record (EvIo (IoReadFile file)) w ∧
     (∀ E' w',
        (perform E' (IoReadFile file) w').1 = (perform E (IoReadFile file) w).1 →
        (exec E' (guessCurrentMinecraftVersionFromFile R file regexp) w').1
        = (exec E (guessCurrentMinecraftVersionFromFile R file regexp) w).1) ∧
     (∀ e, (perform E (IoReadFile file) w).1 = Rejected e →
        code e = Some "ENOENT" →
        (exec E (guessCurrentMinecraftVersionFromFile R file regexp) w).1
        = Fulfilled None) ∧
     (∀ content pattern flags,
        (perform E (IoReadFile file) w).1 = Fulfilled content →
        matchDelimited regexp = Some (pattern, flags) →
        (regexp_exec R pattern flags (utf8 R content) = Fulfilled None →
         (exec E (guessCurrentMinecraftVersionFromFile R file regexp) w).1
         = Fulfilled None) ∧
        (∀ matches,
           regexp_exec R pattern flags (utf8 R content) = Fulfilled (Some matches) →
           (exec E (guessCurrentMinecraftVersionFromFile R file regexp) w).1
           = Fulfilled (mjoin (matches !! 1%nat))))) ∧
  (∀ (pre pattern flags line rest : list ascii),
     "/"%char ∉ pre →
     Forall (λ c, RegExp.is_line_terminator c = false) pattern →
     Forall (λ c, is_lowercase c = true) flags →
     Forall (λ c, RegExp.is_line_terminator c = false ∧ c ≠ "/"%char) line →
     (∀ c, head (line ++ rest) = Some c → is_lowercase c = false) →
     (∀ c, head rest = Some c → RegExp.is_line_terminator c = true) →
     let regexp :=
       string_of_list_ascii
         (pre ++ "/"%char :: pattern ++ "/"%char :: flags ++ line ++ rest) in
     ∀ (E : Env) (file : string) (w : World) (content : bytes),
       (perform E (IoReadFile file) w).1 = Fulfilled content →
       (∀ R : Runtime,
          (exec E (guessCurrentMinecraftVersionFromFile R file regexp) w).1
          = match regexp_exec R (string_of_list_ascii pattern)
                    (string_of_list_ascii flags) (utf8 R content) with
            | Rejected e => Rejected e
            | Fulfilled None => Fulfilled None
            | Fulfilled (Some matches) => Fulfilled (mjoin (matches !! 1%nat))
            end) ∧
       (∀ fl r ngroups,
          RegExp.parse_flags flags [] RegExp.no_flags = Some fl →
          RegExp.parse (string_of_list_ascii pattern) = Some (r, ngroups) →
          let input := list_ascii_of_string (string_of_list_byte content) in
          let result :=
            (exec E (guessCurrentMinecraftVersionFromFile fragment file regexp)
               w).1 in
          ((∀ j, tried fl input j → RegExp.match_at fl input r j = None) →
           result = Fulfilled None) ∧
          (∀ start stop caps,
             tried fl input start →
             RegExp.match_at fl input r start = Some (stop, caps) →
             (∀ j, (j < start)%nat → RegExp.match_at fl input r j = None) →
             result = Fulfilled (group1 input ngroups caps)))) ∧
  (exec (Example.calm (λ _ _, Example.unavailable))
     (guessCurrentMinecraftVersionFromFile fragment "gradle.properties"
        "/^\s*minecraft_version\s*=\s*(.+)\s*$/m")
     {| files := {[ "gradle.properties" :=
                      list_byte_of_string Example.gradle_properties ]};
        log := [] |}).1
  = Fulfilled (Some "1.21.1").
Proof.
  split_and!; [| |vm_compute; reflexivity].
  - intros E R file regexp w. split_and!.
    + by rewrite guess_run.
    + intros E' w' Hread. by rewrite !guess_run, Hread.
    + intros e Hread Hcode. rewrite guess_run, Hread. simpl.
      by destruct (decide (code e = Some "ENOENT")).
    + intros content pattern flags Hread Hshape. split.
      * intros Hnone. by rewrite guess_run, Hread, Hshape, Hnone.
      * intros matches Hsome. by rewrite guess_run, Hread, Hshape, Hsome.
  - intros pre pattern flags line rest Hpre Hpat Hfl Hline Hhead Hrest regexp
      E file w content Hread.
    assert (Hm : matchDelimited regexp
                 = Some (string_of_list_ascii pattern, string_of_list_ascii flags))
      by (by apply matchDelimited_shape).
    assert (Hrun : ∀ R : Runtime,
      (exec E (guessCurrentMinecraftVersionFromFile R file regexp) w).1
      = match regexp_exec R (string_of_list_ascii pattern)
                (string_of_list_ascii flags) (utf8 R content) with
        | Rejected e => Rejected e
        | Fulfilled None => Fulfilled None
        | Fulfilled (Some matches) => Fulfilled (mjoin (matches !! 1%nat))
        end).
    { intros R. by rewrite guess_run, Hread, Hm. }
    split; [exact Hrun|].
    intros fl r ngroups Hflags Hparse input result.
    destruct (fragment_exec pattern flags (string_of_list_byte content)
                fl r ngroups Hflags Hparse) as [Hnone Hsome].
    unfold result. rewrite Hrun. cbn [utf8 fragment]. split.
    + intros Hno. by rewrite (Hnone Hno).
    + intros start stop caps Hstart Hmatch Hbefore.
      destruct (Hsome start stop caps Hstart Hmatch Hbefore)
        as (matches & -> & _ & Hgroup).
      by rewrite Hgroup.
Qed.

(** C10.  When the file exists and the expression string does not contain
    the shape /pattern/flags, the scrape throws the format error (and it
    does so exactly when the string has no two slashes with nothing but
    non-terminators between them); the shape is looked at only after the
    file has been read, and for an absent file the result is [undefined]
    whatever the string is. *)
Theorem C10_malformed_expression
    (E : Env) (R : Runtime) (file regexp : string) (w : World) :
  (∀ content,
     (perform E (IoReadFile file) w).1 = Fulfilled content →
     ¬ contains_shape regexp →
     exec E (guessCurrentMinecraftVersionFromFile R file regexp) w
     = (Rejected shape_error, record (EvIo (IoReadFile file)) w)) ∧
  (matchDelimited regexp = None ↔ ¬ contains_shape_on_a_line regexp) ∧
  (∀ content,
     (perform E (IoReadFile file) w).1 = Fulfilled content →
     ¬ contains_shape_on_a_line regexp →
     exec E (guessCurrentMinecraftVersionFromFile R file regexp) w
     = (Rejected shape_error, record (EvIo (IoReadFile file)) w)) ∧
  (∀ e,
     (perform E (IoReadFile file) w).1 = Rejected e →
     code e = Some "ENOENT" →
     exec E (guessCurrentMinecraftVersionFromFile R file regexp) w
     = (Fulfilled None, record (EvIo (IoReadFile file)) w)).
Proof.
  split_and!.
  - intros content Hread Hno. rewrite guess_run, Hread.
    assert (matchDelimited regexp = None) as ->; [|done].
    apply matchDelimited_None. intros H. by apply Hno, shape_on_a_line_shape.
  - apply matchDelimited_None.
  - intros content Hread Hno. rewrite guess_run, Hread.
    by apply matchDelimited_None in Hno as ->.
  - intros e Hread Hcode. rewrite guess_run, Hread. simpl.
    by destruct (decide (code e = Some "ENOENT")).
Qed.

(** On the file and the expression of the test: the pattern is read from
    between the slashes, no position before the third line has a match,
    and the match that starts there has "1.21.1" as its first group. *)
Lemma C8_witness :
  (exec (Example.calm (λ _ _, Example.unavailable))
     (guessCurrentMinecraftVersionFromFile fragment "gradle.properties"
        "/^\s*minecraft_version\s*=\s*(.+)\s*$/m")
     {| files := {[ "gradle.properties" :=
                      list_byte_of_string Example.gradle_properties ]};
        log := [] |}).1
  = Fulfilled (Some "1.21.1").
Proof.
  destruct C8_version_scrape as (_ & Hshape & _).
  destruct (Hshape []
              (list_ascii_of_string "^\s*minecraft_version\s*=\s*(.+)\s*$")
              ["m"%char] [] [])
    with (E := Example.calm (λ _ _, Example.unavailable))
         (file := "gradle.properties")
         (w := {| files := {[ "gradle.properties" :=
                      list_byte_of_string Example.gradle_properties ]};
                  log := [] |})
         (content := list_byte_of_string Example.gradle_properties)
    as [_ Hfragment].
  - by intros ?%elem_of_nil.
  - repeat constructor.
  - repeat constructor.
  - constructor.
  - by intros c [=].
  - by intros c [=].
  - vm_compute. reflexivity.
  - eassert (Hp : RegExp.parse (string_of_list_ascii
                (list_ascii_of_string "^\s*minecraft_version\s*=\s*(.+)\s*$"))
                  = Some (_, _)) by (vm_compute; reflexivity).
    eassert (Hf : RegExp.parse_flags ["m"%char] [] RegExp.no_flags = Some _)
      by (vm_compute; reflexivity).
    destruct (Hfragment _ _ _ Hf Hp) as [_ Hfirst].
    etrans; [eapply (Hfirst 36%nat)|].
    + vm_compute. lia.
    + vm_compute. reflexivity.
    + intros j Hj.
      do 36 (destruct j as [|j]; [vm_compute; reflexivity|]). lia.
    + vm_compute. reflexivity.
Defined.

(** On the concrete environment: the file exists and the expression string
    has no slash; the scrape throws. *)
Lemma C10_witness :
  (perform (Example.flaky 0) (IoReadFile "assets/objects/3")
     Example.stale_world).1 = Fulfilled Example.stale ∧
  ¬ contains_shape "abc" ∧
  (exec (Example.flaky 0)
     (guessCurrentMinecraftVersionFromFile fragment "assets/objects/3" "abc")
     Example.stale_world).1 = Rejected shape_error.
Proof.
  assert (Hno : ¬ contains_shape "abc").
  { intros (pre & pattern & flags & post & Heq & _).
    assert (Hin : "/"%char ∈ list_ascii_of_string "abc").
    { rewrite Heq. apply elem_of_app. right. apply elem_of_cons. by left. }
    simpl in Hin.
    repeat (apply elem_of_cons in Hin as [Hin|Hin]; [discriminate Hin|]).
    by apply elem_of_nil in Hin. }
  split; [reflexivity|]. split; [exact Hno|].
  destruct (C10_malformed_expression (Example.flaky 0) fragment
              "assets/objects/3" "abc" Example.stale_world) as (Hthrow & _).
  rewrite (Hthrow Example.stale eq_refl Hno). reflexivity.
Defined.

(** ** What a call may do *)

Section TaskInv.
Context (L : Lib) (t : target).

Local Abbreviation K_ok K :=
  (∀ le buf,
     truthy le = true ∨ (le = None ∧ ∃ b, buf = Some b ∧ good L t b) →
     task_inv L t (K (le, buf)) ∧
     is_ret (K (le, buf)) = false ∧ is_reading (K (le, buf)) = false).

Lemma fetchLoop_task_inv (K : option string * option bytes → prog bool) n :
  K_ok K →
  ∀ le buf, truthy le = true ∨ (0 < n)%nat →
    let p := bind (fetchLoop L (t_url t) (t_method t) (t_checksum t) (t_size t)
                     n le buf) K in
    task_inv L t p ∧ is_ret p = false ∧ is_reading p = false.
Proof.
  intros HK. induction n as [|n IH]; intros le buf Hpre.
  - simpl. apply HK. destruct Hpre as [?|?]; [by left|lia].
  - simpl. split; [|done]. split; [done|]. intros r.
    assert (Hnext : ∀ reason buf',
      truthy (Some reason) = true →
      let p' := Await (IoSleep 2000) (λ r0 : settled (),
                  bind (bind match r0 with
                             | Fulfilled v => Ret v
                             | Rejected e => Throw e
                             end
                          (λ _, fetchLoop L (t_url t) (t_method t) (t_checksum t)
                                  (t_size t) n (Some reason) buf')) K) in
      (is_ret p' = false ∧ is_reading p' = false) ∧ task_inv L t p').
    { intros reason buf' Ht. split; [done|]. split; [done|].
      intros [[]|e]; simpl; [|done].
      destruct (IH (Some reason) buf' (or_introl Ht)) as (? & ? & ?). done. }
    destruct r as [res|e]; simpl; [|done].
    destruct (ok res); simpl.
    + destruct (body res) as [b|e]; simpl; [|done].
      destruct (Z.of_nat (length b) =? t_size t) eqn:Hlen; simpl.
      * destruct (digest L (t_method t) b =? t_checksum t)%string eqn:Hd; simpl.
        -- apply Z.eqb_eq in Hlen. apply String.eqb_eq in Hd.
           destruct (HK None (Some b)) as (? & ? & ?); [|done].
           right. split; [done|]. by exists b.
        -- by apply Hnext.
      * by apply Hnext.
    + by apply Hnext.
Qed.

(** Every call satisfies the invariant, from its start. *)
Lemma call_task_inv : task_inv L t (call L t).
Proof.
  assert (Hdl : let p := fetchAndWrite L (t_path t) (t_url t) (t_method t)
                           (t_checksum t) (t_size t) in
                task_inv L t p ∧ is_ret p = false ∧ is_reading p = false).
  { unfold fetchAndWrite. apply fetchLoop_task_inv; [|right; unfold maxDownloadRetries; lia].
    intros le buf [Ht|(-> & b & -> & Hgood)].
    - rewrite Ht. done.
    - simpl. split; [|done]. split; [done|]. intros [[]|e]; simpl; [|done].
      split; [done|]. split; [done|]. intros [[]|e]; simpl; done. }
  destruct Hdl as (Hdl & Hnr & Hnrd).
  unfold call, downloadIfChanged.
  set (dl := fetchAndWrite _ _ _ _ _ _) in *. clearbody dl.
  unfold probeLocal, statOrUndefined. simpl.
  split; [done|]. intros [sz|e]; simpl.
  - destruct (sz =? t_size t) eqn:Hsz; simpl.
    + apply Z.eqb_eq in Hsz. subst sz. split; [done|]. split; [done|].
      intros [data|e]; simpl; [|done].
      destruct (digest L (t_method t) data =? t_checksum t)%string eqn:Hd; simpl.
      * apply String.eqb_eq in Hd. split; [|done]. split; [done|].
        intros b [= <-]. split; [done|]. by exists data.
      * split; [|exact Hdl]. split; [exact Hnrd|].
        intros b Hb. by rewrite Hb in Hnr.
    + split; [|exact Hdl]. split; [exact Hnr|]. by rewrite Hnrd.
  - destruct (decide (code e = Some "ENOENT")); simpl; [|done].
    split; [|exact Hdl]. split; [exact Hnr|]. by rewrite Hnrd.
Qed.

Lemma call_probing : probing L t (call L t).
Proof.
  unfold call, downloadIfChanged, probeLocal, statOrUndefined. simpl.
  split; [done|]. rewrite Z.eqb_refl. simpl. split; [done|].
  intros data Hd. simpl. by rewrite Hd, String.eqb_refl.
Qed.

End TaskInv.

(** ** The writes of the calls *)

Section Writes.
Context (E : Env) (L : Lib).

Lemma task_inv_step t op k r :
  task_inv L t (Await op k) →
  task_inv L t (k r) ∧
  match k r with
  | Ret b =>
      if b then ∃ data, op = IoWriteFile (t_path t) data ∧ good L t data
      else is_write (EvIo op) = false
  | Throw _ =>
      is_write (EvIo op) = false ∨
      ∃ data, op = IoWriteFile (t_path t) data ∧ good L t data
  | Await _ _ => is_write (EvIo op) = false
  end.
Proof.
  simpl. intros [Hop Hk]. destruct (Hk r) as [Hafter Hinv]. split; [done|].
  destruct op; simpl in *; try done.
  - destruct Hafter as [Hret _].
    destruct (k r) as [[]| |]; try done; by left.
  - destruct Hafter as [_ Hret].
    destruct (k r) as [[]| |]; try done; [|by left].
    by destruct (Hret true eq_refl).
  - destruct Hafter as [Hret _].
    destruct (k r) as [[]| |]; try done; by left.
  - destruct Hafter as [Hret _].
    destruct (k r) as [[]| |]; try done; by left.
  - destruct Hafter as [Hret _].
    destruct (k r) as [[]| |]; try done; by left.
  - destruct Hop as [-> Hgood]. destruct r as [[]|e]; rewrite Hafter.
    + by exists data.
    + right. by exists data.
Qed.

Lemma pool_steps_writes pool w pool' w' :
  rtc (pool_step E) (pool, w) (pool', w') →
  (∀ i t p, pool !! i = Some (t, p) → task_inv L t p) →
  ∃ evs, log w' = evs ++ log w ∧
    (∀ path,
       (count (downloaded_to path) evs ≤ count (is_write_to path) evs)%nat ∧
       (count (is_write_to path) evs
        ≤ count (downloaded_to path) evs + count (rejected_to path) evs)%nat) ∧
    (∀ path data, EvIo (IoWriteFile path data) ∈ evs →
       ∃ t, t ∈ pool.*1 ∧ path = t_path t ∧ good L t data).
Proof.
  intros Hrtc Hinit.
  enough (pool'.*1 = pool.*1 ∧
          (∀ (i : nat) t p, pool' !! i = Some (t, p) → task_inv L t p) ∧
          ∃ evs, log w' = evs ++ log w ∧
      (∀ path,
         (count (downloaded_to path) evs ≤ count (is_write_to path) evs)%nat ∧
         (count (is_write_to path) evs
          ≤ count (downloaded_to path) evs + count (rejected_to path) evs)%nat) ∧
      (∀ path data, EvIo (IoWriteFile path data) ∈ evs →
         ∃ t, t ∈ pool.*1 ∧ path = t_path t ∧ good L t data))
    as (_ & _ & H) by exact H.
  refine (pool_steps_ind E (λ pl wl,
    pl.*1 = pool.*1 ∧
    (∀ (i : nat) t p, pl !! i = Some (t, p) → task_inv L t p) ∧
    ∃ evs, log wl = evs ++ log w ∧
      (∀ path,
         (count (downloaded_to path) evs ≤ count (is_write_to path) evs)%nat ∧
         (count (is_write_to path) evs
          ≤ count (downloaded_to path) evs + count (rejected_to path) evs)%nat) ∧
      (∀ path data, EvIo (IoWriteFile path data) ∈ evs →
         ∃ t, t ∈ pool.*1 ∧ path = t_path t ∧ good L t data))
    _ pool w pool' w' Hrtc _ ).
  - clear Hrtc Hinit pool' w'.
    intros pl wl i t p p' wl' _ (Hts & Hinv & evs & Hlog & Hcount & Hgood)
      Hi Hpend Hres.
    destruct p as [| |op k]; try done. simpl in Hres.
    destruct (perform E op wl) as [r wl1] eqn:Hperf.
    injection Hres as <- <-.
    assert (Hlog1 : log wl1 = EvIo op :: evs ++ log w).
    { by rewrite <- Hlog, <- (perform_log E op wl), Hperf. }
    destruct (task_inv_step t op k r (Hinv _ _ _ Hi)) as [Hinv' Hcase].
    assert (Hin : t ∈ pool.*1).
    { rewrite <- Hts. apply list_elem_of_fmap. exists (t, Await op k).
      split; [done|]. by eapply list_elem_of_lookup_2. }
    split_and!.
    + rewrite list_fmap_insert. simpl. rewrite <- Hts. apply list_insert_id.
      by rewrite list_lookup_fmap, Hi.
    + intros j tj pj Hj. destruct (decide (j = i)) as [->|Hne].
      * rewrite list_lookup_insert_eq in Hj by (by eapply lookup_lt_Some).
        by injection Hj as <- <-.
      * rewrite list_lookup_insert_ne in Hj by done. by eapply Hinv.
    + destruct (k r) as [b| e|op' k'] eqn:Hk; simpl settle.
      * exists (EvSettle t (Fulfilled b) :: EvIo op :: evs).
        split; [simpl; by rewrite Hlog1|]. split.
        -- intros path. specialize (Hcount path). destruct b.
           ++ destruct Hcase as (data & -> & _). simpl.
              case_bool_decide; lia.
           ++ destruct op; simpl in *; try done; lia.
        -- intros path data [?|[Heq|Hin']%elem_of_cons]%elem_of_cons;
             [done| |by apply Hgood].
           injection Heq as <-. destruct b; [|done].
           destruct Hcase as (data' & [= -> ->] & Hg). by exists t.
      * exists (EvSettle t (Rejected e) :: EvIo op :: evs).
        split; [simpl; by rewrite Hlog1|]. split.
        -- intros path. specialize (Hcount path).
           destruct Hcase as [Hnw|(data & -> & _)].
           ++ destruct op; simpl in *; try done; case_bool_decide; lia.
           ++ simpl. case_bool_decide; lia.
        -- intros path data [?|[Heq|Hin']%elem_of_cons]%elem_of_cons;
             [done| |by apply Hgood].
           injection Heq as <-. destruct Hcase as [?|(data' & [= -> ->] & Hg)];
             [done|]. by exists t.
      * exists (EvIo op :: evs). split; [done|]. split.
        -- intros path. specialize (Hcount path).
           destruct op; simpl in *; try done; lia.
        -- intros path data [Heq|Hin']%elem_of_cons; [|by apply Hgood].
           injection Heq as <-. done.
  - split_and!; [done|done|]. exists []. split_and!; try done.
    by intros path data ?%elem_of_nil.
Qed.

End Writes.

(** ** Accounting for the writes of a run *)

Section Accounting.
Context (E : Env) (L : Lib).

Lemma writes_accounted_nil : writes_accounted L [].
Proof.
  split; [intros path; simpl; lia|]. by intros path data ?%elem_of_nil.
Qed.

Lemma writes_accounted_app new1 new2 :
  writes_accounted L new1 → writes_accounted L new2 →
  writes_accounted L (new1 ++ new2).
Proof.
  intros [Hc1 Hg1] [Hc2 Hg2]. split.
  - intros path. rewrite !count_app.
    specialize (Hc1 path). specialize (Hc2 path). lia.
  - intros path data [Hin|Hin]%elem_of_app; rewrite calls_app.
    + destruct (Hg1 _ _ Hin) as (t & ? & ? & ?). exists t.
      split; [|done]. apply elem_of_app. by left.
    + destruct (Hg2 _ _ Hin) as (t & ? & ? & ?). exists t.
      split; [|done]. apply elem_of_app. by right.
Qed.

(** Starting calls, printing and reading write nothing. *)
Lemma writes_accounted_other new :
  Forall (λ ev, is_write ev = false ∧ is_settle ev = false) new →
  writes_accounted L new.
Proof.
  induction 1 as [|ev new [Hw Hs] _ IH]; [apply writes_accounted_nil|].
  apply (writes_accounted_app [ev] new); [|done]. split.
  - intros path. destruct ev as [[]| | |]; simpl in *; try done; lia.
  - intros path data Hin%list_elem_of_singleton. by subst ev.
Qed.

Lemma launch_other ts :
  Forall (λ ev, is_write ev = false ∧ is_settle ev = false)
    (reverse (EvCall <$> ts)).
Proof.
  apply Forall_reverse, Forall_fmap, Forall_forall. by intros t _.
Qed.

(** The calls of a history that also contains their start. *)
Lemma writes_accounted_launched evs ts :
  (∀ path,
     (count (downloaded_to path) evs ≤ count (is_write_to path) evs)%nat ∧
     (count (is_write_to path) evs
      ≤ count (downloaded_to path) evs + count (rejected_to path) evs)%nat) →
  (∀ path data, EvIo (IoWriteFile path data) ∈ evs →
     ∃ t, t ∈ ts ∧ path = t_path t ∧ good L t data) →
  writes_accounted L (evs ++ reverse (EvCall <$> ts)).
Proof.
  intros Hc Hg.
  destruct (writes_accounted_other _ (launch_other ts)) as [Hc0 Hg0]. split.
  - intros path. rewrite !count_app.
    specialize (Hc path). specialize (Hc0 path). lia.
  - intros path data [Hin|Hin]%elem_of_app.
    + destruct (Hg _ _ Hin) as (t & Ht & ? & ?). exists t. split; [|done].
      rewrite calls_app, calls_launch. apply elem_of_app. right.
      by apply elem_of_reverse.
    + apply elem_of_reverse, list_elem_of_fmap in Hin as (t & ? & _). done.
Qed.

Lemma promiseAll_writes ts w r w' :
  promiseAll E L ts w = (r, w') →
  ∃ new, log w' = new ++ log w ∧ writes_accounted L new.
Proof.
  intros Hrun.
  destruct (promiseAll_steps _ _ _ _ _ _ Hrun) as (pool' & Hsteps & _).
  apply (pool_steps_writes E L) in Hsteps as (evs & Hlog & Hc & Hg).
  - exists (evs ++ reverse (EvCall <$> ts)). split.
    + by rewrite Hlog, launch_log, app_assoc.
    + apply writes_accounted_launched; [done|].
      intros path data Hin. rewrite launched_targets in Hg. eauto.
  - intros i t p [t' [[= -> ->] _]]%list_lookup_fmap_Some.
    apply call_task_inv.
Qed.

Lemma awaitCall_writes t w r w' :
  awaitCall E L t w = (r, w') →
  ∃ new, log w' = new ++ log w ∧ writes_accounted L new.
Proof.
  unfold awaitCall.
  destruct (exec E (call L t) _) as [r1 w1] eqn:Hexec. intros [= <- <-].
  apply (exec_pool_steps E _ [(t, call L t)] _ 0%nat t) in Hexec;
    [|by repeat constructor|done|done].
  apply (pool_steps_writes E L) in Hexec as (evs & Hlog & Hc & Hg).
  - exists (evs ++ reverse (EvCall <$> [t])). split.
    + rewrite Hlog. simpl. by rewrite <- app_assoc.
    + by apply writes_accounted_launched.
  - intros [|i] t' p; [|done]. intros [= <- <-]. apply call_task_inv.
Qed.

Lemma chunks_run_writes assetsFolder objects i d w r w' :
  chunks_run E L assetsFolder objects i d w r w' →
  ∃ new, log w' = new ++ log w ∧ writes_accounted L new.
Proof.
  induction 1 as [i d w Hi|i d w e w' Hi Hall|i d w bs w1 r w' Hi Hall Hrest IH].
  - exists []. split; [done|apply writes_accounted_nil].
  - by apply promiseAll_writes in Hall.
  - apply promiseAll_writes in Hall as (new1 & Hlog1 & Hacc1).
    destruct IH as (new2 & Hlog2 & Hacc2).
    exists (new2 ++ new1). split; [by rewrite Hlog2, Hlog1, app_assoc|].
    by apply writes_accounted_app.
Qed.

Lemma count_rejected_to_zero path new :
  (∀ t e, EvSettle t (Rejected e) ∉ new) → count (rejected_to path) new = 0%nat.
Proof.
  induction new as [|ev new IH]; [done|]. intros Hno. simpl.
  rewrite IH by (intros t e Hin; apply (Hno t e); by right).
  destruct ev as [| |t [b|e]|]; try done. destruct (Hno t e). by left.
Qed.

End Accounting.

(** ** One object per hash *)

Section Dedupe.

Lemma dedupe_spec (members : list (string * AssetObject)) :
  let parsed := Object_values (Object_fromEntries members) in
  NoDup (hash <$> dedupe members) ∧
  (∀ o, o ∈ dedupe members → o ∈ parsed) ∧
  (∀ o, o ∈ parsed → ∃ o', o' ∈ dedupe members ∧ hash o' = hash o).
Proof.
  intros parsed. unfold dedupe. fold parsed.
  set (entries := map (λ object, (hash object, object)) parsed).
  destruct (Object_fromEntries_spec entries) as (Hnd & Hkeys & Helem).
  set (obj := Object_fromEntries entries) in *.
  assert (Hkv : ∀ k v, (k, v) ∈ obj → k = hash v ∧ v ∈ parsed).
  { intros k v Hin. apply Helem in Hin.
    apply list_elem_of_fmap in Hin as (o & [= -> ->] & Ho). done. }
  assert (Hhash : hash <$> obj.*2 = obj.*1).
  { clear -Hkv. induction obj as [|[k v] obj IH]; [done|]. csimpl.
    destruct (Hkv k v) as [-> _]; [by left|]. f_equal. apply IH.
    intros k' v' Hin. apply Hkv. by right. }
  split_and!.
  - rewrite Object_values_perm, Hhash. done.
  - intros o Hin. rewrite Object_values_perm in Hin.
    apply list_elem_of_fmap in Hin as ([k v] & -> & Hin). simpl.
    by apply Hkv in Hin as [_ ?].
  - intros o Ho.
    assert (Hk : hash o ∈ obj.*1).
    { apply Hkeys. apply list_elem_of_fmap. exists (hash o, o). split; [done|].
      apply list_elem_of_fmap. by exists o. }
    apply list_elem_of_fmap in Hk as ([k v] & Hk & Hin). simpl in Hk. subst k.
    exists v. split.
    + rewrite Object_values_perm. apply list_elem_of_fmap. by exists (hash o, v).
    + by apply Hkv in Hin as [<- _].
Qed.

Lemma filter_none {A} (P : A → Prop) `{∀ x, Decision (P x)} (l : list A) :
  (∀ y, y ∈ l → ¬ P y) → filter P l = [].
Proof.
  induction l as [|a l IH]; [done|]. intros Hno.
  rewrite filter_cons_False by (apply Hno; by left).
  apply IH. intros y Hy. apply Hno. by right.
Qed.

Lemma filter_unique {A B} `{EqDecision B} (f : A → B) (l : list A) x :
  NoDup (f <$> l) → x ∈ l → filter (λ y, f y = f x) l = [x].
Proof.
  induction l as [|a l IH]; [by intros _ ?%elem_of_nil|].
  rewrite fmap_cons. intros [Hnin Hnd]%NoDup_cons Hin.
  apply elem_of_cons in Hin as [->|Hin].
  - rewrite filter_cons_True by done. f_equal.
    apply filter_none. intros y Hy Heq. apply Hnin.
    rewrite <- Heq. apply list_elem_of_fmap. by exists y.
  - rewrite filter_cons_False; [by apply IH|].
    intros Heq. apply Hnin. rewrite Heq. apply list_elem_of_fmap. by exists x.
Qed.

End Dedupe.

(** ** The calls of one asset index *)

Section IndexCalls.
Context (E : Env) (L : Lib).

Lemma syncIndex_calls assetsFolder assetIndex w r w' :
  syncIndex E L assetsFolder assetIndex w = (r, w') →
  ∃ new started, log w' = new ++ log w ∧
    reverse (calls new) =
      indexTarget L assetsFolder assetIndex
        :: (objectTarget L assetsFolder <$> started) ∧
    writes_accounted L new ∧
    (started = [] ∨
     ∃ members, manifest_of E L assetsFolder assetIndex w members ∧
                started `prefix_of` dedupe members) ∧
    (is_fulfilled r = true →
     ∃ members, manifest_of E L assetsFolder assetIndex w members ∧
                started = dedupe members).
Proof.
  unfold syncIndex.
  set (T := indexTarget L assetsFolder assetIndex).
  destruct (awaitCall E L T w) as [rb w1] eqn:Hcall.
  pose proof Hcall as Hcall'.
  apply awaitCall_writes in Hcall' as (h1 & Hlog1 & Hacc1).
  assert (Hcalls1 : calls h1 = [T]).
  { apply awaitCall_trace in Hcall as (evs & w0 & _ & _ & _ & Hlog & Hio).
    rewrite Hlog1 in Hlog.
    replace (EvSettle T rb :: evs ++ EvCall T :: log w)
      with ((EvSettle T rb :: evs ++ [EvCall T]) ++ log w) in Hlog
      by (simpl; by rewrite <- app_assoc).
    apply app_inv_tail in Hlog as ->. simpl.
    by rewrite calls_app, (io_no_calls _ Hio). }
  destruct rb as [b|e].
  2:{ intros [= <- <-]. exists h1, []. split_and!; try done.
      - by rewrite Hcalls1.
      - by left. }
  destruct (perform E (IoReadFile (t_path T)) w1) as [[text|e] w2] eqn:Hread;
    pose proof (perform_log E (IoReadFile (t_path T)) w1) as Hlog2;
    rewrite Hread in Hlog2; simpl in Hlog2.
  2:{ intros [= <- <-]. exists (EvIo (IoReadFile (t_path T)) :: h1), [].
      split_and!; try done.
      - by rewrite Hlog2, Hlog1.
      - simpl. by rewrite Hcalls1.
      - apply (writes_accounted_app L [_]); [|done].
        apply writes_accounted_other. by repeat constructor.
      - by left. }
  destruct (json_objects L text) as [members|e] eqn:Hjson.
  2:{ intros [= <- <-]. exists (EvIo (IoReadFile (t_path T)) :: h1), [].
      split_and!; try done.
      - by rewrite Hlog2, Hlog1.
      - simpl. by rewrite Hcalls1.
      - apply (writes_accounted_app L [_]); [|done].
        apply writes_accounted_other. by repeat constructor.
      - by left. }
  set (info1 := EvInfo (InfoUpdating (length (dedupe members)) (ai_id assetIndex))).
  set (h2 := info1 :: EvIo (IoReadFile (t_path T)) :: h1).
  assert (Hacc2 : writes_accounted L h2).
  { apply (writes_accounted_app L [_; _]); [|done].
    apply writes_accounted_other. by repeat constructor. }
  assert (Hcalls2 : calls h2 = [T]) by (simpl; by rewrite Hcalls1).
  assert (Hman : manifest_of E L assetsFolder assetIndex w members).
  { by exists b, w1, text, w2. }
  destruct (downloadChunks E L _ _ _ _ _ _) as [[n|e] w3] eqn:Hchunks;
    apply downloadChunks_run in Hchunks; try (unfold maxConcurrency; lia);
    pose proof (chunks_run_writes E L _ _ _ _ _ _ _ Hchunks)
      as (new' & Hlog3' & Hacc3);
    apply chunks_run_trace in Hchunks
      as (new & started & Hlog3 & Hcalls3 & Hpre & Hfin & _); try done;
    rewrite Hlog3 in Hlog3'; apply app_inv_tail in Hlog3'; subst new';
    simpl in Hlog3; intros [= <- <-].
  - destruct (Hfin eq_refl) as [Hstarted _]. rewrite drop_0 in Hstarted.
    exists (EvInfo (InfoDownloaded n (Z.of_nat (length (dedupe members)) - n))
              :: new ++ h2), started.
    split_and!.
    + simpl. rewrite Hlog3, Hlog2, Hlog1. unfold h2. simpl.
      by rewrite <- app_assoc.
    + simpl. rewrite calls_app, Hcalls2, reverse_app, Hcalls3. done.
    + apply (writes_accounted_app L [_]);
        [apply writes_accounted_other; by repeat constructor|].
      by apply writes_accounted_app.
    + right. exists members. split; [done|]. by rewrite Hstarted.
    + intros _. exists members. done.
  - exists (new ++ h2), started. split_and!; try done.
    + rewrite Hlog3, Hlog2, Hlog1. unfold h2. simpl. by rewrite <- app_assoc.
    + rewrite calls_app, Hcalls2, reverse_app, Hcalls3. done.
    + by apply writes_accounted_app.
    + right. exists members. split; [done|]. by rewrite drop_0 in Hpre.
Qed.

End IndexCalls.

(** ** A first run leaves every file it called for correct *)

Section Frozen.
Context (E : Env) (L : Lib).
Hypothesis Hff : fault_free E.

Lemma consistent_agree ts : consistent ts = true → agree ts.
Proof.
  unfold consistent. rewrite forallb_forall. intros Hall t t' Ht Ht' Hpath.
  apply list_elem_of_In in Ht, Ht'. specialize (Hall t Ht).
  rewrite forallb_forall in Hall. specialize (Hall t' Ht').
  rewrite Hpath, String.eqb_refl in Hall. simpl in Hall. unfold same_file in Hall.
  apply andb_true_iff in Hall as [[Hm Hc]%andb_true_iff Hs].
  apply String.eqb_eq in Hm, Hc. apply Z.eqb_eq in Hs. done.
Qed.

Lemma agree_subseteq ts ts' :
  (∀ t, t ∈ ts' → t ∈ ts) → agree ts → agree ts'.
Proof. intros Hsub Hag t t' Ht Ht'. apply Hag; by apply Hsub. Qed.

Lemma agree_good ts t t' data :
  agree ts → t ∈ ts → t' ∈ ts → t_path t = t_path t' →
  good L t data → good L t' data.
Proof.
  intros Hag Ht Ht' Hpath [Hlen Hd].
  destruct (Hag t t' Ht Ht' Hpath) as (Hm & Hc & Hs).
  split; [by rewrite <- Hs|by rewrite <- Hm, <- Hc].
Qed.

Lemma correct_lookup fs fs' t :
  fs' !! t_path t = fs !! t_path t → correct L fs t → correct L fs' t.
Proof. intros Heq (b & Hb & Hg). exists b. by rewrite Heq. Qed.

Lemma task_ok_lookup D fs fs' t p :
  fs' !! t_path t = fs !! t_path t → task_ok L D fs t p → task_ok L D fs' t p.
Proof.
  intros Heq [Hcov Hunc]. split; [done|]. intros Hnin.
  destruct (Hunc Hnin) as (Hinv & Hret & Hrd). split_and!; [done| |].
  - intros Hr. eapply correct_lookup; [done|]. by apply Hret.
  - intros Hr. rewrite Heq. by apply Hrd.
Qed.

Lemma perform_stat path w (c : bytes) :
  files w !! path = Some c →
  perform E (IoStat path) w =
  (Fulfilled (Z.of_nat (length c)), record (EvIo (IoStat path)) w).
Proof. intros Hc. unfold perform, read_file. by rewrite Hff, Hc. Qed.

Lemma perform_stat_inv path w n w1 :
  perform E (IoStat path) w = (Fulfilled n, w1) →
  ∃ c, files w !! path = Some c ∧ Z.of_nat (length c) = n.
Proof.
  unfold perform, read_file. rewrite Hff.
  destruct (files w !! path) as [c|]; [|done]. intros [= <- _]. by exists c.
Qed.

Lemma perform_read_stream path w (c : bytes) :
  files w !! path = Some c →
  perform E (IoReadStream path) w =
  (Fulfilled c, record (EvIo (IoReadStream path)) w).
Proof. intros Hc. unfold perform, read_file. by rewrite Hff, Hc. Qed.

Lemma perform_read_file path w (c : bytes) :
  files w !! path = Some c →
  perform E (IoReadFile path) w =
  (Fulfilled c, record (EvIo (IoReadFile path)) w).
Proof. intros Hc. unfold perform, read_file. by rewrite Hff, Hc. Qed.

Lemma perform_write path data w :
  perform E (IoWriteFile path data) w =
  (Fulfilled tt,
   {| files := <[path := data]> (files w);
      log := EvIo (IoWriteFile path data) :: log w |}).
Proof. unfold perform. by rewrite Hff. Qed.

(** One turn of a call of the batch. *)
Lemma task_step_frozen D ts pl wl i t op k r wl1 :
  agree (D ++ ts) → pl.*1 = ts →
  (∀ t, t ∈ D → correct L (files wl) t) →
  (∀ j tj pj, pl !! j = Some (tj, pj) → task_ok L D (files wl) tj pj) →
  pl !! i = Some (t, Await op k) →
  perform E op wl = (r, wl1) →
  (∀ t, t ∈ D → files wl1 !! t_path t = files wl !! t_path t) ∧
  (∀ j tj pj, <[i := (t, k r)]> pl !! j = Some (tj, pj) →
     task_ok L D (files wl1) tj pj).
Proof.
  intros Hag Hts HD Hok Hi Hperf.
  assert (Hmem : ∀ j tj pj, pl !! j = Some (tj, pj) → tj ∈ D ++ ts).
  { intros j tj pj Hj. apply elem_of_app. right. rewrite <- Hts.
    apply list_elem_of_fmap. exists (tj, pj). split; [done|].
    by eapply list_elem_of_lookup_2. }
  (* when the files are unchanged only the call itself has to be checked *)
  assert (Hsame : files wl1 = files wl → task_ok L D (files wl) t (k r) →
    (∀ t, t ∈ D → files wl1 !! t_path t = files wl !! t_path t) ∧
    (∀ j tj pj, <[i := (t, k r)]> pl !! j = Some (tj, pj) →
       task_ok L D (files wl1) tj pj)).
  { intros Hfiles Hnew. rewrite Hfiles. split; [done|]. intros j tj pj Hj.
    destruct (decide (j = i)) as [->|Hne].
    - rewrite list_lookup_insert_eq in Hj by (by eapply lookup_lt_Some).
      by injection Hj as <- <-.
    - rewrite list_lookup_insert_ne in Hj by done. by eapply Hok. }
  destruct (Hok _ _ _ Hi) as [Hcov Hunc].
  destruct (decide (t_path t ∈ t_path <$> D)) as [Hin|Hnin].
  - (* the file is one of those that are correct already *)
    pose proof Hin as Hin'.
    apply list_elem_of_fmap in Hin' as (t0 & Hpath & Ht0).
    destruct (HD t0 Ht0) as (c & Hc & Hgood0). rewrite <- Hpath in Hc.
    assert (Hgood : good L t c).
    { eapply (agree_good _ t0 t); [exact Hag| | |done|done].
      - apply elem_of_app. by left.
      - by eapply Hmem. }
    destruct Hgood as [Hlen Hdig].
    destruct (Hcov Hin) as [?|[Hver|Hprob]]; [done| |].
    + destruct op; simpl in Hver; try done. destruct Hver as [-> Hk].
      rewrite (perform_read_stream _ _ c Hc) in Hperf. injection Hperf as <- <-.
      apply Hsame; [done|]. split; [|done]. intros _. left. by apply Hk.
    + destruct op; simpl in Hprob; try done. destruct Hprob as [-> Hk].
      rewrite (perform_stat _ _ c Hc) in Hperf. injection Hperf as <- <-.
      apply Hsame; [done|]. split; [|done]. intros _. right. left.
      by rewrite Hlen.
  - (* a file of its own *)
    destruct (Hunc Hnin) as ([Hop Hk] & _ & Hrd).
    destruct (Hk r) as [Hafter Hinv]. clear Hk.
    destruct op; simpl in Hop, Hafter; try done.
    + (* stat *)
      subst path.
      assert (Hfiles : files wl1 = files wl).
      { by rewrite <- (perform_files E (IoStat (t_path t)) wl), Hperf. }
      apply Hsame; [done|]. split; [done|]. intros _.
      destruct Hafter as [Hnret Hread]. split_and!; [done| |].
      * intros Hr. by rewrite Hr in Hnret.
      * intros Hr. specialize (Hread Hr). subst r.
        by apply perform_stat_inv in Hperf.
    + (* the checksum *)
      subst path. destruct (Hrd eq_refl) as (c & Hc & Hlen).
      rewrite (perform_read_stream _ _ c Hc) in Hperf. injection Hperf as <- <-.
      apply Hsame; [done|]. split; [done|]. intros _.
      destruct Hafter as [Hnrd Hret]. split_and!; [done| |].
      * intros Hr. destruct (k (Fulfilled c)) as [b| |] eqn:Hkc; try done.
        destruct (Hret b eq_refl) as (-> & data & [= <-] & Hd).
        exists c. done.
      * intros Hr. by rewrite Hr in Hnrd.
    + (* fetch *)
      assert (Hfiles : files wl1 = files wl).
      { by rewrite <- (perform_files E (IoFetch url) wl), Hperf. }
      apply Hsame; [done|]. split; [done|]. intros _.
      destruct Hafter as [Hnret Hnrd]. split_and!; [done| |].
      * intros Hr. by rewrite Hr in Hnret.
      * intros Hr. by rewrite Hr in Hnrd.
    + (* sleep *)
      assert (Hfiles : files wl1 = files wl).
      { by rewrite <- (perform_files E (IoSleep ms) wl), Hperf. }
      apply Hsame; [done|]. split; [done|]. intros _.
      destruct Hafter as [Hnret Hnrd]. split_and!; [done| |].
      * intros Hr. by rewrite Hr in Hnret.
      * intros Hr. by rewrite Hr in Hnrd.
    + (* mkdir *)
      assert (Hfiles : files wl1 = files wl).
      { by rewrite <- (perform_files E (IoMkdir path) wl), Hperf. }
      apply Hsame; [done|]. split; [done|]. intros _.
      destruct Hafter as [Hnret Hnrd]. split_and!; [done| |].
      * intros Hr. by rewrite Hr in Hnret.
      * intros Hr. by rewrite Hr in Hnrd.
    + (* the write *)
      destruct Hop as [-> Hgood].
      rewrite perform_write in Hperf. injection Hperf as <- <-. simpl.
      rewrite Hafter. split.
      * intros t0 Ht0. apply lookup_insert_ne. intros Heq. apply Hnin.
        rewrite Heq. apply list_elem_of_fmap. by exists t0.
      * intros j tj pj Hj.
        assert (Hcorrect : ∀ t', t' ∈ D ++ ts → t_path t' = t_path t →
                  good L t' data).
        { intros t' Ht' Hpath. eapply (agree_good _ t t'); try done.
          by eapply Hmem. }
        destruct (decide (j = i)) as [->|Hne].
        -- rewrite list_lookup_insert_eq in Hj by (by eapply lookup_lt_Some).
           injection Hj as <- <-. split; [by intros ?|]. intros _.
           split_and!; [done| |done]. intros _. exists data.
           by rewrite lookup_insert_eq.
        -- rewrite list_lookup_insert_ne in Hj by done.
           destruct (decide (t_path tj = t_path t)) as [Hpath|Hpath].
           ++ destruct (Hok _ _ _ Hj) as [Hcov' Hunc']. split.
              { intros Hin. by rewrite Hpath in Hin. }
              intros Hnin'. destruct (Hunc' Hnin') as (Hinv' & _ & _).
              assert (Hg : good L tj data).
              { apply Hcorrect; [by eapply Hmem|done]. }
              split_and!; [done| |].
              ** intros _. exists data. by rewrite Hpath, lookup_insert_eq.
              ** intros _. exists data. rewrite Hpath, lookup_insert_eq.
                 by destruct Hg.
           ++ eapply task_ok_lookup; [|by eapply Hok].
              by rewrite lookup_insert_ne.
Qed.

Lemma settle_files t p w : files (settle t p w) = files w.
Proof. by destruct p. Qed.

(** The turns of a batch, started on a disk where the files of [D] are
    correct: these files are not touched, and a call that has returned
    leaves its file correct. *)
Lemma pool_steps_frozen D pool w pool' w' :
  rtc (pool_step E) (pool, w) (pool', w') →
  (∀ i t p, pool !! i = Some (t, p) → p = call L t) →
  agree (D ++ pool.*1) →
  (∀ t, t ∈ D → correct L (files w) t) →
  (∀ t, t ∈ D → files w' !! t_path t = files w !! t_path t) ∧
  (∀ i t b, pool' !! i = Some (t, Ret b) → correct L (files w') t).
Proof.
  intros Hrtc Hinit Hag HD.
  enough (pool'.*1 = pool.*1 ∧
          (∀ t, t ∈ D → files w' !! t_path t = files w !! t_path t) ∧
          (∀ (j : nat) tj pj, pool' !! j = Some (tj, pj) →
             task_ok L D (files w') tj pj)) as (Hts' & Hfrozen & Hok).
  { split; [done|]. intros i t b Hi. destruct (Hok _ _ _ Hi) as [Hcov Hunc].
    destruct (decide (t_path t ∈ t_path <$> D)) as [Hin|Hnin].
    - apply list_elem_of_fmap in Hin as (t0 & Hpath & Ht0).
      destruct (HD t0 Ht0) as (c & Hc & Hg). exists c. split.
      + by rewrite Hpath, Hfrozen.
      + eapply (agree_good _ t0 t); [exact Hag| | |done|done].
        * apply elem_of_app. by left.
        * apply elem_of_app. right. rewrite <- Hts'.
          apply list_elem_of_fmap. exists (t, Ret b). split; [done|].
          by eapply list_elem_of_lookup_2.
    - by apply Hunc. }
  refine (pool_steps_ind E (λ pl wl,
    pl.*1 = pool.*1 ∧
    (∀ t, t ∈ D → files wl !! t_path t = files w !! t_path t) ∧
    (∀ (j : nat) tj pj, pl !! j = Some (tj, pj) →
       task_ok L D (files wl) tj pj)) _ pool w pool' w' Hrtc _).
  - clear Hrtc Hinit pool' w'.
    intros pl wl i t p p' wl' _ (Hts & Hfrozen & Hok) Hi Hpend Hres.
    destruct p as [| |op k]; try done. simpl in Hres.
    destruct (perform E op wl) as [r wl1] eqn:Hperf.
    injection Hres as <- <-. rewrite settle_files.
    destruct (task_step_frozen D pool.*1 pl wl i t op k r wl1)
      as [Hfr Hok']; try done.
    { intros t0 Ht0. eapply correct_lookup; [|by apply HD]. by apply Hfrozen. }
    split_and!; [|by intros t0 Ht0; rewrite Hfr, Hfrozen|done].
    rewrite list_fmap_insert. simpl. rewrite <- Hts. apply list_insert_id.
    by rewrite list_lookup_fmap, Hi.
  - split_and!; [done|done|]. intros j tj pj Hj.
    rewrite (Hinit _ _ _ Hj). split.
    + intros _. right. right. apply call_probing.
    + intros _. split_and!; [apply call_task_inv|done|done].
Qed.

Lemma promiseAll_frozen D ts w bs w' :
  promiseAll E L ts w = (Fulfilled bs, w') →
  agree (D ++ ts) →
  (∀ t, t ∈ D → correct L (files w) t) →
  (∀ t, t ∈ D → files w' !! t_path t = files w !! t_path t) ∧
  (∀ t, t ∈ ts → correct L (files w') t).
Proof.
  intros Hrun Hag HD.
  destruct (promiseAll_steps _ _ _ _ _ _ Hrun)
    as (pool' & Hsteps & Hlen & Hts & Hset).
  apply (pool_steps_frozen D) in Hsteps as [Hfrozen Hret].
  - rewrite launch_files in Hfrozen. split; [done|]. intros t Ht.
    rewrite <- Hts in Ht. apply list_elem_of_fmap in Ht as ([t' p] & -> & Hin).
    apply list_elem_of_lookup_1 in Hin as [i Hi]. simpl in Hset.
    assert (Hp : ∃ b, p = Ret b).
    { apply (f_equal (λ l, l !! i)) in Hset.
      rewrite !list_lookup_fmap, Hi in Hset. simpl in Hset.
      destruct (bs !! i) as [b|]; [|done]. exists b. by injection Hset. }
    destruct Hp as [b ->]. by eapply Hret.
  - intros i t p [t' [[= -> ->] _]]%list_lookup_fmap_Some. done.
  - by rewrite launched_targets.
  - intros t Ht. rewrite launch_files. by apply HD.
Qed.

Lemma awaitCall_frozen D t w b w' :
  awaitCall E L t w = (Fulfilled b, w') →
  agree (D ++ [t]) →
  (∀ t, t ∈ D → correct L (files w) t) →
  (∀ t, t ∈ D → files w' !! t_path t = files w !! t_path t) ∧
  correct L (files w') t.
Proof.
  unfold awaitCall.
  destruct (exec E (call L t) _) as [r1 w1] eqn:Hexec. intros [= -> <-] Hag HD.
  apply (exec_pool_steps E _ [(t, call L t)] _ 0%nat t) in Hexec;
    [|by repeat constructor|done|done].
  apply (pool_steps_frozen D) in Hexec as [Hfrozen Hret].
  - split; [done|]. by apply (Hret 0%nat t b).
  - intros [|i] t' p; [|done]. by intros [= <- <-].
  - done.
  - done.
Qed.

(** The chunk loop: every object from [i] on ends with its file correct. *)
Lemma chunks_run_frozen assetsFolder objects i d w r w' :
  chunks_run E L assetsFolder objects i d w r w' →
  ∀ D, is_fulfilled r = true →
    agree (D ++ (objectTarget L assetsFolder <$> drop i objects)) →
    (∀ t, t ∈ D → correct L (files w) t) →
    (∀ t, t ∈ D → files w' !! t_path t = files w !! t_path t) ∧
    (∀ o, o ∈ drop i objects →
       correct L (files w') (objectTarget L assetsFolder o)).
Proof.
  induction 1 as [i d w Hi|i d w e w' Hi Hall|i d w bs w1 r w' Hi Hall Hrest IH];
    intros D Hful Hag HD.
  - split; [done|]. rewrite drop_ge by done. by intros o ?%elem_of_nil.
  - done.
  - rewrite slice_take_drop in Hall.
    set (chunk := take maxConcurrency (drop i objects)) in *.
    assert (Hsplit : drop i objects = chunk ++ drop (i + maxConcurrency) objects).
    { unfold chunk. rewrite <- drop_drop. symmetry. apply take_drop. }
    change (map (objectTarget L assetsFolder) chunk)
      with (objectTarget L assetsFolder <$> chunk) in Hall.
    apply (promiseAll_frozen D) in Hall as [Hfr1 Hc1]; [| |done].
    2:{ eapply agree_subseteq; [|exact Hag]. intros t.
        rewrite !elem_of_app, Hsplit, fmap_app, elem_of_app. tauto. }
    destruct (IH (D ++ (objectTarget L assetsFolder <$> chunk)) Hful)
      as [Hfr2 Hc2].
    { eapply agree_subseteq; [|exact Hag]. intros t.
      rewrite !elem_of_app, Hsplit, fmap_app, elem_of_app. tauto. }
    { intros t [Ht|Ht]%elem_of_app; [|by apply Hc1].
      eapply correct_lookup; [|by apply HD]. by apply Hfr1. }
    split.
    + intros t Ht. rewrite Hfr2 by (apply elem_of_app; by left). by apply Hfr1.
    + intros o. rewrite Hsplit. intros [Ho|Ho]%elem_of_app; [|by apply Hc2].
      assert (Ht : objectTarget L assetsFolder o
                   ∈ objectTarget L assetsFolder <$> chunk).
      { apply list_elem_of_fmap. by exists o. }
      eapply correct_lookup; [|by apply Hc1].
      apply Hfr2, elem_of_app. by right.
Qed.

(** One asset index of a run that completes. *)
Lemma syncIndex_frozen D assetsFolder assetIndex w w' new :
  syncIndex E L assetsFolder assetIndex w = (Fulfilled tt, w') →
  log w' = new ++ log w →
  agree (D ++ calls new) →
  (∀ t, t ∈ D → correct L (files w) t) →
  ∃ text members,
    let ts := indexTarget L assetsFolder assetIndex
                :: (objectTarget L assetsFolder <$> dedupe members) in
    calls new = reverse ts ∧
    files w' !! t_path (indexTarget L assetsFolder assetIndex) = Some text ∧
    json_objects L text = Fulfilled members ∧
    (∀ t, t ∈ D → files w' !! t_path t = files w !! t_path t) ∧
    (∀ t, t ∈ ts → correct L (files w') t).
Proof.
  intros Hrun Hlog Hag HD.
  destruct (syncIndex_calls E L _ _ _ _ _ Hrun)
    as (new0 & started & Hlog0 & Hcalls & _ & _ & Hfull).
  rewrite Hlog in Hlog0. apply app_inv_tail in Hlog0. subst new0.
  destruct (Hfull eq_refl)
    as (members & (b & w1 & text & w2 & Hcall & Hread & Hjson) & ->).
  set (T := indexTarget L assetsFolder assetIndex) in *.
  set (objects := dedupe members) in *.
  assert (Hcalls' : calls new = reverse (T :: (objectTarget L assetsFolder <$> objects))).
  { by rewrite <- Hcalls, reverse_involutive. }
  assert (Hsub : ∀ t, t ∈ D ++ T :: (objectTarget L assetsFolder <$> objects) →
                      t ∈ D ++ calls new).
  { intros t. rewrite !elem_of_app, Hcalls', elem_of_reverse. tauto. }
  unfold syncIndex in Hrun. fold T in Hrun. rewrite Hcall, Hread, Hjson in Hrun.
  fold objects in Hrun.
  destruct (downloadChunks E L _ _ _ _ _ _) as [[n|e] w3] eqn:Hchunks; [|done].
  injection Hrun as <-.
  (* the call for the index document *)
  apply (awaitCall_frozen D) in Hcall as [Hfr1 Hc1]; [| |done].
  2:{ eapply agree_subseteq; [|exact Hag]. intros t Ht. apply Hsub.
      rewrite elem_of_app in Ht. rewrite elem_of_app, elem_of_cons.
      destruct Ht as [?|Ht%list_elem_of_singleton]; [tauto|subst t; tauto]. }
  (* reading it *)
  assert (Hfiles2 : files w2 = files w1).
  { by rewrite <- (perform_files E (IoReadFile (t_path T)) w1), Hread. }
  assert (Htext : files w1 !! t_path T = Some text).
  { destruct Hc1 as (c & Hc & _).
    rewrite (perform_read_file _ _ c Hc) in Hread. by injection Hread as <- _. }
  (* the objects *)
  apply downloadChunks_run in Hchunks; [|unfold maxConcurrency; lia].
  destruct (chunks_run_frozen _ _ _ _ _ _ _ Hchunks (D ++ [T]) eq_refl)
    as [Hfr3 Hc3].
  { rewrite drop_0. eapply agree_subseteq; [|exact Hag]. intros t Ht.
    apply Hsub. rewrite !elem_of_app in Ht.
    rewrite elem_of_app, elem_of_cons.
    destruct Ht as [[?|Ht%list_elem_of_singleton]|?];
      [tauto|subst t; tauto|tauto]. }
  { simpl. rewrite Hfiles2.
    intros t [Ht|Ht%list_elem_of_singleton]%elem_of_app; [|by subst t].
    eapply correct_lookup; [|by apply HD]. by apply Hfr1. }
  exists text, members. cbn zeta.
  change (files (record _ w3)) with (files w3).
  change (files (record _ w2)) with (files w2) in Hfr3.
  rewrite drop_0 in Hc3. rewrite Hfiles2 in Hfr3.
  split_and!; [done| |done| |].
  - rewrite (Hfr3 T); [done|]. apply elem_of_app. right. by left.
  - intros t Ht. rewrite Hfr3 by (apply elem_of_app; by left). by apply Hfr1.
  - intros t [->|Ht]%elem_of_cons.
    + eapply correct_lookup; [|exact Hc1].
      apply Hfr3, elem_of_app. right. by left.
    + apply list_elem_of_fmap in Ht as (o & -> & Ho). by apply Hc3.
Qed.

(** All the asset indices: the run has made the calls of [plan], and the
    file of every one of them is correct in the end. *)
Lemma syncIndices_frozen assetsFolder indices : ∀ D w w' new,
  syncIndices E L assetsFolder indices w = (Fulfilled tt, w') →
  log w' = new ++ log w →
  agree (D ++ calls new) →
  (∀ t, t ∈ D → correct L (files w) t) →
  ∃ ts, plan L assetsFolder (files w') indices = Some ts ∧
    calls new = reverse ts ∧
    (∀ t, t ∈ D → files w' !! t_path t = files w !! t_path t) ∧
    (∀ t, t ∈ ts → correct L (files w') t).
Proof.
  induction indices as [|a indices IH]; intros D w w' new Hrun Hlog Hag HD;
    simpl in Hrun.
  - injection Hrun as <-. exists [].
    rewrite <- (app_nil_l (log w)) in Hlog at 1.
    apply app_inv_tail in Hlog as <-. split_and!; try done.
    by intros t ?%elem_of_nil.
  - destruct (syncIndex E L assetsFolder a w) as [[[]|e] w1] eqn:Hone; [|done].
    destruct (syncIndex_surfaces E L _ _ _ _ _ Hone) as (new1 & Hlog1 & _).
    destruct (syncIndices_surfaces E L _ _ _ _ _ Hrun) as (new2 & Hlog2 & _).
    assert (Hnew : new = new2 ++ new1).
    { rewrite Hlog2, Hlog1, app_assoc in Hlog. by apply app_inv_tail in Hlog. }
    subst new. rewrite calls_app in Hag.
    destruct (syncIndex_frozen D _ _ _ _ _ Hone Hlog1)
      as (text & members & Hcalls1 & Htext & Hjson & Hfr1 & Hc1); [|done|].
    { eapply agree_subseteq; [|exact Hag]. intros t.
      rewrite !elem_of_app. tauto. }
    set (ts1 := indexTarget L assetsFolder a
                  :: (objectTarget L assetsFolder <$> dedupe members)) in *.
    destruct (IH (D ++ ts1) _ _ _ Hrun Hlog2)
      as (ts2 & Hplan & Hcalls2 & Hfr2 & Hc2).
    { eapply agree_subseteq; [|exact Hag]. intros t.
      rewrite !elem_of_app, Hcalls1, elem_of_reverse. tauto. }
    { intros t [Ht|Ht]%elem_of_app; [|by apply Hc1].
      eapply correct_lookup; [|by apply HD]. by apply Hfr1. }
    exists (ts1 ++ ts2). split_and!.
    + cbn [plan]. rewrite (Hfr2 (indexTarget L assetsFolder a)), Htext, Hjson, Hplan.
      * done.
      * apply elem_of_app. right. by left.
    + by rewrite calls_app, Hcalls1, Hcalls2, reverse_app.
    + intros t Ht. rewrite Hfr2 by (apply elem_of_app; by left). by apply Hfr1.
    + intros t [Ht|Ht]%elem_of_app; [|by apply Hc2].
      eapply correct_lookup; [|by apply Hc1].
      apply Hfr2, elem_of_app. by right.
Qed.

End Frozen.

(** ** A run on a disk where every file is correct only verifies *)

Section Reuse.
Context (E : Env) (L : Lib).
Hypothesis Hff : fault_free E.

Lemma quiet_ret t b : quiet L t (Ret b) → b = false.
Proof. intros [[= ->]|[[]|[]]]. done. Qed.

Lemma quiet_throw t e : ¬ quiet L t (Throw e).
Proof. intros [?|[[]|[]]]. done. Qed.

Lemma pool_steps_quiet pool w pool' w' :
  rtc (pool_step E) (pool, w) (pool', w') →
  (∀ i t p, pool !! i = Some (t, p) → p = call L t ∧ correct L (files w) t) →
  files w' = files w ∧
  (∀ i t p, pool' !! i = Some (t, p) → quiet L t p) ∧
  ∃ evs, log w' = evs ++ log w ∧ calls evs = [] ∧
         Forall (λ ev, is_reuse ev = true) evs ∧
         (∀ i t b, pool' !! i = Some (t, Ret b) →
            EvSettle t (Fulfilled false) ∈ evs).
Proof.
  intros Hrtc Hinit.
  enough (files w' = files w ∧
          (∀ (i : nat) t p, pool' !! i = Some (t, p) →
             quiet L t p ∧ correct L (files w) t) ∧
          ∃ evs, log w' = evs ++ log w ∧ calls evs = [] ∧
                 Forall (λ ev, is_reuse ev = true) evs ∧
                 (∀ (i : nat) t b, pool' !! i = Some (t, Ret b) →
                    EvSettle t (Fulfilled false) ∈ evs)) as (? & Hq & ?).
  { split_and!; [done| |done]. intros i t p Hi. by destruct (Hq _ _ _ Hi). }
  refine (pool_steps_ind E (λ pl wl,
    files wl = files w ∧
    (∀ (i : nat) t p, pl !! i = Some (t, p) →
       quiet L t p ∧ correct L (files w) t) ∧
    ∃ evs, log wl = evs ++ log w ∧ calls evs = [] ∧
           Forall (λ ev, is_reuse ev = true) evs ∧
           (∀ (i : nat) t b, pl !! i = Some (t, Ret b) →
              EvSettle t (Fulfilled false) ∈ evs)) _ pool w pool' w' Hrtc _).
  - clear Hrtc Hinit pool' w'.
    intros pl wl i t p p' wl' _
      (Hfiles & Hq & evs & Hlog & Hcalls & Hreuse & Hdone) Hi Hpend Hres.
    destruct p as [| |op k]; try done. simpl in Hres.
    destruct (perform E op wl) as [r wl1] eqn:Hperf.
    injection Hres as <- <-. rewrite settle_files.
    destruct (Hq _ _ _ Hi) as [Hquiet (c & Hc & Hlen & Hdig)].
    rewrite <- Hfiles in Hc.
    assert (Hrest : ∀ p', quiet L t p' →
      ∀ (j : nat) tj pj, <[i := (t, p')]> pl !! j = Some (tj, pj) →
        quiet L tj pj ∧ correct L (files w) tj).
    { intros p' Hp' j tj pj Hj. destruct (decide (j = i)) as [->|Hne].
      - rewrite list_lookup_insert_eq in Hj by (by eapply lookup_lt_Some).
        injection Hj as <- <-. split; [done|]. by destruct (Hq _ _ _ Hi).
      - rewrite list_lookup_insert_ne in Hj by done. by eapply Hq. }
    destruct Hquiet as [?|[Hver|Hprob]]; [done| |].
    + destruct op; simpl in Hver; try done. destruct Hver as [-> Hk].
      rewrite (perform_read_stream E Hff _ _ c Hc) in Hperf.
      injection Hperf as <- <-. rewrite (Hk c Hdig). split_and!; [done| |].
      * apply Hrest. by left.
      * exists (EvSettle t (Fulfilled false) :: EvIo (IoReadStream (t_path t)) :: evs).
        split_and!; [simpl; by rewrite Hlog|done|by repeat constructor|].
        intros j tj b Hj. destruct (decide (j = i)) as [->|Hne].
        -- rewrite list_lookup_insert_eq in Hj by (by eapply lookup_lt_Some).
           injection Hj as <- <-. by left.
        -- rewrite list_lookup_insert_ne in Hj by done.
           right. right. by eapply Hdone.
    + destruct op; simpl in Hprob; try done. destruct Hprob as [-> Hk].
      rewrite (perform_stat E Hff _ _ c Hc) in Hperf.
      injection Hperf as <- <-. rewrite Hlen. split_and!; [done| |].
      * apply Hrest. right. by left.
      * destruct (k (Fulfilled (t_size t))) as [| |op' k'] eqn:Hk'; try done.
        exists (EvIo (IoStat (t_path t)) :: evs).
        split_and!; [simpl; by rewrite Hlog|done|by repeat constructor|].
        intros j tj b Hj. destruct (decide (j = i)) as [->|Hne].
        -- rewrite list_lookup_insert_eq in Hj by (by eapply lookup_lt_Some).
           done.
        -- rewrite list_lookup_insert_ne in Hj by done.
           right. by eapply Hdone.
  - split_and!; [done| |].
    + intros i t p Hi. destruct (Hinit _ _ _ Hi) as [-> ?].
      split; [right; right; apply call_probing|done].
    + exists []. split_and!; try done.
      intros i t b Hi. by destruct (Hinit _ _ _ Hi) as [? _].
Qed.

Lemma promiseAll_reuse ts w :
  (∀ t, t ∈ ts → correct L (files w) t) →
  ∃ bs w' evs, promiseAll E L ts w = (Fulfilled bs, w') ∧
    Forall (λ b, b = false) bs ∧ files w' = files w ∧
    log w' = evs ++ reverse (EvCall <$> ts) ++ log w ∧ calls evs = [] ∧
    Forall (λ ev, is_reuse ev = true) evs ∧
    (∀ t, t ∈ ts → EvSettle t (Fulfilled false) ∈ evs).
Proof.
  intros Hc. destruct (promiseAll E L ts w) as [r w'] eqn:Hrun.
  destruct (promiseAll_steps _ _ _ _ _ _ Hrun)
    as (pool' & Hsteps & Hlen & Hts & Hset).
  apply pool_steps_quiet in Hsteps
    as (Hfiles & Hq & evs & Hlog & Hcalls & Hre & Hdone).
  - rewrite launch_files in Hfiles. rewrite launch_log in Hlog.
    destruct r as [bs|e]; simpl in Hset.
    + exists bs, w', evs. split_and!; try done.
      * apply Forall_lookup. intros i b Hb.
        assert (Hi : pool'.*2 !! i = Some (Ret b)).
        { by rewrite Hset, list_lookup_fmap, Hb. }
        rewrite list_lookup_fmap in Hi.
        destruct (pool' !! i) as [[t p]|] eqn:Hp; [|done].
        injection Hi as ->. eapply quiet_ret. by eapply Hq.
      * intros t Ht. rewrite <- Hts in Ht.
        apply list_elem_of_fmap in Ht as ([t' p] & -> & Hin).
        apply list_elem_of_lookup_1 in Hin as [i Hi].
        assert (Hp : ∃ b, p = Ret b).
        { apply (f_equal (λ l, l !! i)) in Hset.
          rewrite !list_lookup_fmap, Hi in Hset. simpl in Hset.
          destruct (bs !! i) as [b|]; [|done]. exists b. by injection Hset. }
        destruct Hp as [b ->]. by eapply Hdone.
    + destruct Hset as (i & t & Hi). apply Hq in Hi. by apply quiet_throw in Hi.
  - intros i t p [t' [[= -> ->] Hin]]%list_lookup_fmap_Some.
    split; [done|].
    rewrite launch_files. apply Hc. by eapply list_elem_of_lookup_2.
Qed.

Lemma awaitCall_reuse t w :
  correct L (files w) t →
  ∃ w' evs, awaitCall E L t w = (Fulfilled false, w') ∧ files w' = files w ∧
    log w' = evs ++ EvCall t :: log w ∧ calls evs = [] ∧
    Forall (λ ev, is_reuse ev = true) evs ∧
    EvSettle t (Fulfilled false) ∈ evs.
Proof.
  intros Hc. unfold awaitCall.
  destruct (exec E (call L t) _) as [r w1] eqn:Hexec.
  apply (exec_pool_steps E _ [(t, call L t)] _ 0%nat t) in Hexec;
    [|by repeat constructor|done|done].
  apply pool_steps_quiet in Hexec
    as (Hfiles & Hq & evs & Hlog & Hcalls & Hre & Hdone).
  - specialize (Hq 0%nat _ _ eq_refl). destruct r as [b|e].
    + apply quiet_ret in Hq as ->.
      exists (record (EvSettle t (Fulfilled false)) w1), evs.
      split_and!; try done. by apply (Hdone 0%nat t false).
    + by apply quiet_throw in Hq.
  - intros [|i] t' p; [|done]. by intros [= <- <-].
Qed.

Lemma count_true_reuse bs : Forall (λ b, b = false) bs → count_true bs = 0.
Proof.
  intros Hall. unfold count_true. rewrite filter_none; [done|].
  intros b Hb. eapply Forall_forall in Hall; [|exact Hb]. by subst b.
Qed.

Lemma chunks_reuse assetsFolder objects fuel : ∀ i d w,
  (∀ o, o ∈ objects → correct L (files w) (objectTarget L assetsFolder o)) →
  ∃ w' new,
    downloadChunks E L fuel assetsFolder objects i d w = (Fulfilled d, w') ∧
    files w' = files w ∧ log w' = new ++ log w ∧
    Forall (λ ev, is_reuse ev = true) new ∧
    ((length objects ≤ i + fuel * maxConcurrency)%nat →
     calls new = reverse (objectTarget L assetsFolder <$> drop i objects) ∧
     ∀ o, o ∈ drop i objects →
          EvSettle (objectTarget L assetsFolder o) (Fulfilled false) ∈ new).
Proof.
  induction fuel as [|fuel IH]; intros i d w Hc; simpl.
  - exists w, []. split_and!; try done. intros Hi.
    rewrite drop_ge by lia. split; [done|]. by intros o ?%elem_of_nil.
  - destruct (i <? length objects)%nat eqn:Hi.
    2:{ apply Nat.ltb_ge in Hi. exists w, []. split_and!; try done.
        intros _. rewrite drop_ge by done. split; [done|].
        by intros o ?%elem_of_nil. }
    rewrite slice_take_drop.
    set (chunk := take maxConcurrency (drop i objects)).
    destruct (promiseAll_reuse (map (objectTarget L assetsFolder) chunk) w)
      as (bs & w1 & evs & -> & Hbs & Hfiles & Hlog & Hcalls & Hre & Hdone).
    { intros t (o & -> & Ho)%list_elem_of_fmap. apply Hc.
      apply (elem_of_slice o i (i + maxConcurrency)).
      by rewrite slice_take_drop. }
    rewrite (count_true_reuse bs Hbs), Z.add_0_r.
    destruct (IH (i + maxConcurrency)%nat d w1)
      as (w' & new & -> & Hf' & Hlog' & Hre' & Hcalls').
    { intros o Ho. rewrite Hfiles. by apply Hc. }
    exists w', (new ++ evs ++ reverse (EvCall <$> map (objectTarget L assetsFolder) chunk)).
    split_and!; [done|by rewrite Hf'| | |].
    + by rewrite Hlog', Hlog, <- !app_assoc.
    + apply Forall_app. split; [done|]. apply Forall_app. split; [done|].
      apply Forall_reverse, Forall_fmap, Forall_forall. by intros t _.
    + intros Hfuel.
      destruct Hcalls' as [Hcalls' Hdone'];
        [unfold maxConcurrency in *; lia|].
      assert (Hsplit : drop i objects
                       = chunk ++ drop (i + maxConcurrency) objects).
      { unfold chunk. rewrite <- drop_drop. symmetry. apply take_drop. }
      split.
      * rewrite !calls_app, Hcalls, calls_launch, Hcalls'.
        simpl. rewrite <- reverse_app.
        change (map (objectTarget L assetsFolder) chunk)
          with (objectTarget L assetsFolder <$> chunk).
        by rewrite <- fmap_app, <- Hsplit.
      * intros o. rewrite Hsplit. intros [Ho|Ho]%elem_of_app.
        -- apply elem_of_app. right. apply elem_of_app. left.
           apply Hdone. apply list_elem_of_fmap. by exists o.
        -- apply elem_of_app. left. by apply Hdone'.
Qed.

Lemma syncIndex_reuse assetsFolder assetIndex w text members :
  let T := indexTarget L assetsFolder assetIndex in
  files w !! t_path T = Some text →
  json_objects L text = Fulfilled members →
  correct L (files w) T →
  (∀ o, o ∈ dedupe members →
        correct L (files w) (objectTarget L assetsFolder o)) →
  ∃ w' new,
    syncIndex E L assetsFolder assetIndex w = (Fulfilled tt, w') ∧
    files w' = files w ∧ log w' = new ++ log w ∧
    Forall (λ ev, is_reuse ev = true) new ∧
    calls new = reverse (T :: (objectTarget L assetsFolder <$> dedupe members)) ∧
    ∀ t, t ∈ T :: (objectTarget L assetsFolder <$> dedupe members) →
         EvSettle t (Fulfilled false) ∈ new.
Proof.
  intros T Htext Hjson HcT Hc. unfold syncIndex. fold T.
  destruct (awaitCall_reuse T w HcT)
    as (w1 & evs1 & -> & Hf1 & Hlog1 & Hcalls1 & Hre1 & Hdone1).
  rewrite <- Hf1 in Htext.
  rewrite (perform_read_file E Hff _ _ text Htext), Hjson.
  set (objects := dedupe members) in *.
  set (info1 := EvInfo (InfoUpdating (length objects) (ai_id assetIndex))).
  destruct (chunks_reuse assetsFolder objects (length objects) 0 0
              (record info1 (record (EvIo (IoReadFile (t_path T))) w1)))
    as (w3 & new & -> & Hf3 & Hlog3 & Hre3 & Hcalls3).
  { intros o Ho. simpl. rewrite Hf1. by apply Hc. }
  destruct Hcalls3 as [Hcalls3 Hdone3]; [unfold maxConcurrency; lia|].
  rewrite drop_0 in Hcalls3, Hdone3.
  eexists _, (EvInfo (InfoDownloaded 0 (Z.of_nat (length objects) - 0))
                :: new ++ info1 :: EvIo (IoReadFile (t_path T))
                :: evs1 ++ [EvCall T]).
  split_and!; [done| | | | |].
  - simpl. by rewrite Hf3.
  - simpl. rewrite Hlog3. simpl. rewrite Hlog1, <- !app_assoc. simpl.
    by rewrite <- app_assoc.
  - constructor; [done|]. apply Forall_app. split; [done|].
    constructor; [done|]. constructor; [done|]. apply Forall_app.
    split; [done|]. by repeat constructor.
  - simpl. rewrite calls_app. simpl. rewrite calls_app, Hcalls1. simpl.
    by rewrite Hcalls3, reverse_cons.
  - intros t [->|(o & -> & Ho)%list_elem_of_fmap]%elem_of_cons.
    + right. apply elem_of_app. right. right. right. apply elem_of_app. by left.
    + right. apply elem_of_app. left. by apply Hdone3.
Qed.

Lemma syncIndices_reuse assetsFolder indices : ∀ w ts,
  plan L assetsFolder (files w) indices = Some ts →
  (∀ t, t ∈ ts → correct L (files w) t) →
  ∃ w' new,
    syncIndices E L assetsFolder indices w = (Fulfilled tt, w') ∧
    files w' = files w ∧ log w' = new ++ log w ∧
    Forall (λ ev, is_reuse ev = true) new ∧ calls new = reverse ts ∧
    ∀ t, t ∈ ts → EvSettle t (Fulfilled false) ∈ new.
Proof.
  induction indices as [|a indices IH]; intros w ts Hplan Hc; cbn [plan] in Hplan.
  - injection Hplan as <-. exists w, []. split_and!; try done.
    by intros t ?%elem_of_nil.
  - destruct (files w !! t_path (indexTarget L assetsFolder a))
      as [text|] eqn:Htext; [|done].
    destruct (json_objects L text) as [members|] eqn:Hjson; [|done].
    destruct (plan L assetsFolder (files w) indices) as [ts2|] eqn:Hrest; [|done].
    injection Hplan as <-.
    destruct (syncIndex_reuse assetsFolder a w text members Htext Hjson)
      as (w1 & new1 & Hrun1 & Hf1 & Hlog1 & Hre1 & Hcalls1 & Hdone1).
    { apply Hc. by left. }
    { intros o Ho. apply Hc. right. apply elem_of_app. left.
      apply list_elem_of_fmap. by exists o. }
    destruct (IH w1 ts2)
      as (w' & new2 & Hrun2 & Hf2 & Hlog2 & Hre2 & Hcalls2 & Hdone2).
    { by rewrite Hf1. }
    { intros t Ht. rewrite Hf1. apply Hc. right. apply elem_of_app. by right. }
    exists w', (new2 ++ new1). cbn [syncIndices]. rewrite Hrun1, Hrun2.
    split_and!; [done|by rewrite Hf2| | | |].
    + by rewrite Hlog2, Hlog1, app_assoc.
    + by apply Forall_app.
    + rewrite calls_app, Hcalls1, Hcalls2. by rewrite <- reverse_app.
    + intros t Ht. apply elem_of_app.
      change (t ∈ (indexTarget L assetsFolder a
                     :: (objectTarget L assetsFolder <$> dedupe members)) ++ ts2)
        in Ht.
      apply elem_of_app in Ht as [Ht|Ht]; [right; by apply Hdone1|].
      left. by apply Hdone2.
Qed.

(** The version resolution only makes download requests. *)
Lemma getAssetIndices_run minecraftVersions w r w' :
  exec E (getAssetIndices L minecraftVersions) w = (r, w') →
  files w' = files w ∧
  ∃ evs, log w' = evs ++ log w ∧ Forall (λ ev, is_fetch_only ev = true) evs.
Proof.
  rewrite getAssetIndices_unfold.
  destruct (exec E (downloadJson _ _) w) as [[versions|e] w1] eqn:Hm;
    apply downloadJson_run in Hm as [-> _].
  - intros (Hf & (evs & Hlog & Hall) & _)%resolveVersions_run. split; [done|].
    exists (evs ++ [EvIo (IoFetch versionManifestUrl)]). split.
    + by rewrite Hlog, <- app_assoc.
    + apply Forall_app. split; [done|]. by repeat constructor.
  - intros [= <- <-]. split; [done|].
    exists [EvIo (IoFetch versionManifestUrl)]. split; [done|].
    by repeat constructor.
Qed.

Lemma perform_folder_size dir w :
  perform E (IoFolderSize dir) w =
  (Fulfilled (folder_bytes E (files w) dir), record (EvIo (IoFolderSize dir)) w).
Proof. unfold perform. by rewrite Hff. Qed.

End Reuse.

(** ** Claim C5 *)

(** C5.  Let a first run of [downloadAssets] complete, on a filesystem
    whose requests do not fail, the calls of that run that share a path
    expecting the same file.  A second run for the same versions, started
    on the disk and history the first one left, and for which the version
    resolution returns the same asset indices, completes as well; after the
    download requests of the version resolution it makes no download request
    and no write and creates no directory; it makes the same
    [downloadIfChanged] calls as the first run, each of which returns
    [false] (the file was verified and reused), every summary line counts no
    downloaded file, and the files are exactly those the first run left. *)
Theorem C5_second_run_reuses
    (E : Env) (L : Lib) (minecraftVersions : list string)
    (assetsFolder : string) (w0 w1 : World) (new1 : list event) :
  fault_free E →
  downloadAssets E L minecraftVersions assetsFolder w0 = (Fulfilled tt, w1) →
  log w1 = new1 ++ log w0 →
  consistent (calls new1) = true →
  (exec E (getAssetIndices L minecraftVersions)
     (record (EvInfo (InfoDownloading minecraftVersions)) w1)).1
  = (exec E (getAssetIndices L minecraftVersions)
       (record (EvInfo (InfoDownloading minecraftVersions)) w0)).1 →
  ∃ w2 resolution verification,
    downloadAssets E L minecraftVersions assetsFolder w1 = (Fulfilled tt, w2) ∧
    files w2 = files w1 ∧
    log w2 = verification ++ resolution
               ++ EvInfo (InfoDownloading minecraftVersions) :: log w1 ∧
    Forall (λ ev, is_fetch_only ev = true) resolution ∧
    Forall (λ ev, is_reuse ev = true) verification ∧
    calls verification = calls new1 ∧
    (∀ t, t ∈ calls new1 → EvSettle t (Fulfilled false) ∈ verification).
Proof.
  intros Hff Hrun1 Hlog1 Hcons Hres.
  unfold downloadAssets in Hrun1.
  set (info0 := EvInfo (InfoDownloading minecraftVersions)) in *.
  destruct (exec E (getAssetIndices L minecraftVersions) (record info0 w0))
    as [[idx|e] wa] eqn:Hresolve1; [|done].
  destruct (getAssetIndices_run E L _ _ _ _ Hresolve1)
    as (HfA & evsA & HlogA & HfetchA).
  set (ids := EvInfo (InfoIndexIds (Object_keys idx))) in *.
  destruct (syncIndices E L assetsFolder (Object_values idx) (record ids wa))
    as [[[]|e] wb] eqn:Hsync; [|done].
  destruct (syncIndices_surfaces E L _ _ _ _ _ Hsync) as (newS & HlogS & _).
  unfold getFolderSize, await in Hrun1. cbn [exec] in Hrun1.
  rewrite (perform_folder_size E Hff) in Hrun1. simpl in Hrun1.
  injection Hrun1 as <-. simpl in Hlog1, HlogS, HlogA, HfA.
  (* the calls of the first run are those of its asset indices *)
  assert (HcallsA : calls evsA = []).
  { apply io_no_calls. eapply Forall_impl; [exact HfetchA|].
    by intros [[]| | |]. }
  assert (Hnew1 : calls new1 = calls newS).
  { rewrite HlogS, HlogA in Hlog1.
    replace (EvInfo (InfoOverallSize (folder_bytes E (files wb) assetsFolder))
               :: EvIo (IoFolderSize assetsFolder)
               :: newS ++ ids :: evsA ++ info0 :: log w0)
      with ((EvInfo (InfoOverallSize (folder_bytes E (files wb) assetsFolder))
               :: EvIo (IoFolderSize assetsFolder)
               :: newS ++ ids :: evsA ++ [info0]) ++ log w0) in Hlog1
      by (simpl; rewrite <- !app_assoc; simpl; by rewrite <- app_assoc).
    apply app_inv_tail in Hlog1 as <-. simpl.
    rewrite calls_app. simpl. rewrite calls_app, HcallsA. simpl.
    by rewrite app_nil_r. }
  destruct (syncIndices_frozen E L Hff assetsFolder (Object_values idx) []
              _ _ _ Hsync HlogS)
    as (ts & Hplan & Hcalls & _ & Hcorrect).
  { simpl. rewrite <- Hnew1. by apply consistent_agree. }
  { by intros t ?%elem_of_nil. }
  (* the second run *)
  unfold downloadAssets. fold info0.
  set (w1 := record (EvInfo (InfoOverallSize (folder_bytes E (files wb) assetsFolder)))
               (record (EvIo (IoFolderSize assetsFolder)) wb)) in *.
  destruct (exec E (getAssetIndices L minecraftVersions) (record info0 w1))
    as [r2 wr] eqn:Hresolve2.
  simpl in Hres. subst r2. fold ids.
  destruct (getAssetIndices_run E L _ _ _ _ Hresolve2)
    as (HfR & evsR & HlogR & HfetchR).
  simpl in HfR, HlogR.
  destruct (syncIndices_reuse E L Hff assetsFolder (Object_values idx)
              (record ids wr) ts)
    as (w' & new2 & -> & Hf2 & Hlog2 & Hre2 & Hcalls2 & Hdone2).
  { simpl. by rewrite HfR. }
  { intros t Ht. simpl. rewrite HfR. by apply Hcorrect. }
  unfold getFolderSize, await. cbn [exec].
  rewrite (perform_folder_size E Hff). simpl.
  eexists _, evsR,
    (EvInfo (InfoOverallSize (folder_bytes E (files w') assetsFolder))
       :: EvIo (IoFolderSize assetsFolder) :: new2 ++ [ids]).
  split_and!; [done| | |done| | |].
  - simpl. by rewrite Hf2.
  - simpl. rewrite Hlog2. simpl. rewrite HlogR, <- !app_assoc. done.
  - constructor; [done|]. constructor; [done|]. apply Forall_app.
    split; [done|]. by repeat constructor.
  - simpl. rewrite calls_app. simpl. by rewrite app_nil_r, Hcalls2, Hnew1, Hcalls.
  - intros t Ht. rewrite Hnew1, Hcalls, elem_of_reverse in Ht.
    right. right. apply elem_of_app. left. by apply Hdone2.
Qed.

(** On the concrete origin: after a first run for v7 and v8 on an empty
    disk, a second run makes the same three calls, which all return
    [false], and leaves the three files as they are. *)
Lemma C5_witness :
  downloadAssets Example.origin Example.lib ["v7"; "v8"] "assets"
    Example.empty_world = Example.first_run ∧
  ∃ w2 verification,
    downloadAssets Example.origin Example.lib ["v7"; "v8"] "assets"
      Example.first_run.2 = (Fulfilled tt, w2) ∧
    files w2 = files Example.first_run.2 ∧
    Forall (λ ev, is_reuse ev = true) verification ∧
    reverse (calls verification) =
      [ indexTarget Example.lib "assets" Example.index9;
        objectTarget Example.lib "assets" {| hash := "1"; size := 1 |};
        objectTarget Example.lib "assets" {| hash := "2"; size := 1 |} ].
Proof.
  assert (H1 : downloadAssets Example.origin Example.lib ["v7"; "v8"] "assets"
                 Example.empty_world = (Fulfilled tt, Example.first_run.2))
    by (vm_compute; reflexivity).
  split; [vm_compute; reflexivity|].
  destruct (C5_second_run_reuses Example.origin Example.lib ["v7"; "v8"]
              "assets" Example.empty_world Example.first_run.2
              (log Example.first_run.2))
    as (w2 & resolution & verification & Hrun & Hfiles & _ & _ & Hreuse
        & Hcalls & _).
  - intros h op. reflexivity.
  - exact H1.
  - exact (eq_sym (app_nil_r _)).
  - vm_compute. reflexivity.
  - vm_compute. reflexivity.
  - exists w2, verification. split; [exact Hrun|]. split; [exact Hfiles|].
    split; [exact Hreuse|]. rewrite Hcalls. vm_compute. reflexivity.
Defined.

(** * Further properties of the module *)

(** ** The footprint of a program *)

Section Footprint.
Context (E : Env).

Lemma only_requests_bind {A B} (P : io → Prop) (p : prog A) (f : A → prog B) :
  only_requests P p → (∀ a, only_requests P (f a)) → only_requests P (bind p f).
Proof.
  intros Hp Hf. induction p as [a|e|op k IH]; simpl; [done|done|].
  destruct Hp as [Hop Hk]. split; [done|]. intros r. by apply IH.
Qed.

Lemma only_requests_await (P : io → Prop) op : P op → only_requests P (await op).
Proof. intros Hop. split; [done|]. by intros [v|e]. Qed.

(** A request changes no file but the one it writes. *)
Lemma perform_frame op w path :
  (∀ data, op ≠ IoWriteFile path data) →
  files (perform E op w).2 !! path = files w !! path.
Proof.
  intros Hop. destruct op; simpl; try done.
  assert (path0 ≠ path) by (intros ->; by eapply Hop).
  destruct (io_fault E (log w) (IoWriteFile path0 data)); simpl.
  - destruct (torn E (log w) path0 data); [|done]. by rewrite lookup_insert_ne.
  - by rewrite lookup_insert_ne.
Qed.

(** A run records the requests of the program and changes only the files
    it wrote to. *)
Lemma exec_footprint {A} (P : io → Prop) (p : prog A) : ∀ w r w',
  only_requests P p → exec E p w = (r, w') →
  ∃ new, log w' = new ++ log w ∧
    Forall (λ ev, ∃ op, ev = EvIo op ∧ P op) new ∧
    ∀ path, (∀ data, EvIo (IoWriteFile path data) ∉ new) →
            files w' !! path = files w !! path.
Proof.
  induction p as [a|e|op k IH]; intros w r w' Hp Hexec; simpl in Hexec.
  - injection Hexec as <- <-. by exists [].
  - injection Hexec as <- <-. by exists [].
  - destruct Hp as [Hop Hk].
    destruct (perform E op w) as [r1 w1] eqn:Hperf.
    destruct (IH r1 w1 r w' (Hk r1) Hexec) as (new & Hlog & Hall & Hframe).
    exists (new ++ [EvIo op]). split_and!.
    + rewrite Hlog, <- app_assoc. simpl.
      by rewrite <- (perform_log E op w), Hperf.
    + apply Forall_app. split; [done|]. constructor; [|done]. by exists op.
    + intros path Hno. rewrite Hframe.
      * replace w1 with (perform E op w).2 by (by rewrite Hperf).
        apply perform_frame. intros data ->. apply (Hno data).
        apply elem_of_app. right. by left.
      * intros data Hin. apply (Hno data). apply elem_of_app. by left.
Qed.

End Footprint.

Section CallFootprint.
Context (L : Lib) (path url method checksum : string) (size : Z).

Local Abbreviation P := (call_request L path url).

Lemma fetchLoop_only_requests n : ∀ le buf,
  only_requests P (fetchLoop L url method checksum size n le buf).
Proof.
  assert (Hsleep : P (IoSleep 2000)) by (right; right; right; by left).
  induction n as [|n IH]; intros le buf; [done|].
  cbn [fetchLoop]. apply only_requests_bind.
  { apply only_requests_await. right. right. by left. }
  intros res. destruct (ok res).
  - destruct (body res) as [b|e]; [|done].
    destruct (negb (Z.of_nat (length b) =? size)).
    + apply only_requests_bind; [by apply only_requests_await|]. intros _. apply IH.
    + cbn zeta. destruct (negb _); [|done].
      apply only_requests_bind; [by apply only_requests_await|]. intros _. apply IH.
  - apply only_requests_bind; [by apply only_requests_await|]. intros _. apply IH.
Qed.

Lemma downloadIfChanged_only_requests :
  only_requests P (downloadIfChanged L path url method checksum size).
Proof.
  unfold downloadIfChanged. apply only_requests_bind.
  - unfold probeLocal. apply only_requests_bind.
    + split; [by left|]. intros [sz|e]; [done|]. by destruct (decide _).
    + intros [sz|]; [|done]. destruct (sz =? size); [|done].
      apply only_requests_bind; [|done]. unfold calculateChecksum.
      apply only_requests_bind; [|done]. apply only_requests_await.
      right. by left.
  - intros [|]; [done|]. unfold fetchAndWrite. apply only_requests_bind.
    + apply fetchLoop_only_requests.
    + intros [le buf]. destruct (truthy le); [done|].
      apply only_requests_bind.
      * apply only_requests_await. do 4 right. by left.
      * intros _. destruct buf as [b|]; [|done].
        apply only_requests_bind; [|done]. apply only_requests_await.
        do 5 right. by exists b.
Qed.

End CallFootprint.

(** ** One call, in every environment *)

Section OneCall.
Context (E : Env) (L : Lib).

Lemma count_io_settlements f evs :
  (∀ op, f (EvIo op) = false) → Forall (λ ev, is_io ev = true) evs →
  count f evs = 0%nat.
Proof.
  intros Hf. induction 1 as [|ev evs Hev _ IH]; [done|].
  destruct ev; try done. simpl. by rewrite Hf, IH.
Qed.

Lemma count_write_to path evs :
  (∀ p d, EvIo (IoWriteFile p d) ∈ evs → p = path) →
  count is_write evs = count (is_write_to path) evs.
Proof.
  induction evs as [|ev evs IH]; [done|]. intros Hall. simpl.
  rewrite IH by (intros p d Hin; apply (Hall p d); by right).
  destruct ev as [[]| | |]; try done. simpl.
  rewrite bool_decide_eq_true_2; [done|]. apply (Hall _ data). by left.
Qed.

(** The writes of a call that ran alone: one if it returned [true], none
    if it returned [false]. *)
Lemma call_writes t w r w' :
  exec E (call L t) w = (r, w') →
  ∃ new, log w' = new ++ log w ∧ Forall (λ ev, is_io ev = true) new ∧
    (∀ p d, EvIo (IoWriteFile p d) ∈ new → p = t_path t ∧ good L t d) ∧
    (∀ b, r = Fulfilled b → count is_write new = if b then 1%nat else 0%nat).
Proof.
  intros Hexec.
  destruct (exec_trace_io E _ _ _ _ Hexec) as (new & Hlog & Hio).
  apply (exec_pool_steps E _ [(t, call L t)] _ 0%nat t) in Hexec;
    [|by repeat constructor|done|done].
  apply (pool_steps_writes E L) in Hexec as (evs & Hlog' & Hc & Hg).
  2:{ intros [|i] t' p; [|done]. intros [= <- <-]. apply call_task_inv. }
  assert (Hevs : evs = EvSettle t r :: new).
  { simpl in Hlog'. rewrite Hlog in Hlog'.
    change (EvSettle t r :: new ++ log w)
      with ((EvSettle t r :: new) ++ log w) in Hlog'.
    by apply app_inv_tail in Hlog'. }
  subst evs. exists new. split_and!; [done|done| |].
  - intros p d Hin. destruct (Hg p d) as (t' & Ht' & -> & Hgood); [by right|].
    apply list_elem_of_singleton in Ht' as ->. done.
  - intros b ->. rewrite (count_write_to (t_path t)).
    2:{ intros p d Hin. destruct (Hg p d) as (t' & Ht' & -> & _); [by right|].
        by apply list_elem_of_singleton in Ht' as ->. }
    destruct (Hc (t_path t)) as [Hlo Hhi]. simpl in Hlo, Hhi.
    rewrite (count_io_settlements (downloaded_to (t_path t))) in Hlo, Hhi by done.
    rewrite (count_io_settlements (rejected_to (t_path t))) in Hhi by done.
    destruct b; simpl in *.
    + rewrite bool_decide_eq_true_2 in Hlo, Hhi by done. lia.
    + lia.
Qed.

End OneCall.

(** A [downloadIfChanged] call that returns, in whatever environment, leaves
    a file of the expected size and checksum at [localPath].  When it
    returns [false] it has fetched nothing and written nothing; when it
    returns [true] it has fetched at least once and written exactly once,
    the file being what that write stored. *)
Theorem downloadIfChanged_postcondition
    (E : Env) (L : Lib) (path url method checksum : string) (size : Z)
    (w : World) (b : bool) (w' : World) :
  exec E (downloadIfChanged L path url method checksum size) w
  = (Fulfilled b, w') →
  local_correct L (files w') path method checksum size ∧
  ∃ new, log w' = new ++ log w ∧
    count is_write new = (if b then 1 else 0)%nat ∧
    (b = false → count is_fetch new = 0%nat ∧ files w' = files w) ∧
    (b = true → (1 ≤ count is_fetch new)%nat ∧
                ∃ data, files w' = <[path := data]> (files w)).
Proof.
  intros Hexec.
  destruct (call_writes E L (MkTarget path url method checksum size) _ _ _ Hexec)
    as (new & Hlog & _ & _ & Hcount).
  specialize (Hcount b eq_refl).
  unfold downloadIfChanged in Hexec. rewrite exec_bind in Hexec.
  destruct (exec E (probeLocal _ _ _ _ _) w) as [[reuse|e] w1] eqn:Hprobe;
    [|done].
  apply probeLocal_general in Hprobe
    as (Hf1 & new1 & Hlog1 & Hfe1 & Hwr1 & _ & Htrue & _).
  destruct reuse.
  - injection Hexec as <- <-. rewrite Hf1. split; [by apply Htrue|].
    exists new. rewrite Hlog1 in Hlog. apply app_inv_tail in Hlog as <-.
    split_and!; try done.
  - apply fetchAndWrite_general in Hexec
      as (new2 & Hlog2 & Hfe2 & _ & _ & _ & Hres & _).
    destruct (Hres b eq_refl) as (-> & data & _ & Hfiles & Hlen & Hd).
    split.
    { exists data. rewrite Hfiles, lookup_insert_eq. done. }
    exists new. rewrite Hlog2, Hlog1, app_assoc in Hlog.
    apply app_inv_tail in Hlog as <-. split_and!; try done.
    + by rewrite Hlog2, Hlog1, app_assoc.
    + intros _. rewrite count_app. split; [lia|]. exists data. by rewrite <- Hf1.
Qed.

(** The footprint of [downloadIfChanged], whatever the outcome: it stats
    and reads [localPath], fetches [url], sleeps two seconds, creates the
    parent directory and writes [localPath], and requests nothing else; no
    other path changes, and without a write no file changes at all. *)
Theorem downloadIfChanged_footprint
    (E : Env) (L : Lib) (path url method checksum : string) (size : Z)
    (w : World) (r : settled bool) (w' : World) :
  exec E (downloadIfChanged L path url method checksum size) w = (r, w') →
  ∃ new, log w' = new ++ log w ∧
    Forall (λ ev, ∃ op, ev = EvIo op ∧ call_request L path url op) new ∧
    (∀ p, p ≠ path → files w' !! p = files w !! p) ∧
    (count is_write new = 0%nat → files w' = files w).
Proof.
  intros Hexec.
  destruct (exec_footprint E _ _ _ _ _
              (downloadIfChanged_only_requests L path url method checksum size)
              Hexec) as (new & Hlog & Hall & Hframe).
  assert (Hwrites : ∀ p d, EvIo (IoWriteFile p d) ∈ new → p = path).
  { intros p d Hin. eapply Forall_forall in Hall; [|exact Hin].
    destruct Hall as (op & [= <-] & Hop).
    destruct Hop as [?|[?|[?|[?|[?|[d' [= -> _]]]]]]]; done. }
  exists new. split_and!; [done|done| |].
  - intros p Hp. apply Hframe. intros d Hin. by apply Hwrites in Hin.
  - intros Hnone. apply map_eq. intros p. apply Hframe. intros d Hin.
    by apply (count_zero_not_in is_write) in Hin.
Qed.

(** The probes of lines 195-208 rethrow what is not "no such file": a
    [stat] that fails with another error rejects the call with it at once;
    so does a failing read of the checksum of a file of the expected size.
    Neither is followed by a download. *)
Theorem downloadIfChanged_probe_errors
    (E : Env) (L : Lib) (path url method checksum : string) (size : Z)
    (w : World) (e : exn) :
  (io_fault E (log w) (IoStat path) = Some e → code e ≠ Some "ENOENT" →
   exec E (downloadIfChanged L path url method checksum size) w
   = (Rejected e, record (EvIo (IoStat path)) w)) ∧
  (∀ b, io_fault E (log w) (IoStat path) = None →
     files w !! path = Some b → Z.of_nat (length b) = size →
     io_fault E (EvIo (IoStat path) :: log w) (IoReadStream path) = Some e →
     exec E (downloadIfChanged L path url method checksum size) w
     = (Rejected e,
        record (EvIo (IoReadStream path)) (record (EvIo (IoStat path)) w))).
Proof.
  split.
  - intros Hst Hcode. unfold downloadIfChanged, probeLocal, statOrUndefined.
    simpl. unfold read_file. rewrite Hst. simpl.
    by destruct (decide (code e = Some "ENOENT")).
  - intros b Hst Hb Hlen Hrd.
    unfold downloadIfChanged, probeLocal, statOrUndefined, calculateChecksum.
    simpl. unfold read_file. rewrite Hst, Hb. simpl.
    rewrite Hlen, Z.eqb_refl. simpl. unfold read_file. by rewrite Hrd.
Qed.

Lemma downloadIfChanged_postcondition_witness :
  exec (Example.flaky 0)
    (downloadIfChanged Example.lib "assets/objects/3" "http://origin/3"
       "sha1" "3" 2) Example.empty_world
  = (Fulfilled true, Example.fetched_world) ∧
  local_correct Example.lib (files Example.fetched_world)
    "assets/objects/3" "sha1" "3" 2 ∧
  ∃ new, log Example.fetched_world = new ++ [] ∧ count is_write new = 1%nat.
Proof.
  assert (H : exec (Example.flaky 0)
    (downloadIfChanged Example.lib "assets/objects/3" "http://origin/3"
       "sha1" "3" 2) Example.empty_world
    = (Fulfilled true, Example.fetched_world)) by (vm_compute; reflexivity).
  split; [exact H|].
  destruct (downloadIfChanged_postcondition _ _ _ _ _ _ _ _ _ _ H)
    as (Hcorrect & new & Hlog & Hcount & _).
  split; [exact Hcorrect|]. exists new. split; [exact Hlog|exact Hcount].
Defined.

(** On the concrete environment with the server down: five attempts, then
    the call rejects; nothing on disk has changed. *)
Lemma downloadIfChanged_footprint_witness :
  ∃ e w',
    exec (Example.flaky 9)
      (downloadIfChanged Example.lib "assets/objects/3" "http://origin/3"
         "sha1" "3" 2) Example.stale_world = (Rejected e, w') ∧
    files w' = files Example.stale_world.
Proof.
  destruct (exec (Example.flaky 9)
    (downloadIfChanged Example.lib "assets/objects/3" "http://origin/3"
       "sha1" "3" 2) Example.stale_world) as [r w'] eqn:H.
  destruct (downloadIfChanged_footprint _ _ _ _ _ _ _ _ _ _ H)
    as (new & Hlog & _ & _ & Hnone).
  vm_compute in H. injection H as <- <-.
  eexists _, _. split; [reflexivity|]. apply Hnone.
  simpl in Hlog. rewrite app_nil_r in Hlog. subst new. reflexivity.
Defined.

Lemma downloadIfChanged_probe_errors_witness :
  exec Example.denied
    (downloadIfChanged Example.lib "assets/objects/3" "http://origin/3"
       "sha1" "3" 2) Example.empty_world
  = (Rejected (SystemError "EACCES"),
     record (EvIo (IoStat "assets/objects/3")) Example.empty_world) ∧
  exec Example.unreadable
    (downloadIfChanged Example.lib "assets/objects/3" "http://origin/3"
       "sha1" "3" 2) Example.stale_world
  = (Rejected (SystemError "EIO"),
     record (EvIo (IoReadStream "assets/objects/3"))
       (record (EvIo (IoStat "assets/objects/3")) Example.stale_world)).
Proof.
  split.
  - apply (downloadIfChanged_probe_errors Example.denied); [reflexivity|done].
  - apply (proj2 (downloadIfChanged_probe_errors Example.unreadable Example.lib
                    "assets/objects/3" "http://origin/3" "sha1" "3" 2
                    Example.stale_world (SystemError "EIO")) Example.stale);
      reflexivity.
Defined.

(** ** The requests of the version resolution *)

Section ResolutionRequests.
Context (E : Env) (L : Lib).

Local Arguments downloadJson : simpl never.
Local Arguments mbind : simpl never.

Lemma answered_in_turn_cons h url a urls :
  answered E (json_assetIndex L) h url a →
  answered_in_turn E L (EvIo (IoFetch url) :: h) urls →
  answered_in_turn E L h (url :: urls).
Proof.
  intros Ha Hall [|i] u Hu.
  - injection Hu as <-. exists a. by rewrite take_0.
  - destruct (Hall i u Hu) as [a' Ha']. exists a'.
    cbn [take]. rewrite fmap_cons, reverse_cons, <- app_assoc. exact Ha'.
Qed.

Lemma resolveVersions_requests versions requested : ∀ acc w r w',
  exec E (resolveVersions L versions requested acc) w = (r, w') →
  ∃ fetched,
    log w' = reverse (EvIo ∘ IoFetch <$> fetched) ++ log w ∧
    Forall2 (λ v u, metaUrl versions v = Some u)
      (take (length fetched) requested) fetched ∧
    (length fetched ≤ length requested)%nat ∧
    match r with
    | Fulfilled _ =>
        length fetched = length requested ∧
        answered_in_turn E L (log w) fetched
    | Rejected e =>
        (∃ version,
           requested !! length fetched = Some version ∧
           truthy (metaUrl versions version) = false ∧
           e = JsError ("Minecraft version " +:+ version +:+ " not found") ∧
           answered_in_turn E L (log w) fetched) ∨
        (∃ pre url,
           fetched = pre ++ [url] ∧
           answered_in_turn E L (log w) pre ∧
           exec E (downloadJson (json_assetIndex L) url)
             {| files := files w;
                log := reverse (EvIo ∘ IoFetch <$> pre) ++ log w |}
           = (Rejected e, w'))
    end.
Proof.
  induction requested as [|version rest IH]; intros acc w r w' Hexec;
    cbn [resolveVersions] in Hexec.
  - simpl in Hexec. injection Hexec as <- <-. exists []. split_and!; done.
  - unfold metaUrl at 2.
    destruct (List.find _ versions) as [entry|] eqn:Hfind;
      cbn [truthy fmap option_fmap option_map negb default] in Hexec.
    2:{ injection Hexec as <- <-. exists []. split_and!; try done.
        - simpl. lia.
        - left. exists version. split_and!; try done.
          unfold metaUrl. by rewrite Hfind. }
    destruct (String.eqb (v_url entry) "") eqn:Hurl; cbn [negb] in Hexec.
    { injection Hexec as <- <-. exists []. split_and!; try done.
      - simpl. lia.
      - left. exists version. split_and!; try done.
        unfold metaUrl. rewrite Hfind. simpl. by rewrite Hurl. }
    rewrite exec_bind in Hexec.
    destruct (exec E (downloadJson _ _) w) as [[a|e] w1] eqn:Hmeta;
      pose proof Hmeta as Hmeta'; apply downloadJson_run in Hmeta' as [-> Hres].
    2:{ injection Hexec as <- <-. exists [v_url entry]. split_and!; try done.
        - simpl. constructor; [|by rewrite take_0].
          unfold metaUrl. by rewrite Hfind.
        - simpl. lia.
        - right. exists [], (v_url entry). split_and!; try done. }
    apply IH in Hexec as (fetched & Hlog & Hall & Hlen & Hr).
    assert (Ha : answered E (json_assetIndex L) (log w) (v_url entry) a)
      by exact (Hres a eq_refl).
    exists (v_url entry :: fetched). split_and!.
    + rewrite Hlog, fmap_cons, reverse_cons, <- app_assoc. done.
    + simpl. constructor; [|done]. unfold metaUrl. by rewrite Hfind.
    + simpl. lia.
    + destruct r as [m|e].
      * destruct Hr as [Hn Hans]. split; [simpl; by rewrite Hn|].
        by eapply answered_in_turn_cons.
      * destruct Hr as [(v & Hv & Hnot & -> & Hans)|(pre & url & -> & Hans & Hlast)].
        -- left. exists v. split_and!; try done.
           by eapply answered_in_turn_cons.
        -- right. exists (v_url entry :: pre), url. split_and!; try done.
           ++ by eapply answered_in_turn_cons.
           ++ rewrite fmap_cons, reverse_cons, <- app_assoc. exact Hlast.
Qed.

End ResolutionRequests.

(** [getAssetIndices] fetches the version manifest, once, and then the
    metadata of the requested versions, one request each and in the order
    of the request list (a version listed twice is fetched twice), at the
    URL of the first manifest entry with that id.  It stops at the first
    request that fails or version that is not found: a run that returns
    made a request for every version and each was answered; a run that
    rejects either ends with the request whose failure is its error, all
    requests before that one answered, or, all its requests answered, at
    the next version, which the manifest does not list with a URL, with
    "not found" for that version.  It never repeats a request and changes
    no file. *)
Theorem getAssetIndices_requests
    (E : Env) (L : Lib) (minecraftVersions : list string)
    (w : World) (r : settled (jsobj AssetIndex)) (w' : World) :
  exec E (getAssetIndices L minecraftVersions) w = (r, w') →
  files w' = files w ∧
  ∃ fetched,
    log w' = reverse (EvIo ∘ IoFetch <$> fetched)
               ++ EvIo (IoFetch versionManifestUrl) :: log w ∧
    (length fetched ≤ length minecraftVersions)%nat ∧
    (is_fulfilled r = true → length fetched = length minecraftVersions) ∧
    (∀ versions w1,
      exec E (downloadJson (json_versions L) versionManifestUrl) w
      = (Fulfilled versions, w1) →
      Forall2 (λ v u, metaUrl versions v = Some u)
        (take (length fetched) minecraftVersions) fetched ∧
      match r with
      | Fulfilled _ => answered_in_turn E L (log w1) fetched
      | Rejected e =>
          (∃ version,
             minecraftVersions !! length fetched = Some version ∧
             truthy (metaUrl versions version) = false ∧
             e = JsError ("Minecraft version " +:+ version +:+ " not found") ∧
             answered_in_turn E L (log w1) fetched) ∨
          (∃ pre url,
             fetched = pre ++ [url] ∧
             answered_in_turn E L (log w1) pre ∧
             exec E (downloadJson (json_assetIndex L) url)
               {| files := files w;
                  log := reverse (EvIo ∘ IoFetch <$> pre) ++ log w1 |}
             = (Rejected e, w'))
      end) ∧
    (∀ e w1,
      exec E (downloadJson (json_versions L) versionManifestUrl) w
      = (Rejected e, w1) →
      r = Rejected e ∧ w' = w1 ∧ fetched = []).
Proof.
  intros Hexec.
  destruct (getAssetIndices_run E L _ _ _ _ Hexec) as [Hfiles _].
  split; [done|]. rewrite getAssetIndices_unfold in Hexec.
  destruct (exec E (downloadJson _ _) w) as [[versions|e] w1] eqn:Hm.
  - pose proof Hm as Hm'. apply downloadJson_run in Hm' as [-> _].
    apply resolveVersions_requests in Hexec as (fetched & Hlog & Hall & Hlen & Hr).
    exists fetched. split; [done|]. split; [done|]. split; [|split].
    + intros Hful. destruct r as [m|e]; [by destruct Hr|done].
    + intros versions' w1' [= <- <-]. split; [done|].
      destruct r as [m|e]; [by destruct Hr|exact Hr].
    + done.
  - pose proof Hm as Hm'. apply downloadJson_run in Hm' as [-> _].
    injection Hexec as <- <-. exists []. split; [done|].
    split; [simpl; lia|]. split; [done|]. split; [done|].
    by intros e' w1' [= <- <-].
Qed.

(** On the concrete origin: the manifest, then the metadata of v7 and of
    v8. *)
Lemma getAssetIndices_requests_witness :
  ∃ r w',
    exec Example.origin (getAssetIndices Example.lib ["v7"; "v8"])
      Example.empty_world = (r, w') ∧
    is_fulfilled r = true ∧
    log w' = [EvIo (IoFetch "meta/8"); EvIo (IoFetch "meta/7");
              EvIo (IoFetch versionManifestUrl)].
Proof.
  destruct (exec Example.origin (getAssetIndices Example.lib ["v7"; "v8"])
              Example.empty_world) as [r w'] eqn:H.
  assert (Hm : exec Example.origin
    (downloadJson (json_versions Example.lib) versionManifestUrl)
    Example.empty_world
    = (Fulfilled Example.catalog,
       {| files := ∅; log := [EvIo (IoFetch versionManifestUrl)] |}))
    by (vm_compute; reflexivity).
  destruct (getAssetIndices_requests _ _ _ _ _ _ H)
    as (_ & fetched & Hlog & _ & Hful & Hall & _).
  destruct (Hall _ _ Hm) as [Hurls _].
  exists r, w'. split; [reflexivity|].
  assert (Hr : is_fulfilled r = true).
  { vm_compute in H. by injection H as <- _. }
  split; [exact Hr|]. specialize (Hful Hr).
  destruct fetched as [|u1 [|u2 [|u3 fetched]]]; try discriminate Hful.
  simpl in Hurls. apply Forall2_cons in Hurls as [[= <-] Hurls].
  apply Forall2_cons in Hurls as [[= <-] _]. exact Hlog.
Defined.

(** ** A completed run leaves every file it called for correct *)

Section Valid.
Context (E : Env) (L : Lib).

Lemma perform_stat_fulfilled path w n w1 :
  perform E (IoStat path) w = (Fulfilled n, w1) →
  ∃ c, files w !! path = Some c ∧ Z.of_nat (length c) = n.
Proof.
  unfold perform, read_file. destruct (io_fault E _ _); [done|].
  destruct (files w !! path) as [c|]; [|done]. intros [= <- _]. by exists c.
Qed.

Lemma perform_read_fulfilled path w (c : bytes) w1 :
  perform E (IoReadStream path) w = (Fulfilled c, w1) →
  files w !! path = Some c.
Proof.
  unfold perform, read_file. destruct (io_fault E _ _); [done|].
  destruct (files w !! path) as [c'|]; [|done]. by intros [= <- _].
Qed.

Lemma perform_write_fulfilled path data w w1 :
  perform E (IoWriteFile path data) w = (Fulfilled tt, w1) →
  files w1 = <[path := data]> (files w).
Proof.
  unfold perform. destruct (io_fault E _ _); [done|]. by intros [= <-].
Qed.

Lemma task_ok_nil fs t p :
  task_ok L [] fs t p ↔
  task_inv L t p ∧ (is_ret p = true → correct L fs t) ∧
  (is_reading p = true →
     ∃ c, fs !! t_path t = Some c ∧ Z.of_nat (length c) = t_size t).
Proof.
  split.
  - intros [_ H]. apply H. by intros ?%elem_of_nil.
  - intros H. split; [by intros ?%elem_of_nil|done].
Qed.

(** One turn of a call of the batch that does not throw, in whatever
    environment: the files that were correct stay correct. *)
Lemma task_step_valid D ts pl wl i t op k r wl1 :
  agree (D ++ ts) → pl.*1 = ts →
  (∀ t, t ∈ D → correct L (files wl) t) →
  (∀ j tj pj, pl !! j = Some (tj, pj) → task_ok L [] (files wl) tj pj) →
  pl !! i = Some (t, Await op k) →
  perform E op wl = (r, wl1) →
  is_throw (k r) = false →
  (∀ t, t ∈ D → correct L (files wl1) t) ∧
  (∀ j tj pj, <[i := (t, k r)]> pl !! j = Some (tj, pj) →
     task_ok L [] (files wl1) tj pj).
Proof.
  intros Hag Hts HD Hok Hi Hperf Hnt.
  assert (Hmem : ∀ j tj pj, pl !! j = Some (tj, pj) → tj ∈ D ++ ts).
  { intros j tj pj Hj. apply elem_of_app. right. rewrite <- Hts.
    apply list_elem_of_fmap. exists (tj, pj). split; [done|].
    by eapply list_elem_of_lookup_2. }
  assert (Hsame : files wl1 = files wl → task_ok L [] (files wl) t (k r) →
    (∀ t, t ∈ D → correct L (files wl1) t) ∧
    (∀ j tj pj, <[i := (t, k r)]> pl !! j = Some (tj, pj) →
       task_ok L [] (files wl1) tj pj)).
  { intros Hfiles Hnew. rewrite Hfiles. split; [done|]. intros j tj pj Hj.
    destruct (decide (j = i)) as [->|Hne].
    - rewrite list_lookup_insert_eq in Hj by (by eapply lookup_lt_Some).
      by injection Hj as <- <-.
    - rewrite list_lookup_insert_ne in Hj by done. by eapply Hok. }
  destruct (proj1 (task_ok_nil _ _ _) (Hok _ _ _ Hi)) as ([Hop Hk] & _ & Hrd).
  destruct (Hk r) as [Hafter Hinv]. clear Hk.
  assert (Hquiet : files wl1 = files wl →
    is_ret (k r) = false → is_reading (k r) = false →
    (∀ t, t ∈ D → correct L (files wl1) t) ∧
    (∀ j tj pj, <[i := (t, k r)]> pl !! j = Some (tj, pj) →
       task_ok L [] (files wl1) tj pj)).
  { intros Hfiles Hnret Hnrd. apply Hsame; [done|]. apply task_ok_nil.
    split_and!; [done| |].
    - intros Hr. by rewrite Hr in Hnret.
    - intros Hr. by rewrite Hr in Hnrd. }
  destruct op; simpl in Hop, Hafter; try done.
  - (* stat *)
    subst path.
    assert (Hfiles : files wl1 = files wl).
    { by rewrite <- (perform_files E (IoStat (t_path t)) wl), Hperf. }
    apply Hsame; [done|]. apply task_ok_nil.
    destruct Hafter as [Hnret Hread]. split_and!; [done| |].
    + intros Hr. by rewrite Hr in Hnret.
    + intros Hr. specialize (Hread Hr). subst r.
      by apply perform_stat_fulfilled in Hperf.
  - (* the checksum *)
    subst path. destruct (Hrd eq_refl) as (c & Hc & Hlen).
    assert (Hfiles : files wl1 = files wl).
    { by rewrite <- (perform_files E (IoReadStream (t_path t)) wl), Hperf. }
    apply Hsame; [done|]. apply task_ok_nil.
    destruct Hafter as [Hnrd Hret]. split_and!; [done| |].
    + intros Hr. destruct (k r) as [b| |] eqn:Hkr; try done.
      destruct (Hret b eq_refl) as (-> & data & -> & Hd).
      apply perform_read_fulfilled in Hperf. rewrite Hc in Hperf.
      injection Hperf as ->. by exists data.
    + intros Hr. by rewrite Hr in Hnrd.
  - (* fetch *)
    destruct Hafter as [Hnret Hnrd]. apply Hquiet; [|done|done].
    by rewrite <- (perform_files E (IoFetch url) wl), Hperf.
  - (* sleep *)
    destruct Hafter as [Hnret Hnrd]. apply Hquiet; [|done|done].
    by rewrite <- (perform_files E (IoSleep ms) wl), Hperf.
  - (* mkdir *)
    destruct Hafter as [Hnret Hnrd]. apply Hquiet; [|done|done].
    by rewrite <- (perform_files E (IoMkdir path) wl), Hperf.
  - (* the write *)
    destruct Hop as [-> Hgood]. destruct r as [[]|e].
    2:{ rewrite Hafter in Hnt. done. }
    apply perform_write_fulfilled in Hperf. rewrite Hperf, Hafter.
    assert (Hcorrect : ∀ t', t' ∈ D ++ ts → t_path t' = t_path t →
              good L t' data).
    { intros t' Ht' Hpath. eapply (agree_good _ _ t t'); try done.
      by eapply Hmem. }
    assert (Hkeep : ∀ t', t' ∈ D ++ ts → correct L (files wl) t' →
              correct L (<[t_path t := data]> (files wl)) t').
    { intros t' Ht' Hc'. destruct (decide (t_path t' = t_path t)) as [Hp|Hp].
      - exists data. rewrite Hp, lookup_insert_eq. split; [done|].
        by apply Hcorrect.
      - eapply correct_lookup; [|exact Hc']. by rewrite lookup_insert_ne. }
    split.
    + intros t0 Ht0. apply Hkeep; [|by apply HD]. apply elem_of_app. by left.
    + intros j tj pj Hj. apply task_ok_nil.
      destruct (decide (j = i)) as [->|Hne].
      * rewrite list_lookup_insert_eq in Hj by (by eapply lookup_lt_Some).
        injection Hj as <- <-. split_and!; [done| |done]. intros _.
        exists data. by rewrite lookup_insert_eq.
      * rewrite list_lookup_insert_ne in Hj by done.
        destruct (proj1 (task_ok_nil _ _ _) (Hok _ _ _ Hj))
          as (Hinv' & Hret' & Hrd').
        split_and!; [done| |].
        -- intros Hr. apply Hkeep; [by eapply Hmem|by apply Hret'].
        -- intros Hr. destruct (decide (t_path tj = t_path t)) as [Hp|Hp].
           ++ exists data. rewrite Hp, lookup_insert_eq. split; [done|].
              destruct (Hcorrect tj) as [? _]; [by eapply Hmem|done|done].
           ++ rewrite lookup_insert_ne by done. by apply Hrd'.
Qed.

(** The turns of a batch, in whatever environment: unless a call has
    thrown, the files of [D] are still correct and every call that has
    returned has left its file correct. *)
Lemma pool_steps_valid D pool w pool' w' :
  rtc (pool_step E) (pool, w) (pool', w') →
  (∀ i t p, pool !! i = Some (t, p) → p = call L t) →
  agree (D ++ pool.*1) →
  (∀ t, t ∈ D → correct L (files w) t) →
  Forall (λ tp, is_throw tp.2 = false) pool' →
  (∀ t, t ∈ D → correct L (files w') t) ∧
  (∀ i t b, pool' !! i = Some (t, Ret b) → correct L (files w') t).
Proof.
  intros Hrtc Hinit Hag HD Hnt'.
  enough (Forall (λ tp, is_throw tp.2 = false) pool' →
          pool'.*1 = pool.*1 ∧
          (∀ t, t ∈ D → correct L (files w') t) ∧
          (∀ (j : nat) tj pj, pool' !! j = Some (tj, pj) →
             task_ok L [] (files w') tj pj)) as Hend.
  { destruct (Hend Hnt') as (_ & HD' & Hok). split; [done|].
    intros i t b Hi. by apply (proj1 (task_ok_nil _ _ _) (Hok _ _ _ Hi)). }
  clear Hnt'.
  refine (pool_steps_ind E (λ pl wl,
    Forall (λ tp, is_throw tp.2 = false) pl →
    pl.*1 = pool.*1 ∧
    (∀ t, t ∈ D → correct L (files wl) t) ∧
    (∀ (j : nat) tj pj, pl !! j = Some (tj, pj) →
       task_ok L [] (files wl) tj pj)) _ pool w pool' w' Hrtc _).
  - clear Hrtc Hinit pool' w'.
    intros pl wl i t p p' wl' Hnt IH Hi Hpend Hres Hnt'.
    destruct (IH Hnt) as (Hts & HDl & Hok).
    destruct p as [| |op k]; try done. simpl in Hres.
    destruct (perform E op wl) as [r wl1] eqn:Hperf.
    injection Hres as <- <-. rewrite settle_files.
    assert (Hkr : is_throw (k r) = false).
    { eapply Forall_lookup_1 in Hnt'.
      2:{ apply list_lookup_insert_eq. by eapply lookup_lt_Some. }
      done. }
    destruct (task_step_valid D pool.*1 pl wl i t op k r wl1)
      as [HD' Hok']; try done.
    split_and!; [|done|done].
    rewrite list_fmap_insert. simpl. rewrite <- Hts. apply list_insert_id.
    by rewrite list_lookup_fmap, Hi.
  - intros _. split_and!; [done|done|]. intros j tj pj Hj.
    rewrite (Hinit _ _ _ Hj). apply task_ok_nil.
    split_and!; [apply call_task_inv|done|done].
Qed.

Lemma promiseAll_valid D ts w bs w' :
  promiseAll E L ts w = (Fulfilled bs, w') →
  agree (D ++ ts) →
  (∀ t, t ∈ D → correct L (files w) t) →
  ∀ t, t ∈ D ++ ts → correct L (files w') t.
Proof.
  intros Hrun Hag HD.
  destruct (promiseAll_steps _ _ _ _ _ _ Hrun)
    as (pool' & Hsteps & Hlen & Hts & Hset).
  simpl in Hset.
  assert (Hrets : ∀ i t p, pool' !! i = Some (t, p) → ∃ b, p = Ret b).
  { intros i t p Hi. apply (f_equal (λ l, l !! i)) in Hset.
    rewrite !list_lookup_fmap, Hi in Hset. simpl in Hset.
    destruct (bs !! i) as [b|]; [|done]. exists b. by injection Hset. }
  apply (pool_steps_valid D) in Hsteps as [HD' Hret].
  - intros t [Ht|Ht]%elem_of_app; [by apply HD'|].
    rewrite <- Hts in Ht. apply list_elem_of_fmap in Ht as ([t' p] & -> & Hin).
    apply list_elem_of_lookup_1 in Hin as [i Hi].
    destruct (Hrets _ _ _ Hi) as [b ->]. by eapply Hret.
  - intros i t p [t' [[= -> ->] _]]%list_lookup_fmap_Some. done.
  - by rewrite launched_targets.
  - intros t Ht. rewrite launch_files. by apply HD.
  - apply Forall_lookup. intros i [t p] Hi.
    destruct (Hrets _ _ _ Hi) as [b ->]. done.
Qed.

Lemma awaitCall_valid D t w b w' :
  awaitCall E L t w = (Fulfilled b, w') →
  agree (D ++ [t]) →
  (∀ t, t ∈ D → correct L (files w) t) →
  ∀ t', t' ∈ D ++ [t] → correct L (files w') t'.
Proof.
  unfold awaitCall.
  destruct (exec E (call L t) _) as [r1 w1] eqn:Hexec. intros [= -> <-] Hag HD.
  apply (exec_pool_steps E _ [(t, call L t)] _ 0%nat t) in Hexec;
    [|by repeat constructor|done|done].
  apply (pool_steps_valid D) in Hexec as [HD' Hret].
  - intros t' [Ht|Ht%list_elem_of_singleton]%elem_of_app; [by apply HD'|].
    subst t'. by apply (Hret 0%nat t b).
  - intros [|i] t' p; [|done]. by intros [= <- <-].
  - done.
  - done.
  - by repeat constructor.
Qed.

Lemma chunks_run_valid assetsFolder objects i d w r w' :
  chunks_run E L assetsFolder objects i d w r w' →
  ∀ D, is_fulfilled r = true →
    agree (D ++ (objectTarget L assetsFolder <$> drop i objects)) →
    (∀ t, t ∈ D → correct L (files w) t) →
    ∀ t, t ∈ D ++ (objectTarget L assetsFolder <$> drop i objects) →
         correct L (files w') t.
Proof.
  induction 1 as [i d w Hi|i d w e w' Hi Hall|i d w bs w1 r w' Hi Hall Hrest IH];
    intros D Hful Hag HD.
  - rewrite drop_ge by done. intros t. rewrite app_nil_r. by apply HD.
  - done.
  - rewrite slice_take_drop in Hall.
    set (chunk := take maxConcurrency (drop i objects)) in *.
    assert (Hsplit : drop i objects = chunk ++ drop (i + maxConcurrency) objects).
    { unfold chunk. rewrite <- drop_drop. symmetry. apply take_drop. }
    change (map (objectTarget L assetsFolder) chunk)
      with (objectTarget L assetsFolder <$> chunk) in Hall.
    pose proof (promiseAll_valid D _ _ _ _ Hall) as Hc1.
    rewrite Hsplit, fmap_app, app_assoc in Hag |- *.
    apply (IH (D ++ (objectTarget L assetsFolder <$> chunk)) Hful Hag).
    apply Hc1; [|done].
    eapply agree_subseteq; [|exact Hag]. intros t Ht.
    apply elem_of_app. by left.
Qed.

Lemma syncIndex_valid D assetsFolder assetIndex w w' new :
  syncIndex E L assetsFolder assetIndex w = (Fulfilled tt, w') →
  log w' = new ++ log w →
  agree (D ++ calls new) →
  (∀ t, t ∈ D → correct L (files w) t) →
  ∀ t, t ∈ D ++ calls new → correct L (files w') t.
Proof.
  intros Hrun Hlog Hag HD.
  destruct (syncIndex_calls E L _ _ _ _ _ Hrun)
    as (new0 & started & Hlog0 & Hcalls & _ & _ & Hfull).
  rewrite Hlog in Hlog0. apply app_inv_tail in Hlog0. subst new0.
  destruct (Hfull eq_refl)
    as (members & (b & w1 & text & w2 & Hcall & Hread & Hjson) & ->).
  set (T := indexTarget L assetsFolder assetIndex) in *.
  set (objects := dedupe members) in *.
  assert (Hsub : ∀ t, t ∈ D ++ calls new ↔
                      t ∈ (D ++ [T]) ++ (objectTarget L assetsFolder <$> objects)).
  { intros t. rewrite <- (reverse_involutive (calls new)), Hcalls.
    rewrite !elem_of_app, elem_of_reverse, elem_of_cons, list_elem_of_singleton.
    tauto. }
  unfold syncIndex in Hrun. fold T in Hrun. rewrite Hcall, Hread, Hjson in Hrun.
  fold objects in Hrun.
  destruct (downloadChunks E L _ _ _ _ _ _) as [[n|e] w3] eqn:Hchunks; [|done].
  injection Hrun as <-.
  pose proof (awaitCall_valid D _ _ _ _ Hcall) as Hc1.
  assert (Hfiles2 : files w2 = files w1).
  { by rewrite <- (perform_files E (IoReadFile (t_path T)) w1), Hread. }
  apply downloadChunks_run in Hchunks; [|unfold maxConcurrency; lia].
  pose proof (chunks_run_valid _ _ _ _ _ _ _ Hchunks (D ++ [T]) eq_refl) as Hc3.
  rewrite drop_0 in Hc3. intros t Ht. apply Hsub in Ht.
  change (files (record _ w3)) with (files w3). apply Hc3; [| |done].
  - eapply agree_subseteq; [|exact Hag]. intros t' Ht'. by apply Hsub.
  - change (files (record _ w2)) with (files w2). rewrite Hfiles2.
    apply Hc1; [|done].
    eapply agree_subseteq; [|exact Hag]. intros t' Ht'. apply Hsub.
    apply elem_of_app. by left.
Qed.

Lemma syncIndices_valid assetsFolder indices : ∀ D w w' new,
  syncIndices E L assetsFolder indices w = (Fulfilled tt, w') →
  log w' = new ++ log w →
  agree (D ++ calls new) →
  (∀ t, t ∈ D → correct L (files w) t) →
  ∀ t, t ∈ D ++ calls new → correct L (files w') t.
Proof.
  induction indices as [|a indices IH]; intros D w w' new Hrun Hlog Hag HD;
    simpl in Hrun.
  - injection Hrun as <-.
    rewrite <- (app_nil_l (log w)) in Hlog at 1.
    apply app_inv_tail in Hlog as <-. intros t. rewrite app_nil_r. by apply HD.
  - destruct (syncIndex E L assetsFolder a w) as [[[]|e] w1] eqn:Hone; [|done].
    destruct (syncIndex_surfaces E L _ _ _ _ _ Hone) as (new1 & Hlog1 & _).
    destruct (syncIndices_surfaces E L _ _ _ _ _ Hrun) as (new2 & Hlog2 & _).
    assert (Hnew : new = new2 ++ new1).
    { rewrite Hlog2, Hlog1, app_assoc in Hlog. by apply app_inv_tail in Hlog. }
    subst new. rewrite calls_app in Hag |- *.
    assert (Hperm : ∀ t, t ∈ D ++ calls new2 ++ calls new1 ↔
                         t ∈ (D ++ calls new1) ++ calls new2).
    { intros t. rewrite !elem_of_app. tauto. }
    intros t Ht. apply Hperm in Ht.
    apply (IH (D ++ calls new1) _ _ _ Hrun Hlog2); [| |done].
    + eapply agree_subseteq; [|exact Hag]. intros t' Ht'. by apply Hperm.
    + apply (syncIndex_valid D _ _ _ _ _ Hone Hlog1); [|done].
      eapply agree_subseteq; [|exact Hag]. intros t' Ht'. apply Hperm.
      apply elem_of_app. by left.
Qed.

Lemma syncIndices_index_calls assetsFolder indices : ∀ w w' new,
  syncIndices E L assetsFolder indices w = (Fulfilled tt, w') →
  log w' = new ++ log w →
  ∀ a, a ∈ indices → indexTarget L assetsFolder a ∈ calls new.
Proof.
  induction indices as [|a indices IH]; intros w w' new Hrun Hlog a' Ha';
    simpl in Hrun; [by apply elem_of_nil in Ha'|].
  destruct (syncIndex E L assetsFolder a w) as [[[]|e] w1] eqn:Hone; [|done].
  destruct (syncIndex_calls E L _ _ _ _ _ Hone)
    as (new1 & started & Hlog1 & Hcalls & _).
  destruct (syncIndices_surfaces E L _ _ _ _ _ Hrun) as (new2 & Hlog2 & _).
  assert (Hnew : new = new2 ++ new1).
  { rewrite Hlog2, Hlog1, app_assoc in Hlog. by apply app_inv_tail in Hlog. }
  subst new. rewrite calls_app. apply elem_of_app.
  apply elem_of_cons in Ha' as [->|Ha'].
  - right. rewrite <- (reverse_involutive (calls new1)), Hcalls.
    apply elem_of_reverse. by left.
  - left. by eapply IH.
Qed.

End Valid.

(** A completed [downloadAssets] leaves the files of its calls correct. *)
Lemma downloadAssets_valid
    (E : Env) (L : Lib) (minecraftVersions : list string)
    (assetsFolder : string) (w w' : World) (new : list event) :
  downloadAssets E L minecraftVersions assetsFolder w = (Fulfilled tt, w') →
  log w' = new ++ log w →
  consistent (calls new) = true →
  (∀ t, t ∈ calls new → correct L (files w') t) ∧
  (∀ indices wr,
     exec E (getAssetIndices L minecraftVersions)
       (record (EvInfo (InfoDownloading minecraftVersions)) w)
     = (Fulfilled indices, wr) →
     ∀ a, a ∈ Object_values indices →
          indexTarget L assetsFolder a ∈ calls new).
Proof.
  intros Hrun Hlog Hcons. unfold downloadAssets in Hrun.
  set (info0 := EvInfo (InfoDownloading minecraftVersions)) in *.
  destruct (exec E (getAssetIndices L minecraftVersions) (record info0 w))
    as [[idx|e] wa] eqn:Hresolve; [|done].
  destruct (getAssetIndices_run E L _ _ _ _ Hresolve)
    as (HfA & evsA & HlogA & HfetchA).
  set (ids := EvInfo (InfoIndexIds (Object_keys idx))) in *.
  destruct (syncIndices E L assetsFolder (Object_values idx) (record ids wa))
    as [[[]|e] wb] eqn:Hsync; [|done].
  destruct (syncIndices_surfaces E L _ _ _ _ _ Hsync) as (newS & HlogS & _).
  destruct (exec E (getFolderSize assetsFolder) wb) as [[total|e] wc] eqn:Hsz;
    [|done].
  injection Hrun as <-.
  assert (Hfc : files wc = files wb ∧
                log wc = EvIo (IoFolderSize assetsFolder) :: log wb).
  { unfold getFolderSize, await in Hsz. cbn [exec] in Hsz.
    destruct (perform E (IoFolderSize assetsFolder) wb) as [r1 w1] eqn:Hp.
    pose proof (perform_files E (IoFolderSize assetsFolder) wb eq_refl) as Hf.
    pose proof (perform_log E (IoFolderSize assetsFolder) wb) as Hl.
    rewrite Hp in Hf, Hl. simpl in Hf, Hl.
    destruct r1; simpl in Hsz; by simplify_eq. }
  destruct Hfc as [Hfc Hlc].
  assert (HcallsA : calls evsA = []).
  { apply io_no_calls. eapply Forall_impl; [exact HfetchA|].
    by intros [[]| | |]. }
  assert (Hnew : calls new = calls newS).
  { simpl in Hlog, HlogS, HlogA. rewrite Hlc, HlogS, HlogA in Hlog.
    replace (EvInfo (InfoOverallSize total)
               :: EvIo (IoFolderSize assetsFolder)
               :: newS ++ ids :: evsA ++ info0 :: log w)
      with ((EvInfo (InfoOverallSize total)
               :: EvIo (IoFolderSize assetsFolder)
               :: newS ++ ids :: evsA ++ [info0]) ++ log w) in Hlog
      by (simpl; rewrite <- !app_assoc; simpl; by rewrite <- app_assoc).
    apply app_inv_tail in Hlog as <-. simpl.
    rewrite calls_app. simpl. rewrite calls_app, HcallsA. simpl.
    by rewrite app_nil_r. }
  split.
  - intros t Ht. change (files (record _ wc)) with (files wc). rewrite Hfc.
    apply (syncIndices_valid E L assetsFolder _ [] _ _ _ Hsync HlogS).
    + simpl. rewrite <- Hnew. by apply consistent_agree.
    + by intros t' ?%elem_of_nil.
    + simpl. by rewrite <- Hnew.
  - intros indices wr [= <- _] a Ha. rewrite Hnew.
    by eapply (syncIndices_index_calls E L assetsFolder _ _ _ _ Hsync HlogS).
Qed.

(** When [downloadAssets] completes, in whatever environment, every file it
    called [downloadIfChanged] for is on disk with the expected size and
    checksum, provided the calls of the run that share a path expect the
    same file; and it has called for the document of every asset index the
    resolution returned. *)
Theorem downloadAssets_leaves_files_correct
    (E : Env) (L : Lib) (minecraftVersions : list string)
    (assetsFolder : string) (w w' : World) (new : list event) :
  downloadAssets E L minecraftVersions assetsFolder w = (Fulfilled tt, w') →
  log w' = new ++ log w →
  consistent (calls new) = true →
  (∀ t, t ∈ calls new → correct L (files w') t) ∧
  (∀ indices wr,
     exec E (getAssetIndices L minecraftVersions)
       (record (EvInfo (InfoDownloading minecraftVersions)) w)
     = (Fulfilled indices, wr) →
     ∀ a, a ∈ Object_values indices →
          indexTarget L assetsFolder a ∈ calls new).
Proof. apply downloadAssets_valid. Qed.

(** On the concrete origin: after the run for v7 and v8 the index document
    and the two objects are on disk, each with its expected size and
    checksum. *)
Lemma downloadAssets_leaves_files_correct_witness :
  downloadAssets Example.origin Example.lib ["v7"; "v8"] "assets"
    Example.empty_world = Example.first_run ∧
  correct Example.lib (files Example.first_run.2)
    (indexTarget Example.lib "assets" Example.index9) ∧
  correct Example.lib (files Example.first_run.2)
    (objectTarget Example.lib "assets" {| hash := "2"; size := 1 |}).
Proof.
  assert (H1 : downloadAssets Example.origin Example.lib ["v7"; "v8"] "assets"
                 Example.empty_world = (Fulfilled tt, Example.first_run.2))
    by (vm_compute; reflexivity).
  split; [vm_compute; reflexivity|].
  destruct (downloadAssets_leaves_files_correct Example.origin Example.lib
              ["v7"; "v8"] "assets" Example.empty_world Example.first_run.2
              (log Example.first_run.2) H1) as [Hcorrect _].
  - exact (eq_sym (app_nil_r _)).
  - vm_compute. reflexivity.
  - split; apply Hcorrect.
    + apply (list_elem_of_lookup_2 _ 2%nat). vm_compute. reflexivity.
    + apply (list_elem_of_lookup_2 _ 0%nat). vm_compute. reflexivity.
Defined.

(** ** The operations of the calls of an asset index *)

(** Membership in a list that is spelled out. *)
Ltac members H :=
  repeat (apply elem_of_cons in H as [H|H]; [try discriminate H|]);
  try (by apply elem_of_nil in H).

Section Stages.
Context (L : Lib) (t : target).

Lemma fetchLoop_follows (K : option string * option bytes → prog bool) n :
  (∀ le buf, follows t Requested (K (le, buf))) →
  ∀ st le buf,
    st = Requested ∨ (st = Probed ∧ (0 < n)%nat) →
    follows t st
      (bind (fetchLoop L (t_url t) (t_method t) (t_checksum t) (t_size t)
               n le buf) K).
Proof.
  intros HK. induction n as [|n IH]; intros st le buf Hst.
  - simpl. destruct Hst as [->|[_ ?]]; [apply HK|lia].
  - simpl. split.
    { split; [done|]. destruct Hst as [->|[-> _]]; tauto. }
    intros r.
    assert (Hnext : ∀ reason buf',
      follows t Requested
        (Await (IoSleep 2000) (λ r0 : settled (),
           bind (bind match r0 with
                      | Fulfilled v => Ret v
                      | Rejected e => Throw e
                      end
                   (λ _, fetchLoop L (t_url t) (t_method t) (t_checksum t)
                           (t_size t) n (Some reason) buf')) K))).
    { intros reason buf'. split; [done|]. intros [[]|e]; simpl; [|done].
      apply IH. by left. }
    destruct r as [res|e]; simpl; [|done].
    destruct (ok res); simpl.
    + destruct (body res) as [b|e]; simpl; [|done].
      destruct (Z.of_nat (length b) =? t_size t); simpl.
      * destruct (digest L (t_method t) b =? t_checksum t)%string; simpl.
        -- apply HK.
        -- apply Hnext.
      * apply Hnext.
    + apply Hnext.
Qed.

(** Every call follows the order of the source, from its start. *)
Lemma call_follows : follows t Started (call L t).
Proof.
  assert (Hdl : follows t Probed
                  (fetchAndWrite L (t_path t) (t_url t) (t_method t)
                     (t_checksum t) (t_size t))).
  { unfold fetchAndWrite. apply fetchLoop_follows.
    - intros le buf. simpl. destruct (truthy le); [done|]. simpl.
      split; [done|]. intros [[]|e]; simpl; [|done].
      destruct buf as [b|]; simpl; [|done].
      split; [done|]. intros [[]|e]; simpl; done.
    - right. split; [done|]. unfold maxDownloadRetries. lia. }
  unfold call, downloadIfChanged.
  set (dl := fetchAndWrite _ _ _ _ _ _) in *. clearbody dl.
  unfold probeLocal, statOrUndefined. simpl.
  split; [done|]. intros [sz|e]; simpl.
  - destruct (sz =? t_size t); simpl; [|exact Hdl].
    split; [done|]. intros [data|e]; simpl; [|done].
    destruct (digest L (t_method t) data =? t_checksum t)%string; simpl;
      [done|exact Hdl].
  - destruct (decide (code e = Some "ENOENT")); simpl; [exact Hdl|done].
Qed.

End Stages.

Section Operations.
Context (E : Env) (L : Lib).

Lemma op_at_counts t st op :
  op_at t st op →
  ((if is_stat_of (t_path t) (EvIo op) then 1 else 0) + stats_at st
   = stats_at (stage_after op))%nat ∧
  ((if is_write_to (t_path t) (EvIo op) then 1 else 0) + writes_at st
   = writes_at (stage_after op))%nat ∧
  (has_requested (stage_after op) = true →
   has_requested st = true ∨ op = IoFetch (t_url t)) ∧
  (∀ path, is_stat_of path (EvIo op) = true ∨ is_write_to path (EvIo op) = true →
           path = t_path t).
Proof.
  destruct op; simpl; try done.
  - intros [-> ->]. rewrite bool_decide_true by done. split_and!; try done.
    intros path' [?%bool_decide_eq_true|?]; done.
  - intros [-> ->]. split_and!; try done. by intros path' [?|?].
  - intros [-> [-> | ->]]; split_and!; try done; try (by right);
      by intros path' [?|?].
  - intros ->. split_and!; try done; [by left|]. by intros path' [?|?].
  - intros ->. split_and!; try done; [by left|]. by intros path' [?|?].
  - intros [-> ->]. rewrite bool_decide_true by done. split_and!; try done.
    + by left.
    + intros path' [?|?%bool_decide_eq_true]; done.
Qed.

Lemma count_cons f ev h :
  count f (ev :: h) = ((if f ev then 1 else 0) + count f h)%nat.
Proof. done. Qed.

(** The turns of a batch whose calls are on distinct paths: each call has
    made the requests of its stage, on its own path, and has settled once
    when it is no longer suspended. *)
Lemma pool_steps_operations pool w pool' w' :
  rtc (pool_step E) (pool, w) (pool', w') →
  (∀ i t p, pool !! i = Some (t, p) → p = call L t) →
  NoDup (t_path <$> pool.*1) →
  pool'.*1 = pool.*1 ∧
  ∃ evs, log w' = evs ++ log w ∧
    (∀ (j : nat) t p, pool' !! j = Some (t, p) →
       ∃ st, follows t st p ∧
         count (is_stat_of (t_path t)) evs = stats_at st ∧
         count (is_write_to (t_path t)) evs = writes_at st ∧
         (has_requested st = true → EvIo (IoFetch (t_url t)) ∈ evs) ∧
         count (is_settle_of t) evs = (if is_pending p then 0 else 1)%nat ∧
         (∀ b, p = Ret b → EvSettle t (Fulfilled b) ∈ evs)) ∧
    (∀ path, path ∉ t_path <$> pool.*1 →
       count (is_stat_of path) evs = 0%nat ∧
       count (is_write_to path) evs = 0%nat) ∧
    (∀ t, t ∉ pool.*1 → count (is_settle_of t) evs = 0%nat) ∧
    (∀ t, count (is_call_of t) evs = 0%nat).
Proof.
  intros Hrtc Hinit Hnd.
  refine (pool_steps_ind E (λ pl wl,
    pl.*1 = pool.*1 ∧
    ∃ evs, log wl = evs ++ log w ∧
      (∀ (j : nat) t p, pl !! j = Some (t, p) →
         ∃ st, follows t st p ∧
           count (is_stat_of (t_path t)) evs = stats_at st ∧
           count (is_write_to (t_path t)) evs = writes_at st ∧
           (has_requested st = true → EvIo (IoFetch (t_url t)) ∈ evs) ∧
           count (is_settle_of t) evs = (if is_pending p then 0 else 1)%nat ∧
           (∀ b, p = Ret b → EvSettle t (Fulfilled b) ∈ evs)) ∧
      (∀ path, path ∉ t_path <$> pool.*1 →
         count (is_stat_of path) evs = 0%nat ∧
         count (is_write_to path) evs = 0%nat) ∧
      (∀ t, t ∉ pool.*1 → count (is_settle_of t) evs = 0%nat) ∧
      (∀ t, count (is_call_of t) evs = 0%nat))
    _ pool w pool' w' Hrtc _).
  - clear Hrtc Hinit pool' w'.
    intros pl wl i t p p' wl' _ (Hts & evs & Hlog & Hslots & Hout & Hnone & Hnc)
      Hi Hpend Hres.
    destruct p as [| |op k]; try done. simpl in Hres.
    destruct (perform E op wl) as [r wl1] eqn:Hperf.
    injection Hres as <- <-.
    assert (Hlog1 : log wl1 = EvIo op :: evs ++ log w).
    { by rewrite <- Hlog, <- (perform_log E op wl), Hperf. }
    destruct (Hslots _ _ _ Hi) as (st & [Hop Hk] & Hst & Hwr & Hreq & _ & _).
    destruct (op_at_counts t st op Hop) as (Hst' & Hwr' & Hreq' & Hpath).
    assert (Hin : t ∈ pool.*1).
    { rewrite <- Hts. apply list_elem_of_fmap. exists (t, Await op k).
      split; [done|]. by eapply list_elem_of_lookup_2. }
    assert (Hti : pool.*1 !! i = Some t).
    { by rewrite <- Hts, list_lookup_fmap, Hi. }
    assert (Hts' : (<[i:=(t, k r)]> pl).*1 = pool.*1).
    { rewrite list_fmap_insert. simpl. rewrite <- Hts. apply list_insert_id.
      by rewrite list_lookup_fmap, Hi. }
    split; [done|].
    set (sev := match k r with
                | Ret b => [EvSettle t (Fulfilled b)]
                | Throw e => [EvSettle t (Rejected e)]
                | Await _ _ => []
                end).
    assert (Hlog' : log (settle t (k r) wl1) = (sev ++ EvIo op :: evs) ++ log w).
    { unfold sev. destruct (k r); simpl; by rewrite Hlog1. }
    assert (Hio : ∀ f, (∀ t0 r0, f (EvSettle t0 r0) = false) →
      count f (sev ++ EvIo op :: evs)
      = ((if f (EvIo op) then 1 else 0) + count f evs)%nat).
    { intros f Hf. rewrite count_app, count_cons.
      assert (count f sev = 0%nat) as ->; [|done].
      unfold sev. destruct (k r); simpl; by rewrite ?Hf. }
    assert (Hset : ∀ t0,
      count (is_settle_of t0) (sev ++ EvIo op :: evs)
      = ((if bool_decide (t = t0) then (if is_pending (k r) then 0 else 1) else 0)
         + count (is_settle_of t0) evs)%nat).
    { intros t0. rewrite count_app, count_cons. simpl.
      unfold sev. destruct (k r); simpl; case_bool_decide; lia. }
    exists (sev ++ EvIo op :: evs). split; [done|]. split_and!.
    + intros j tj pj Hj. destruct (decide (j = i)) as [->|Hne].
      * rewrite list_lookup_insert_eq in Hj by (by eapply lookup_lt_Some).
        injection Hj as <- <-. exists (stage_after op). split_and!.
        -- apply Hk.
        -- rewrite Hio by done. lia.
        -- rewrite Hio by done. lia.
        -- intros Hr. apply elem_of_app. right.
           destruct (Hreq' Hr) as [Hold| ->]; [right; by apply Hreq|by left].
        -- rewrite Hset, bool_decide_true by done.
           destruct (Hslots _ _ _ Hi) as (_ & _ & _ & _ & _ & Hs0 & _).
           simpl in Hs0. lia.
        -- intros b Hb. apply elem_of_app. left. unfold sev. rewrite Hb.
           by left.
      * rewrite list_lookup_insert_ne in Hj by done.
        destruct (Hslots _ _ _ Hj) as (stj & Hfj & Hstj & Hwrj & Hreqj & Hsj & Hbj).
        assert (Hpj : t_path tj ≠ t_path t).
        { intros Heq. apply Hne.
          eapply (NoDup_lookup _ j i (t_path t) Hnd).
          - rewrite list_lookup_fmap, <- Hts, list_lookup_fmap, Hj. simpl.
            by rewrite Heq.
          - by rewrite list_lookup_fmap, Hti. }
        assert (Htj : t ≠ tj) by (by intros ->).
        exists stj. split_and!; try done.
        -- rewrite Hio by done.
           destruct (is_stat_of (t_path tj) (EvIo op)) eqn:Hs; [|done].
           destruct Hpj. apply Hpath. by left.
        -- rewrite Hio by done.
           destruct (is_write_to (t_path tj) (EvIo op)) eqn:Hs; [|done].
           destruct Hpj. apply Hpath. by right.
        -- intros Hr. apply elem_of_app. right. right. by apply Hreqj.
        -- rewrite Hset, bool_decide_false by done. done.
        -- intros b Hb. apply elem_of_app. right. right. by apply Hbj.
    + intros path Hpathout. rewrite !Hio by done.
      destruct (Hout path Hpathout) as [-> ->].
      assert (path ≠ t_path t).
      { intros ->. apply Hpathout. by apply list_elem_of_fmap_2. }
      split.
      * destruct (is_stat_of path (EvIo op)) eqn:Hs; [|done].
        exfalso. apply H. apply Hpath. by left.
      * destruct (is_write_to path (EvIo op)) eqn:Hs; [|done].
        exfalso. apply H. apply Hpath. by right.
    + intros t0 Ht0. rewrite Hset, (Hnone t0 Ht0).
      rewrite bool_decide_false; [done|]. by intros ->.
    + intros t0. rewrite count_app, count_cons, Hnc. simpl.
      unfold sev. by destruct (k r).
  - split; [done|]. exists []. split_and!; try done.
    intros j t p Hj. rewrite (Hinit _ _ _ Hj). exists Started.
    split_and!; try done. apply call_follows.
Qed.

End Operations.

Section Composition.
Context (E : Env) (L : Lib).

Lemma NoDup_fmap_eq {A B} (f : A → B) (l : list A) x y :
  NoDup (f <$> l) → x ∈ l → y ∈ l → f x = f y → x = y.
Proof.
  intros Hnd [i Hi]%list_elem_of_lookup_1 [j Hj]%list_elem_of_lookup_1 Heq.
  assert (i = j) as ->.
  { eapply (NoDup_lookup _ i j (f x) Hnd).
    - by rewrite list_lookup_fmap, Hi.
    - rewrite list_lookup_fmap, Hj. simpl. by rewrite Heq. }
  congruence.
Qed.

Lemma count_zero f h : (∀ ev, ev ∈ h → f ev = false) → count f h = 0%nat.
Proof.
  induction h as [|ev h IH]; [done|]. intros Hall. simpl.
  rewrite (Hall ev) by (by left). rewrite IH; [done|].
  intros ev' ?. apply Hall. by right.
Qed.

Lemma count_call_launch t ts :
  NoDup ts →
  count (is_call_of t) (reverse (EvCall <$> ts))
  = (if bool_decide (t ∈ ts) then 1 else 0)%nat.
Proof.
  induction ts as [|t' ts IH]; [done|]. intros [Hnin Hnd]%NoDup_cons.
  rewrite fmap_cons, reverse_cons, count_app, (IH Hnd). simpl.
  destruct (decide (t' = t)) as [->|Hne].
  - rewrite (bool_decide_true (t = t)) by done.
    rewrite (bool_decide_false (t ∈ ts)) by done.
    rewrite (bool_decide_true (t ∈ t :: ts)) by (by left). done.
  - rewrite (bool_decide_false (t' = t)) by done.
    destruct (decide (t ∈ ts)) as [Hin|Hnin'].
    + rewrite !bool_decide_true; [done|by right|done].
    + rewrite !bool_decide_false; [done| |done].
      intros [->|?]%elem_of_cons; done.
Qed.

Lemma operations_nil new :
  (∀ ev, ev ∈ new → match ev with
                     | EvInfo _ | EvIo (IoReadFile _) | EvIo (IoFolderSize _) => True
                     | _ => False
                     end) →
  operations [] new.
Proof.
  intros Hall. split_and!.
  - by intros t ?%elem_of_nil.
  - intros path _. split; apply count_zero; intros ev Hev;
      specialize (Hall ev Hev); by destruct ev as [[]| | |].
  - intros t _. split; apply count_zero; intros ev Hev;
      specialize (Hall ev Hev); by destruct ev as [[]| | |].
Qed.

Lemma operated_app_l t b new1 new2 ts2 :
  operated t b new1 → operations ts2 new2 →
  t ∉ ts2 → t_path t ∉ t_path <$> ts2 →
  operated t b (new2 ++ new1).
Proof.
  intros (Hc & Hs & Hin & Hst & Hwr & Hf) (_ & Hout & Hnone) Ht Hp.
  destruct (Hout _ Hp) as [Hst2 Hwr2]. destruct (Hnone _ Ht) as [Hc2 Hs2].
  unfold operated. rewrite !count_app, Hc, Hs, Hst, Hwr, Hc2, Hs2, Hst2, Hwr2.
  split_and!; try done.
  - apply elem_of_app. by right.
  - intros Hb. apply elem_of_app. right. by apply Hf.
Qed.

Lemma operated_app_r t b new1 new2 ts1 :
  operated t b new2 → operations ts1 new1 →
  t ∉ ts1 → t_path t ∉ t_path <$> ts1 →
  operated t b (new2 ++ new1).
Proof.
  intros (Hc & Hs & Hin & Hst & Hwr & Hf) (_ & Hout & Hnone) Ht Hp.
  destruct (Hout _ Hp) as [Hst2 Hwr2]. destruct (Hnone _ Ht) as [Hc2 Hs2].
  unfold operated. rewrite !count_app, Hc, Hs, Hst, Hwr, Hc2, Hs2, Hst2, Hwr2.
  split_and!; try done; try lia; try (destruct b; lia).
  - apply elem_of_app. by left.
  - intros Hb. apply elem_of_app. left. by apply Hf.
Qed.

(** The operations of two stretches of a run on distinct paths. *)
Lemma operations_app ts1 ts2 new1 new2 :
  NoDup (t_path <$> (ts1 ++ ts2)) →
  operations ts1 new1 → operations ts2 new2 →
  operations (ts1 ++ ts2) (new2 ++ new1).
Proof.
  intros Hnd H1 H2. rewrite fmap_app in Hnd.
  apply NoDup_app in Hnd as (Hnd1 & Hdisj & Hnd2).
  pose proof H1 as (Hop1 & Hout1 & Hnone1).
  pose proof H2 as (Hop2 & Hout2 & Hnone2).
  split_and!.
  - intros t [Ht|Ht]%elem_of_app.
    + destruct (Hop1 t Ht) as [b Hb]. exists b.
      assert (Hp : t_path t ∉ t_path <$> ts2).
      { apply Hdisj. by apply list_elem_of_fmap_2. }
      apply (operated_app_l t b new1 new2 ts2); try done.
      intros Hin. apply Hp. by apply list_elem_of_fmap_2.
    + destruct (Hop2 t Ht) as [b Hb]. exists b.
      assert (Hp : t_path t ∉ t_path <$> ts1).
      { intros Hin. by apply (Hdisj _ Hin), list_elem_of_fmap_2. }
      apply (operated_app_r t b new1 new2 ts1); try done.
      intros Hin. apply Hp. by apply list_elem_of_fmap_2.
  - intros path Hp. rewrite fmap_app in Hp. rewrite !count_app.
    destruct (Hout1 path) as [-> ->];
      [intros ?; apply Hp, elem_of_app; by left|].
    destruct (Hout2 path) as [-> ->];
      [intros ?; apply Hp, elem_of_app; by right|].
    done.
  - intros t Ht. rewrite !count_app.
    destruct (Hnone1 t) as [-> ->];
      [intros ?; apply Ht, elem_of_app; by left|].
    destruct (Hnone2 t) as [-> ->];
      [intros ?; apply Ht, elem_of_app; by right|].
    done.
Qed.

(** What the turns of the launched calls [ts] leave once each has
    returned. *)
Lemma launched_operations ts w pool' w' bs :
  rtc (pool_step E)
    (map (λ t, (t, call L t)) ts, foldl (λ w t, record (EvCall t) w) w ts)
    (pool', w') →
  pool'.*2 = Ret <$> bs →
  NoDup (t_path <$> ts) →
  ∃ new, log w' = new ++ log w ∧ operations ts new ∧
    ∀ (j : nat) t b, ts !! j = Some t → bs !! j = Some b → operated t b new.
Proof.
  intros Hsteps Hset Hnd.
  assert (Hndt : NoDup ts) by (by apply NoDup_fmap_1 in Hnd).
  apply (pool_steps_operations E L) in Hsteps
    as (Hts & evs & Hlog & Hslots & Hout & Hnone & Hnc).
  2:{ by intros i t p [t' [[= -> ->] _]]%list_lookup_fmap_Some. }
  2:{ by rewrite launched_targets. }
  rewrite launched_targets in Hts, Hout, Hnone.
  exists (evs ++ reverse (EvCall <$> ts)).
  assert (Hlaunch : ∀ f, (∀ t, f (EvCall t) = false) →
            count f (reverse (EvCall <$> ts)) = 0%nat).
  { intros f Hf. apply count_zero. intros ev Hev.
    apply elem_of_reverse, list_elem_of_fmap in Hev as (t & -> & _). apply Hf. }
  assert (Hone : ∀ (j : nat) t b, ts !! j = Some t → bs !! j = Some b →
                   operated t b (evs ++ reverse (EvCall <$> ts))).
  { intros j t b Hj Hb.
    assert (Hpj : pool' !! j = Some (t, Ret b)).
    { pose proof (f_equal (λ l, l !! j) Hts) as H1. cbv beta in H1.
      rewrite list_lookup_fmap, Hj in H1.
      pose proof (f_equal (λ l, l !! j) Hset) as H2. cbv beta in H2.
      rewrite !list_lookup_fmap, Hb in H2.
      destruct (pool' !! j) as [[t' p']|]; [|done].
      simpl in *. congruence. }
    destruct (Hslots _ _ _ Hpj) as (st & Hf & Hst & Hwr & Hreq & Hs & Hin).
    simpl in Hf, Hs. unfold operated. rewrite !count_app.
    rewrite count_call_launch, bool_decide_true, Hnc
      by (done || by eapply list_elem_of_lookup_2).
    rewrite !Hlaunch by done. rewrite Hs, Hst, Hwr.
    split_and!; try done.
    - apply elem_of_app. left. by apply Hin.
    - by destruct b; subst st.
    - by destruct b; subst st.
    - intros ->. subst st. apply elem_of_app. left. by apply Hreq. }
  split; [by rewrite Hlog, launch_log, app_assoc|]. split; [|exact Hone].
  split_and!.
  - intros t [j Hj]%list_elem_of_lookup_1.
    assert (Hlen : length bs = length ts).
    { apply (f_equal length) in Hset, Hts. rewrite length_fmap in Hts.
      rewrite !length_fmap in Hset. lia. }
    destruct (lookup_lt_is_Some_2 bs j) as [b Hb].
    { rewrite Hlen. by eapply lookup_lt_Some. }
    exists b. by eapply Hone.
  - intros path Hp. rewrite !count_app, !Hlaunch by done.
    destruct (Hout path Hp) as [-> ->]. done.
  - intros t Ht. rewrite !count_app, Hnc, (Hnone t Ht).
    rewrite count_call_launch, bool_decide_false by done.
    by rewrite Hlaunch.
Qed.

Lemma promiseAll_operations ts w bs w' :
  promiseAll E L ts w = (Fulfilled bs, w') →
  NoDup (t_path <$> ts) →
  ∃ new, log w' = new ++ log w ∧ operations ts new.
Proof.
  intros Hrun Hnd.
  destruct (promiseAll_steps _ _ _ _ _ _ Hrun) as (pool' & Hsteps & _ & _ & Hset).
  destruct (launched_operations ts w pool' w' bs Hsteps Hset Hnd)
    as (new & Hlog & Hops & _).
  by exists new.
Qed.

Lemma awaitCall_operations t w b w' :
  awaitCall E L t w = (Fulfilled b, w') →
  ∃ new, log w' = new ++ log w ∧ operations [t] new ∧ operated t b new.
Proof.
  unfold awaitCall.
  destruct (exec E (call L t) _) as [r1 w1] eqn:Hexec. intros [= -> <-].
  apply (exec_pool_steps E _ [(t, call L t)] _ 0%nat t) in Hexec;
    [|by repeat constructor|done|done].
  destruct (launched_operations [t] w _ _ [b] Hexec eq_refl)
    as (new & Hlog & Hops & Hone); [apply NoDup_singleton|].
  exists new. split_and!; try done. by apply (Hone 0%nat).
Qed.

Lemma chunks_run_operations assetsFolder objects i d w r w' :
  chunks_run E L assetsFolder objects i d w r w' →
  is_fulfilled r = true →
  NoDup (t_path <$> (objectTarget L assetsFolder <$> drop i objects)) →
  ∃ new, log w' = new ++ log w ∧
    operations (objectTarget L assetsFolder <$> drop i objects) new.
Proof.
  induction 1 as [i d w Hi|i d w e w' Hi Hall|i d w bs w1 r w' Hi Hall Hrest IH];
    intros Hful Hnd.
  - exists []. split; [done|]. rewrite drop_ge by done.
    apply operations_nil. by intros ev ?%elem_of_nil.
  - done.
  - rewrite slice_take_drop in Hall.
    set (chunk := take maxConcurrency (drop i objects)) in *.
    assert (Hsplit : drop i objects = chunk ++ drop (i + maxConcurrency) objects).
    { unfold chunk. rewrite <- drop_drop. symmetry. apply take_drop. }
    change (map (objectTarget L assetsFolder) chunk)
      with (objectTarget L assetsFolder <$> chunk) in Hall.
    rewrite Hsplit, fmap_app in Hnd |- *.
    pose proof Hnd as Hnd'. rewrite fmap_app in Hnd'.
    apply NoDup_app in Hnd' as (Hnd1 & _ & Hnd2).
    apply promiseAll_operations in Hall as (new1 & Hlog1 & Hops1); [|done].
    destruct (IH Hful Hnd2) as (new2 & Hlog2 & Hops2).
    exists (new2 ++ new1). split; [by rewrite Hlog2, Hlog1, app_assoc|].
    by apply operations_app.
Qed.

End Composition.

Section IndexOperations.
Context (E : Env) (L : Lib).

Lemma operations_equiv ts ts' new :
  (∀ t, t ∈ ts ↔ t ∈ ts') → operations ts new → operations ts' new.
Proof.
  intros Heq (Hop & Hout & Hnone). split_and!.
  - intros t Ht. apply Hop. by apply Heq.
  - intros path Hp. apply Hout. intros (t & -> & Ht)%list_elem_of_fmap.
    apply Hp. apply list_elem_of_fmap_2. by apply Heq.
  - intros t Ht. apply Hnone. intros Hin. by apply Ht, Heq.
Qed.

(** The calls of an asset index that completes, when they are for distinct
    paths: each of them, the call for the document and the calls for the
    objects, operated once. *)
Lemma syncIndex_operations assetsFolder assetIndex w w' new :
  syncIndex E L assetsFolder assetIndex w = (Fulfilled tt, w') →
  log w' = new ++ log w →
  NoDup (t_path <$> calls new) →
  operations (calls new) new.
Proof.
  intros Hrun Hlog Hnd.
  destruct (syncIndex_calls E L _ _ _ _ _ Hrun)
    as (new0 & started & Hlog0 & Hcalls & _ & _ & Hfull).
  rewrite Hlog in Hlog0. apply app_inv_tail in Hlog0. subst new0.
  destruct (Hfull eq_refl)
    as (members & (b & w1 & text & w2 & Hcall & Hread & Hjson) & ->).
  set (T := indexTarget L assetsFolder assetIndex) in *.
  set (objects := dedupe members) in *.
  assert (Hts : calls new = reverse (T :: (objectTarget L assetsFolder <$> objects))).
  { by rewrite <- Hcalls, reverse_involutive. }
  unfold syncIndex in Hrun. fold T in Hrun. rewrite Hcall, Hread, Hjson in Hrun.
  fold objects in Hrun.
  destruct (downloadChunks E L _ _ _ _ _ _) as [[n|e] w3] eqn:Hchunks; [|done].
  injection Hrun as <-.
  apply downloadChunks_run in Hchunks; [|unfold maxConcurrency; lia].
  assert (Hnd' : NoDup (t_path <$> ([T] ++ (objectTarget L assetsFolder <$> objects)))).
  { by rewrite Hts, fmap_reverse, reverse_Permutation in Hnd. }
  pose proof Hnd' as Hnd2. rewrite fmap_app in Hnd2.
  apply NoDup_app in Hnd2 as (_ & _ & Hnd2).
  apply awaitCall_operations in Hcall as (newA & HlogA & HopsA & _).
  pose proof (perform_log E (IoReadFile (t_path T)) w1) as HlogR.
  rewrite Hread in HlogR. simpl in HlogR.
  apply (chunks_run_operations E L) in Hchunks as (newC & HlogC & HopsC);
    [|done|by rewrite drop_0].
  rewrite drop_0 in HopsC. cbn [log record] in HlogC, Hlog.
  set (info1 := EvInfo (InfoUpdating (length objects) (ai_id assetIndex))) in *.
  set (info2 := EvInfo (InfoDownloaded n (Z.of_nat (length objects) - n))) in *.
  assert (Hnew : new = [info2] ++ newC ++ [info1; EvIo (IoReadFile (t_path T))]
                       ++ newA).
  { apply (app_inv_tail (log w)). rewrite <- Hlog, HlogC, HlogR, HlogA.
    repeat first [progress simpl | rewrite <- app_assoc]; reflexivity. }
  assert (Hn1 : operations [] [info1; EvIo (IoReadFile (t_path T))]).
  { apply operations_nil. intros ev Hev.
    repeat (apply elem_of_cons in Hev as [->|Hev]; [done|]).
    by apply elem_of_nil in Hev. }
  assert (Hn2 : operations [] [info2]).
  { apply operations_nil. intros ev Hev.
    repeat (apply elem_of_cons in Hev as [->|Hev]; [done|]).
    by apply elem_of_nil in Hev. }
  pose proof (operations_app [T] [] _ _ ltac:(by rewrite app_nil_r; apply NoDup_singleton)
                HopsA Hn1) as H1.
  rewrite app_nil_r in H1.
  pose proof (operations_app [T] _ _ _ Hnd' H1 HopsC) as H2.
  pose proof (operations_app
                ([T] ++ (objectTarget L assetsFolder <$> objects)) [] _ _
                ltac:(by rewrite app_nil_r) H2 Hn2) as H3.
  rewrite app_nil_r in H3.
  apply (operations_equiv ([T] ++ (objectTarget L assetsFolder <$> objects))).
  - intros t. rewrite Hts, elem_of_reverse. done.
  - rewrite Hnew. exact H3.
Qed.

End IndexOperations.

Lemma NoDup_agree ts : NoDup (t_path <$> ts) → agree ts.
Proof.
  intros Hnd t t' Ht Ht' Hpath.
  by rewrite (NoDup_fmap_eq t_path ts t t' Hnd Ht Ht' Hpath).
Qed.

(** ** Claim C3 *)

(** C3.  For every asset index, when its manifest has been parsed
    ([manifest_of]) the objects the chunk loop works on are [dedupe
    members]: it is computed from the parsed objects alone (the logical
    paths they were listed under play no part), its elements are parsed
    objects, and for every parsed object it contains exactly one object of
    the same hash.  The [downloadIfChanged] calls of the index are, in
    order, the call for the index document and one call for each of these
    objects (all of them when the index completes), so one call per hash;
    the file of an object is [objects/<first two characters of the
    hash>/<hash>] under the assets folder, with the hash as expected SHA-1
    and the size of the object as expected size.  Every write of the run is
    made by one of these calls, to the path of the call and with bytes of
    the expected size and digest; a call writes at most once; and when the
    index completes the number of writes to a path is the number of calls on
    that path that returned [true].  When moreover the calls of the index
    are for pairwise distinct paths, each object of the list was operated on
    once ([operated]): its call was started once and settled once, with some
    result [b]; its path was probed by one [stat]; when [b] is [true] its
    URL was requested and its path was written exactly once, when [b] is
    [false] its path was not written at all; and at the end its file has the
    expected size and digest. *)
Theorem C3_one_call_per_hash
    (E : Env) (L : Lib) (assetsFolder : string) (assetIndex : AssetIndex)
    (w : World) (r : settled unit) (w' : World) :
  syncIndex E L assetsFolder assetIndex w = (r, w') →
  (∀ members,
     let parsed := Object_values (Object_fromEntries members) in
     dedupe members =
       Object_values (Object_fromEntries ((λ o, (hash o, o)) <$> parsed)) ∧
     NoDup (hash <$> dedupe members) ∧
     (∀ o, o ∈ dedupe members → o ∈ parsed) ∧
     (∀ o, o ∈ parsed →
        ∃ o', filter (λ x, hash x = hash o) (dedupe members) = [o'])) ∧
  (∀ o, t_path (objectTarget L assetsFolder o) =
          path_join L [assetsFolder; "objects"; substring 0 2 (hash o); hash o] ∧
        t_method (objectTarget L assetsFolder o) = "sha1" ∧
        t_checksum (objectTarget L assetsFolder o) = hash o ∧
        t_size (objectTarget L assetsFolder o) = size o) ∧
  ∃ new started, log w' = new ++ log w ∧
    reverse (calls new) =
      indexTarget L assetsFolder assetIndex
        :: (objectTarget L assetsFolder <$> started) ∧
    NoDup (hash <$> started) ∧
    (started = [] ∨
     ∃ members, manifest_of E L assetsFolder assetIndex w members ∧
                started `prefix_of` dedupe members) ∧
    (∀ path data, EvIo (IoWriteFile path data) ∈ new →
       ∃ t, t ∈ calls new ∧ path = t_path t ∧ good L t data) ∧
    (∀ path,
       (count (downloaded_to path) new ≤ count (is_write_to path) new)%nat ∧
       (count (is_write_to path) new
        ≤ count (downloaded_to path) new + count (rejected_to path) new)%nat) ∧
    (is_fulfilled r = true →
       (∃ members, manifest_of E L assetsFolder assetIndex w members ∧
                   started = dedupe members) ∧
       (∀ path, count (is_write_to path) new = count (downloaded_to path) new) ∧
       (NoDup (t_path <$> calls new) →
        ∀ o, o ∈ started →
          ∃ b, operated (objectTarget L assetsFolder o) b new ∧
               correct L (files w') (objectTarget L assetsFolder o))).
Proof.
  intros Hrun. split; [|split].
  - intros members parsed.
    destruct (dedupe_spec members) as (Hnd & Hin & Hex). fold parsed in Hin, Hex.
    split_and!; try done.
    intros o Ho. destruct (Hex o Ho) as (o' & Ho' & <-). exists o'.
    by apply filter_unique.
  - done.
  - destruct (syncIndex_surfaces E L _ _ _ _ _ Hrun) as (new0 & Hlog0 & _ & Hnr).
    destruct (syncIndex_calls E L _ _ _ _ _ Hrun)
      as (new & started & Hlog & Hcalls & [Hc Hg] & Hpart & Hfull).
    rewrite Hlog in Hlog0. apply app_inv_tail in Hlog0. subst new0.
    exists new, started. split_and!; try done.
    + destruct Hpart as [->|(members & _ & Hpre)]; [apply NoDup_nil_2|].
      destruct (dedupe_spec members) as (Hnd & _).
      destruct Hpre as [k Hk]. rewrite Hk, fmap_app in Hnd.
      by apply NoDup_app in Hnd as [? _].
    + intros Hful. split; [by apply Hfull|]. split.
      { intros path. destruct (Hc path) as [Hlo Hhi].
        rewrite (count_rejected_to_zero path new) in Hhi by (by apply Hnr).
        lia. }
      intros Hnd o Ho. destruct r as [[]|e]; [|done].
      assert (Hin : objectTarget L assetsFolder o ∈ calls new).
      { rewrite <- (reverse_involutive (calls new)), Hcalls, elem_of_reverse.
        right. by apply list_elem_of_fmap_2. }
      destruct (syncIndex_operations E L _ _ _ _ _ Hrun Hlog Hnd) as (Hops & _).
      destruct (Hops _ Hin) as [b Hb]. exists b. split; [done|].
      apply (syncIndex_valid E L [] _ _ _ _ _ Hrun Hlog);
        [by apply NoDup_agree|by intros t ?%elem_of_nil|done].
Qed.

(** On the concrete origin: the index "9" lists the hashes 1, 2 and 1 under
    three logical paths; two object calls follow the call for the index,
    each of the three files is written once, and the object of hash 1 was
    operated on once: probed, requested, written and left correct. *)
Lemma C3_witness :
  syncIndex Example.origin Example.lib "assets" Example.index9
    Example.empty_world = Example.index9_run ∧
  ∃ new started, log Example.index9_run.2 = new ++ [] ∧
    reverse (calls new) =
      indexTarget Example.lib "assets" Example.index9
        :: (objectTarget Example.lib "assets" <$> started) ∧
    started = dedupe [ ("p0", {| hash := "1"; size := 1 |});
                       ("p1", {| hash := "2"; size := 1 |});
                       ("p2", {| hash := "1"; size := 1 |}) ] ∧
    (∀ path, count (is_write_to path) new = count (downloaded_to path) new) ∧
    operated (objectTarget Example.lib "assets" {| hash := "1"; size := 1 |})
      true new ∧
    correct Example.lib (files Example.index9_run.2)
      (objectTarget Example.lib "assets" {| hash := "1"; size := 1 |}).
Proof.
  assert (H : syncIndex Example.origin Example.lib "assets" Example.index9
                Example.empty_world
              = (Example.index9_run.1, Example.index9_run.2))
    by (vm_compute; reflexivity).
  split; [vm_compute; reflexivity|].
  destruct (C3_one_call_per_hash _ _ _ _ _ _ _ H)
    as (_ & _ & new & started & Hlog & Hcalls & _ & _ & _ & _ & Hfull).
  destruct (Hfull eq_refl) as ((members & Hman & Hstarted) & Hcount & Hops).
  exists new, started. split; [exact Hlog|]. split; [exact Hcalls|].
  rewrite app_nil_r in Hlog. subst new.
  assert (Hst : started = dedupe [ ("p0", {| hash := "1"; size := 1 |});
                                   ("p1", {| hash := "2"; size := 1 |});
                                   ("p2", {| hash := "1"; size := 1 |}) ]).
  { apply (f_equal (λ ts, (λ t, MkAssetObject (t_checksum t) (t_size t))
                            <$> tail ts)) in Hcalls.
    simpl tail in Hcalls. rewrite <- list_fmap_compose in Hcalls.
    rewrite (list_fmap_ext _ id started) in Hcalls by (by intros i []).
    rewrite list_fmap_id in Hcalls. rewrite <- Hcalls. vm_compute. reflexivity. }
  split; [exact Hst|]. split; [exact Hcount|].
  assert (Hnd : NoDup (t_path <$> calls (log Example.index9_run.2))).
  { apply (bool_decide_unpack (NoDup _)). vm_compute. exact I. }
  destruct (Hops Hnd {| hash := "1"; size := 1 |}) as (b & Hop & Hcorrect).
  - rewrite Hst. apply (list_elem_of_lookup_2 _ 0%nat). reflexivity.
  - split; [|exact Hcorrect]. destruct b; [exact Hop|].
    destruct Hop as (_ & _ & Hin & _). vm_compute in Hin.
    members Hin.
Defined.


(** ** The footprint of a run *)

Section RunFootprint.
Context (E : Env) (L : Lib) (assetsFolder : string).

Local Abbreviation footprint := (run_footprint L assetsFolder).

Lemma footprint_nil w : footprint w w [].
Proof.
  split_and!; [done|by intros path _|apply writes_accounted_nil|constructor].
Qed.

Lemma footprint_app w w1 w2 new1 new2 :
  footprint w w1 new1 → footprint w1 w2 new2 → footprint w w2 (new2 ++ new1).
Proof.
  intros (Hl1 & Hf1 & Ha1 & Hc1) (Hl2 & Hf2 & Ha2 & Hc2). split_and!.
  - by rewrite Hl2, Hl1, app_assoc.
  - intros path Hno. rewrite Hf2, Hf1; [done| |].
    + intros data Hin. apply (Hno data), elem_of_app. by right.
    + intros data Hin. apply (Hno data), elem_of_app. by left.
  - by apply writes_accounted_app.
  - rewrite calls_app. by apply Forall_app.
Qed.

(** A message, or a request that is not a write. *)
Lemma footprint_info msg w : footprint w (record (EvInfo msg) w) [EvInfo msg].
Proof.
  split_and!; [done|by intros path _| |constructor].
  apply writes_accounted_other. by repeat constructor.
Qed.

Lemma footprint_perform op w r w1 :
  is_write (EvIo op) = false → perform E op w = (r, w1) →
  footprint w w1 [EvIo op].
Proof.
  intros Hop Hperf. split_and!.
  - simpl. by rewrite <- (perform_log E op w), Hperf.
  - intros path _. by rewrite <- (perform_files E op w Hop), Hperf.
  - apply writes_accounted_other. by repeat constructor.
  - constructor.
Qed.

Lemma footprint_requests {A} (p : prog A) : ∀ w r w',
  only_requests (λ op, is_write (EvIo op) = false) p →
  exec E p w = (r, w') → ∃ new, footprint w w' new ∧ calls new = [].
Proof.
  induction p as [a|e|op k IH]; intros w r w' Hp Hexec; simpl in Hexec.
  - injection Hexec as <- <-. exists []. split; [apply footprint_nil|done].
  - injection Hexec as <- <-. exists []. split; [apply footprint_nil|done].
  - destruct Hp as [Hop Hk].
    destruct (perform E op w) as [r1 w1] eqn:Hperf.
    destruct (IH r1 w1 r w' (Hk r1) Hexec) as (new & Hfp & Hcalls).
    exists (new ++ [EvIo op]). split.
    + eapply footprint_app; [|exact Hfp]. by eapply footprint_perform.
    + rewrite calls_app, Hcalls. done.
Qed.

(** The turns of the event loop change only the files they write. *)
Lemma pool_steps_frame pool w pool' w' :
  rtc (pool_step E) (pool, w) (pool', w') →
  ∃ evs, log w' = evs ++ log w ∧ only_writes_change w w' evs.
Proof.
  intros Hrtc.
  refine (pool_steps_ind E (λ pl wl,
    ∃ evs, log wl = evs ++ log w ∧ only_writes_change w wl evs)
    _ pool w pool' w' Hrtc _).
  - clear. intros pl wl i t p p' wl' _ (evs & Hlog & Hframe) _ Hpend Hres.
    destruct p as [| |op k]; try done. simpl in Hres.
    destruct (perform E op wl) as [r wl1] eqn:Hperf.
    injection Hres as <- <-.
    assert (Hlog1 : log wl1 = EvIo op :: evs ++ log w).
    { by rewrite <- Hlog, <- (perform_log E op wl), Hperf. }
    assert (Hf1 : only_writes_change w wl1 (EvIo op :: evs)).
    { intros path Hno. rewrite <- Hframe.
      - replace wl1 with (perform E op wl).2 by (by rewrite Hperf).
        apply perform_frame. intros data ->. apply (Hno data). by left.
      - intros data Hin. apply (Hno data). by right. }
    destruct (k r) as [b|e|op' k']; simpl.
    + exists (EvSettle t (Fulfilled b) :: EvIo op :: evs).
      split; [by rewrite Hlog1|]. intros path Hno. apply Hf1.
      intros data Hin. apply (Hno data). by right.
    + exists (EvSettle t (Rejected e) :: EvIo op :: evs).
      split; [by rewrite Hlog1|]. intros path Hno. apply Hf1.
      intros data Hin. apply (Hno data). by right.
    + by exists (EvIo op :: evs).
  - exists []. split; [done|]. by intros path _.
Qed.

Lemma launch_frame ts w evs w' :
  log w' = evs ++ log (foldl (λ w t, record (EvCall t) w) w ts) →
  only_writes_change (foldl (λ w t, record (EvCall t) w) w ts) w' evs →
  log w' = (evs ++ reverse (EvCall <$> ts)) ++ log w ∧
  only_writes_change w w' (evs ++ reverse (EvCall <$> ts)).
Proof.
  intros Hlog Hframe. split.
  - by rewrite Hlog, launch_log, app_assoc.
  - intros path Hno. rewrite Hframe, launch_files; [done|].
    intros data Hin. apply (Hno data), elem_of_app. by left.
Qed.

Lemma promiseAll_footprint ts w r w' :
  Forall (is_asset_target L assetsFolder) ts →
  promiseAll E L ts w = (r, w') → ∃ new, footprint w w' new.
Proof.
  intros Hts Hrun.
  destruct (promiseAll_writes E L _ _ _ _ Hrun) as (new & Hlog & Hacc).
  destruct (promiseAll_trace E L _ _ _ _ Hrun) as (evs & Hlog' & Hcalls & _).
  destruct (promiseAll_steps _ _ _ _ _ _ Hrun) as (pool' & Hsteps & _).
  apply pool_steps_frame in Hsteps as (evs' & Hlog'' & Hframe).
  destruct (launch_frame _ _ _ _ Hlog'' Hframe) as [Hl Hf].
  rewrite Hlog in Hl. apply app_inv_tail in Hl. subst new.
  rewrite Hlog, <- app_assoc in Hlog'. apply (inj (.++ _)) in Hlog'.
  exists (evs' ++ reverse (EvCall <$> ts)). split_and!; try done.
  rewrite calls_app, calls_launch.
  subst evs'. rewrite Hcalls. simpl. by apply Forall_reverse.
Qed.

Lemma awaitCall_footprint t w r w' :
  is_asset_target L assetsFolder t →
  awaitCall E L t w = (r, w') → ∃ new, footprint w w' new.
Proof.
  intros Ht Hrun.
  destruct (awaitCall_writes E L _ _ _ _ Hrun) as (new & Hlog & Hacc).
  destruct (awaitCall_trace E L _ _ _ _ Hrun)
    as (evs & w1 & Hexec & Hfiles & Hlog1 & Hlog' & Hio).
  apply (exec_pool_steps E _ [(t, call L t)] _ 0%nat t) in Hexec;
    [|by repeat constructor|done|done].
  apply pool_steps_frame in Hexec as (evs' & Hlog'' & Hframe).
  assert (Hnew : new = evs' ++ [EvCall t]).
  { simpl in Hlog''. rewrite Hlog1 in Hlog''. rewrite Hlog', Hlog'' in Hlog.
    replace (evs' ++ EvCall t :: log w) with ((evs' ++ [EvCall t]) ++ log w)
      in Hlog by (by rewrite <- app_assoc).
    by apply app_inv_tail in Hlog. }
  exists new. split_and!; try done.
  - intros path Hno. rewrite Hfiles. apply (Hframe path).
    intros data Hin. apply (Hno data). rewrite Hnew. apply elem_of_app. by left.
  - rewrite Hlog in Hlog'.
    replace (EvSettle t r :: evs ++ EvCall t :: log w)
      with ((EvSettle t r :: evs ++ [EvCall t]) ++ log w) in Hlog'
      by (simpl; by rewrite <- app_assoc).
    apply app_inv_tail in Hlog' as ->. simpl.
    rewrite calls_app, (io_no_calls _ Hio). simpl.
    constructor; [done|constructor].
Qed.

Lemma chunks_run_footprint objects i d w r w' :
  chunks_run E L assetsFolder objects i d w r w' → ∃ new, footprint w w' new.
Proof.
  assert (Hts : ∀ l : list AssetObject,
    Forall (is_asset_target L assetsFolder) (map (objectTarget L assetsFolder) l)).
  { intros l. apply Forall_forall. intros t (o & -> & _)%list_elem_of_fmap.
    right. by exists o. }
  induction 1 as [i d w Hi|i d w e w' Hi Hall|i d w bs w1 r w' Hi Hall Hrest IH].
  - exists []. apply footprint_nil.
  - by apply promiseAll_footprint in Hall.
  - apply promiseAll_footprint in Hall as [new1 H1]; [|done].
    destruct IH as [new2 H2]. exists (new2 ++ new1). by eapply footprint_app.
Qed.

Lemma syncIndex_footprint assetIndex w r w' :
  syncIndex E L assetsFolder assetIndex w = (r, w') → ∃ new, footprint w w' new.
Proof.
  unfold syncIndex. set (T := indexTarget L assetsFolder assetIndex).
  destruct (awaitCall E L T w) as [rb w1] eqn:Hcall.
  apply awaitCall_footprint in Hcall as [new1 H1]; [|left; by exists assetIndex].
  destruct rb as [b|e]; [|intros [= <- <-]; by exists new1].
  destruct (perform E (IoReadFile (t_path T)) w1) as [rt w2] eqn:Hread.
  apply footprint_perform in Hread; [|done].
  pose proof (footprint_app _ _ _ _ _ H1 Hread) as H2.
  destruct rt as [text|e]; [|intros [= <- <-]; by eexists].
  destruct (json_objects L text) as [members|e]; [|intros [= <- <-]; by eexists].
  set (info1 := InfoUpdating (length (dedupe members)) (ai_id assetIndex)).
  pose proof (footprint_app _ _ _ _ _ H2 (footprint_info info1 w2)) as H3.
  destruct (downloadChunks E L _ _ _ _ _ _) as [rc w3] eqn:Hchunks.
  apply downloadChunks_run in Hchunks; [|unfold maxConcurrency; lia].
  apply chunks_run_footprint in Hchunks as [new4 H4].
  pose proof (footprint_app _ _ _ _ _ H3 H4) as H5.
  destruct rc as [n|e]; intros [= <- <-]; [|by eexists].
  eexists. eapply footprint_app; [exact H5|apply footprint_info].
Qed.

Lemma syncIndices_footprint indices : ∀ w r w',
  syncIndices E L assetsFolder indices w = (r, w') → ∃ new, footprint w w' new.
Proof.
  induction indices as [|a indices IH]; intros w r w' Hrun; simpl in Hrun.
  - injection Hrun as <- <-. exists []. apply footprint_nil.
  - destruct (syncIndex E L assetsFolder a w) as [[[]|e] w1] eqn:Hone;
      apply syncIndex_footprint in Hone as [new1 H1].
    + apply IH in Hrun as [new2 H2]. exists (new2 ++ new1).
      by eapply footprint_app.
    + injection Hrun as <- <-. by exists new1.
Qed.

Lemma getAssetIndices_no_write minecraftVersions :
  only_requests (λ op, is_write (EvIo op) = false)
    (getAssetIndices L minecraftVersions).
Proof.
  assert (Hjson : ∀ A (decode : bytes → settled A) url,
    only_requests (λ op, is_write (EvIo op) = false) (downloadJson decode url)).
  { intros A decode url. unfold downloadJson. apply only_requests_bind.
    - by apply only_requests_await.
    - intros res. destruct (negb (ok res)); [done|].
      destruct (body res) as [doc|e]; [|done]. by destruct (decode doc). }
  unfold getAssetIndices. apply only_requests_bind; [apply Hjson|].
  intros versions.
  generalize (@nil (string * AssetIndex), @None AssetIndex).
  induction minecraftVersions as [|v rest IH]; intros acc; [done|].
  cbn [resolveVersions]. destruct (negb _); [done|].
  apply only_requests_bind; [apply Hjson|]. intros a. apply IH.
Qed.

Lemma downloadAssets_run_footprint minecraftVersions w r w' :
  downloadAssets E L minecraftVersions assetsFolder w = (r, w') →
  ∃ new, footprint w w' new.
Proof.
  unfold downloadAssets.
  pose proof (footprint_info (InfoDownloading minecraftVersions) w) as H0.
  destruct (exec E (getAssetIndices L minecraftVersions) _)
    as [ri w1] eqn:Hres.
  apply footprint_requests in Hres as (new1 & H1 & _);
    [|apply getAssetIndices_no_write].
  pose proof (footprint_app _ _ _ _ _ H0 H1) as H2.
  destruct ri as [indices|e]; [|intros [= <- <-]; by eexists].
  pose proof (footprint_app _ _ _ _ _ H2
                (footprint_info (InfoIndexIds (Object_keys indices)) w1)) as H3.
  destruct (syncIndices E L _ _ _) as [rs w2] eqn:Hsync.
  apply syncIndices_footprint in Hsync as [new4 H4].
  pose proof (footprint_app _ _ _ _ _ H3 H4) as H5.
  destruct rs as [[]|e]; [|intros [= <- <-]; by eexists].
  destruct (exec E (getFolderSize assetsFolder) w2) as [rz w3] eqn:Hsz.
  apply footprint_requests in Hsz as (new6 & H6 & _).
  2:{ unfold getFolderSize. by apply only_requests_await. }
  pose proof (footprint_app _ _ _ _ _ H5 H6) as H7.
  destruct rz as [total|e]; intros [= <- <-]; [|by eexists].
  eexists. eapply footprint_app; [exact H7|apply footprint_info].
Qed.

End RunFootprint.

Section Origin.
Context (E : Env) (L : Lib) (assetsFolder : string).



End Origin.



(** ** Counting downloads *)

Section Counting.
Context (E : Env) (L : Lib).

Lemma tally_insert g pool i t p t' p' :
  pool !! i = Some (t, p) →
  (tally g (<[i := (t', p')]> pool) + (if g p then 1 else 0) =
   tally g pool + (if g p' then 1 else 0))%nat.
Proof.
  revert i. induction pool as [|[t0 p0] pool IH]; intros [|i] Hi; simpl in *;
    try done.
  - injection Hi as -> ->. lia.
  - specialize (IH i Hi). lia.
Qed.

Lemma tally_results f pool bs :
  pool.*2 = Ret <$> bs →
  tally (state_as f) pool = length (filter (λ b, f (Fulfilled b) = true) bs).
Proof.
  revert bs. induction pool as [|[t p] pool IH]; intros [|b bs] H; try done.
  rewrite !fmap_cons in H. simpl in H. injection H as -> H. simpl.
  rewrite (IH bs H). destruct (f (Fulfilled b)) eqn:Hf.
  - by rewrite filter_cons_True.
  - rewrite filter_cons_False; [done|]. by rewrite Hf.
Qed.

(** The settlements of the turns of a batch are the calls that have ended,
    outcome by outcome; and a call that has returned [true] has written
    once, a call that has returned [false] not at all. *)
Lemma pool_steps_counts pool w pool' w' :
  rtc (pool_step E) (pool, w) (pool', w') →
  (∀ i t p, pool !! i = Some (t, p) → p = call L t) →
  ∃ evs, log w' = evs ++ log w ∧
    (∀ f, count (settled_as f) evs = tally (state_as f) pool') ∧
    (count is_downloaded evs ≤ count is_write evs)%nat ∧
    (count is_write evs
     ≤ count is_downloaded evs + count (settled_as (negb ∘ is_fulfilled)) evs)%nat.
Proof.
  intros Hrtc Hinit.
  enough ((∀ (i : nat) t p, pool' !! i = Some (t, p) → task_inv L t p) ∧
          ∃ evs, log w' = evs ++ log w ∧
            (∀ f, count (settled_as f) evs = tally (state_as f) pool') ∧
            (count is_downloaded evs ≤ count is_write evs)%nat ∧
            (count is_write evs
             ≤ count is_downloaded evs
               + count (settled_as (negb ∘ is_fulfilled)) evs)%nat)
    as [_ H] by exact H.
  refine (pool_steps_ind E (λ pl wl,
    (∀ (i : nat) t p, pl !! i = Some (t, p) → task_inv L t p) ∧
    ∃ evs, log wl = evs ++ log w ∧
      (∀ f, count (settled_as f) evs = tally (state_as f) pl) ∧
      (count is_downloaded evs ≤ count is_write evs)%nat ∧
      (count is_write evs
       ≤ count is_downloaded evs
         + count (settled_as (negb ∘ is_fulfilled)) evs)%nat)
    _ pool w pool' w' Hrtc _).
  - clear Hrtc Hinit pool' w'.
    intros pl wl i t p p' wl' _ (Hinv & evs & Hlog & Htally & Hlo & Hhi)
      Hi Hpend Hres.
    destruct p as [| |op k]; try done. simpl in Hres.
    destruct (perform E op wl) as [r wl1] eqn:Hperf.
    injection Hres as <- <-.
    assert (Hlog1 : log wl1 = EvIo op :: evs ++ log w).
    { by rewrite <- Hlog, <- (perform_log E op wl), Hperf. }
    destruct (task_inv_step L t op k r (Hinv _ _ _ Hi)) as [Hinv' Hcase].
    split.
    { intros j tj pj Hj. destruct (decide (j = i)) as [->|Hne].
      - rewrite list_lookup_insert_eq in Hj by (by eapply lookup_lt_Some).
        by injection Hj as <- <-.
      - rewrite list_lookup_insert_ne in Hj by done. by eapply Hinv. }
    assert (Htally' : ∀ f evs',
      count (settled_as f) evs' =
        ((if state_as f (k r) then 1 else 0) + count (settled_as f) evs)%nat →
      count (settled_as f) evs' = tally (state_as f) (<[i := (t, k r)]> pl)).
    { intros f evs' ->. rewrite Htally.
      pose proof (tally_insert (state_as f) pl i t (Await op k) t (k r) Hi) as Hins.
      simpl in Hins. lia. }
    destruct (k r) as [b|e|op' k'] eqn:Hk; simpl settle.
    + exists (EvSettle t (Fulfilled b) :: EvIo op :: evs).
      split; [simpl; by rewrite Hlog1|]. split; [intros f; by apply Htally'|].
      destruct b.
      * destruct Hcase as (data & -> & _). simpl in *. lia.
      * destruct op; simpl in *; try done; lia.
    + exists (EvSettle t (Rejected e) :: EvIo op :: evs).
      split; [simpl; by rewrite Hlog1|]. split; [intros f; by apply Htally'|].
      destruct Hcase as [Hnw|(data & -> & _)].
      * destruct op; simpl in *; try done; lia.
      * simpl in *. lia.
    + exists (EvIo op :: evs). split; [done|].
      split; [intros f; by apply Htally'|].
      destruct op; simpl in *; try done; lia.
  - split.
    + intros i t p Hi. rewrite (Hinit _ _ _ Hi). apply call_task_inv.
    + exists []. split_and!; try done. intros f. simpl.
      clear Hrtc. induction pool as [|[t p] pool IH]; [done|]. simpl.
      rewrite (Hinit 0%nat t p eq_refl). simpl. apply IH.
      intros i t' p' Hi. by apply (Hinit (S i)).
Qed.

Lemma results_counts bs :
  length (filter (λ b, returned true (Fulfilled b) = true) bs)
  = Z.to_nat (count_true bs) ∧
  (length (filter (λ b, returned true (Fulfilled b) = true) bs)
   + length (filter (λ b, returned false (Fulfilled b) = true) bs)
   = length bs)%nat ∧
  length (filter (λ b, (negb ∘ is_fulfilled) (Fulfilled b) = true) bs) = 0%nat.
Proof.
  unfold count_true. rewrite Nat2Z.id.
  induction bs as [|b bs (IH1 & IH2 & IH3)]; [done|].
  rewrite !filter_cons. destruct b; simpl in *;
    repeat (case_decide; try done); simpl; split_and!; try done; lia.
Qed.

Lemma count_launch f ts :
  (∀ t, f (EvCall t) = false) → count f (reverse (EvCall <$> ts)) = 0%nat.
Proof.
  intros Hf. induction ts as [|t ts IH]; [done|].
  rewrite fmap_cons, reverse_cons, count_app, IH. simpl. by rewrite Hf.
Qed.

(** A batch that is fulfilled: its results count the calls that wrote. *)
Lemma promiseAll_counts ts w bs w' :
  promiseAll E L ts w = (Fulfilled bs, w') →
  ∃ new, log w' = new ++ log w ∧
    count_true bs = Z.of_nat (count is_downloaded new) ∧
    (count is_downloaded new + count is_reused new = length ts)%nat ∧
    count is_write new = count is_downloaded new.
Proof.
  intros Hrun.
  destruct (promiseAll_steps _ _ _ _ _ _ Hrun)
    as (pool' & Hsteps & Hlen & Hts & Hset).
  simpl in Hset.
  apply pool_steps_counts in Hsteps as (evs & Hlog & Htally & Hlo & Hhi).
  2:{ by intros i t p [t' [[= -> ->] _]]%list_lookup_fmap_Some. }
  destruct (results_counts bs) as (Htrue & Hsum & Hrej).
  assert (Hbs : length bs = length ts).
  { apply (f_equal length) in Hset. rewrite !length_fmap in Hset. lia. }
  pose proof (Htally (returned true)) as Hd.
  pose proof (Htally (returned false)) as Hr.
  pose proof (Htally (negb ∘ is_fulfilled)) as Hx.
  rewrite (tally_results _ _ bs Hset) in Hd.
  rewrite (tally_results _ _ bs Hset) in Hr.
  rewrite (tally_results _ _ bs Hset) in Hx.
  fold is_downloaded in Hd. fold is_reused in Hr.
  exists (evs ++ reverse (EvCall <$> ts)).
  rewrite !count_app, !count_launch by done. split_and!.
  - by rewrite Hlog, launch_log, app_assoc.
  - unfold count_true in *. rewrite Nat2Z.id in Htrue. lia.
  - lia.
  - lia.
Qed.

Lemma chunks_run_counts assetsFolder objects i d w r w' :
  chunks_run E L assetsFolder objects i d w r w' →
  ∀ n, r = Fulfilled n →
  ∃ new, log w' = new ++ log w ∧
    n = d + Z.of_nat (count is_downloaded new) ∧
    (count is_downloaded new + count is_reused new
     = length (drop i objects))%nat ∧
    count is_write new = count is_downloaded new.
Proof.
  induction 1 as [i d w Hi|i d w e w' Hi Hall|i d w bs w1 r w' Hi Hall Hrest IH];
    intros n Hn.
  - injection Hn as <-. exists []. rewrite drop_ge by done.
    split_and!; try done. simpl. lia.
  - done.
  - destruct (IH n Hn) as (new2 & Hlog2 & Hd2 & Hsum2 & Hw2).
    rewrite slice_take_drop in Hall.
    apply promiseAll_counts in Hall as (new1 & Hlog1 & Hd1 & Hsum1 & Hw1).
    rewrite length_map in Hsum1.
    exists (new2 ++ new1). rewrite !count_app. split_and!.
    + by rewrite Hlog2, Hlog1, app_assoc.
    + lia.
    + rewrite <- (take_drop maxConcurrency (drop i objects)), length_app.
      rewrite drop_drop. lia.
    + lia.
Qed.

End Counting.

(** The summary line of an asset index that completes, "Downloaded d,
    reused r": after the call for the index document, the read of the
    document and the line "Updating n objects", the object calls follow;
    [d] is the number of them that returned [true], which is the number of
    files written in that phase, [r] the number that returned [false], and
    [d + r = n], the number of objects of the manifest.  The download of the
    index document itself is not counted. *)
Theorem syncIndex_summary
    (E : Env) (L : Lib) (assetsFolder : string) (assetIndex : AssetIndex)
    (w w' : World) :
  syncIndex E L assetsFolder assetIndex w = (Fulfilled tt, w') →
  ∃ members indexCall objectCalls downloadedFiles,
    manifest_of E L assetsFolder assetIndex w members ∧
    let n := length (dedupe members) in
    log w' =
      EvInfo (InfoDownloaded downloadedFiles (Z.of_nat n - downloadedFiles))
        :: objectCalls
        ++ EvInfo (InfoUpdating n (ai_id assetIndex))
        :: EvIo (IoReadFile (t_path (indexTarget L assetsFolder assetIndex)))
        :: indexCall ++ log w ∧
    calls indexCall = [indexTarget L assetsFolder assetIndex] ∧
    reverse (calls objectCalls) = objectTarget L assetsFolder <$> dedupe members ∧
    downloadedFiles = Z.of_nat (count is_downloaded objectCalls) ∧
    Z.of_nat n - downloadedFiles = Z.of_nat (count is_reused objectCalls) ∧
    count is_write objectCalls = count is_downloaded objectCalls.
Proof.
  unfold syncIndex. set (T := indexTarget L assetsFolder assetIndex).
  destruct (awaitCall E L T w) as [[b|e] w1] eqn:Hcall; [|done].
  pose proof Hcall as Hcall'.
  apply awaitCall_trace in Hcall' as (evs & w0 & _ & _ & _ & Hlog1 & Hio).
  destruct (perform E (IoReadFile (t_path T)) w1) as [[text|e] w2] eqn:Hread;
    [|done].
  pose proof (perform_log E (IoReadFile (t_path T)) w1) as Hlog2.
  rewrite Hread in Hlog2. simpl in Hlog2.
  destruct (json_objects L text) as [members|e] eqn:Hjson; [|done].
  destruct (downloadChunks E L _ _ _ _ _ _) as [[n|e] w3] eqn:Hchunks; [|done].
  intros [= <-].
  apply downloadChunks_run in Hchunks; [|unfold maxConcurrency; lia].
  destruct (chunks_run_counts E L _ _ _ _ _ _ _ Hchunks n eq_refl)
    as (new & Hlog3 & Hn & Hsum & Hw).
  apply chunks_run_trace in Hchunks
    as (new' & started & Hlog3' & Hcalls3 & _ & Hfin & _); [|done].
  rewrite Hlog3 in Hlog3'. apply app_inv_tail in Hlog3'. subst new'.
  destruct (Hfin eq_refl) as [-> _]. rewrite drop_0 in Hcalls3, Hsum.
  exists members, (EvSettle T (Fulfilled b) :: evs ++ [EvCall T]), new, n.
  split_and!.
  - by exists b, w1, text, w2.
  - simpl. rewrite Hlog3. simpl. rewrite Hlog2, Hlog1. simpl.
    by rewrite <- app_assoc.
  - simpl. by rewrite calls_app, (io_no_calls _ Hio).
  - done.
  - lia.
  - lia.
  - done.
Qed.

(** On the concrete origin: both objects of the index "9" are downloaded on
    an empty disk. *)
Lemma syncIndex_summary_witness :
  syncIndex Example.origin Example.lib "assets" Example.index9
    Example.empty_world = Example.index9_run ∧
  ∃ objectCalls rest,
    log Example.index9_run.2
    = EvInfo (InfoDownloaded 2 0) :: objectCalls ++ rest ∧
    count is_write objectCalls = 2%nat.
Proof.
  assert (H : syncIndex Example.origin Example.lib "assets" Example.index9
                Example.empty_world = (Fulfilled tt, Example.index9_run.2))
    by (vm_compute; reflexivity).
  split; [vm_compute; reflexivity|].
  destruct (syncIndex_summary _ _ _ _ _ _ H)
    as (members & indexCall & objectCalls & d & _ & Hlog & _ & _ & Hd & Hr & Hw).
  assert (Hhead : head (log Example.index9_run.2)
                  = Some (EvInfo (InfoDownloaded 2 0))) by (vm_compute; reflexivity).
  rewrite Hlog in Hhead. simpl in Hhead. injection Hhead as Hd2 Hr2.
  eexists objectCalls, _. split.
  - rewrite Hlog, Hr2, Hd2. reflexivity.
  - rewrite Hw. lia.
Defined.

(** ** The order of the objects of a manifest *)

Section DedupeOrder.
Context {V : Type}.

Lemma own_properties_plain (o : jsobj V) :
  Forall (λ kv, array_index kv.1 = None) o → own_properties o = o.
Proof.
  intros Hall. unfold own_properties.
  assert (Hidx : indexed_properties o = []).
  { unfold indexed_properties. induction Hall as [|kv o Hkv _ IH]; [done|].
    simpl. by rewrite Hkv. }
  rewrite Hidx. simpl. clear Hidx. induction Hall as [|kv o Hkv _ IH]; [done|].
  rewrite filter_cons_True by done. by f_equal.
Qed.

Lemma first_seen_ext seen seen' l :
  (∀ x, x ∈ seen ↔ x ∈ seen') → first_seen seen l = first_seen seen' l.
Proof.
  revert seen seen'. induction l as [|x l IH]; intros seen seen' Heq; [done|].
  simpl. destruct (decide (x ∈ seen)) as [Hin|Hnin].
  - rewrite !bool_decide_eq_true_2 by (done || by apply Heq). by apply IH.
  - rewrite !bool_decide_eq_false_2 by (done || by rewrite <- Heq).
    f_equal. apply IH. intros y. rewrite !elem_of_cons, Heq. done.
Qed.

Lemma obj_set_keys_old key (value : V) o :
  key ∈ o.*1 → (obj_set key value o).*1 = o.*1.
Proof.
  induction o as [|[k v] o IH]; csimpl; [by intros ?%elem_of_nil|].
  destruct (String.eqb_spec k key) as [->|Hne]; csimpl; [done|].
  intros [?|Hin]%elem_of_cons; [done|]. f_equal. by apply IH.
Qed.

Lemma obj_set_keys_new key (value : V) o :
  key ∉ o.*1 → (obj_set key value o).*1 = o.*1 ++ [key].
Proof.
  induction o as [|[k v] o IH]; csimpl; [done|].
  intros Hnin. apply not_elem_of_cons in Hnin as [Hne Hnin].
  destruct (String.eqb_spec k key) as [->|_]; [done|]. csimpl. f_equal.
  by apply IH.
Qed.

(** Setting properties one after the other lists the new keys in the
    order they first occur. *)
Lemma foldl_obj_set_keys (entries : list (string * V)) : ∀ o,
  (foldl (λ o kv, obj_set kv.1 kv.2 o) o entries).*1
  = o.*1 ++ first_seen o.*1 entries.*1.
Proof.
  induction entries as [|[k v] entries IH]; intros o; csimpl.
  - by rewrite app_nil_r.
  - rewrite IH. destruct (decide (k ∈ o.*1)) as [Hin|Hnin].
    + rewrite bool_decide_eq_true_2 by done.
      by rewrite obj_set_keys_old.
    + rewrite bool_decide_eq_false_2 by done.
      rewrite obj_set_keys_new by done. rewrite <- app_assoc. simpl.
      do 2 f_equal. apply first_seen_ext. intros x.
      rewrite elem_of_app, !elem_of_cons, elem_of_nil. tauto.
Qed.

Lemma obj_get_set key (value : V) o k :
  obj_get k (obj_set key value o)
  = if String.eqb key k then Some value else obj_get k o.
Proof.
  induction o as [|[k' v'] o IH]; simpl.
  - by destruct (String.eqb_spec key k).
  - destruct (String.eqb_spec k' key) as [->|Hne]; simpl.
    + by destruct (String.eqb_spec key k).
    + destruct (String.eqb_spec k' k) as [->|Hne'].
      * destruct (String.eqb_spec key k) as [->|]; done.
      * apply IH.
Qed.

(** ... and gives each key the value of its last entry. *)
Lemma foldl_obj_set_get (entries : list (string * V)) k : ∀ o,
  obj_get k (foldl (λ o kv, obj_set kv.1 kv.2 o) o entries)
  = match last (filter (λ kv, kv.1 = k) entries) with
    | Some kv => Some kv.2
    | None => obj_get k o
    end.
Proof.
  induction entries as [|[k' v] entries IH]; intros o; [done|].
  cbn [foldl]. rewrite IH, obj_get_set. simpl.
  destruct (decide (k' = k)) as [->|Hne].
  - rewrite filter_cons_True by done. rewrite String.eqb_refl.
    destruct (filter _ entries) as [|kv l] eqn:Hf; [done|].
    change (last ((k, v) :: kv :: l)) with (last (kv :: l)).
    destruct (last (kv :: l)) eqn:Hl; [done|]. by apply last_None in Hl.
  - rewrite filter_cons_False by done.
    by destruct (String.eqb_spec k' k).
Qed.

Lemma obj_get_elem (o : jsobj V) k v :
  NoDup o.*1 → (k, v) ∈ o → obj_get k o = Some v.
Proof.
  induction o as [|[k' v'] o IH]; csimpl; [by intros _ ?%elem_of_nil|].
  intros [Hnin Hnd]%NoDup_cons [[= -> ->]|Hin]%elem_of_cons.
  - by rewrite String.eqb_refl.
  - destruct (String.eqb_spec k' k) as [->|_]; [|by apply IH].
    destruct Hnin. apply list_elem_of_fmap. by exists (k, v).
Qed.

End DedupeOrder.

(** A key of more than ten characters, as an SHA-1 in hexadecimal is, is
    not an array index. *)
Lemma decimal_ge s : ∀ acc n,
  decimal s acc = Some n → (acc * 10 ^ N.of_nat (String.length s) ≤ n)%N.
Proof.
  induction s as [|c s IH]; intros acc n; simpl.
  - intros [= <-]. lia.
  - destruct (digit_of c) as [d|]; [|done]. intros Hn%IH.
    rewrite Nat2N.inj_succ, N.pow_succ_r by lia. nia.
Qed.

Lemma array_index_long key :
  (10 < String.length key)%nat → array_index key = None.
Proof.
  destruct key as [|c rest]; [done|]. intros Hlen. unfold array_index.
  destruct (Ascii.eqb c "0" && negb (String.eqb rest "")) eqn:Hzero; [done|].
  destruct (decimal (String c rest) 0) as [n|] eqn:Hdec; [|done].
  simpl in Hdec. destruct (digit_of c) as [d|] eqn:Hd; [|done].
  apply decimal_ge in Hdec.
  assert (Hd1 : (1 ≤ d)%N).
  { destruct (N.eq_dec d 0%N) as [->|]; [|lia].
    unfold digit_of in Hd.
    destruct ((48 <=? N_of_ascii c) && (N_of_ascii c <=? 57))%N eqn:Hr; [|done].
    injection Hd as Hd. apply andb_true_iff in Hr as [Hlo%N.leb_le _].
    assert (Hc : c = "0"%char).
    { rewrite <- (ascii_N_embedding c).
      replace (N_of_ascii c) with 48%N by lia. done. }
    subst c. simpl in Hzero. destruct rest; [simpl in Hlen; lia|done]. }
  assert (Hpow : (10 ^ 10 ≤ 10 ^ N.of_nat (String.length rest))%N).
  { apply N.pow_le_mono_r; [done|]. simpl in Hlen. lia. }
  destruct (n <? 4294967295)%N eqn:Hlt; [|done].
  apply N.ltb_lt in Hlt. change (10 ^ 10)%N with 10000000000%N in Hpow. nia.
Qed.

(** The objects of a manifest none of whose hashes is an array index (no
    SHA-1 in hexadecimal is one): [dedupe] lists the distinct hashes in the
    order in which they first occur among the parsed objects, and keeps for
    each hash the object that was parsed last with it, so its size is the
    one of the last listing. *)
Theorem dedupe_order (members : list (string * AssetObject)) :
  let parsed := Object_values (Object_fromEntries members) in
  Forall (λ o, array_index (hash o) = None) parsed →
  hash <$> dedupe members = first_seen [] (hash <$> parsed) ∧
  ∀ o, o ∈ dedupe members →
       last (filter (λ x, hash x = hash o) parsed) = Some o.
Proof.
  intros parsed Hplain. unfold dedupe. fold parsed.
  set (entries := map (λ object, (hash object, object)) parsed).
  destruct (Object_fromEntries_spec entries) as (Hnd & Hkeys & Helem).
  assert (Hkv : ∀ k v, (k, v) ∈ Object_fromEntries entries → k = hash v).
  { intros k v Hin. apply Helem in Hin.
    by apply list_elem_of_fmap in Hin as (o & [= -> ->] & Ho). }
  assert (Hown : own_properties (Object_fromEntries entries)
                 = Object_fromEntries entries).
  { apply own_properties_plain, Forall_forall. intros [k v] Hin. simpl.
    pose proof (Hkv k v Hin) as ->. apply Helem in Hin.
    apply list_elem_of_fmap in Hin as (o & [= _ ->] & Ho).
    by eapply Forall_forall in Hplain. }
  unfold Object_values. rewrite Hown.
  assert (Hhash : hash <$> (Object_fromEntries entries).*2
                  = (Object_fromEntries entries).*1).
  { clear -Hkv. induction (Object_fromEntries entries) as [|[k v] obj IH];
      [done|]. csimpl. rewrite (Hkv k v) by (by left). f_equal. apply IH.
    intros k' v' Hin. apply Hkv. by right. }
  split.
  - rewrite Hhash. unfold Object_fromEntries. rewrite foldl_obj_set_keys.
    simpl. f_equal. unfold entries. clear. induction parsed as [|o l IH]; [done|].
    csimpl. by rewrite IH.
  - intros o Ho. apply list_elem_of_fmap in Ho as ([k v] & -> & Hin). simpl.
    pose proof (Hkv k v Hin) as ->.
    apply (obj_get_elem _ _ _ Hnd) in Hin.
    unfold Object_fromEntries in Hin. rewrite foldl_obj_set_get in Hin.
    simpl in Hin.
    assert (Hf : filter (λ kv : string * AssetObject, kv.1 = hash v) entries
                 = map (λ object, (hash object, object))
                     (filter (λ x, hash x = hash v) parsed)).
    { unfold entries. clear. induction parsed as [|o l IH]; [done|]. simpl.
      rewrite !filter_cons. simpl. destruct (decide (hash o = hash v)); simpl;
        by rewrite IH. }
    rewrite Hf in Hin.
    destruct (filter (λ x, hash x = hash v) parsed) as [|x l] eqn:Hfl using rev_ind;
      [done|].
    rewrite map_app in Hin. simpl in Hin. rewrite last_snoc in Hin.
    rewrite last_snoc. simpl in Hin. by injection Hin as ->.
Qed.

Lemma dedupe_order_witness :
  dedupe Example.twice_listed
  = [ {| hash := "da39a3ee"; size := 3 |}; {| hash := "77de68da"; size := 2 |} ] ∧
  hash <$> dedupe Example.twice_listed
  = first_seen [] (hash <$> Object_values (Object_fromEntries Example.twice_listed)).
Proof.
  split; [vm_compute; reflexivity|].
  assert (Hparsed : Object_values (Object_fromEntries Example.twice_listed)
                    = Example.twice_listed.*2) by (vm_compute; reflexivity).
  destruct (dedupe_order Example.twice_listed) as [Horder _]; [|exact Horder].
  cbv zeta. rewrite Hparsed. repeat constructor.
Defined.

(** ** How the expression string is read: the scrape *)

(** The expression string is read greedily: the pattern runs from the first
    slash to the last slash of the same line, so that it may itself contain
    slashes, and the flags are the lowercase letters that follow that last
    slash; what stands before the first slash, and after the flags, is
    ignored.  The scrape then matches the file against that pattern with
    those flags. *)
Theorem matchDelimited_greedy (pre pattern flags line rest : list ascii) :
  "/"%char ∉ pre →
  Forall (λ c, RegExp.is_line_terminator c = false) pattern →
  Forall (λ c, is_lowercase c = true) flags →
  Forall (λ c, RegExp.is_line_terminator c = false ∧ c ≠ "/"%char) line →
  (∀ c, head (line ++ rest) = Some c → is_lowercase c = false) →
  (∀ c, head rest = Some c → RegExp.is_line_terminator c = true) →
  let regexp :=
    string_of_list_ascii
      (pre ++ "/"%char :: pattern ++ "/"%char :: flags ++ line ++ rest) in
  matchDelimited regexp
  = Some (string_of_list_ascii pattern, string_of_list_ascii flags) ∧
  ∀ (E : Env) (R : Runtime) (file : string) (w : World) (content : bytes),
    (perform E (IoReadFile file) w).1 = Fulfilled content →
    (exec E (guessCurrentMinecraftVersionFromFile R file regexp) w).1
    = match regexp_exec R (string_of_list_ascii pattern)
              (string_of_list_ascii flags) (utf8 R content) with
      | Rejected e => Rejected e
      | Fulfilled None => Fulfilled None
      | Fulfilled (Some matches) => Fulfilled (mjoin (matches !! 1%nat))
      end.
Proof.
  intros Hpre Hpat Hfl Hline Hhead Hrest regexp.
  assert (Hm : matchDelimited regexp
               = Some (string_of_list_ascii pattern, string_of_list_ascii flags))
    by (by apply matchDelimited_shape).
  split; [done|]. intros E R file w content Hread.
  by rewrite guess_run, Hread, Hm.
Qed.

(** On a concrete input: text before the first slash, a pattern with a
    slash in it, two flags, text after them, and a second line. *)
Lemma matchDelimited_greedy_witness :
  matchDelimited
    (string_of_list_ascii
       (list_ascii_of_string "see /a/b/gm;x"
        ++ "010"%char :: list_ascii_of_string "/c/"))
  = Some ("a/b", "gm").
Proof.
  destruct (matchDelimited_greedy
              (list_ascii_of_string "see ") (list_ascii_of_string "a/b")
              (list_ascii_of_string "gm") (list_ascii_of_string ";x")
              ("010"%char :: list_ascii_of_string "/c/"))
    as [Hread _]; [| | | | | |exact Hread].
  - intros Hin. simpl in Hin.
    repeat (apply elem_of_cons in Hin as [Hin|Hin]; [discriminate Hin|]).
    by apply elem_of_nil in Hin.
  - repeat constructor.
  - repeat constructor.
  - repeat constructor; discriminate.
  - intros c [= <-]. reflexivity.
  - intros c [= <-]. reflexivity.
Defined.

(** ** No file is written twice *)

Section WriteOnce.
Context (E : Env) (L : Lib).
Hypothesis Hff : fault_free E.

Local Abbreviation writes path h := (count (is_write_to path) h).

(** A call that only verifies does not write. *)
Lemma quiet_no_write t path data k :
  ¬ quiet L t (Await (IoWriteFile path data) k).
Proof. intros [?|[[]|[]]]. done. Qed.

(** The turns of a batch whose calls are on distinct paths: a path is
    written to at most once, by the call on it, which has then returned;
    and the paths of [D] are not written to. *)
Lemma pool_steps_once D pool w pool' w' :
  rtc (pool_step E) (pool, w) (pool', w') →
  (∀ i t p, pool !! i = Some (t, p) → p = call L t) →
  agree (D ++ pool.*1) →
  NoDup (t_path <$> pool.*1) →
  (∀ t, t ∈ D → correct L (files w) t) →
  ∀ path,
    (writes path (log w') ≤ writes path (log w) + 1)%nat ∧
    (writes path (log w') ≠ writes path (log w) →
       (path ∉ t_path <$> D) ∧ path ∈ t_path <$> pool.*1).
Proof.
  intros Hrtc Hinit Hag Hnd HD.
  enough (pool'.*1 = pool.*1 ∧
          (∀ t, t ∈ D → files w' !! t_path t = files w !! t_path t) ∧
          (∀ (j : nat) tj pj, pool' !! j = Some (tj, pj) →
             task_ok L D (files w') tj pj) ∧
          ∀ path,
            (writes path (log w') ≤ writes path (log w) + 1)%nat ∧
            (writes path (log w') ≠ writes path (log w) →
               (path ∉ t_path <$> D) ∧ path ∈ t_path <$> pool.*1 ∧
               ∀ (j : nat) tj pj, pool' !! j = Some (tj, pj) →
                 t_path tj = path → is_ret pj = true))
    as (_ & _ & _ & Hw).
  { intros path. destruct (Hw path) as [Hle Hne]. split; [done|].
    intros Hc. destruct (Hne Hc) as (? & ? & _). done. }
  refine (pool_steps_ind E (λ pl wl,
    pl.*1 = pool.*1 ∧
    (∀ t, t ∈ D → files wl !! t_path t = files w !! t_path t) ∧
    (∀ (j : nat) tj pj, pl !! j = Some (tj, pj) →
       task_ok L D (files wl) tj pj) ∧
    ∀ path,
      (writes path (log wl) ≤ writes path (log w) + 1)%nat ∧
      (writes path (log wl) ≠ writes path (log w) →
         (path ∉ t_path <$> D) ∧ path ∈ t_path <$> pool.*1 ∧
         ∀ (j : nat) tj pj, pl !! j = Some (tj, pj) →
           t_path tj = path → is_ret pj = true))
    _ pool w pool' w' Hrtc _).
  - clear Hrtc Hinit pool' w'.
    intros pl wl i t p p' wl' _ (Hts & Hfrozen & Hok & Hw) Hi Hpend Hres.
    destruct p as [| |op k]; try done. simpl in Hres.
    destruct (perform E op wl) as [r wl1] eqn:Hperf.
    injection Hres as <- <-. rewrite settle_files.
    destruct (task_step_frozen E L Hff D pool.*1 pl wl i t op k r wl1)
      as [Hfr Hok']; try done.
    { intros t0 Ht0. eapply correct_lookup; [|by apply HD]. by apply Hfrozen. }
    assert (Hts' : (<[i:=(t, k r)]> pl).*1 = pool.*1).
    { rewrite list_fmap_insert. simpl. rewrite <- Hts. apply list_insert_id.
      by rewrite list_lookup_fmap, Hi. }
    split_and!; [done|by intros t0 Ht0; rewrite Hfr, Hfrozen|done|].
    (* the writes *)
    assert (Hlog : ∀ path,
      writes path (log (settle t (k r) wl1))
      = ((if is_write_to path (EvIo op) then 1 else 0)
         + writes path (log wl))%nat).
    { intros path. pose proof (perform_log E op wl) as Hl.
      rewrite Hperf in Hl. simpl in Hl.
      destruct (k r); simpl; rewrite Hl; simpl; done. }
    assert (Hpath : ∀ (j : nat) tj pj,
      pl !! j = Some (tj, pj) → t_path tj = t_path t → j = i).
    { intros j tj pj Hj Heq.
      eapply (NoDup_lookup _ j i (t_path t) Hnd).
      - rewrite <- Hts, !list_lookup_fmap, Hj. simpl. by rewrite Heq.
      - by rewrite <- Hts, !list_lookup_fmap, Hi. }
    assert (Hkeep : ∀ path,
      is_write_to path (EvIo op) = false →
      (writes path (log (settle t (k r) wl1)) ≤ writes path (log w) + 1)%nat ∧
      (writes path (log (settle t (k r) wl1)) ≠ writes path (log w) →
         (path ∉ t_path <$> D) ∧ path ∈ t_path <$> pool.*1 ∧
         ∀ (j : nat) tj pj, <[i:=(t, k r)]> pl !! j = Some (tj, pj) →
           t_path tj = path → is_ret pj = true)).
    { intros path Hnot. rewrite Hlog, Hnot. simpl.
      destruct (Hw path) as [Hle Hne]. split; [done|]. intros Hc.
      destruct (Hne Hc) as (HnD & Hin & Hret). split_and!; [done..|].
      intros j tj pj Hj Heq. destruct (decide (j = i)) as [->|Hji].
      - rewrite list_lookup_insert_eq in Hj by (by eapply lookup_lt_Some).
        injection Hj as <- <-. by specialize (Hret _ _ _ Hi Heq).
      - rewrite list_lookup_insert_ne in Hj by done. by eapply Hret. }
    intros path. destruct (is_write_to path (EvIo op)) eqn:Hwr;
      [|by apply Hkeep].
    destruct op as [| | | | | |p data|]; try done. simpl in Hwr.
    apply bool_decide_eq_true in Hwr. subst p.
    destruct (Hok _ _ _ Hi) as [Hcov Hunc].
    assert (HnD : t_path t ∉ (t_path <$> D)).
    { intros Hin. by apply Hcov, quiet_no_write in Hin. }
    destruct (Hunc HnD) as ([[Hp _] Hk] & _ & _).
    destruct (Hk r) as [Hafter _]. simpl in Hafter.
    rewrite (perform_write E Hff) in Hperf. injection Hperf as <- <-.
    destruct (Hw path) as [Hle Hne].
    assert (Hsame : writes path (log wl) = writes path (log w)).
    { destruct (decide (writes path (log wl) = writes path (log w)))
        as [|Hc]; [done|].
      destruct (Hne Hc) as (_ & _ & Hret).
      by specialize (Hret _ _ _ Hi (eq_sym Hp)). }
    rewrite Hlog. simpl. rewrite bool_decide_eq_true_2 by done.
    split; [lia|]. intros _. split_and!.
    + by rewrite Hp.
    + rewrite Hp, <- Hts. apply list_elem_of_fmap. exists t. split; [done|].
      apply list_elem_of_fmap. exists (t, Await (IoWriteFile path data) k).
      split; [done|]. by eapply list_elem_of_lookup_2.
    + intros j tj pj Hj Heq. destruct (decide (j = i)) as [->|Hji].
      * rewrite list_lookup_insert_eq in Hj by (by eapply lookup_lt_Some).
        injection Hj as <- <-. by rewrite Hafter.
      * rewrite list_lookup_insert_ne in Hj by done.
        destruct Hji. eapply Hpath; [done|]. by rewrite Heq.
  - split_and!; [done|done| |].
    + intros j tj pj Hj. rewrite (Hinit _ _ _ Hj). split.
      * intros _. right. right. apply call_probing.
      * intros _. split_and!; [apply call_task_inv|done|done].
    + intros path. split; [lia|done].
Qed.


(** Histories without a write, and histories one after the other. *)
Lemma written_once_nil D : written_once D [] [].
Proof. intros path. simpl. split; [lia|done]. Qed.

Lemma written_once_other D ev :
  is_write ev = false → written_once D [] [ev].
Proof.
  intros Hev path. assert (is_write_to path ev = false) as Hf.
  { destruct ev as [[]| | |]; done. }
  simpl. rewrite Hf. split; [lia|done].
Qed.

Lemma written_once_app D ts1 ts2 new1 new2 :
  written_once D ts1 new1 → written_once (D ++ ts1) ts2 new2 →
  written_once D (ts1 ++ ts2) (new2 ++ new1).
Proof.
  intros H1 H2 path. rewrite count_app, fmap_app.
  destruct (H1 path) as [Hle1 Hne1]. destruct (H2 path) as [Hle2 Hne2].
  rewrite fmap_app in Hne2.
  destruct (decide (writes path new1 = 0%nat)) as [Hz1|Hn1];
    destruct (decide (writes path new2 = 0%nat)) as [Hz2|Hn2].
  - split; [lia|]. intros ?. lia.
  - destruct (Hne2 Hn2) as [HnD Hin]. split; [lia|]. intros _. split.
    + intros ?. apply HnD, elem_of_app. by left.
    + apply elem_of_app. by right.
  - destruct (Hne1 Hn1) as [HnD Hin]. split; [lia|]. intros _.
    split; [done|]. apply elem_of_app. by left.
  - destruct (Hne1 Hn1) as [_ Hin]. destruct (Hne2 Hn2) as [HnD _].
    destruct HnD. apply elem_of_app. by right.
Qed.

Lemma written_once_weaken D ts ts' new :
  (∀ t, t ∈ ts → t ∈ ts') → written_once D ts new → written_once D ts' new.
Proof.
  intros Hsub H path. destruct (H path) as [Hle Hne]. split; [done|].
  intros Hc. destruct (Hne Hc) as [HnD Hin]. split; [done|].
  apply list_elem_of_fmap in Hin as (t & -> & Ht).
  apply list_elem_of_fmap. exists t. split; [done|]. by apply Hsub.
Qed.

(** A batch, a call that runs alone, the chunk loop, an asset index and the
    asset indices one after the other. *)
Lemma promiseAll_once D ts w r w' new :
  promiseAll E L ts w = (r, w') →
  agree (D ++ ts) → NoDup (t_path <$> ts) →
  (∀ t, t ∈ D → correct L (files w) t) →
  log w' = new ++ log w →
  written_once D ts new.
Proof.
  intros Hrun Hag Hnd HD Hlog.
  destruct (promiseAll_steps _ _ _ _ _ _ Hrun)
    as (pool' & Hsteps & Hlen & Hts & Hset).
  pose proof (pool_steps_once D _ _ _ _ Hsteps) as Hw.
  rewrite launched_targets in Hw. intros path.
  destruct (Hw ltac:(by intros i t p [t' [[= -> ->] _]]%list_lookup_fmap_Some)
              Hag Hnd ltac:(by intros t Ht; rewrite launch_files; apply HD)
              path) as [Hle Hne].
  rewrite launch_log, Hlog, !count_app, count_launch in Hle, Hne by done.
  split; [lia|]. intros Hc. apply Hne. lia.
Qed.

Lemma awaitCall_once D t w r w' new :
  awaitCall E L t w = (r, w') →
  agree (D ++ [t]) →
  (∀ t, t ∈ D → correct L (files w) t) →
  log w' = new ++ log w →
  written_once D [t] new.
Proof.
  unfold awaitCall.
  destruct (exec E (call L t) _) as [r1 w1] eqn:Hexec.
  intros [= -> <-] Hag HD Hlog.
  apply (exec_pool_steps E _ [(t, call L t)] _ 0%nat t) in Hexec;
    [|by repeat constructor|done|done].
  pose proof (pool_steps_once D _ _ _ _ Hexec) as Hw. intros path.
  destruct (Hw ltac:(by intros [|i] t' p; [intros [= <- <-]|])
              Hag ltac:(by apply NoDup_singleton) HD path) as [Hle Hne].
  cbn [log record] in Hle, Hne, Hlog. rewrite Hlog, !count_app in Hle, Hne.
  simpl in Hle, Hne. split; [lia|]. intros Hc. apply Hne. lia.
Qed.


(** The objects of a manifest have paths of their own, when the calls on one
    path expect the same file. *)
Lemma object_paths_NoDup assetsFolder (objects : list AssetObject) :
  agree (objectTarget L assetsFolder <$> objects) →
  NoDup (hash <$> objects) →
  NoDup (t_path <$> (objectTarget L assetsFolder <$> objects)).
Proof.
  intros Hag Hnd. rewrite <- list_fmap_compose.
  apply NoDup_fmap_2_strong; [|by apply NoDup_fmap_1 in Hnd].
  intros o1 o2 H1 H2 Hpath. simpl in Hpath.
  destruct (Hag (objectTarget L assetsFolder o1) (objectTarget L assetsFolder o2))
    as (_ & Hsum & _); [by apply list_elem_of_fmap_2..|done|].
  simpl in Hsum.
  apply list_elem_of_lookup_1 in H1 as [i Hi].
  apply list_elem_of_lookup_1 in H2 as [j Hj].
  assert (i = j) as ->.
  { eapply (NoDup_lookup _ i j (hash o1) Hnd).
    - by rewrite list_lookup_fmap, Hi.
    - by rewrite list_lookup_fmap, Hj, Hsum. }
  congruence.
Qed.

Lemma chunks_run_once assetsFolder objects i d w r w' :
  chunks_run E L assetsFolder objects i d w r w' →
  ∀ D new, is_fulfilled r = true →
    agree (D ++ (objectTarget L assetsFolder <$> drop i objects)) →
    NoDup (t_path <$> (objectTarget L assetsFolder <$> drop i objects)) →
    (∀ t, t ∈ D → correct L (files w) t) →
    log w' = new ++ log w →
    written_once D (objectTarget L assetsFolder <$> drop i objects) new.
Proof.
  induction 1 as [i d w Hi|i d w e w' Hi Hall|i d w bs w1 r w' Hi Hall Hrest IH];
    intros D new Hful Hag Hnd HD Hlog.
  - rewrite drop_ge by done.
    assert (new = []) as ->.
    { apply (app_inv_tail (log w)). by rewrite <- Hlog. }
    apply written_once_nil.
  - done.
  - rewrite slice_take_drop in Hall.
    set (chunk := take maxConcurrency (drop i objects)) in *.
    assert (Hsplit : drop i objects = chunk ++ drop (i + maxConcurrency) objects).
    { unfold chunk. rewrite <- drop_drop. symmetry. apply take_drop. }
    change (map (objectTarget L assetsFolder) chunk)
      with (objectTarget L assetsFolder <$> chunk) in Hall.
    rewrite Hsplit, !fmap_app in Hag, Hnd |- *.
    rewrite (fmap_app t_path) in Hnd.
    apply NoDup_app in Hnd as (Hnd1 & _ & Hnd2).
    destruct (promiseAll_writes E L _ _ _ _ Hall) as (new1 & Hlog1 & _).
    destruct (chunks_run_writes E L _ _ _ _ _ _ _ Hrest) as (new2 & Hlog2 & _).
    assert (new = new2 ++ new1) as ->.
    { apply (app_inv_tail (log w)). by rewrite <- Hlog, Hlog2, Hlog1, app_assoc. }
    apply written_once_app.
    + apply (promiseAll_once D _ _ _ _ _ Hall); [|done..].
      eapply agree_subseteq; [|exact Hag]. intros t.
      rewrite !elem_of_app. tauto.
    + apply (promiseAll_frozen E L Hff D) in Hall as [Hfr1 Hc1]; [| |done].
      2:{ eapply agree_subseteq; [|exact Hag]. intros t.
          rewrite !elem_of_app. tauto. }
      apply IH; [done| |done| |done].
      * eapply agree_subseteq; [|exact Hag]. intros t.
        rewrite !elem_of_app. tauto.
      * intros t [Ht|Ht]%elem_of_app; [|by apply Hc1].
        eapply correct_lookup; [|by apply HD]. by apply Hfr1.
Qed.


Lemma syncIndex_once D assetsFolder assetIndex w w' new :
  syncIndex E L assetsFolder assetIndex w = (Fulfilled tt, w') →
  log w' = new ++ log w →
  agree (D ++ calls new) →
  (∀ t, t ∈ D → correct L (files w) t) →
  written_once D (calls new) new.
Proof.
  intros Hrun Hlog Hag HD.
  destruct (syncIndex_calls E L _ _ _ _ _ Hrun)
    as (new0 & started & Hlog0 & Hcalls & _ & _ & Hfull).
  rewrite Hlog in Hlog0. apply app_inv_tail in Hlog0. subst new0.
  destruct (Hfull eq_refl)
    as (members & (b & w1 & text & w2 & Hcall & Hread & Hjson) & ->).
  set (T := indexTarget L assetsFolder assetIndex) in *.
  set (objects := dedupe members) in *.
  assert (Hcalls' : calls new = reverse (T :: (objectTarget L assetsFolder <$> objects))).
  { by rewrite <- Hcalls, reverse_involutive. }
  assert (Hsub : ∀ t, t ∈ D ++ T :: (objectTarget L assetsFolder <$> objects) →
                      t ∈ D ++ calls new).
  { intros t. rewrite !elem_of_app, Hcalls', elem_of_reverse. tauto. }
  unfold syncIndex in Hrun. fold T in Hrun. rewrite Hcall, Hread, Hjson in Hrun.
  fold objects in Hrun.
  destruct (downloadChunks E L _ _ _ _ _ _) as [[n|e] w3] eqn:Hchunks; [|done].
  injection Hrun as <-.
  (* the history, stage by stage *)
  destruct (awaitCall_writes E L _ _ _ _ Hcall) as (new1 & Hlog1 & _).
  pose proof (perform_log E (IoReadFile (t_path T)) w1) as Hlog2.
  rewrite Hread in Hlog2. simpl in Hlog2.
  apply downloadChunks_run in Hchunks; [|unfold maxConcurrency; lia].
  destruct (chunks_run_writes E L _ _ _ _ _ _ _ Hchunks) as (new3 & Hlog3 & _).
  simpl in Hlog3, Hlog.
  set (info1 := EvInfo (InfoUpdating (length objects) (ai_id assetIndex))) in *.
  set (info2 := EvInfo (InfoDownloaded n (Z.of_nat (length objects) - n))) in *.
  assert (new = [info2] ++ new3 ++ [info1; EvIo (IoReadFile (t_path T))] ++ new1)
    as Hnew.
  { apply (app_inv_tail (log w)). rewrite <- Hlog, Hlog3, Hlog2, Hlog1.
    by rewrite <- !app_assoc. }
  (* the call for the index document *)
  assert (Hag1 : agree (D ++ [T])).
  { eapply agree_subseteq; [|exact Hag]. intros t Ht. apply Hsub.
    rewrite elem_of_app in Ht. rewrite elem_of_app, elem_of_cons.
    destruct Ht as [?|Ht%list_elem_of_singleton]; [tauto|subst t; tauto]. }
  pose proof (awaitCall_once D _ _ _ _ _ Hcall Hag1 HD Hlog1) as Honce1.
  apply (awaitCall_frozen E L Hff D) in Hcall as [Hfr1 Hc1]; [|done|done].
  assert (Hfiles2 : files w2 = files w1).
  { by rewrite <- (perform_files E (IoReadFile (t_path T)) w1), Hread. }
  (* the objects *)
  assert (Hag3 : agree ((D ++ [T]) ++ (objectTarget L assetsFolder <$> objects))).
  { eapply agree_subseteq; [|exact Hag]. intros t Ht.
    apply Hsub. rewrite !elem_of_app in Ht.
    rewrite elem_of_app, elem_of_cons.
    destruct Ht as [[?|Ht%list_elem_of_singleton]|?];
      [tauto|subst t; tauto|tauto]. }
  assert (Honce3 : written_once (D ++ [T])
                     (objectTarget L assetsFolder <$> objects) new3).
  { pose proof (chunks_run_once _ _ _ _ _ _ _ Hchunks (D ++ [T]) new3 eq_refl)
      as Hc. rewrite drop_0 in Hc. apply Hc; [done| | |done].
    - apply object_paths_NoDup; [|apply dedupe_spec].
      eapply agree_subseteq; [|exact Hag3]. intros t Ht.
      apply elem_of_app. by right.
    - simpl. rewrite Hfiles2.
      intros t [Ht|Ht%list_elem_of_singleton]%elem_of_app; [|by subst t].
      eapply correct_lookup; [|by apply HD]. by apply Hfr1. }
  (* together *)
  apply (written_once_weaken D ([T] ++ (objectTarget L assetsFolder <$> objects))).
  { intros t Ht. rewrite Hcalls', elem_of_reverse. exact Ht. }
  rewrite Hnew.
  replace ([T] ++ (objectTarget L assetsFolder <$> objects))
    with ([T] ++ ([] ++ (objectTarget L assetsFolder <$> objects)) ++ [])
    by (simpl; by rewrite app_nil_r).
  replace ([info2] ++ new3 ++ [info1; EvIo (IoReadFile (t_path T))] ++ new1)
    with ([info2] ++ (new3 ++ [info1; EvIo (IoReadFile (t_path T))]) ++ new1)
    by (by rewrite <- !app_assoc).
  assert (Hquiet : ∀ D', written_once D' []
                           [info1; EvIo (IoReadFile (t_path T))]).
  { intros D' path. simpl. split; [lia|done]. }
  rewrite (app_assoc _ _ new1).
  apply written_once_app; [done|].
  apply (written_once_app _ _ [] _ [info2]); [|by apply written_once_other].
  apply written_once_app; [apply Hquiet|]. by rewrite app_nil_r.
Qed.

Lemma syncIndices_once assetsFolder indices : ∀ D w w' new,
  syncIndices E L assetsFolder indices w = (Fulfilled tt, w') →
  log w' = new ++ log w →
  agree (D ++ calls new) →
  (∀ t, t ∈ D → correct L (files w) t) →
  written_once D (calls new) new.
Proof.
  induction indices as [|a indices IH]; intros D w w' new Hrun Hlog Hag HD;
    simpl in Hrun.
  - injection Hrun as <-.
    rewrite <- (app_nil_l (log w)) in Hlog at 1.
    apply app_inv_tail in Hlog as <-. apply written_once_nil.
  - destruct (syncIndex E L assetsFolder a w) as [[[]|e] w1] eqn:Hone; [|done].
    destruct (syncIndex_surfaces E L _ _ _ _ _ Hone) as (new1 & Hlog1 & _).
    destruct (syncIndices_surfaces E L _ _ _ _ _ Hrun) as (new2 & Hlog2 & _).
    assert (Hnew : new = new2 ++ new1).
    { rewrite Hlog2, Hlog1, app_assoc in Hlog. by apply app_inv_tail in Hlog. }
    subst new. rewrite calls_app in Hag.
    assert (Hag1 : agree (D ++ calls new1)).
    { eapply agree_subseteq; [|exact Hag]. intros t.
      rewrite !elem_of_app. tauto. }
    pose proof (syncIndex_once D _ _ _ _ _ Hone Hlog1 Hag1 HD) as Honce1.
    destruct (syncIndex_frozen E L Hff D _ _ _ _ _ Hone Hlog1 Hag1 HD)
      as (text & members & Hcalls1 & _ & _ & Hfr1 & Hc1).
    apply (written_once_weaken D (calls new1 ++ calls new2)).
    { intros t. rewrite calls_app, !elem_of_app. tauto. }
    apply written_once_app; [done|].
    apply (IH _ _ _ _ Hrun Hlog2).
    + eapply agree_subseteq; [|exact Hag]. intros t.
      rewrite !elem_of_app. tauto.
    + intros t [Ht|Ht]%elem_of_app.
      * eapply correct_lookup; [|by apply HD]. by apply Hfr1.
      * apply Hc1. by rewrite Hcalls1, elem_of_reverse in Ht.
Qed.

End WriteOnce.

(** Within a run that completes, on a filesystem whose requests do not
    fail and with calls on one path expecting the same file, no file is
    written twice, and every write is the write of a call that returned
    [true]: an object that several asset indices list is downloaded for the
    first of them and verified for the others.  A file that a call of the
    run expects and that was there when the run started is not written at
    all, and is left as it was. *)
Theorem downloadAssets_writes_each_file_once
    (E : Env) (L : Lib) (minecraftVersions : list string)
    (assetsFolder : string) (w w' : World) (new : list event) :
  fault_free E →
  downloadAssets E L minecraftVersions assetsFolder w = (Fulfilled tt, w') →
  log w' = new ++ log w →
  consistent (calls new) = true →
  (∀ path,
     (count (is_write_to path) new ≤ 1)%nat ∧
     count (downloaded_to path) new = count (is_write_to path) new) ∧
  (∀ t, t ∈ calls new → correct L (files w) t →
     count (is_write_to (t_path t)) new = 0%nat ∧
     files w' !! t_path t = files w !! t_path t).
Proof.
  intros Hff Hrun Hlog Hcons.
  (* every write is the write of a call that returned [true] *)
  assert (Hacc : ∀ path,
    count (downloaded_to path) new = count (is_write_to path) new).
  { destruct (downloadAssets_run_footprint E L _ _ _ _ _ Hrun)
      as (new0 & Hlog0 & _ & [Hcount _] & _).
    assert (new0 = new) as ->.
    { apply (app_inv_tail (log w)). by rewrite <- Hlog0, Hlog. }
    destruct (downloadAssets_surfaces E L _ _ _ _ _ Hrun) as (new0 & Hlog0' & Hs).
    assert (new0 = new) as ->.
    { apply (app_inv_tail (log w)). by rewrite <- Hlog0', Hlog. }
    intros path. destruct (Hcount path) as [Hlo Hhi].
    rewrite count_rejected_to_zero in Hhi; [lia|].
    intros t e Hin. by apply Hs in Hin. }
  unfold downloadAssets in Hrun.
  set (info0 := EvInfo (InfoDownloading minecraftVersions)) in *.
  destruct (exec E (getAssetIndices L minecraftVersions) (record info0 w))
    as [[idx|e] wa] eqn:Hresolve; [|done].
  destruct (getAssetIndices_run E L _ _ _ _ Hresolve)
    as (HfA & evsA & HlogA & HfetchA).
  set (ids := EvInfo (InfoIndexIds (Object_keys idx))) in *.
  destruct (syncIndices E L assetsFolder (Object_values idx) (record ids wa))
    as [[[]|e] wb] eqn:Hsync; [|done].
  destruct (syncIndices_surfaces E L _ _ _ _ _ Hsync) as (newS & HlogS & _).
  unfold getFolderSize, await in Hrun. cbn [exec] in Hrun.
  rewrite (perform_folder_size E Hff) in Hrun. simpl in Hrun.
  injection Hrun as <-. simpl in Hlog, HlogS, HlogA, HfA.
  set (size := EvInfo (InfoOverallSize (folder_bytes E (files wb) assetsFolder)))
    in *.
  assert (Hnew : new = [size; EvIo (IoFolderSize assetsFolder)] ++ newS
                       ++ [ids] ++ evsA ++ [info0]).
  { apply (app_inv_tail (log w)). rewrite <- Hlog, HlogS, HlogA.
    repeat first [progress simpl | rewrite <- app_assoc]; reflexivity. }
  assert (HcallsA : calls evsA = []).
  { apply io_no_calls. eapply Forall_impl; [exact HfetchA|].
    by intros [[]| | |]. }
  assert (HwritesA : ∀ path, count (is_write_to path) evsA = 0%nat).
  { intros path. clear -HfetchA. induction HfetchA as [|ev evs Hev _ IH]; [done|].
    simpl. rewrite IH. by destruct ev as [[]| | |]. }
  assert (Hcalls : calls new = calls newS).
  { rewrite Hnew, !calls_app, HcallsA. simpl. by rewrite app_nil_r. }
  assert (Hwrites : ∀ path,
    count (is_write_to path) new = count (is_write_to path) newS).
  { intros path. rewrite Hnew, !count_app, HwritesA. simpl. lia. }
  rewrite Hcalls in Hcons.
  split.
  - intros path. split; [|done]. rewrite Hwrites.
    apply (syncIndices_once E L Hff assetsFolder _ [] _ _ _ Hsync HlogS).
    + simpl. by apply consistent_agree.
    + by intros t ?%elem_of_nil.
  - intros t Ht Hc. rewrite Hcalls in Ht.
    assert (Hag : agree ([t] ++ calls newS)).
    { eapply agree_subseteq; [|by apply consistent_agree].
      intros t' [->%list_elem_of_singleton|?]%elem_of_app; done. }
    assert (HD : ∀ t', t' ∈ [t] → correct L (files (record ids wa)) t').
    { intros t' ->%list_elem_of_singleton. simpl. by rewrite HfA. }
    split.
    + rewrite Hwrites.
      destruct (syncIndices_once E L Hff assetsFolder _ [t] _ _ _ Hsync HlogS
                  Hag HD (t_path t)) as [_ Hne].
      destruct (decide (count (is_write_to (t_path t)) newS = 0%nat))
        as [|Hc0]; [done|].
      destruct (Hne Hc0) as [Hnin _]. destruct Hnin. simpl.
      by apply list_elem_of_singleton.
    + destruct (syncIndices_frozen E L Hff assetsFolder _ [t] _ _ _ Hsync HlogS
                  Hag HD) as (_ & _ & _ & Hfr & _).
      simpl in Hfr. rewrite <- HfA. apply Hfr. by apply list_elem_of_singleton.
Qed.

(** On the origin whose two asset indices share the object 2: the run calls
    for its file twice and writes it once. *)
Lemma downloadAssets_writes_each_file_once_witness :
  Example.shared_run.1 = Fulfilled tt ∧
  length (filter (λ t, t_path t = "assets/objects/2/2")
            (calls (log Example.shared_run.2))) = 2%nat ∧
  (count (is_write_to "assets/objects/2/2") (log Example.shared_run.2) ≤ 1)%nat ∧
  count (downloaded_to "assets/objects/2/2") (log Example.shared_run.2)
  = count (is_write_to "assets/objects/2/2") (log Example.shared_run.2).
Proof.
  split; [reflexivity|]. split; [vm_compute; reflexivity|].
  assert (Hrun : downloadAssets Example.shared_origin Example.lib ["v7"; "v8"]
                   "assets" Example.empty_world
                 = (Fulfilled tt, Example.shared_run.2))
    by (vm_compute; reflexivity).
  destruct (downloadAssets_writes_each_file_once Example.shared_origin
              Example.lib ["v7"; "v8"] "assets" Example.empty_world
              Example.shared_run.2 (log Example.shared_run.2))
    as [Honce _].
  - intros h op. reflexivity.
  - exact Hrun.
  - exact (eq_sym (app_nil_r _)).
  - vm_compute. reflexivity.
  - exact (Honce "assets/objects/2/2").
Defined.

(** ** A folder that is complete already *)

(** However the files got there, from a restored cache for instance: when
    the assets folder holds, for the asset indices of the versions, the
    document of each index and every object of its manifest with the
    expected size and checksum, and no filesystem request fails,
    [downloadAssets] completes; after the requests of the version resolution
    it makes no download request and no write, every call returns [false],
    and the files are left as they were. *)
Theorem downloadAssets_verifies_complete_folder
    (E : Env) (L : Lib) (minecraftVersions : list string)
    (assetsFolder : string) (w wr : World) (indices : jsobj AssetIndex)
    (ts : list target) :
  fault_free E →
  exec E (getAssetIndices L minecraftVersions)
    (record (EvInfo (InfoDownloading minecraftVersions)) w)
  = (Fulfilled indices, wr) →
  plan L assetsFolder (files w) (Object_values indices) = Some ts →
  (∀ t, t ∈ ts → correct L (files w) t) →
  ∃ w' resolution verification,
    downloadAssets E L minecraftVersions assetsFolder w = (Fulfilled tt, w') ∧
    files w' = files w ∧
    log w' = verification ++ resolution
               ++ EvInfo (InfoDownloading minecraftVersions) :: log w ∧
    Forall (λ ev, is_fetch_only ev = true) resolution ∧
    Forall (λ ev, is_reuse ev = true) verification ∧
    calls verification = reverse ts ∧
    (∀ t, t ∈ ts → EvSettle t (Fulfilled false) ∈ verification).
Proof.
  intros Hff Hresolve Hplan Hcorrect.
  unfold downloadAssets. rewrite Hresolve.
  set (info0 := EvInfo (InfoDownloading minecraftVersions)) in *.
  set (ids := EvInfo (InfoIndexIds (Object_keys indices))).
  destruct (getAssetIndices_run E L _ _ _ _ Hresolve)
    as (HfR & evsR & HlogR & HfetchR).
  simpl in HfR, HlogR.
  destruct (syncIndices_reuse E L Hff assetsFolder (Object_values indices)
              (record ids wr) ts)
    as (w' & new2 & -> & Hf2 & Hlog2 & Hre2 & Hcalls2 & Hdone2).
  { simpl. by rewrite HfR. }
  { intros t Ht. simpl. rewrite HfR. by apply Hcorrect. }
  unfold getFolderSize, await. cbn [exec].
  rewrite (perform_folder_size E Hff). simpl.
  eexists _, evsR,
    (EvInfo (InfoOverallSize (folder_bytes E (files w') assetsFolder))
       :: EvIo (IoFolderSize assetsFolder) :: new2 ++ [ids]).
  split_and!; [done| | |done| | |].
  - simpl. by rewrite Hf2.
  - simpl. rewrite Hlog2. simpl. rewrite HlogR, <- !app_assoc. done.
  - constructor; [done|]. constructor; [done|]. apply Forall_app.
    split; [done|]. by repeat constructor.
  - simpl. rewrite calls_app. simpl. by rewrite app_nil_r, Hcalls2.
  - intros t Ht. right. right. apply elem_of_app. left. by apply Hdone2.
Qed.

(** On the concrete origin: the folder a first run left, found by a run
    that starts with an empty history. *)
Lemma downloadAssets_verifies_complete_folder_witness :
  ∃ w' verification,
    downloadAssets Example.origin Example.lib ["v7"; "v8"] "assets"
      {| files := files Example.first_run.2; log := [] |} = (Fulfilled tt, w') ∧
    files w' = files Example.first_run.2 ∧
    Forall (λ ev, is_reuse ev = true) verification ∧
    reverse (calls verification) =
      [ indexTarget Example.lib "assets" Example.index9;
        objectTarget Example.lib "assets" {| hash := "1"; size := 1 |};
        objectTarget Example.lib "assets" {| hash := "2"; size := 1 |} ].
Proof.
  set (w := {| files := files Example.first_run.2; log := [] |}).
  set (ts := [ indexTarget Example.lib "assets" Example.index9;
               objectTarget Example.lib "assets" {| hash := "1"; size := 1 |};
               objectTarget Example.lib "assets" {| hash := "2"; size := 1 |} ]).
  assert (Hr : (exec Example.origin (getAssetIndices Example.lib ["v7"; "v8"])
                  (record (EvInfo (InfoDownloading ["v7"; "v8"])) w)).1
               = Fulfilled (obj_set "9" Example.index9 []))
    by (vm_compute; reflexivity).
  destruct (exec Example.origin (getAssetIndices Example.lib ["v7"; "v8"])
              (record (EvInfo (InfoDownloading ["v7"; "v8"])) w))
    as [r wr] eqn:Hresolve.
  simpl in Hr. subst r.
  destruct (downloadAssets_verifies_complete_folder Example.origin Example.lib
              ["v7"; "v8"] "assets" w wr [("9", Example.index9)] ts)
    as (w' & resolution & verification & Hrun & Hfiles & _ & _ & Hreuse
        & Hcalls & _).
  - intros h op. reflexivity.
  - exact Hresolve.
  - vm_compute. reflexivity.
  - intros t Ht. unfold ts in Ht. members Ht; subst t;
      (eexists; split; [vm_compute; reflexivity|split; vm_compute; reflexivity]).
  - exists w', verification. split; [exact Hrun|]. split; [exact Hfiles|].
    split; [exact Hreuse|]. rewrite Hcalls. reflexivity.
Defined.

(** ** The action *)

Section ActionFacts.
Context (T : Toolkit) (E : Env) (L : Lib) (R : Runtime).

(** Lines 17-30 read the file at most once. *)
Lemma detectVersion_run vs file regexp j :
  detectVersion E R vs file regexp j =
  if truthy (Some file) && truthy (Some regexp) then
    let w := record (EvIo (IoReadFile file)) (world j) in
    match (exec E (guessCurrentMinecraftVersionFromFile R file regexp)
             (world j)).1 with
    | Rejected e => (Rejected e, {| world := w; notices := notices j |})
    | Fulfilled v =>
        (Fulfilled (if truthy v then vs ++ [default "" v] else vs),
         {| world := w; notices := NoteDetected file v :: notices j |})
    end
  else (Fulfilled vs, j).
Proof.
  unfold detectVersion. destruct (truthy _ && truthy _); [|done].
  rewrite guess_run. simpl.
  by destruct (match (perform E (IoReadFile file) (world j)).1 with
               | Fulfilled _ => _ | Rejected _ => _ end).
Qed.


Local Abbreviation file := (getInput T "minecraft-version-file").
Local Abbreviation regexp := (getInput T "minecraft-version-regexp").
Local Abbreviation configured := (getMultilineInput T "minecraft-versions").
Local Abbreviation prefix := (getInput T "cache-key" +:+ "-").

(** The courses a run can take. *)
Lemma run_inv j r j' :
  run T E L R j = (r, j') →
  let versions := effective_versions T E R (world j) in
  let key := prefix +:+ hashMinecraftVersions L versions in
  ∃ ws said,
    files ws = files (world j) ∧
    (log ws = log (world j) ∨ log ws = EvIo (IoReadFile file) :: log (world j)) ∧
    (said = [NoteConfigured configured] ∨
     ∃ v, said = [NoteDetected file v; NoteConfigured configured] ∧
          scraped T E R (world j) = Fulfilled v) ∧
    ((∃ e, scraped T E R (world j) = Rejected e ∧ r = Rejected e ∧
           world j' = ws ∧ notices j' = NoteConfigured configured :: notices j)
     ∨ (isFeatureAvailable T = false ∧
        is_fulfilled (scraped T E R (world j)) = true ∧
        r = Fulfilled tt ∧ world j' = ws ∧
        notices j' = NoteUnavailable :: said ++ notices j)
     ∨ (isFeatureAvailable T = true ∧
        is_fulfilled (scraped T E R (world j)) = true ∧
        ∃ rr fs, restoreCache T ws ["assets"] key [prefix] = (rr, fs) ∧
          let wr := {| files := fs; log := log ws |} in
          let said' := NoteRestore ["assets"] key [prefix] :: said in
          ((∃ e, rr = Rejected e ∧ r = Rejected e ∧ world j' = wr ∧
                 notices j' = said' ++ notices j)
           ∨ (rr = Fulfilled (Some key) ∧ r = Fulfilled tt ∧ world j' = wr ∧
              notices j' = NoteNothingToDo key :: said' ++ notices j)
           ∨ (rr ≠ Fulfilled (Some key) ∧ is_fulfilled rr = true ∧
              ∃ rd wd, downloadAssets E L versions "assets" wr = (rd, wd) ∧
                world j' = wd ∧
                ((∃ e, rd = Rejected e ∧ r = Rejected e ∧
                       notices j' = said' ++ notices j)
                 ∨ (rd = Fulfilled tt ∧
                    notices j' = NoteSave ["assets"] key :: said' ++ notices j ∧
                    r = settled_map (λ _, tt)
                          (saveCache T wd ["assets"] key))))))).
Proof.
  intros Hrun versions key. unfold run in Hrun.
  rewrite detectVersion_run in Hrun. cbv zeta in Hrun.
  assert (Hv : ∀ vs,
    (∃ v, scraped T E R (world j) = Fulfilled v ∧
          vs = (if truthy v then configured ++ [default "" v] else configured)) →
    vs = versions).
  { intros vs (v & Hs & ->). unfold versions, effective_versions. rewrite Hs.
    destruct v as [v|]; simpl; [|by rewrite app_nil_r].
    destruct (String.eqb v ""); simpl; [by rewrite app_nil_r|done]. }
  assert (Hcont : ∀ ws said vs,
    files ws = files (world j) →
    is_fulfilled (scraped T E R (world j)) = true →
    vs = versions →
    (let key := prefix +:+ hashMinecraftVersions L vs in
     if negb (isFeatureAvailable T)
     then (Fulfilled tt, note NoteUnavailable
                           {| world := ws; notices := said ++ notices j |})
     else
       let j1 := note (NoteRestore ["assets"] key [prefix])
                   {| world := ws; notices := said ++ notices j |} in
       match restoreCache T (world j1) ["assets"] key [prefix] with
       | (Rejected e, fs) =>
           (Rejected e,
            {| world := {| files := fs; log := log (world j1) |};
               notices := notices j1 |})
       | (Fulfilled restoredCacheKey, fs) =>
           let j2 := {| world := {| files := fs; log := log (world j1) |};
                        notices := notices j1 |} in
           if decide (restoredCacheKey = Some key)
           then (Fulfilled tt, note (NoteNothingToDo key) j2)
           else
             match downloadAssets E L vs "assets" (world j2) with
             | (Rejected e, w) =>
                 (Rejected e, {| world := w; notices := notices j2 |})
             | (Fulfilled _, w) =>
                 let j3 := note (NoteSave ["assets"] key)
                             {| world := w; notices := notices j2 |} in
                 match saveCache T w ["assets"] key with
                 | Rejected e => (Rejected e, j3)
                 | Fulfilled _ => (Fulfilled tt, j3)
                 end
             end
       end) = (r, j') →
    (isFeatureAvailable T = false ∧
        is_fulfilled (scraped T E R (world j)) = true ∧
        r = Fulfilled tt ∧ world j' = ws ∧
        notices j' = NoteUnavailable :: said ++ notices j)
     ∨ (isFeatureAvailable T = true ∧
        is_fulfilled (scraped T E R (world j)) = true ∧
        ∃ rr fs, restoreCache T ws ["assets"] key [prefix] = (rr, fs) ∧
          let wr := {| files := fs; log := log ws |} in
          let said' := NoteRestore ["assets"] key [prefix] :: said in
          ((∃ e, rr = Rejected e ∧ r = Rejected e ∧ world j' = wr ∧
                 notices j' = said' ++ notices j)
           ∨ (rr = Fulfilled (Some key) ∧ r = Fulfilled tt ∧ world j' = wr ∧
              notices j' = NoteNothingToDo key :: said' ++ notices j)
           ∨ (rr ≠ Fulfilled (Some key) ∧ is_fulfilled rr = true ∧
              ∃ rd wd, downloadAssets E L versions "assets" wr = (rd, wd) ∧
                world j' = wd ∧
                ((∃ e, rd = Rejected e ∧ r = Rejected e ∧
                       notices j' = said' ++ notices j)
                 ∨ (rd = Fulfilled tt ∧
                    notices j' = NoteSave ["assets"] key :: said' ++ notices j ∧
                    r = settled_map (λ _, tt)
                          (saveCache T wd ["assets"] key))))))).
  { intros ws said vs Hfs Hful -> Heq. cbv zeta in Heq. simpl in Heq.
    fold key in Heq.
    destruct (isFeatureAvailable T); simpl in Heq.
    2:{ left. by simplify_eq. }
    right. split; [done|]. split; [done|].
    destruct (restoreCache T ws ["assets"] key [prefix]) as [[rk|e] fs] eqn:Hr.
    2:{ exists (Rejected e), fs. split; [done|]. left. exists e. by simplify_eq. }
    exists (Fulfilled rk), fs. split; [done|].
    destruct (decide (rk = Some key)) as [->|Hne].
    { right. left. by simplify_eq. }
    right. right. split; [congruence|]. split; [done|].
    destruct (downloadAssets E L versions "assets" _) as [[[]|e] wd] eqn:Hd.
    2:{ exists (Rejected e), wd. split; [done|]. simplify_eq. split; [done|].
        left. by exists e. }
    exists (Fulfilled tt), wd. split; [done|].
    destruct (saveCache T wd ["assets"] key) as [id|e]; simplify_eq;
      (split; [done|]); right; done. }
  change (world (note (NoteConfigured configured) j)) with (world j) in Hrun.
  change (notices (note (NoteConfigured configured) j))
    with ([NoteConfigured configured] ++ notices j) in Hrun.
  set (w1 := record (EvIo (IoReadFile file)) (world j)) in *.
  destruct (truthy (Some file) && truthy (Some regexp)) eqn:Hboth.
  - destruct ((exec E (guessCurrentMinecraftVersionFromFile R file regexp)
                 (world j)).1) as [v|e] eqn:Hscrape.
    + exists w1, [NoteDetected file v; NoteConfigured configured].
      assert (Hs : scraped T E R (world j) = Fulfilled v).
      { unfold scraped. by rewrite Hboth. }
      split_and!; [done|by right|right; by exists v|].
      right.
      assert (Hful : is_fulfilled (scraped T E R (world j)) = true)
        by by rewrite Hs.
      apply (Hcont w1 _ _ eq_refl Hful (Hv _ (ex_intro _ v (conj Hs eq_refl)))).
      exact Hrun.
    + exists w1, [NoteConfigured configured].
      split_and!; [done|by right|by left|]. left. exists e.
      unfold scraped. rewrite Hboth. simplify_eq. done.
  - exists (world j), [NoteConfigured configured].
    assert (Hs : scraped T E R (world j) = Fulfilled None).
    { unfold scraped. by rewrite Hboth. }
    split_and!; [done|by left|by left|].
    right. apply (Hcont (world j) _ configured eq_refl).
    + by rewrite Hs.
    + apply Hv. exists None. by split.
    + exact Hrun.
Qed.


(** What a run said, in each of its courses. *)
Lemma run_said j r j' new :
  run T E L R j = (r, j') →
  notices j' = new ++ notices j →
  let versions := effective_versions T E R (world j) in
  let key := prefix +:+ hashMinecraftVersions L versions in
  ∃ said tail,
    new = tail ++ said ∧
    (said = [NoteConfigured configured] ∨
     ∃ v, said = [NoteDetected file v; NoteConfigured configured] ∧
          scraped T E R (world j) = Fulfilled v) ∧
    (tail = [] ∨ tail = [NoteUnavailable]
     ∨ tail = [NoteRestore ["assets"] key [prefix]]
     ∨ tail = [NoteNothingToDo key; NoteRestore ["assets"] key [prefix]]
     ∨ tail = [NoteSave ["assets"] key; NoteRestore ["assets"] key [prefix]]).
Proof.
  intros Hrun Hnew versions key.
  destruct (run_inv j r j' Hrun) as (ws & said & _ & _ & Hsaid & Hcase).
  fold versions key in Hcase.
  assert (Hcut : ∀ tail, notices j' = tail ++ said ++ notices j →
                         new = tail ++ said).
  { intros tail Hn. apply (app_inv_tail (notices j)).
    by rewrite <- Hnew, Hn, app_assoc. }
  destruct Hcase as [(e & _ & _ & _ & Hn)|[(_ & _ & _ & _ & Hn)|
    (_ & _ & rr & fs & _ & Hcase)]].
  - exists [NoteConfigured configured], []. split_and!; [|by left|by left].
    apply (app_inv_tail (notices j)). by rewrite <- Hnew, Hn.
  - exists said, [NoteUnavailable]. split_and!; [by apply Hcut|done|tauto].
  - exists said. cbv zeta in Hcase.
    destruct Hcase as [(e & _ & _ & _ & Hn)|[(_ & _ & _ & Hn)|
      (_ & _ & rd & wd & _ & _ & [(e & _ & _ & Hn)|(_ & Hn & _)])]].
    + exists [NoteRestore ["assets"] key [prefix]].
      split_and!; [by apply Hcut|done|tauto].
    + exists [NoteNothingToDo key; NoteRestore ["assets"] key [prefix]].
      split_and!; [by apply Hcut|done|tauto].
    + exists [NoteRestore ["assets"] key [prefix]].
      split_and!; [by apply Hcut|done|tauto].
    + exists [NoteSave ["assets"] key; NoteRestore ["assets"] key [prefix]].
      split_and!; [by apply Hcut|done|tauto].
Qed.

(** What is said up to the scrape is neither a request to the cache service
    nor a verdict. *)
Lemma said_quiet said v :
  said = [NoteConfigured (getMultilineInput T "minecraft-versions")] ∨
  (said = [NoteDetected file v;
           NoteConfigured (getMultilineInput T "minecraft-versions")]) →
  ∀ n, n ∈ said →
    is_restore n = false ∧ is_save n = false ∧ n ≠ NoteUnavailable ∧
    (∀ k, n ≠ NoteNothingToDo k) ∧ (∀ e, n ≠ NoteFailed e).
Proof.
  intros [-> | ->] n Hn; members Hn; subst n; done.
Qed.

End ActionFacts.

Section ActionHit.
Context (T : Toolkit) (E : Env) (L : Lib) (R : Runtime).

Local Abbreviation file := (getInput T "minecraft-version-file").
Local Abbreviation regexp := (getInput T "minecraft-version-regexp").
Local Abbreviation configured := (getMultilineInput T "minecraft-versions").
Local Abbreviation prefix := (getInput T "cache-key" +:+ "-").

(** A restore that answers with the very key asked for ends the run. *)
Lemma run_hit j fs :
  let ws := scrape_world T (world j) in
  let key := prefix +:+ hashMinecraftVersions L
                          (effective_versions T E R (world j)) in
  is_fulfilled (scraped T E R (world j)) = true →
  isFeatureAvailable T = true →
  restoreCache T ws ["assets"] key [prefix] = (Fulfilled (Some key), fs) →
  ∃ said,
    (said = [NoteConfigured configured] ∨
     ∃ v, said = [NoteDetected file v; NoteConfigured configured]) ∧
    run T E L R j
    = (Fulfilled tt,
       {| world := {| files := fs; log := log ws |};
          notices := NoteNothingToDo key :: NoteRestore ["assets"] key [prefix]
                     :: said ++ notices j |}).
Proof.
  intros ws key Hful Hav Hrestore.
  unfold run. rewrite detectVersion_run. cbv zeta.
  unfold ws, key, effective_versions, scraped, scrape_world in *.
  change (world (note (NoteConfigured configured) j)) with (world j).
  change (notices (note (NoteConfigured configured) j))
    with ([NoteConfigured configured] ++ notices j).
  destruct (truthy (Some file) && truthy (Some regexp)).
  - destruct ((exec E (guessCurrentMinecraftVersionFromFile R file regexp)
                 (world j)).1) as [v|e]; [|done].
    exists [NoteDetected file v; NoteConfigured configured].
    split; [right; by exists v|].
    assert ((if truthy v then configured ++ [default "" v] else configured)
            = configured ++ match v with
                            | Some v => if String.eqb v "" then [] else [v]
                            | None => []
                            end) as ->.
    { destruct v as [v|]; simpl; [|by rewrite app_nil_r].
      destruct (String.eqb v ""); simpl; [by rewrite app_nil_r|done]. }
    rewrite Hav. simpl. cbn [world note] . rewrite Hrestore.
    by rewrite decide_True.
  - exists [NoteConfigured configured]. split; [by left|].
    rewrite app_nil_r in Hrestore |- *.
    rewrite Hav. simpl. rewrite Hrestore.
    by rewrite decide_True.
Qed.

End ActionHit.

(** The cache key.  The key under which [run] asks for the cache, and
    under which it saves it, is the [cache-key] input, a dash and the MD5 of
    the effective versions: the configured versions, followed by the
    version found in the file when there is one.  The restore is asked for
    the folder [assets] under this key with the prefix as only fallback.
    What the run says is kept most recent first: a save, and the message
    that nothing is to do, are the last thing the run says, name the same
    key, and the restore is what the run said just before; a run asks for
    at most one restore and one save. *)
Theorem run_cache_key (T : Toolkit) (E : Env) (L : Lib) (R : Runtime)
    (j j' : Job) (r : settled unit) (new : list notice) :
  run T E L R j = (r, j') →
  notices j' = new ++ notices j →
  let versions := effective_versions T E R (world j) in
  let prefix := getInput T "cache-key" +:+ "-" in
  let key := prefix +:+ hashMinecraftVersions L versions in
  (∀ paths k restoreKeys, NoteRestore paths k restoreKeys ∈ new →
     paths = ["assets"] ∧ k = key ∧ restoreKeys = [prefix]) ∧
  (∀ paths k, NoteSave paths k ∈ new →
     paths = ["assets"] ∧ k = key ∧ NoteRestore ["assets"] key [prefix] ∈ new ∧
     ∃ earlier,
       new = NoteSave ["assets"] key :: NoteRestore ["assets"] key [prefix]
             :: earlier ∧
       ∀ n, n ∈ earlier → is_restore n = false ∧ is_save n = false) ∧
  (∀ k, NoteNothingToDo k ∈ new →
     k = key ∧ NoteRestore ["assets"] key [prefix] ∈ new ∧
     ∃ earlier,
       new = NoteNothingToDo key :: NoteRestore ["assets"] key [prefix]
             :: earlier ∧
       ∀ n, n ∈ earlier → is_restore n = false ∧ is_save n = false) ∧
  (length (filter (λ n, is_restore n = true) new) ≤ 1)%nat ∧
  (length (filter (λ n, is_save n = true) new) ≤ 1)%nat.
Proof.
  intros Hrun Hnew versions prefix key.
  destruct (run_said T E L R j r j' new Hrun Hnew) as (said & tail & -> & Hsaid & Htail).
  fold versions prefix key in Htail.
  assert (Hno : ∀ n, n ∈ said → is_restore n = false ∧ is_save n = false ∧
                                ∀ k, n ≠ NoteNothingToDo k).
  { intros n Hn. destruct Hsaid as [-> | (v & -> & _)];
      repeat (apply elem_of_cons in Hn as [->|Hn]; [done|]);
      by apply elem_of_nil in Hn. }
  assert (Hno' : ∀ n, n ∈ said → is_restore n = false ∧ is_save n = false).
  { intros n Hn. apply Hno in Hn. tauto. }
  assert (Hf1 : filter (λ n, is_restore n = true) said = []).
  { destruct Hsaid as [-> | (v & -> & _)]; done. }
  assert (Hf2 : filter (λ n, is_save n = true) said = []).
  { destruct Hsaid as [-> | (v & -> & _)]; done. }
  rewrite !filter_app, Hf1, Hf2, !app_nil_r.
  split_and!.
  - intros paths k rks [Hin|Hin]%elem_of_app; [|by apply Hno in Hin as [? _]].
    destruct Htail as [-> | [-> | [-> | [-> | ->]]]]; members Hin;
      by injection Hin as -> -> ->.
  - intros paths k [Hin|Hin]%elem_of_app; [|by apply Hno in Hin as (_ & ? & _)].
    destruct Htail as [-> | [-> | [-> | [-> | ->]]]]; members Hin.
    injection Hin as -> ->. split; [done|]. split; [done|]. split.
    + apply elem_of_app. left. apply elem_of_cons. right. by apply elem_of_cons; left.
    + by exists said.
  - intros k [Hin|Hin]%elem_of_app; 
      [|apply Hno in Hin as (_ & _ & Hk); by destruct (Hk k)].
    destruct Htail as [-> | [-> | [-> | [-> | ->]]]]; members Hin.
    injection Hin as ->. split; [done|]. split.
    + apply elem_of_app. left. apply elem_of_cons. right. by apply elem_of_cons; left.
    + by exists said.
  - destruct Htail as [-> | [-> | [-> | [-> | ->]]]]; simpl; lia.
  - destruct Htail as [-> | [-> | [-> | [-> | ->]]]]; simpl; lia.
Qed.

(** On the concrete runner, with no cache to restore: the key of the save is
    the prefix and the digest of the configured version and of the one found
    in the properties file, and the save follows the restore. *)
Lemma run_cache_key_witness :
  notices Example.saving_run.2 !! 0%nat
  = Some (NoteSave ["assets"] "minecraft-assets-357") ∧
  "minecraft-assets-357"
  = ("minecraft-assets" +:+ "-") +:+
    hashMinecraftVersions Example.lib
      (effective_versions (Example.runner Example.version_line true false)
         Example.origin fragment Example.project_world) ∧
  notices Example.saving_run.2 !! 1%nat
  = Some (NoteRestore ["assets"] "minecraft-assets-357" ["minecraft-assets-"]).
Proof.
  split; [reflexivity|].
  assert (Hrun : run (Example.runner Example.version_line true false)
                   Example.origin Example.lib fragment Example.fresh_job
                 = (Example.saving_run.1, Example.saving_run.2))
    by (vm_compute; reflexivity).
  destruct (run_cache_key _ _ _ _ _ _ _ (notices Example.saving_run.2) Hrun
              (eq_sym (app_nil_r _))) as (_ & Hsave & _).
  destruct (Hsave ["assets"] "minecraft-assets-357")
    as (_ & Hkey & _ & earlier & Horder & _).
  - apply (list_elem_of_lookup_2 _ 0%nat). reflexivity.
  - split; [exact Hkey|]. rewrite Horder. cbn [lookup list_lookup].
    rewrite <- Hkey. reflexivity.
Defined.

(** Runs that download nothing.  Without the cache service the run asks for
    no restore and no save, its only request is the read of the version
    file, and no file changes; the scrape is made all the same, and its
    failure is the failure of the run.  The run says that caching is not
    available exactly when it is not and the scrape did not fail.  When the
    cache service is there, the scrape did not fail and the restore, asked
    after the scrape, answers with the very key asked for, the run is
    fulfilled: the files are those the restore left, nothing was requested
    after the read of the version file, the last thing the run says is that
    nothing is to do, and nothing is saved.  Conversely, when the run says
    that nothing is to do, the restore has answered with the very key asked
    for. *)
Theorem run_without_download (T : Toolkit) (E : Env) (L : Lib) (R : Runtime)
    (j j' : Job) (r : settled unit) (new : list notice) (evs : list event) :
  run T E L R j = (r, j') →
  notices j' = new ++ notices j →
  log (world j') = evs ++ log (world j) →
  let read := EvIo (IoReadFile (getInput T "minecraft-version-file")) in
  let prefix := getInput T "cache-key" +:+ "-" in
  let key := prefix +:+ hashMinecraftVersions L
                          (effective_versions T E R (world j)) in
  (isFeatureAvailable T = false →
     files (world j') = files (world j) ∧
     (evs = [] ∨ evs = [read]) ∧
     (∀ n, n ∈ new → is_restore n = false ∧ is_save n = false) ∧
     r = match scraped T E R (world j) with
         | Rejected e => Rejected e
         | Fulfilled _ => Fulfilled tt
         end) ∧
  (NoteUnavailable ∈ new ↔
     isFeatureAvailable T = false ∧
     is_fulfilled (scraped T E R (world j)) = true) ∧
  (∀ k, NoteNothingToDo k ∈ new →
     r = Fulfilled tt ∧ (evs = [] ∨ evs = [read]) ∧
     (∀ n, n ∈ new → is_save n = false) ∧
     ∃ ws, files ws = files (world j) ∧ log ws = log (world j') ∧
           restoreCache T ws ["assets"] k [prefix]
           = (Fulfilled (Some k), files (world j'))) ∧
  (isFeatureAvailable T = true →
   is_fulfilled (scraped T E R (world j)) = true →
   ∀ fs,
     restoreCache T (scrape_world T (world j)) ["assets"] key [prefix]
     = (Fulfilled (Some key), fs) →
     r = Fulfilled tt ∧
     world j' = {| files := fs; log := log (scrape_world T (world j)) |} ∧
     (evs = [] ∨ evs = [read]) ∧
     (∃ earlier,
        new = NoteNothingToDo key :: NoteRestore ["assets"] key [prefix]
              :: earlier ∧
        ∀ n, n ∈ earlier → is_restore n = false ∧ is_save n = false) ∧
     (∀ n, n ∈ new → is_save n = false)).
Proof.
  intros Hrun Hnew Hlog read prefix key.
  assert (Hforward :
    isFeatureAvailable T = true →
    is_fulfilled (scraped T E R (world j)) = true →
    ∀ fs,
     restoreCache T (scrape_world T (world j)) ["assets"] key [prefix]
     = (Fulfilled (Some key), fs) →
     r = Fulfilled tt ∧
     world j' = {| files := fs; log := log (scrape_world T (world j)) |} ∧
     (evs = [] ∨ evs = [read]) ∧
     (∃ earlier,
        new = NoteNothingToDo key :: NoteRestore ["assets"] key [prefix]
              :: earlier ∧
        ∀ n, n ∈ earlier → is_restore n = false ∧ is_save n = false) ∧
     (∀ n, n ∈ new → is_save n = false)).
  { intros Hav Hful fs Hrestore.
    destruct (run_hit T E L R j fs Hful Hav Hrestore) as (said & Hsaid & Hhit).
    rewrite Hhit in Hrun. injection Hrun as <- <-.
    cbn [notices world log] in Hnew, Hlog.
    assert (Hquiet : ∀ n, n ∈ said → is_restore n = false ∧ is_save n = false).
    { intros n Hn. destruct Hsaid as [-> | (v & ->)]; members Hn; by subst n. }
    assert (new = NoteNothingToDo key :: NoteRestore ["assets"] key [prefix]
                  :: said) as ->.
    { apply (app_inv_tail (notices j)). by rewrite <- Hnew. }
    split_and!; [done|done| |by exists said|].
    - unfold scrape_world in Hlog. fold read in Hlog.
      destruct (truthy _ && truthy _).
      + right. apply (app_inv_tail (log (world j))). by rewrite <- Hlog.
      + left. apply (app_inv_tail (log (world j))). by rewrite <- Hlog.
    - intros n Hn. apply elem_of_cons in Hn as [->|Hn]; [done|].
      apply elem_of_cons in Hn as [->|Hn]; [done|]. by apply Hquiet in Hn as [_ ?]. }
  enough (Hrest :
    (isFeatureAvailable T = false →
       files (world j') = files (world j) ∧
       (evs = [] ∨ evs = [read]) ∧
       (∀ n, n ∈ new → is_restore n = false ∧ is_save n = false) ∧
       r = match scraped T E R (world j) with
           | Rejected e => Rejected e
           | Fulfilled _ => Fulfilled tt
           end) ∧
    (NoteUnavailable ∈ new ↔
       isFeatureAvailable T = false ∧
       is_fulfilled (scraped T E R (world j)) = true) ∧
    (∀ k, NoteNothingToDo k ∈ new →
       r = Fulfilled tt ∧ (evs = [] ∨ evs = [read]) ∧
       (∀ n, n ∈ new → is_save n = false) ∧
       ∃ ws, files ws = files (world j) ∧ log ws = log (world j') ∧
             restoreCache T ws ["assets"] k [prefix]
             = (Fulfilled (Some k), files (world j'))))
    by (destruct Hrest as (H1 & H2 & H3); split_and!; done).
  clear Hforward key.
  destruct (run_inv T E L R j r j' Hrun)
    as (ws & said & Hfs & Hws & Hsaid & Hcase).
  assert (Hq := said_quiet T said).
  assert (Hcut : ∀ tl, notices j' = tl ++ said ++ notices j → new = tl ++ said).
  { intros tl Hn. apply (app_inv_tail (notices j)).
    by rewrite <- Hnew, Hn, app_assoc. }
  assert (Hevs : ∀ w, files w = files w → log w = log ws → world j' = w →
                      evs = [] ∨ evs = [read]).
  { intros w _ Hw Hj. rewrite Hj, Hw in Hlog. destruct Hws as [Hws|Hws].
    - left. apply (app_inv_tail (log (world j))). by rewrite <- Hlog, Hws.
    - right. apply (app_inv_tail (log (world j))). by rewrite <- Hlog, Hws. }
  assert (Hquiet : ∀ n, n ∈ said →
    is_restore n = false ∧ is_save n = false ∧ n ≠ NoteUnavailable ∧
    (∀ k, n ≠ NoteNothingToDo k) ∧ (∀ e, n ≠ NoteFailed e)).
  { destruct Hsaid as [-> | (v & -> & _)]; [apply (Hq None)|apply (Hq v)]; tauto. }
  clear Hq.
  destruct Hcase as [(e & Hs & -> & Hj & Hn)|[(Hav & Hful & -> & Hj & Hn)|
    (Hav & Hful & rr & fs & Hr & Hcase)]].
  - assert (new = [NoteConfigured (getMultilineInput T "minecraft-versions")])
      as ->.
    { apply (app_inv_tail (notices j)). by rewrite <- Hnew, Hn. }
    split_and!.
    + intros _. split_and!; [by rewrite Hj|by apply (Hevs ws)| |by rewrite Hs].
      intros n Hn'. members Hn'. by subst n.
    + split; [intros Hin; by members Hin|]. rewrite Hs. by intros [_ ?].
    + intros k Hin. by members Hin.
  - apply (Hcut [NoteUnavailable]) in Hn as ->.
    split_and!.
    + intros _. split_and!; [by rewrite Hj|by apply (Hevs ws)| |].
      * intros n [Hin|Hin]%elem_of_app; [by members Hin; subst n|].
        apply Hquiet in Hin. tauto.
      * by destruct (scraped T E R (world j)).
    + split; [done|]. intros _. apply elem_of_app. left. by apply elem_of_cons; left.
    + intros k [Hin|Hin]%elem_of_app; [by members Hin|].
      apply Hquiet in Hin as (_ & _ & _ & Hk & _). by destruct (Hk k).
  - cbv zeta in Hcase.
    assert (Hno : ¬ NoteUnavailable ∈ said ∧ isFeatureAvailable T ≠ false).
    { split; [|congruence]. intros Hin. apply Hquiet in Hin. tauto. }
    split; [intros ?; congruence|].
    destruct Hcase as [(e & -> & -> & Hj & Hn)|[(-> & -> & Hj & Hn)|
      (Hne & _ & rd & wd & Hd & Hj & [(e & -> & -> & Hn)|(-> & Hn & ->)])]].
    + apply (Hcut [_]) in Hn as ->. split.
      * split; [|intros [? _]; congruence].
        intros [Hin|Hin]%elem_of_app; [by members Hin|]. by destruct Hno.
      * intros k [Hin|Hin]%elem_of_app; [by members Hin|].
        apply Hquiet in Hin as (_ & _ & _ & Hk & _). by destruct (Hk k).
    + apply (Hcut [_; _]) in Hn as ->. split.
      * split; [|intros [? _]; congruence].
        intros [Hin|Hin]%elem_of_app; [by members Hin|]. by destruct Hno.
      * intros k [Hin|Hin]%elem_of_app.
        2:{ apply Hquiet in Hin as (_ & _ & _ & Hk & _). by destruct (Hk k). }
        members Hin. injection Hin as ->.
        split; [done|]. split; [exact (Hevs {| files := fs; log := log ws |} eq_refl eq_refl Hj)|]. split.
        -- intros n [Hin|Hin]%elem_of_app; [by members Hin; subst n|].
           apply Hquiet in Hin. tauto.
        -- exists ws. rewrite Hj. by split_and!.
    + apply (Hcut [_]) in Hn as ->. split.
      * split; [|intros [? _]; congruence].
        intros [Hin|Hin]%elem_of_app; [by members Hin|]. by destruct Hno.
      * intros k [Hin|Hin]%elem_of_app; [by members Hin|].
        apply Hquiet in Hin as (_ & _ & _ & Hk & _). by destruct (Hk k).
    + apply (Hcut [_; _]) in Hn as ->. split.
      * split; [|intros [? _]; congruence].
        intros [Hin|Hin]%elem_of_app; [by members Hin|]. by destruct Hno.
      * intros k [Hin|Hin]%elem_of_app; [by members Hin|].
        apply Hquiet in Hin as (_ & _ & _ & Hk & _). by destruct (Hk k).
Qed.

(** On the concrete runner: without the cache service the files of the
    project are left as they were; and with a cache under the exact key the
    run is fulfilled, says that nothing is to do and saves nothing. *)
Lemma run_without_download_witness :
  files (world (run (Example.runner Example.version_line false false)
                  Example.origin Example.lib fragment Example.fresh_job).2)
  = files Example.project_world ∧
  Example.hit_run.1 = Fulfilled tt ∧
  notices Example.hit_run.2 !! 0%nat
  = Some (NoteNothingToDo "minecraft-assets-357") ∧
  ∀ n, n ∈ notices Example.hit_run.2 → is_save n = false.
Proof.
  split.
  - destruct (run (Example.runner Example.version_line false false)
                Example.origin Example.lib fragment Example.fresh_job)
      as [r j'] eqn:Hrun.
    assert (Hlog : ∃ evs, log (world j') = evs ++ log (world Example.fresh_job)).
    { exists (log (world j')). symmetry. apply app_nil_r. }
    destruct Hlog as [evs Hlog].
    destruct (run_without_download _ _ _ _ _ _ _ (notices j') evs Hrun
                (eq_sym (app_nil_r _)) Hlog) as (Hoff & _).
    destruct Hoff as (Hfiles & _); [reflexivity|exact Hfiles].
  - assert (Hrun : run (Example.runner Example.version_line true true)
                     Example.origin Example.lib fragment Example.fresh_job
                   = (Example.hit_run.1, Example.hit_run.2))
      by (vm_compute; reflexivity).
    destruct (run_without_download _ _ _ _ _ _ _ (notices Example.hit_run.2)
                (log (world Example.hit_run.2)) Hrun
                (eq_sym (app_nil_r _)) (eq_sym (app_nil_r _)))
      as (_ & _ & _ & Hhit).
    destruct (Hhit eq_refl eq_refl (files Example.project_world))
      as (Hr & _ & _ & (earlier & Hsaid & _) & Hsave).
    + vm_compute. reflexivity.
    + split; [exact Hr|]. split; [|exact Hsave].
      rewrite Hsaid. reflexivity.
Defined.


(** The cache is saved only over a verified folder.  When [run] asks for
    a save, the restore has not answered with the key asked for, and
    [downloadAssets] has completed for the effective versions on the files
    the restore left; nothing ran after it, so that every file
    [downloadIfChanged] was called for is on disk with the expected size and
    checksum when the save is asked for (calls on one path expecting the same
    file); and the outcome of the run is the outcome of the save.  A run
    that is fulfilled has said that caching is not available, or that
    nothing is to do, or has asked for the save. *)
Theorem run_saves_verified_assets
    (T : Toolkit) (E : Env) (L : Lib) (R : Runtime)
    (j j' : Job) (r : settled unit) (new : list notice) (evs : list event) :
  run T E L R j = (r, j') →
  notices j' = new ++ notices j →
  log (world j') = evs ++ log (world j) →
  let read := EvIo (IoReadFile (getInput T "minecraft-version-file")) in
  let prefix := getInput T "cache-key" +:+ "-" in
  (∀ paths key, NoteSave paths key ∈ new →
     (∃ ws restoredCacheKey w0,
        files ws = files (world j) ∧
        (log ws = log (world j) ∨ log ws = read :: log (world j)) ∧
        restoreCache T ws ["assets"] key [prefix]
        = (Fulfilled restoredCacheKey, files w0) ∧
        restoredCacheKey ≠ Some key ∧ log w0 = log ws ∧
        downloadAssets E L (effective_versions T E R (world j)) "assets" w0
        = (Fulfilled tt, world j')) ∧
     (consistent (calls evs) = true →
      ∀ t, t ∈ calls evs → correct L (files (world j')) t) ∧
     r = settled_map (λ _, tt) (saveCache T (world j') paths key)) ∧
  (r = Fulfilled tt →
     NoteUnavailable ∈ new ∨ (∃ k, NoteNothingToDo k ∈ new) ∨
     (∃ k, NoteSave ["assets"] k ∈ new)).
Proof.
  intros Hrun Hnew Hlog read prefix.
  destruct (run_inv T E L R j r j' Hrun)
    as (ws & said & Hfs & Hws & Hsaid & Hcase).
  assert (Hq := said_quiet T said).
  assert (Hcut : ∀ tl, notices j' = tl ++ said ++ notices j → new = tl ++ said).
  { intros tl Hn. apply (app_inv_tail (notices j)).
    by rewrite <- Hnew, Hn, app_assoc. }
  assert (Hquiet : ∀ n, n ∈ said → is_save n = false).
  { destruct Hsaid as [-> | (v & -> & _)]; intros n Hn;
      [apply (Hq None) in Hn|apply (Hq v) in Hn]; tauto. }
  clear Hq.
  assert (Hsave : ∀ paths key tl,
    new = tl ++ said → Forall (λ n, is_save n = false) tl →
    ¬ NoteSave paths key ∈ new).
  { intros paths key tl -> Htl [Hin|Hin]%elem_of_app.
    - eapply Forall_forall in Htl; [|exact Hin]. done.
    - by apply Hquiet in Hin. }
  destruct Hcase as [(e & Hs & -> & Hj & Hn)|[(Hav & Hful & -> & Hj & Hn)|
    (Hav & Hful & rr & fs & Hr & Hcase)]].
  - split; [|done]. intros paths key Hin.
    destruct (Hsave paths key [] ltac:(eapply (app_inv_tail (notices j));
      rewrite <- Hnew, Hn; destruct Hsaid as [-> | (v & _ & Hv)];
      [done|congruence]) ltac:(done) Hin).
  - apply (Hcut [_]) in Hn. split.
    + intros paths key Hin.
      by destruct (Hsave paths key _ Hn ltac:(repeat constructor) Hin).
    + intros _. left. rewrite Hn. apply elem_of_app. left. by apply elem_of_cons; left.
  - cbv zeta in Hcase.
    destruct Hcase as [(e & -> & -> & Hj & Hn)|[(-> & -> & Hj & Hn)|
      (Hne & Hrk & rd & wd & Hd & Hj & [(e & -> & -> & Hn)|(-> & Hn & ->)])]].
    + apply (Hcut [_]) in Hn. split; [|done]. intros paths key Hin.
      by destruct (Hsave paths key _ Hn ltac:(repeat constructor) Hin).
    + apply (Hcut [_; _]) in Hn. split.
      * intros paths key Hin.
        by destruct (Hsave paths key _ Hn ltac:(repeat constructor) Hin).
      * intros _. right. left. eexists. rewrite Hn.
        apply elem_of_app. left. by apply elem_of_cons; left.
    + apply (Hcut [_]) in Hn. split; [|done]. intros paths key Hin.
      by destruct (Hsave paths key _ Hn ltac:(repeat constructor) Hin).
    + apply (Hcut [_; _]) in Hn. split.
      2:{ intros _. right. right. eexists. rewrite Hn.
          apply elem_of_app. left. by apply elem_of_cons; left. }
      intros paths key Hin. rewrite Hn in Hin.
      apply elem_of_app in Hin as [Hin|Hin]; [|by apply Hquiet in Hin].
      members Hin. injection Hin as -> ->.
      destruct (downloadAssets_surfaces E L _ _ _ _ _ Hd) as (newD & HlogD & _).
      simpl in HlogD. rewrite Hj. split_and!.
      * destruct rr as [rk|]; [|done].
        exists ws, rk, {| files := fs; log := log ws |}.
        split_and!; [done|exact Hws|exact Hr|congruence|done|exact Hd].
      * intros Hcons t Ht.
        assert (Hcalls : calls evs = calls newD).
        { rewrite Hj, HlogD in Hlog. destruct Hws as [Hws|Hws]; rewrite Hws in Hlog.
          - apply app_inv_tail in Hlog. by subst.
          - assert (evs = newD ++ [read]) as ->.
            { apply (app_inv_tail (log (world j))).
              by rewrite <- Hlog, <- app_assoc. }
            rewrite calls_app. simpl. by rewrite app_nil_r. }
        rewrite Hcalls in Hcons, Ht.
        by apply (downloadAssets_valid E L _ _ _ _ newD Hd HlogD Hcons).
      * done.
Qed.

(** On the concrete runner, with no cache to restore: when the save is asked
    for, the document of the asset index and the object 2 are on disk as
    expected, and the run is fulfilled as the save is. *)
Lemma run_saves_verified_assets_witness :
  correct Example.lib (files (world Example.saving_run.2))
    (indexTarget Example.lib "assets" Example.index9) ∧
  correct Example.lib (files (world Example.saving_run.2))
    (objectTarget Example.lib "assets" {| hash := "2"; size := 1 |}) ∧
  Example.saving_run.1 = Fulfilled tt.
Proof.
  assert (Hrun : run (Example.runner Example.version_line true false)
                   Example.origin Example.lib fragment Example.fresh_job
                 = (Example.saving_run.1, Example.saving_run.2))
    by (vm_compute; reflexivity).
  destruct (run_saves_verified_assets _ _ _ _ _ _ _
              (notices Example.saving_run.2)
              (log (world Example.saving_run.2)) Hrun
              (eq_sym (app_nil_r _)) (eq_sym (app_nil_r _))) as (Hsaved & _).
  destruct (Hsaved ["assets"] "minecraft-assets-357")
    as (_ & Hcorrect & Hr).
  { apply (list_elem_of_lookup_2 _ 0%nat). reflexivity. }
  assert (Hcons : consistent (calls (log (world Example.saving_run.2))) = true)
    by (vm_compute; reflexivity).
  split_and!.
  - apply (Hcorrect Hcons). apply (list_elem_of_lookup_2 _ 2%nat).
    vm_compute. reflexivity.
  - apply (Hcorrect Hcons). apply (list_elem_of_lookup_2 _ 0%nat).
    vm_compute. reflexivity.
  - exact Hr.
Defined.


(** A run never marks the job failed itself, and what it returns after a
    save is the outcome of the save. *)
Lemma run_notices (T : Toolkit) (E : Env) (L : Lib) (R : Runtime)
    (j j' : Job) (r : settled unit) :
  run T E L R j = (r, j') →
  ∃ new, notices j' = new ++ notices j ∧
    (∀ e, NoteFailed e ∉ new) ∧
    (∀ paths k, NoteSave paths k ∈ new →
       r = settled_map (λ _, tt) (saveCache T (world j') paths k)) ∧
    (∀ e, scraped T E R (world j) = Rejected e →
       r = Rejected e ∧
       new = [NoteConfigured (getMultilineInput T "minecraft-versions")]).
Proof.
  intros Hrun.
  destruct (run_inv T E L R j r j' Hrun)
    as (ws & said & Hfs & Hws & Hsaid & Hcase).
  assert (Hq := said_quiet T said).
  assert (Hquiet : ∀ n, n ∈ said → is_save n = false ∧ ∀ e, n ≠ NoteFailed e).
  { destruct Hsaid as [-> | (v & -> & _)]; intros n Hn;
      [apply (Hq None) in Hn|apply (Hq v) in Hn]; tauto. }
  clear Hq.
  assert (Hgen : ∀ tl,
    notices j' = tl ++ said ++ notices j →
    is_fulfilled (scraped T E R (world j)) = true →
    Forall (λ n, (∀ e, n ≠ NoteFailed e) ∧
                 ∀ paths k, n = NoteSave paths k →
                   r = settled_map (λ _, tt) (saveCache T (world j') paths k)) tl →
    ∃ new, notices j' = new ++ notices j ∧
      (∀ e, NoteFailed e ∉ new) ∧
      (∀ paths k, NoteSave paths k ∈ new →
         r = settled_map (λ _, tt) (saveCache T (world j') paths k)) ∧
      (∀ e, scraped T E R (world j) = Rejected e →
         r = Rejected e ∧
         new = [NoteConfigured (getMultilineInput T "minecraft-versions")])).
  { intros tl Hn Hful Htl. exists (tl ++ said).
    split; [by rewrite <- app_assoc|]. split_and!.
    - intros e [Hin|Hin]%elem_of_app.
      + eapply Forall_forall in Htl as [Hf _]; [|exact Hin]. by destruct (Hf e).
      + apply Hquiet in Hin as [_ Hf]. by destruct (Hf e).
    - intros paths k [Hin|Hin]%elem_of_app.
      + eapply Forall_forall in Htl as [_ Hs]; [|exact Hin]. by apply Hs.
      + by apply Hquiet in Hin as [? _].
    - intros e He. by rewrite He in Hful. }
  destruct Hcase as [(e & Hs & -> & Hj & Hn)|[(Hav & Hful & -> & Hj & Hn)|
    (Hav & Hful & rr & fs & Hr & Hcase)]].
  - exists [NoteConfigured (getMultilineInput T "minecraft-versions")].
    split_and!; [done| | |].
    + intros e' Hin. by members Hin.
    + intros paths k Hin. by members Hin.
    + intros e' He'. rewrite Hs in He'. by injection He' as ->.
  - refine (Hgen [_] Hn Hful _). repeat constructor; done.
  - cbv zeta in Hcase.
    destruct Hcase as [(e & -> & -> & Hj & Hn)|[(-> & -> & Hj & Hn)|
      (Hne & _ & rd & wd & Hd & Hj & [(e & -> & -> & Hn)|(-> & Hn & ->)])]].
    + refine (Hgen [_] Hn Hful _). repeat constructor; done.
    + refine (Hgen [_; _] Hn Hful _). repeat constructor; done.
    + refine (Hgen [_] Hn Hful _). repeat constructor; done.
    + refine (Hgen [_; _] Hn Hful _). rewrite Hj.
      repeat constructor; try done. by intros paths k [= <- <-].
Qed.

(** [index.mjs].  The job is marked failed exactly when [run] is rejected,
    with the error of the rejection and as the last thing said.  A failed
    job has saved no cache, unless the failure is that of the save itself.
    A scrape that fails marks the job failed before the cache service is
    looked at, whether it is available or not. *)
Theorem main_reports_failure (T : Toolkit) (E : Env) (L : Lib) (R : Runtime)
    (j : Job) (new : list notice) :
  notices (main T E L R j) = new ++ notices j →
  world (main T E L R j) = world (run T E L R j).2 ∧
  (∀ e, NoteFailed e ∈ new ↔ (run T E L R j).1 = Rejected e) ∧
  (∀ e, NoteFailed e ∈ new →
     head new = Some (NoteFailed e) ∧
     ∀ paths k, NoteSave paths k ∈ new →
       saveCache T (world (main T E L R j)) paths k = Rejected e) ∧
  (∀ e, scraped T E R (world j) = Rejected e →
     new = [NoteFailed e;
            NoteConfigured (getMultilineInput T "minecraft-versions")]).
Proof.
  unfold main. destruct (run T E L R j) as [r j1] eqn:Hrun. intros Hnew.
  destruct (run_notices T E L R j j1 r Hrun)
    as (new1 & Hn1 & Hnofail & Hsaved & Hscrape).
  destruct r as [[]|e]; simpl in *.
  - assert (new = new1) as ->.
    { apply (app_inv_tail (notices j)). by rewrite <- Hnew, Hn1. }
    split_and!; [done| | |].
    + intros e. split; [|done]. intros Hin. by apply Hnofail in Hin.
    + intros e Hin. by apply Hnofail in Hin.
    + intros e He. by apply Hscrape in He as [? _].
  - assert (new = NoteFailed e :: new1) as ->.
    { apply (app_inv_tail (notices j)). by rewrite <- Hnew, Hn1. }
    split_and!; [done| | |].
    + intros e'. split.
      * intros [[= ->]|Hin]%elem_of_cons; [done|]. by apply Hnofail in Hin.
      * intros [= ->]. by apply elem_of_cons; left.
    + intros e' [[= ->]|Hin]%elem_of_cons; [|by apply Hnofail in Hin].
      split; [done|]. intros paths k [Hin|Hin]%elem_of_cons; [done|].
      apply Hsaved in Hin.
      destruct (saveCache T (world j1) paths k); simpl in Hin; congruence.
    + intros e' He'. apply Hscrape in He' as [[= ->] ->]. done.
Qed.

(** On the concrete project with an expression that has no slash, and
    without the cache service: the job is marked failed with the format
    error, and nothing else is said. *)
Lemma main_reports_failure_witness :
  notices (main (Example.runner "abc" false false) Example.origin Example.lib
             fragment Example.fresh_job)
  = [NoteFailed shape_error; NoteConfigured ["v7"]].
Proof.
  destruct (main_reports_failure (Example.runner "abc" false false)
              Example.origin Example.lib fragment Example.fresh_job
              (notices (main (Example.runner "abc" false false) Example.origin
                          Example.lib fragment Example.fresh_job))
              (eq_sym (app_nil_r _))) as (_ & _ & _ & Hscrape).
  apply (Hscrape shape_error). vm_compute. reflexivity.
Defined.


(** ** The digest of the versions *)

Section Join.

Lemma line_split (x y t t' : string) :
  "010"%char ∉ list_ascii_of_string x →
  "010"%char ∉ list_ascii_of_string y →
  line_tail t → line_tail t' →
  x +:+ t = y +:+ t' → x = y ∧ t = t'.
Proof.
  revert y. induction x as [|c x IH]; intros [|d y] Hx Hy Ht Ht';
    unfold String.append; fold String.append.
  - done.
  - intros ->. destruct Ht as [?|[? ?]]; [done|]. simplify_eq.
    destruct Hy. simpl. by apply elem_of_cons; left.
  - intros <-. destruct Ht' as [?|[? ?]]; [done|]. simplify_eq.
    destruct Hx. simpl. by apply elem_of_cons; left.
  - intros [= -> Heq]. simpl in Hx, Hy.
    apply not_elem_of_cons in Hx as [_ Hx]. apply not_elem_of_cons in Hy as [_ Hy].
    destruct (IH y Hx Hy Ht Ht' Heq) as [-> ->]. done.
Qed.

Lemma concat_cons (x : string) (xs : list string) :
  String.concat line_feed (x :: xs)
  = x +:+ (if xs is [] then "" else line_feed +:+ String.concat line_feed xs).
Proof.
  destruct xs; simpl; [|done].
  induction x as [|c x IH]; unfold String.append; fold String.append;
    [done|by rewrite <- IH].
Qed.

Lemma concat_tail (xs : list string) :
  line_tail (if xs is [] then "" else line_feed +:+ String.concat line_feed xs).
Proof. destruct xs; [by left|right]. by eexists. Qed.

Lemma join_injective (vs : list string) : ∀ vs',
  Forall one_line vs → Forall one_line vs' →
  String.concat line_feed vs = String.concat line_feed vs' → vs = vs'.
Proof.
  induction vs as [|x xs IH]; intros [|y ys] Hvs Hvs'.
  - done.
  - rewrite concat_cons. apply Forall_cons in Hvs' as [[Hy _] _].
    destruct y; [done|]. simpl. discriminate.
  - rewrite concat_cons. apply Forall_cons in Hvs as [[Hx _] _].
    destruct x; [done|]. simpl. discriminate.
  - rewrite !concat_cons.
    apply Forall_cons in Hvs as [[_ Hx] Hxs].
    apply Forall_cons in Hvs' as [[_ Hy] Hys].
    intros [-> Ht]%line_split; [|done|done|apply concat_tail..].
    f_equal. destruct xs as [|x' xs], ys as [|y' ys]; [done|done|done|].
    apply IH; [done..|]. simpl in Ht. by injection Ht.
Qed.

End Join.

(** Two lists of versions, each version a non-empty line, that get the same
    digest from [hashMinecraftVersions], and so the same cache key, are the
    same versions in the same order, or else MD5 collides on the two texts
    that were hashed, the versions of each list joined by line feeds, which
    then differ.  With a digest that does not collide on these two texts,
    equal keys mean equal lists. *)
Theorem cache_key_separates_versions (L : Lib) (vs vs' : list string) :
  Forall one_line vs → Forall one_line vs' →
  hashMinecraftVersions L vs = hashMinecraftVersions L vs' →
  let text := list_byte_of_string (String.concat line_feed vs) in
  let text' := list_byte_of_string (String.concat line_feed vs') in
  (vs = vs' ∨
   (text ≠ text' ∧ digest L "md5" text = digest L "md5" text')) ∧
  ((digest L "md5" text = digest L "md5" text' → text = text') → vs = vs').
Proof.
  intros Hvs Hvs' Hkey text text'.
  assert (Hinj : text = text' → vs = vs').
  { intros Heq. apply join_injective; [done..|].
    apply (f_equal string_of_list_byte) in Heq. unfold text, text' in Heq.
    by rewrite !string_of_list_byte_of_string in Heq. }
  split.
  - destruct (decide (vs = vs')) as [|Hne]; [by left|].
    right. split; [|exact Hkey]. intros Heq. by apply Hne, Hinj.
  - intros Hfree. by apply Hinj, Hfree.
Qed.

(** On the stand-in for the hash, which adds the bytes up, the versions in
    another order get the same digest: it collides on the two joined
    texts. *)
Lemma cache_key_separates_versions_witness :
  list_byte_of_string (String.concat line_feed ["v7"; "v8"])
  ≠ list_byte_of_string (String.concat line_feed ["v8"; "v7"]) ∧
  Example.toy_digest "md5"
    (list_byte_of_string (String.concat line_feed ["v7"; "v8"]))
  = Example.toy_digest "md5"
      (list_byte_of_string (String.concat line_feed ["v8"; "v7"])).
Proof.
  assert (Hlines : ∀ v, v = "v7" ∨ v = "v8" → one_line v).
  { intros v [-> | ->]; (split; [done|]); intros Hin; simpl in Hin;
      members Hin. }
  destruct (cache_key_separates_versions Example.lib ["v7"; "v8"] ["v8"; "v7"])
    as [[Hsame|Hcollision] _]; [| | |discriminate Hsame|exact Hcollision].
  - repeat constructor; apply Hlines; tauto.
  - repeat constructor; apply Hlines; tauto.
  - reflexivity.
Defined.
